(** * Design-system token tooling: validator, sync dry run and sync apply

    A shallow embedding of three scripts of the repository

      - [scripts/validate-tokens.js]     (module [Validator])
      - [scripts/figma-sync-dry-run.js]  (module [DryRun])
      - [scripts/figma-sync-apply.js]    (modules [Apply], [Run], [Theme]
                                          and [Args])

    together with the properties the specification states about them.

    Conventions of the embedding.
      - A JS string is a [string]: a sequence of 8-bit code units read as
        Latin-1, which covers everything the regular expressions of the
        scripts distinguish.
      - A JS [Map] is an association list with unique keys kept in insertion
        order ([jsmap]); a JS [Set] of names is a duplicate-free list in
        insertion order.
      - The plain object [tokens] of the user registry is a [gmap].
      - Each regular expression is a hand-written matcher that follows the
        backtracking order of the JS engine.
      - Console output is not modelled; the message and detail texts of an
        issue are represented by the fields they are rendered from. *)

From Stdlib Require Import ZArith Lia Ascii.
From stdpp Require Import base option list strings gmap.


(* ========================================================================= *)
(** ** JS string primitives *)
(* ========================================================================= *)

Module JS.

Definition code (c : ascii) : N := N_of_ascii c.

Definition inRange (lo hi : N) (c : ascii) : bool :=
  (lo <=? code c)%N && (code c <=? hi)%N.

(** [\s] of a regular expression and the characters [trim] strips: TAB, LF,
    VT, FF, CR, space and NBSP (the only ones below 256). *)
Definition isWhiteSpace (c : ascii) : bool :=
  inRange 9 13 c || (code c =? 32)%N || (code c =? 160)%N.

(** Characters that [.] does not match. *)
Definition isLineTerminator (c : ascii) : bool :=
  (code c =? 10)%N || (code c =? 13)%N.

(** [\w] : [A-Za-z0-9_]. *)
Definition isWordChar (c : ascii) : bool :=
  inRange 65 90 c || inRange 97 122 c || inRange 48 57 c || (code c =? 95)%N.

(** [[\w-]]. *)
Definition isNameChar (c : ascii) : bool :=
  isWordChar c || (code c =? 45)%N.

Definition ch (n : N) : ascii := ascii_of_N n.

Fixpoint trimStart (s : string) : string :=
  match s with
  | String c r => if isWhiteSpace c then trimStart r else s
  | EmptyString => EmptyString
  end.

(** [trimEnd] keeps a character when it is not white space or when something
    is kept after it. *)
Fixpoint trimEnd (s : string) : string :=
  match s with
  | String c r =>
      match trimEnd r with
      | EmptyString => if isWhiteSpace c then EmptyString else String c EmptyString
      | r' => String c r'
      end
  | EmptyString => EmptyString
  end.

Definition trim (s : string) : string := trimEnd (trimStart s).


(** [s.split(sep)] for a one-character separator: never returns the empty
    list. *)
Fixpoint splitChar (sep : ascii) (s : string) : list string :=
  match s with
  | EmptyString => [EmptyString]
  | String c r =>
      if Ascii.eqb c sep then EmptyString :: splitChar sep r
      else match splitChar sep r with
           | x :: xs => String c x :: xs
           | [] => [String c EmptyString]
           end
  end.

(** [(s.match(/c/g) || []).length]. *)
Fixpoint countChar (x : ascii) (s : string) : nat :=
  match s with
  | EmptyString => 0
  | String c r => (if Ascii.eqb c x then 1 else 0) + countChar x r
  end.

(** [s.replace(/x/g, y)] for single characters. *)
Fixpoint replaceChar (x y : ascii) (s : string) : string :=
  match s with
  | EmptyString => EmptyString
  | String c r => String (if Ascii.eqb c x then y else c) (replaceChar x y r)
  end.

(** [toLowerCase] on Latin-1: A-Z and the accented capitals 192-222 except the
    multiplication sign 215. *)
Definition lowerChar (c : ascii) : ascii :=
  if inRange 65 90 c then ch (code c + 32)
  else if inRange 192 222 c && negb (code c =? 215)%N then ch (code c + 32)
  else c.

Fixpoint toLowerCase (s : string) : string :=
  match s with
  | EmptyString => EmptyString
  | String c r => String (lowerChar c) (toLowerCase r)
  end.

(** Greedy [\s*]: the rest after the longest run of white space. *)
Definition skipWs (s : string) : string := trimStart s.

(** Greedy [[\w-]*]: the longest run of name characters and the rest. *)
Fixpoint spanName (s : string) : string * string :=
  match s with
  | String c r =>
      if isNameChar c then let '(n, rest) := spanName r in (String c n, rest)
      else (EmptyString, s)
  | EmptyString => (EmptyString, EmptyString)
  end.

(** [--[\w-]+] anchored at the start of [s]: the matched name (with its two
    dashes) and the rest.  Giving back name characters never helps what follows
    in the expressions below, so the greedy match is the only one. *)
Definition matchCustomProp (s : string) : option (string * string) :=
  match s with
  | String "-" (String "-" r) =>
      match spanName r with
      | (EmptyString, _) => None
      | (n, rest) => Some ("--" +:+ n, rest)
      end
  | _ => None
  end.

(** The rest of [s] after the literal prefix [p]. *)
Fixpoint stripPrefix (p s : string) : option string :=
  match p, s with
  | EmptyString, _ => Some s
  | String a p', String b s' => if Ascii.eqb a b then stripPrefix p' s' else None
  | String _ _, EmptyString => None
  end.

Definition startsWith (s p : string) : bool :=
  match stripPrefix p s with Some _ => true | None => false end.

(** [var\(\s*(--[\w-]+)] anchored at the start of [s]: the captured name and
    the number of characters the match consumed. *)
Definition matchVarAt (s : string) : option (string * nat) :=
  match stripPrefix "var(" s with
  | Some r =>
      match matchCustomProp (skipWs r) with
      | Some (n, rest) => Some (n, String.length s - String.length rest)
      | None => None
      end
  | None => None
  end.

(** The [exec] loop of a global regular expression [/var\(\s*(--[\w-]+)/g]:
    every match from left to right, each search resuming where the previous
    match ended.  [skip] counts the characters of the last match that are still
    to be passed over. *)
Fixpoint varRefsFrom (skip : nat) (s : string) : list string :=
  match s with
  | EmptyString => []
  | String _ r =>
      match skip with
      | S k => varRefsFrom k r
      | O =>
          match matchVarAt s with
          | Some (n, len) => n :: varRefsFrom (len - 1) r
          | None => varRefsFrom 0 r
          end
      end
  end.

(** [\s*;] anchored at the start of [s]. *)
Definition matchEndDecl (s : string) : bool :=
  match skipWs s with
  | String ";" _ => true
  | _ => false
  end.

(** Lazy [(.+?)\s*;]: the shortest non-empty run of [.] characters that is
    followed by [\s*;]. *)
Fixpoint matchLazyValue (s : string) : option string :=
  match s with
  | EmptyString => None
  | String c r =>
      if isLineTerminator c then None
      else if matchEndDecl r then Some (String c EmptyString)
      else option_map (String c) (matchLazyValue r)
  end.

(** [\s*(.+?)\s*;] with the greedy [\s*] backtracking: white space is first
    given to [\s*]; when the rest then fails it is given to the value. *)
Fixpoint matchAfterColon (s : string) : option string :=
  match s with
  | String c r =>
      if isWhiteSpace c then
        match matchAfterColon r with
        | Some v => Some v
        | None => matchLazyValue s
        end
      else matchLazyValue s
  | EmptyString => None
  end.

(** [/^(--[\w-]+)\s*:\s*(.+?)\s*;/] : the name and the value of a custom
    property declaration. *)
Definition matchDeclaration (s : string) : option (string * string) :=
  match matchCustomProp s with
  | Some (n, rest) =>
      match skipWs rest with
      | String ":" r =>
          match matchAfterColon r with
          | Some v => Some (n, v)
          | None => None
          end
      | _ => None
      end
  | None => None
  end.

(** [/^:root\s*\{/.test(s)]. *)
Definition matchRootOpen (s : string) : bool :=
  match stripPrefix ":root" s with
  | Some r => match skipWs r with String "{" _ => true | _ => false end
  | None => false
  end.

(** [/^@layer\s+([\w-]+)\s*\{/] : the layer name. *)
Definition matchLayerOpen (s : string) : option string :=
  match stripPrefix "@layer" s with
  | Some (String c r) =>
      if isWhiteSpace c then
        match spanName (skipWs r) with
        | (EmptyString, _) => None
        | (n, rest) =>
            match skipWs rest with String "{" _ => Some n | _ => None end
        end
      else None
  | _ => None
  end.

(** [/^\{(.+)\}$/] : the text between the braces. The greedy [.+] has to reach
    the last character, which must be the closing brace. *)
Fixpoint matchBraceBody (s : string) : option string :=
  match s with
  | EmptyString => None
  | String c r =>
      if isLineTerminator c then None
      else match r with
           | String "}" EmptyString => Some (String c EmptyString)
           | _ => option_map (String c) (matchBraceBody r)
           end
  end.

Definition matchBraced (s : string) : option string :=
  match s with
  | String "{" r => matchBraceBody r
  | _ => None
  end.

End JS.

(* ========================================================================= *)
(** ** JS [Map] and [Set] in insertion order *)
(* ========================================================================= *)

Module JSMap.
Section Defs.
Context {V : Type}.

Definition t := list (string * V).

Fixpoint get (m : t) (k : string) : option V :=
  match m with
  | [] => None
  | (k', v) :: r => if String.eqb k' k then Some v else get r k
  end.

Definition has (m : t) (k : string) : bool :=
  match get m k with Some _ => true | None => false end.

(** [m.set(k, v)]: an existing key keeps its position. *)
Fixpoint set (m : t) (k : string) (v : V) : t :=
  match m with
  | [] => [(k, v)]
  | (k', v') :: r =>
      if String.eqb k' k then (k', v) :: r else (k', v') :: set r k v
  end.

Definition keys (m : t) : list string := map fst m.
Definition values (m : t) : list V := map snd m.
Definition size (m : t) : nat := length m.
End Defs.
Arguments t : clear implicits.
End JSMap.

Module JSSet.
Definition t := list string.

Definition has (s : t) (x : string) : bool := existsb (String.eqb x) s.

Definition add (s : t) (x : string) : t := if has s x then s else s ++ [x].

Definition ofList (l : list string) : t := fold_left add l [].

Definition delete (s : t) (x : string) : t :=
  filter (fun y => negb (String.eqb x y)) s.
End JSSet.

(* ========================================================================= *)
(** ** Node colours *)
(* ========================================================================= *)

(** The constants [WHITE = 0], [GRAY = 1] and [BLACK = 2] that each
    [findCycles] declares: unvisited, on the current path, fully explored. *)
Inductive colour := WHITE | GRAY | BLACK.

(* ========================================================================= *)
(** ** scripts/validate-tokens.js *)
(* ========================================================================= *)

Module Validator.

Inductive tier := primitive | semantic | component | base | unknown.

Definition tier_eqb (a b : tier) : bool :=
  match a, b with
  | primitive, primitive | semantic, semantic | component, component
  | base, base | unknown, unknown => true
  | _, _ => false
  end.

(** Allowed dependency tiers per token tier. *)
Definition ALLOWED_DEPS (t : tier) : list tier :=
  match t with
  | primitive => []
  | semantic => [primitive]
  | component => [semantic; base]
  | base => [semantic]
  | unknown => [primitive; semantic; component; base; unknown]
  end.

Definition includes (l : list tier) (t : tier) : bool := existsb (tier_eqb t) l.

Definition getTier (name : string) : tier :=
  if JS.startsWith name "--primitive-" then primitive
  else if JS.startsWith name "--semantic-" then semantic
  else if JS.startsWith name "--component-" then component
  else if JS.startsWith name "--base-" then base
  else unknown.

Definition extractVarRefs (value : string) : list string := JS.varRefsFrom 0 value.

(** *** The stylesheet parser *)

Record tokenDef := {
  value : string;
  refs : list string;
  line : nat;
  layer : option string;
}.

Record layerEntry := { layerName : string; layerDepth : Z }.

(** [context] is the trimmed line, cut to 97 characters when it is longer than
    100; [contextCut] tells that the ellipsis was appended. *)
Record primUsage := {
  puToken : string;
  puLine : nat;
  context : string;
  contextCut : bool;
}.

(** The variables of [parseCSS].  [layerStack] has its top first. *)
Record parseState := {
  tokenDefs : JSMap.t tokenDef;
  ruleUsages : JSSet.t;
  primInRules : list primUsage;
  braceDepth : Z;
  inRoot : bool;
  rootDepth : Z;
  layerStack : list layerEntry;
}.

Definition parseInit : parseState :=
  {| tokenDefs := []; ruleUsages := []; primInRules := [];
     braceDepth := 0; inRoot := false; rootDepth := (-1);
     layerStack := [] |}.

(** Step e): pop the layers whose depth is above the current one. *)
Fixpoint popExpired (depth : Z) (stack : list layerEntry) : list layerEntry :=
  match stack with
  | e :: r => if (depth <? layerDepth e)%Z then popExpired depth r else stack
  | [] => []
  end.

(** The loop over the [var()] usages of a line outside [:root]. *)
Fixpoint recordUsages (lineNum : nat) (trimmed : string) (names : list string)
    (usages : JSSet.t) (prims : list primUsage) : JSSet.t * list primUsage :=
  match names with
  | [] => (usages, prims)
  | tokenName :: rest =>
      let usages' := JSSet.add usages tokenName in
      let prims' :=
        if JS.startsWith tokenName "--primitive-" then
          prims ++ [{| puToken := tokenName; puLine := lineNum;
                       context := if 100 <? String.length trimmed
                                  then String.substring 0 97 trimmed else trimmed;
                       contextCut := 100 <? String.length trimmed |}]
        else prims in
      recordUsages lineNum trimmed rest usages' prims'
  end.

(** One iteration of the loop of [parseCSS], for the line of index [i]. *)
Definition parseLine (st : parseState) (i : nat) (line : string) : parseState :=
  let lineNum := i + 1 in
  let trimmed := JS.trim line in
  if String.eqb trimmed "" || JS.startsWith trimmed "/*" || JS.startsWith trimmed "//"
  then st
  else
    let opens := JS.countChar "{" line in
    let closes := JS.countChar "}" line in
    let layerMatch := JS.matchLayerOpen trimmed in
    let isRootOpen := negb (inRoot st) && JS.matchRootOpen trimmed in
    let depth := (braceDepth st + (Z.of_nat opens - Z.of_nat closes))%Z in
    let stack1 :=
      match layerMatch with
      | Some n => {| layerName := n; layerDepth := depth |} :: layerStack st
      | None => layerStack st
      end in
    let stack2 := popExpired depth stack1 in
    let '(inRoot1, rootDepth1) :=
      if isRootOpen then (true, depth) else (inRoot st, rootDepth st) in
    let '(inRoot2, rootDepth2) :=
      if inRoot1 && (depth <? rootDepth1)%Z then (false, (-1)%Z)
      else (inRoot1, rootDepth1) in
    let currentLayer :=
      match stack2 with e :: _ => Some (layerName e) | [] => None end in
    let st' :=
      {| tokenDefs := tokenDefs st; ruleUsages := ruleUsages st;
         primInRules := primInRules st;
         braceDepth := depth; inRoot := inRoot2; rootDepth := rootDepth2;
         layerStack := stack2 |} in
    if inRoot2 then
      match JS.matchDeclaration trimmed with
      | Some (name, val) =>
          if negb (JSMap.has (tokenDefs st) name) then
            {| tokenDefs :=
                 JSMap.set (tokenDefs st) name
                   {| value := val; refs := extractVarRefs val;
                      line := lineNum; layer := currentLayer |};
               ruleUsages := ruleUsages st; primInRules := primInRules st;
               braceDepth := depth; inRoot := inRoot2; rootDepth := rootDepth2;
               layerStack := stack2 |}
          else st'
      | None => st'
      end
    else if (0 <? depth)%Z then
      let '(usages, prims) :=
        recordUsages lineNum trimmed (extractVarRefs trimmed)
          (ruleUsages st) (primInRules st) in
      {| tokenDefs := tokenDefs st; ruleUsages := usages; primInRules := prims;
         braceDepth := depth; inRoot := inRoot2; rootDepth := rootDepth2;
         layerStack := stack2 |}
    else st'.

Fixpoint parseLines (st : parseState) (i : nat) (lines : list string) : parseState :=
  match lines with
  | [] => st
  | l :: rest => parseLines (parseLine st i l) (S i) rest
  end.

Definition parseCSS (css : string) : parseState :=
  parseLines parseInit 0 (JS.splitChar "010" css).

(** *** Graph builder *)

Definition buildGraph (defs : JSMap.t tokenDef) : JSMap.t (list string) :=
  fold_left (fun g '(name, d) => JSMap.set g name (refs d)) defs [].

(** *** Rule 1: missing references *)

Record missingRef := {
  consumer : string;      (* "(css rule)" for a usage in a rule *)
  missing : string;
  mrLine : option nat;
}.

Definition findMissingRefs (defs : JSMap.t tokenDef) (usages : JSSet.t)
    : list missingRef :=
  let defined := JSSet.ofList (JSMap.keys defs) in
  flat_map (fun '(name, d) =>
      flat_map (fun dep =>
          if negb (JSSet.has defined dep)
          then [{| consumer := name; missing := dep; mrLine := Some (line d) |}]
          else []) (refs d)) defs
  ++ flat_map (fun used =>
      if negb (JSSet.has defined used)
      then [{| consumer := "(css rule)"; missing := used; mrLine := None |}]
      else []) usages.

(** *** Rule 2: circular dependencies *)

Record frame := { node : string; childIdx : nat }.

(** [path.indexOf(dep)] followed by [path.slice(startIdx)]: the part of the
    path from the first occurrence of [dep]; [indexOf] gives -1 when [dep] is
    absent and [slice(-1)] is then the last element. *)
Fixpoint sliceFromFirst (dep : string) (path : list string) : option (list string) :=
  match path with
  | [] => None
  | x :: r => if String.eqb x dep then Some path else sliceFromFirst dep r
  end.

Definition sliceFrom (dep : string) (path : list string) : list string :=
  match sliceFromFirst dep path with
  | Some p => p
  | None => match last path with Some x => [x] | None => [] end
  end.

(** The variables of [findCycles] and of a running [dfs].  [callStack] has its
    top first; [path] is in array order. *)
Record dfsState := {
  color : JSMap.t colour;
  cycles : list (list string);
  callStack : list frame;
  path : list string;
}.

(** The inner [while] of [dfs] over the dependencies not yet examined: the
    next value of [childIdx], the cycles, and the white dependency the loop
    stopped at, if any. *)
Fixpoint scanDeps (col : JSMap.t colour) (pth : list string)
    (rest : list string) (idx : nat) (cyc : list (list string))
    : nat * list (list string) * option string :=
  match rest with
  | [] => (idx, cyc, None)
  | dep :: rest' =>
      match JSMap.get col dep with
      | None => scanDeps col pth rest' (S idx) cyc
      | Some GRAY =>
          scanDeps col pth rest' (S idx) (cyc ++ [sliceFrom dep pth ++ [dep]])
      | Some WHITE => (S idx, cyc, Some dep)
      | Some BLACK => scanDeps col pth rest' (S idx) cyc
      end
  end.

(** One iteration of the outer [while] of [dfs] on the top frame [fr]. *)
Definition dfsStep (graph : JSMap.t (list string)) (st : dfsState)
    (fr : frame) (below : list frame) : dfsState :=
  let deps := default [] (JSMap.get graph (node fr)) in
  let '(idx, cyc, advanced) :=
    scanDeps (color st) (path st) (drop (childIdx fr) deps) (childIdx fr) (cycles st) in
  match advanced with
  | Some dep =>
      {| color := JSMap.set (color st) dep GRAY;
         cycles := cyc;
         callStack := {| node := dep; childIdx := 0 |}
                        :: {| node := node fr; childIdx := idx |} :: below;
         path := path st ++ [dep] |}
  | None =>
      {| color := JSMap.set (color st) (node fr) BLACK;
         cycles := cyc;
         callStack := below;
         path := removelast (path st) |}
  end.

(** The outer [while] of [dfs]; [None] when the fuel runs out before the call
    stack is empty. *)
Fixpoint dfsLoop (fuel : nat) (graph : JSMap.t (list string)) (st : dfsState)
    : option dfsState :=
  match callStack st with
  | [] => Some st
  | fr :: below =>
      match fuel with
      | O => None
      | S f => dfsLoop f graph (dfsStep graph st fr below)
      end
  end.

(** Every iteration either turns a white node gray or pops a frame, so twice
    the number of coloured nodes bounds the number of iterations. *)
Definition dfsFuel (col : JSMap.t colour) : nat := 2 * length col + 1.

Definition dfs (graph : JSMap.t (list string)) (col : JSMap.t colour)
    (cyc : list (list string)) (start : string) : option dfsState :=
  dfsLoop (dfsFuel col) graph
    {| color := JSMap.set col start GRAY; cycles := cyc;
       callStack := [{| node := start; childIdx := 0 |}];
       path := [start] |}.

(** The final loop of [findCycles] over the keys of the graph. *)
Fixpoint visitAll (graph : JSMap.t (list string)) (names : list string)
    (col : JSMap.t colour) (cyc : list (list string))
    : option (list (list string)) :=
  match names with
  | [] => Some cyc
  | name :: rest =>
      match JSMap.get col name with
      | Some WHITE =>
          match dfs graph col cyc name with
          | Some st => visitAll graph rest (color st) (cycles st)
          | None => None
          end
      | _ => visitAll graph rest col cyc
      end
  end.

Definition findCycles_run (graph : JSMap.t (list string))
    : option (list (list string)) :=
  let col := fold_left (fun c name => JSMap.set c name WHITE) (JSMap.keys graph) [] in
  visitAll graph (JSMap.keys graph) col [].

(** [findCycles]: the search always ends within its fuel
    ([validator_findCycles_run_total] below), so the default is never used. *)
Definition findCycles (graph : JSMap.t (list string)) : list (list string) :=
  default [] (findCycles_run graph).

(** *** Rule 3: tier violations *)

Record tierViolation := {
  token : string;
  dep : string;
  tokenTier : tier;
  depTier : tier;
  tvLine : nat;
}.

Definition violationsOf (name : string) (d : tokenDef) : list tierViolation :=
  let tokenTier := getTier name in
  if tier_eqb tokenTier unknown then []
  else
    let allowed := ALLOWED_DEPS tokenTier in
    if tier_eqb tokenTier primitive then
      map (fun dep => {| token := name; dep := dep; tokenTier := tokenTier;
                         depTier := getTier dep; tvLine := line d |}) (refs d)
    else
      flat_map (fun dep =>
          let depTier := getTier dep in
          if negb (includes allowed depTier)
          then [{| token := name; dep := dep; tokenTier := tokenTier;
                   depTier := depTier; tvLine := line d |}]
          else []) (refs d).

Definition findTierViolations (defs : JSMap.t tokenDef) : list tierViolation :=
  flat_map (fun '(name, d) => violationsOf name d) defs.

(** *** Rule 4: orphan tokens *)

Definition findOrphans (defs : JSMap.t tokenDef) (graph : JSMap.t (list string))
    (usages : JSSet.t) : list string :=
  let referencedByTokens := JSSet.ofList (concat (JSMap.values graph)) in
  filter (fun name => negb (JSSet.has referencedByTokens name)
                      && negb (JSSet.has usages name))
         (JSMap.keys defs).

(** *** Rule 5: unused semantic tokens *)

Definition findUnusedSemantics (defs : JSMap.t tokenDef)
    (graph : JSMap.t (list string)) (usages : JSSet.t) : list string :=
  let usedByComponents :=
    JSSet.ofList
      (flat_map (fun '(name, deps) =>
           if tier_eqb (getTier name) component
           then filter (fun dep => tier_eqb (getTier dep) semantic) deps
           else []) graph) in
  filter (fun name => tier_eqb (getTier name) semantic
                      && negb (JSSet.has usedByComponents name)
                      && negb (JSSet.has usages name))
         (JSMap.keys defs).

(** *** Report and exit code *)

(** An entry of the [errors] or [warnings] array of [main], by the rule that
    produced it and the data its message and detail are rendered from. *)
Inductive issue :=
  | MissingReference (m : missingRef)
  | CircularDependency (cycle : list string)
  | TierViolation (v : tierViolation)
  | DirectPrimitive (u : primUsage)
  | OrphanToken (name : string)
  | UnusedSemantic (name : string).

Record report := {
  tokenCount : nat;
  ruleUsageCount : nat;
  noCycles : bool;
  errors : list issue;
  warnings : list issue;
}.

(** Steps b) to e) of [main]: parse, build the graph, run the rules and compile
    the two lists. *)
Definition validate (css : string) : report :=
  let st := parseCSS css in
  let graph := buildGraph (tokenDefs st) in
  let missingRefs := findMissingRefs (tokenDefs st) (ruleUsages st) in
  let cycles := findCycles graph in
  let tierViolations := findTierViolations (tokenDefs st) in
  let orphans := findOrphans (tokenDefs st) graph (ruleUsages st) in
  let unusedSemantics := findUnusedSemantics (tokenDefs st) graph (ruleUsages st) in
  {| tokenCount := JSMap.size (tokenDefs st);
     ruleUsageCount := length (ruleUsages st);
     noCycles := Nat.eqb (length cycles) 0;
     errors := map MissingReference missingRefs
               ++ map CircularDependency cycles
               ++ map TierViolation tierViolations
               ++ map DirectPrimitive (primInRules st);
     warnings := map OrphanToken orphans ++ map UnusedSemantic unusedSemantics |}.

(** What [main] finds on disk: no candidate stylesheet, a stylesheet that
    cannot be read, or its text. *)
Inductive cssInput :=
  | NoStylesheet
  | Unreadable
  | Stylesheet (css : string).

Record outcome := {
  exitCode : Z;
  printed : option report;
}.

Definition main (input : cssInput) : outcome :=
  match input with
  | NoStylesheet => {| exitCode := 0; printed := None |}
  | Unreadable => {| exitCode := 1; printed := None |}
  | Stylesheet css =>
      let r := validate css in
      {| exitCode := if 0 <? length (errors r) then 1 else 0;
         printed := Some r |}
  end.

End Validator.

(* ========================================================================= *)
(** ** Functions shared by scripts/figma-sync-dry-run.js and
       scripts/figma-sync-apply.js

    The apply script carries its own copies of these functions; they differ
    from the dry run's only in the wording of messages, which is not
    modelled. *)
(* ========================================================================= *)

Module Figma.

Inductive tierName := primitive | semantic | component | base.

Definition tier_eqb (a b : tierName) : bool :=
  match a, b with
  | primitive, primitive | semantic, semantic | component, component
  | base, base => true
  | _, _ => false
  end.

(** Allowed referencing tiers in exports: no entry for [base]. *)
Definition FIGMA_ALLOWED_DEPS (t : tierName) : list tierName :=
  match t with
  | primitive => []
  | semantic => [primitive]
  | component => [semantic]
  | base => []
  end.

Definition VALID_FIGMA_TIERS : list tierName := [primitive; semantic; component].

Definition includes (l : list tierName) (t : tierName) : bool := existsb (tier_eqb t) l.

(** *** Name conversion *)

Definition figmaNameToCSSVar (dotName : string) : string :=
  "--" +:+ JS.replaceChar "." "-" dotName.

Definition figmaValueToCSS (figmaValue : string) : string :=
  match JS.matchBraced figmaValue with
  | Some m1 => "var(" +:+ figmaNameToCSSVar m1 +:+ ")"
  | None => figmaValue
  end.

Definition extractFigmaRef (figmaValue : string) : option string :=
  match JS.matchBraced figmaValue with
  | Some m1 => Some (figmaNameToCSSVar m1)
  | None => None
  end.

(** *** Tier detection *)

Definition getTierFromCSSName (cssName : string) : option tierName :=
  if JS.startsWith cssName "--primitive-" then Some primitive
  else if JS.startsWith cssName "--semantic-" then Some semantic
  else if JS.startsWith cssName "--component-" then Some component
  else if JS.startsWith cssName "--base-" then Some base
  else None.

(** [figmaName.split('.')[0]]. *)
Definition firstSegment (figmaName : string) : string :=
  match JS.splitChar "." figmaName with
  | x :: _ => x
  | [] => ""
  end.

(** The first segment when it is one of the three strings of
    [VALID_FIGMA_TIERS], as the tier it names. *)
Definition getTierFromFigmaName (figmaName : string) : option tierName :=
  let prefix := firstSegment figmaName in
  if String.eqb prefix "primitive" then Some primitive
  else if String.eqb prefix "semantic" then Some semantic
  else if String.eqb prefix "component" then Some component
  else None.

(** *** Stylesheet parsing *)

Record cssToken := { value : string; line : nat }.

Record parseState := {
  tokens : JSMap.t cssToken;
  braceDepth : Z;
  inRoot : bool;
  rootDepth : Z;
}.

Definition parseInit : parseState :=
  {| tokens := []; braceDepth := 0; inRoot := false; rootDepth := (-1) |}.

(** One iteration of the loop of [parseCSSTokens], for the line of index [i]. *)
Definition parseLine (st : parseState) (i : nat) (raw : string) : parseState :=
  let trimmed := JS.trim raw in
  let lineNum := i + 1 in
  let '(inRoot1, rootDepth1) :=
    if negb (inRoot st) && JS.matchRootOpen trimmed
    then (true, braceDepth st) else (inRoot st, rootDepth st) in
  let opens := JS.countChar "{" raw in
  let closes := JS.countChar "}" raw in
  let depth := (braceDepth st + (Z.of_nat opens - Z.of_nat closes))%Z in
  let inRoot2 := if inRoot1 && (depth <=? rootDepth1)%Z then false else inRoot1 in
  let toks :=
    if inRoot2 then
      match JS.matchDeclaration trimmed with
      | Some (name, val) =>
          JSMap.set (tokens st) name {| value := val; line := lineNum |}
      | None => tokens st
      end
    else tokens st in
  {| tokens := toks; braceDepth := depth; inRoot := inRoot2; rootDepth := rootDepth1 |}.

Fixpoint parseLines (st : parseState) (i : nat) (lines : list string) : parseState :=
  match lines with
  | [] => st
  | l :: rest => parseLines (parseLine st i l) (S i) rest
  end.

Definition parseCSSTokens (css : string) : JSMap.t cssToken :=
  tokens (parseLines parseInit 0 (JS.splitChar "010" css)).

(** *** Export parsing *)

(** An element of the [tokens] array of the export: [None] stands for a field
    that is absent or not a string (or an element that is not an object). *)
Record rawEntry := { rawName : option string; rawValue : option string }.

(** The export file after [JSON.parse]. *)
Inductive export :=
  | InvalidJSON
  | NoTokensArray
  | TokensArray (entries : list rawEntry).

Record figmaToken := {
  cssName : string;
  cssValue : string;
  figmaName : string;
  figmaValue : string;
  tier : option tierName;
}.

Inductive parseError :=
  | ErrInvalidJSON
  | ErrNoTokensArray
  | ErrName (idx : nat)
  | ErrValue (name : string).

Definition parseEntry (idx : nat) (entry : rawEntry) : parseError + figmaToken :=
  match rawName entry with
  | None => inl (ErrName idx)
  | Some name =>
      if String.eqb (JS.trim name) "" then inl (ErrName idx)
      else match rawValue entry with
           | None => inl (ErrValue name)
           | Some val =>
               inr {| cssName := figmaNameToCSSVar name;
                      cssValue := figmaValueToCSS val;
                      figmaName := name;
                      figmaValue := val;
                      tier := getTierFromFigmaName name |}
           end
  end.

(** [data.tokens.map(...)]: the first element that throws ends the parse. *)
Fixpoint parseEntries (idx : nat) (entries : list rawEntry)
    : parseError + list figmaToken :=
  match entries with
  | [] => inr []
  | e :: rest =>
      match parseEntry idx e with
      | inl err => inl err
      | inr t =>
          match parseEntries (S idx) rest with
          | inl err => inl err
          | inr ts => inr (t :: ts)
          end
      end
  end.

Definition parseFigmaExport (json : export) : parseError + list figmaToken :=
  match json with
  | InvalidJSON => inl ErrInvalidJSON
  | NoTokensArray => inl ErrNoTokensArray
  | TokensArray entries => parseEntries 0 entries
  end.

(** *** Architecture validation *)

Inductive archError :=
  | UnknownTier (figmaName : string)
  | UnknownRefTier (figmaName ref : string)
  | InvalidRefTier (figmaName ref : string) (refTier : tierName)
  | TierViolation (figmaName ref : string) (tokenTier refTier : tierName)
  | CircularDependency (cycle : list string).

Definition validateToken (t : figmaToken) : list archError :=
  match tier t with
  | None => [UnknownTier (figmaName t)]
  | Some tokenTier =>
      match extractFigmaRef (figmaValue t) with
      | None => []
      | Some refCSSName =>
          match getTierFromCSSName refCSSName with
          | None => [UnknownRefTier (figmaName t) refCSSName]
          | Some refTier =>
              if negb (includes VALID_FIGMA_TIERS refTier)
              then [InvalidRefTier (figmaName t) refCSSName refTier]
              else if negb (includes (FIGMA_ALLOWED_DEPS tokenTier) refTier)
              then [TierViolation (figmaName t) refCSSName tokenTier refTier]
              else []
          end
      end
  end.

Definition validateFigmaTiers (figmaTokens : list figmaToken) : list archError :=
  flat_map validateToken figmaTokens.

(** *** Cycle detection *)

Definition buildFigmaGraph (figmaTokens : list figmaToken) : JSMap.t (list string) :=
  fold_left (fun g t =>
      JSMap.set g (cssName t)
        (match extractFigmaRef (figmaValue t) with
         | Some ref => [ref]
         | None => []
         end)) figmaTokens [].

Record frame := { node : string; path : list string; edgeIdx : nat }.

Record dfsState := {
  color : JSMap.t colour;
  cycles : list (list string);
  stack : list frame;          (* top first *)
}.

(** [frame.path.slice(frame.path.indexOf(dep))], with [indexOf] giving -1 and
    [slice(-1)] the last element when [dep] is absent. *)
Definition sliceFrom := Validator.sliceFrom.

(** One iteration of the [while] of [dfs] on the top frame [fr]. *)
Definition dfsStep (graph : JSMap.t (list string)) (st : dfsState)
    (fr : frame) (below : list frame) : dfsState :=
  let deps := default [] (JSMap.get graph (node fr)) in
  match deps !! edgeIdx fr with
  | None =>
      {| color := JSMap.set (color st) (node fr) BLACK;
         cycles := cycles st; stack := below |}
  | Some dep =>
      let fr' := {| node := node fr; path := path fr; edgeIdx := S (edgeIdx fr) |} in
      let col := if JSMap.has (color st) dep then color st
                 else JSMap.set (color st) dep WHITE in
      match JSMap.get col dep with
      | Some GRAY =>
          {| color := col;
             cycles := cycles st ++ [sliceFrom dep (path fr) ++ [dep]];
             stack := fr' :: below |}
      | Some WHITE =>
          {| color := JSMap.set col dep GRAY;
             cycles := cycles st;
             stack := {| node := dep; path := path fr ++ [dep]; edgeIdx := 0 |}
                        :: fr' :: below |}
      | _ => {| color := col; cycles := cycles st; stack := fr' :: below |}
      end
  end.

Fixpoint dfsLoop (fuel : nat) (graph : JSMap.t (list string)) (st : dfsState)
    : option dfsState :=
  match stack st with
  | [] => Some st
  | fr :: below =>
      match fuel with
      | O => None
      | S f => dfsLoop f graph (dfsStep graph st fr below)
      end
  end.

(** Every iteration examines an edge or pops a frame, and a node is pushed at
    most once. *)
Definition dfsFuel (graph : JSMap.t (list string)) : nat :=
  2 * length (concat (JSMap.values graph)) + 2 * length graph + 2.

Definition dfs (graph : JSMap.t (list string)) (col : JSMap.t colour)
    (cyc : list (list string)) (start : string) : option dfsState :=
  dfsLoop (dfsFuel graph) graph
    {| color := JSMap.set col start GRAY; cycles := cyc;
       stack := [{| node := start; path := [start]; edgeIdx := 0 |}] |}.

(** The final loop of [findCycles] iterates over the colour map itself, which
    grows while it is iterated: [i] is the position of the iterator. *)
Fixpoint visitAll (fuel : nat) (graph : JSMap.t (list string)) (i : nat)
    (col : JSMap.t colour) (cyc : list (list string))
    : option (list (list string)) :=
  match col !! i with
  | None => Some cyc
  | Some (name, clr) =>
      match fuel with
      | O => None
      | S f =>
          match clr with
          | WHITE =>
              match dfs graph col cyc name with
              | Some st => visitAll f graph (S i) (color st) (cycles st)
              | None => None
              end
          | _ => visitAll f graph (S i) col cyc
          end
      end
  end.

(** The colour map never holds more names than the graph mentions. *)
Definition visitFuel (graph : JSMap.t (list string)) : nat :=
  length graph + length (concat (JSMap.values graph)) + 1.

Definition findCycles_run (graph : JSMap.t (list string))
    : option (list (list string)) :=
  let col := fold_left (fun c name => JSMap.set c name WHITE) (JSMap.keys graph) [] in
  visitAll (visitFuel graph) graph 0 col [].

(** [findCycles]: the search always ends within its fuel
    ([sync_findCycles_run_total] below), so the default is never used. *)
Definition findCycles (graph : JSMap.t (list string)) : list (list string) :=
  default [] (findCycles_run graph).

(** *** Diff engine *)

Record addedEntry := { aName : string; aFigmaValue : string }.
Record modifiedEntry := { mName : string; mCssValue : string; mFigmaValue : string }.
Record removedEntry := { rName : string; rCssValue : string }.

Record diff := {
  added : list addedEntry;
  modified : list modifiedEntry;
  removed : list removedEntry;
  unchanged : list string;
}.

Definition manageable (name : string) : bool :=
  match getTierFromCSSName name with
  | Some t => includes VALID_FIGMA_TIERS t
  | None => false
  end.

(** The loop over [figmaMap]. *)
Fixpoint classify (cssRelevant : JSMap.t cssToken) (figma : list (string * string))
    (d : diff) : diff :=
  match figma with
  | [] => d
  | (name, figmaValue) :: rest =>
      classify cssRelevant rest
        (match JSMap.get cssRelevant name with
         | None =>
             {| added := added d ++ [{| aName := name; aFigmaValue := figmaValue |}];
                modified := modified d; removed := removed d;
                unchanged := unchanged d |}
         | Some data =>
             if negb (String.eqb (value data) figmaValue) then
               {| added := added d;
                  modified := modified d ++
                    [{| mName := name; mCssValue := value data;
                        mFigmaValue := figmaValue |}];
                  removed := removed d; unchanged := unchanged d |}
             else
               {| added := added d; modified := modified d; removed := removed d;
                  unchanged := unchanged d ++ [name] |}
         end)
  end.

(** [new Map(figmaTokens.map(t => [t.cssName, t.cssValue]))]. *)
Definition figmaMapOf (figmaTokens : list figmaToken) : JSMap.t string :=
  fold_left (fun m t => JSMap.set m (cssName t) (cssValue t)) figmaTokens [].

(** The stylesheet tokens of the tiers an export may manage. *)
Definition cssRelevantOf (cssTokens : JSMap.t cssToken) : JSMap.t cssToken :=
  fold_left (fun m '(name, data) =>
      if manageable name then JSMap.set m name data else m) cssTokens [].

Definition diffTokens (cssTokens : JSMap.t cssToken) (figmaTokens : list figmaToken)
    : diff :=
  let figmaMap := figmaMapOf figmaTokens in
  let cssRelevant := cssRelevantOf cssTokens in
  let d := classify cssRelevant figmaMap
             {| added := []; modified := []; removed := []; unchanged := [] |} in
  {| added := added d; modified := modified d;
     removed :=
       flat_map (fun '(name, data) =>
           if negb (JSMap.has figmaMap name)
           then [{| rName := name; rCssValue := value data |}] else [])
         cssRelevant;
     unchanged := unchanged d |}.

End Figma.

(* ========================================================================= *)
(** ** scripts/figma-sync-dry-run.js *)
(* ========================================================================= *)

Module DryRun.
Import Figma.

(** The argument of [printSyncReport]. *)
Record syncReport := {
  archErrors : list archError;
  noCycles : bool;
  diffResult : option diff;
}.

Record outcome := {
  exitCode : Z;
  printed : option syncReport;
}.

(** [main]. [css] is the text of the first candidate stylesheet that exists,
    [json] the parsed export file; [None] when the file is missing. *)
Definition main (css : option string) (json : option export) : outcome :=
  match css with
  | None => {| exitCode := 0; printed := None |}
  | Some cssText =>
      match json with
      | None => {| exitCode := 1; printed := None |}
      | Some data =>
          let cssTokens := parseCSSTokens cssText in
          match parseFigmaExport data with
          | inl _ => {| exitCode := 1; printed := None |}
          | inr figmaTokens =>
              let archErrors0 := validateFigmaTiers figmaTokens in
              let figmaGraph := buildFigmaGraph figmaTokens in
              let cycles := findCycles figmaGraph in
              let noCycles := Nat.eqb (length cycles) 0 in
              let archErrors := archErrors0 ++ map CircularDependency cycles in
              if 0 <? length archErrors then
                {| exitCode := 1;
                   printed := Some {| archErrors := archErrors;
                                      noCycles := noCycles;
                                      diffResult := None |} |}
              else
                {| exitCode := 0;
                   printed := Some {| archErrors := archErrors;
                                      noCycles := noCycles;
                                      diffResult :=
                                        Some (diffTokens cssTokens figmaTokens) |} |}
          end
      end
  end.

End DryRun.

(* ========================================================================= *)
(** ** scripts/figma-sync-apply.js *)
(* ========================================================================= *)

Module Apply.
Import Figma.

(** *** User theme registry *)

Inductive action := add | update | remove.

(** A changelog entry; a [remove] entry has no [value]; [prev] is [null] when
    there was no previous value. *)
Record changeEntry := {
  ceAction : action;
  ceToken : string;
  ceValue : option string;
  prev : option string;
}.

Record registry := {
  tokens : gmap string string;
  removed : list string;
  changelog : list changeEntry;
}.

(** The registry file on disk: missing, not parsable, or parsed with each of
    its three fields possibly absent. *)
Inductive registryFile :=
  | NoRegistry
  | BadRegistry
  | ParsedRegistry (toks : option (gmap string string))
      (rem : option (list string)) (log : option (list changeEntry)).

Definition emptyRegistry : registry :=
  {| tokens := ∅; removed := []; changelog := [] |}.

Definition loadUserThemeRegistry (file : registryFile) : registry :=
  match file with
  | NoRegistry => emptyRegistry
  | BadRegistry => emptyRegistry
  | ParsedRegistry toks rem log =>
      {| tokens := default ∅ toks;
         removed := default [] rem;
         changelog := default [] log |}
  end.

(** *** Interactive review *)

Inductive decision := yes | no | all | skip | quit.

(** The callback of [rl.question] in [prompt]. *)
Definition decide_answer (answer : string) : decision :=
  let a := JS.toLowerCase (JS.trim answer) in
  if String.eqb a "a" then all
  else if String.eqb a "s" then skip
  else if String.eqb a "q" then quit
  else if String.eqb a "n" || String.eqb a "no" then no
  else yes.

Inductive category := NEW | MODIFIED | REMOVED.

(** What the review shows the operator. *)
Inductive event :=
  | Rendered (kind : category) (name : string) (i total : nat)
  | Asked (kind : category) (name : string).

(** The terminal: the lines the operator types, one per question, the number
    of questions asked so far, and what has been shown. *)
Record console := {
  asked : nat;
  shown : list event;
}.

Definition IO (A : Type) : Type := console -> A * console.

#[global] Instance io_ret : MRet IO := fun A x c => (x, c).

#[global] Instance io_bind : MBind IO :=
  fun A B k m c => let '(x, c') := m c in k x c'.

Definition show (e : event) : IO unit :=
  fun c => (tt, {| asked := asked c; shown := shown c ++ [e] |}).

Section Review.
(** The operator: the answer typed at the n-th question of the run. *)
Variable operator : nat -> string.

Definition prompt (kind : category) (name : string) : IO decision :=
  fun c =>
    (decide_answer (operator (asked c)),
     {| asked := S (asked c); shown := shown c ++ [Asked kind name] |}).

Record reviewResult (A : Type) := {
  approved : list A;
  skipped : list A;
  quitted : bool;
}.
Arguments approved {A}.
Arguments skipped {A}.
Arguments quitted {A}.

(** The [for] loop of [reviewCategory] from item number [i] (counted from 1)
    on. *)
Fixpoint reviewLoop {A} (kind : category) (nameOf : A -> string)
    (total : nat) (i : nat) (items : list A) (applyAll skipAll : bool)
    (approved skipped : list A) : IO (reviewResult A) :=
  match items with
  | [] => mret {| approved := approved; skipped := skipped; quitted := false |}
  | item :: rest =>
      show (Rendered kind (nameOf item) i total) ;;
      if applyAll then
        reviewLoop kind nameOf total (S i) rest applyAll skipAll
          (approved ++ [item]) skipped
      else if skipAll then
        reviewLoop kind nameOf total (S i) rest applyAll skipAll
          approved (skipped ++ [item])
      else
        answer ← prompt kind (nameOf item) ;
        match answer with
        | quit =>
            mret {| approved := approved;
                      skipped := (skipped ++ [item]) ++ rest;
                      quitted := true |}
        | all =>
            reviewLoop kind nameOf total (S i) rest true skipAll
              (approved ++ [item]) skipped
        | skip =>
            reviewLoop kind nameOf total (S i) rest applyAll true
              approved (skipped ++ [item])
        | yes =>
            reviewLoop kind nameOf total (S i) rest applyAll skipAll
              (approved ++ [item]) skipped
        | no =>
            reviewLoop kind nameOf total (S i) rest applyAll skipAll
              approved (skipped ++ [item])
        end
  end.

Definition reviewCategory {A} (kind : category) (nameOf : A -> string)
    (items : list A) : IO (reviewResult A) :=
  match items with
  | [] => mret {| approved := []; skipped := []; quitted := false |}
  | _ => reviewLoop kind nameOf (length items) 1 items false false [] []
  end.
End Review.

Arguments approved {A}.
Arguments skipped {A}.
Arguments quitted {A}.

(** *** Apply engine *)

Record changes := {
  chAdded : list addedEntry;
  chUpdated : list modifiedEntry;
  chRemovedFromTheme : list removedEntry;
}.

(** [x || null] on a property read: a missing or empty string gives [null]. *)
Definition orNull (x : option string) : option string :=
  match x with
  | Some v => if String.eqb v "" then None else Some v
  | None => None
  end.

(** The three loops of [mergeRegistryChanges], on the working copies of
    [tokens], [removedSet] and [changelog]. *)
Definition mergeAdded (st : gmap string string * JSSet.t * list changeEntry)
    (item : addedEntry) :=
  let '(tokens, removedSet, changelog) := st in
  let prev := orNull (tokens !! aName item) in
  (<[aName item := aFigmaValue item]> tokens,
   JSSet.delete removedSet (aName item),
   changelog ++ [{| ceAction := add; ceToken := aName item;
                    ceValue := Some (aFigmaValue item); prev := prev |}]).

Definition mergeUpdated (st : gmap string string * JSSet.t * list changeEntry)
    (item : modifiedEntry) :=
  let '(tokens, removedSet, changelog) := st in
  let prev := default (mCssValue item) (orNull (tokens !! mName item)) in
  (<[mName item := mFigmaValue item]> tokens,
   removedSet,
   changelog ++ [{| ceAction := update; ceToken := mName item;
                    ceValue := Some (mFigmaValue item); prev := Some prev |}]).

Definition mergeRemoved (st : gmap string string * JSSet.t * list changeEntry)
    (item : removedEntry) :=
  let '(tokens, removedSet, changelog) := st in
  let prev := orNull (tokens !! rName item) in
  (delete (rName item) tokens,
   JSSet.add removedSet (rName item),
   changelog ++ [{| ceAction := remove; ceToken := rName item;
                    ceValue := None; prev := prev |}]).

Definition mergeRegistryChanges (current : registry) (ch : changes) : registry :=
  let st0 := (tokens current, JSSet.ofList (removed current), []) in
  let st1 := fold_left mergeAdded (chAdded ch) st0 in
  let st2 := fold_left mergeUpdated (chUpdated ch) st1 in
  let '(tokens, removedSet, changelog) :=
    fold_left mergeRemoved (chRemovedFromTheme ch) st2 in
  {| tokens := tokens; removed := removedSet; changelog := changelog |}.

(** *** Main *)

Record outcome := {
  exitCode : Z;
  (** the merged registry handed to [writeOutputFiles], from which the three
      output files are generated *)
  written : option registry;
  (** the changes that were approved, when the review was reached *)
  approvedChanges : option changes;
  skippedCount : nat;
  terminal : console;
}.

Definition stop (code : Z) (c : console) : outcome :=
  {| exitCode := code; written := None; approvedChanges := None;
     skippedCount := 0; terminal := c |}.

(** Step g) of [main], interactive path: the three categories in turn, each
    reviewed only when no earlier one was quit and it has entries. *)
Definition review (operator : nat -> string) (d : diff)
    (removableFromTheme : list removedEntry) : IO (changes * nat * bool) :=
  r1 ← (if 0 <? length (added d)
        then reviewCategory operator NEW aName (added d)
        else mret {| approved := []; skipped := []; quitted := false |}) ;
  r2 ← (if negb (quitted r1) && (0 <? length (modified d))
        then reviewCategory operator MODIFIED mName (modified d)
        else mret {| approved := []; skipped := []; quitted := false |}) ;
  let quit2 := quitted r1 || quitted r2 in
  r3 ← (if negb quit2 && (0 <? length removableFromTheme)
        then reviewCategory operator REMOVED rName removableFromTheme
        else mret {| approved := []; skipped := []; quitted := false |}) ;
  mret ({| chAdded := approved r1; chUpdated := approved r2;
             chRemovedFromTheme := approved r3 |},
          length (skipped r1) + length (skipped r2) + length (skipped r3),
          quit2 || quitted r3).

Definition main (optYes : bool) (operator : nat -> string)
    (css : option string) (json : option export) (regFile : registryFile)
    : outcome :=
  let c0 := {| asked := 0; shown := [] |} in
  match css with
  | None => stop 1 c0
  | Some cssText =>
      match json with
      | None => stop 1 c0
      | Some data =>
          let cssTokens := parseCSSTokens cssText in
          match parseFigmaExport data with
          | inl _ => stop 1 c0
          | inr figmaTokens =>
              let archErrors :=
                validateFigmaTiers figmaTokens
                ++ map CircularDependency (findCycles (buildFigmaGraph figmaTokens)) in
              if 0 <? length archErrors then stop 1 c0
              else
                let d := diffTokens cssTokens figmaTokens in
                if Nat.eqb (length (added d)) 0 && Nat.eqb (length (modified d)) 0
                then stop 0 c0
                else
                  let currentRegistry := loadUserThemeRegistry regFile in
                  let removableFromTheme :=
                    filter (fun r => bool_decide (is_Some (tokens currentRegistry !! rName r)))
                           (Figma.removed d) in
                  let '(approvedCh, skippedCnt, didQuit, c1) :=
                    if optYes then
                      ({| chAdded := added d; chUpdated := modified d;
                          chRemovedFromTheme := [] |},
                       length removableFromTheme, false, c0)
                    else
                      let '(r, c) := review operator d removableFromTheme c0 in
                      let '(ch, n, q) := r in (ch, n, q, c) in
                  let totalApproved :=
                    length (chAdded approvedCh) + length (chUpdated approvedCh)
                    + length (chRemovedFromTheme approvedCh) in
                  if didQuit && Nat.eqb totalApproved 0 then
                    {| exitCode := 2; written := None;
                       approvedChanges := Some approvedCh;
                       skippedCount := skippedCnt; terminal := c1 |}
                  else if Nat.eqb totalApproved 0 then
                    {| exitCode := 0; written := None;
                       approvedChanges := Some approvedCh;
                       skippedCount := skippedCnt; terminal := c1 |}
                  else
                    {| exitCode := 0;
                       written := Some (mergeRegistryChanges currentRegistry approvedCh);
                       approvedChanges := Some approvedCh;
                       skippedCount := skippedCnt; terminal := c1 |}
          end
      end
  end.

End Apply.


(* ========================================================================= *)
(** ** scripts/figma-sync-apply.js: the generated theme *)
(* ========================================================================= *)

From Stdlib Require DecimalString.

Module Theme.

(** The decimal text of a length in a template literal. *)
Definition numberToString (n : nat) : string :=
  DecimalString.NilEmpty.string_of_uint (Nat.to_uint n).

(** [' '.repeat(n)]. *)
Fixpoint spaces (n : nat) : string :=
  match n with
  | 0 => EmptyString
  | S k => String " " (spaces k)
  end.

Definition nl : string := String (JS.ch 10) EmptyString.

(** [lines.join('\n')]. *)
Fixpoint joinLines (lines : list string) : string :=
  match lines with
  | [] => EmptyString
  | x :: r =>
      match r with
      | [] => x
      | _ :: _ => x +:+ nl +:+ joinLines r
      end
  end.

Definition quote : string := String (JS.ch 34) EmptyString.

(** [buildSelector]: the attribute selector for the scope [attr], the root
    selector for any other scope. *)
Definition buildSelector (scope themeName : string) : string :=
  if String.eqb scope "attr"
  then "[data-theme=" +:+ quote +:+ themeName +:+ quote +:+ "]"
  else ":root".

Section Generate.
(** Three texts that the generator takes from outside: [now] is
    [new Date().toISOString()], [relSrc] is [path.basename(sourceFile)], and
    [dash] stands for the dash of the two comment texts, a character beyond
    the 8-bit range of [string]. *)
Variables (dash now relSrc : string).

(** The comment header, for [count] entries. *)
Definition header (count : nat) (selector : string) : string :=
  joinLines
    ["/* Design System " +:+ dash +:+ " User Theme";
     " * Generated : " +:+ now;
     " * Source    : " +:+ relSrc;
     " * Tokens    : " +:+ numberToString count;
     " * Scope     : " +:+ selector;
     " *";
     " * DO NOT EDIT MANUALLY " +:+ dash
       +:+ " regenerate with: npm run figma-sync-apply";
     " */"].

(** [entries.reduce((m, [k]) => Math.max(m, k.length), 0)]. *)
Definition maxLen (entries : list (string * string)) : nat :=
  fold_left (fun m e => Nat.max m (String.length (fst e))) entries 0.

(** One declaration line, padded after the colon to the longest name. *)
Definition declaration (maxLen : nat) (e : string * string) : string :=
  let pad := spaces (maxLen - String.length (fst e) + 1) in
  "    " +:+ fst e +:+ ":" +:+ pad +:+ snd e +:+ ";".

(** [generateThemeCSS], on [entries = Object.entries(tokens)]. *)
Definition generateThemeCSS (entries : list (string * string)) (selector : string)
    : string :=
  let header := header (length entries) selector in
  if Nat.eqb (length entries) 0 then
    header +:+ nl +:+ nl
    +:+ ("/* (no token overrides " +:+ dash
         +:+ " all tokens use system defaults) */")
    +:+ nl
  else
    joinLines
      ([header; EmptyString; "@layer themes {"; EmptyString;
        "  " +:+ selector +:+ " {"]
       ++ map (declaration (maxLen entries)) entries
       ++ ["  }"; EmptyString; "}"; EmptyString]).

End Generate.

End Theme.

(* ========================================================================= *)
(** ** scripts/figma-sync-apply.js: the command line *)
(* ========================================================================= *)

Module Args.

(** The options of a run.  [figmaFile] and [outputDir] hold the argument that
    was given, before it is resolved against the working directory; [None]
    stands for the default path. *)
Record options := {
  figmaFile : option string;
  yes : bool;
  themeName : string;
  scope : string;
  outputDir : option string;
}.

Definition defaults : options :=
  {| figmaFile := None; yes := false; themeName := "user"; scope := "root";
     outputDir := None |}.

(** [args[i + 1]] as a condition: there is a next argument and it is not the
    empty string. *)
Definition hasNext (rest : list string) : bool :=
  match rest with
  | v :: _ => negb (String.eqb v "")
  | [] => false
  end.

(** The loop of [parseArgs] from the argument [a] on. *)
Fixpoint parseLoop (args : list string) (opts : options) : options :=
  match args with
  | [] => opts
  | a :: rest =>
      if String.eqb a "--yes" || String.eqb a "-y" then
        parseLoop rest
          {| figmaFile := figmaFile opts; yes := true; themeName := themeName opts;
             scope := scope opts; outputDir := outputDir opts |}
      else if String.eqb a "--theme" && hasNext rest then
        match rest with
        | v :: rest' =>
            parseLoop rest'
              {| figmaFile := figmaFile opts; yes := yes opts; themeName := v;
                 scope := scope opts; outputDir := outputDir opts |}
        | [] => opts
        end
      else if String.eqb a "--scope" && hasNext rest then
        match rest with
        | s :: rest' =>
            parseLoop rest'
              (if String.eqb s "attr"
               then {| figmaFile := figmaFile opts; yes := yes opts;
                       themeName := themeName opts; scope := "attr";
                       outputDir := outputDir opts |}
               else opts)
        | [] => opts
        end
      else if String.eqb a "--out" && hasNext rest then
        match rest with
        | v :: rest' =>
            parseLoop rest'
              {| figmaFile := figmaFile opts; yes := yes opts;
                 themeName := themeName opts; scope := scope opts;
                 outputDir := Some v |}
        | [] => opts
        end
      else if negb (JS.startsWith a "-") then
        parseLoop rest
          {| figmaFile := Some a; yes := yes opts; themeName := themeName opts;
             scope := scope opts; outputDir := outputDir opts |}
      else parseLoop rest opts
  end.

(** [parseArgs], on [process.argv]. *)
Definition parseArgs (argv : list string) : options :=
  parseLoop (drop 2 argv) defaults.

End Args.

(* ========================================================================= *)
(** ** scripts/figma-sync-apply.js: interrupts and write errors *)
(* ========================================================================= *)

(** [Apply.main] describes a run in which every question is answered and
    every file is written.  The script has two more ways to end: its SIGINT
    handlers call [process.exit(130)], and [main().catch] exits with 1 when
    something throws.  [Run.main] is [main] with both. *)
Module Run.
Import Figma Apply.

(** What arrives at a question: a line, or an interrupt (Ctrl+C at the
    terminal, which readline reports to [rl.on('SIGINT')], or a signal to the
    process, which [process.on('SIGINT')] receives).  The script waits
    nowhere else, so a handler runs at no other point. *)
Inductive input := Line (answer : string) | Interrupt.


(** A step that a SIGINT handler can end: [None] when the handler ran. *)
Definition IO (A : Type) : Type := console -> option A * console.

Section Review.
Variable operator : nat -> input.

(** [prompt], with the handler of [rl.on('SIGINT')]. *)
Definition prompt (kind : category) (name : string) : IO decision :=
  fun c =>
    let c' := {| asked := S (asked c); shown := shown c ++ [Asked kind name] |} in
    match operator (asked c) with
    | Line answer => (Some (decide_answer answer), c')
    | Interrupt => (None, c')
    end.

(** The loop of [reviewCategory]. *)
Fixpoint reviewLoop {A} (kind : category) (nameOf : A -> string)
    (total : nat) (i : nat) (items : list A) (applyAll skipAll : bool)
    (approved skipped : list A) : IO (reviewResult A) :=
  match items with
  | [] =>
      fun c => (Some {| approved := approved; skipped := skipped;
                        quitted := false |}, c)
  | item :: rest =>
      fun c =>
        let c1 := snd (show (Rendered kind (nameOf item) i total) c) in
        if applyAll then
          reviewLoop kind nameOf total (S i) rest applyAll skipAll
            (approved ++ [item]) skipped c1
        else if skipAll then
          reviewLoop kind nameOf total (S i) rest applyAll skipAll
            approved (skipped ++ [item]) c1
        else
          match prompt kind (nameOf item) c1 with
          | (None, c2) => (None, c2)
          | (Some answer, c2) =>
              match answer with
              | quit =>
                  (Some {| approved := approved;
                           skipped := (skipped ++ [item]) ++ rest;
                           quitted := true |}, c2)
              | all =>
                  reviewLoop kind nameOf total (S i) rest true skipAll
                    (approved ++ [item]) skipped c2
              | skip =>
                  reviewLoop kind nameOf total (S i) rest applyAll true
                    approved (skipped ++ [item]) c2
              | yes =>
                  reviewLoop kind nameOf total (S i) rest applyAll skipAll
                    (approved ++ [item]) skipped c2
              | no =>
                  reviewLoop kind nameOf total (S i) rest applyAll skipAll
                    approved (skipped ++ [item]) c2
              end
          end
  end.

Definition reviewCategory {A} (kind : category) (nameOf : A -> string)
    (items : list A) : IO (reviewResult A) :=
  match items with
  | [] => fun c => (Some {| approved := []; skipped := []; quitted := false |}, c)
  | _ => reviewLoop kind nameOf (length items) 1 items false false [] []
  end.

(** No review of a category: its result when it is skipped. *)
Definition notReviewed {A} : IO (reviewResult A) :=
  fun c => (Some {| approved := []; skipped := []; quitted := false |}, c).

(** Step g) of [main], interactive path. *)
Definition review (d : diff) (removableFromTheme : list removedEntry)
    : IO (changes * nat * bool) :=
  fun c =>
    match (if 0 <? length (added d)
           then reviewCategory NEW aName (added d) else notReviewed) c with
    | (None, c1) => (None, c1)
    | (Some r1, c1) =>
        match (if negb (quitted r1) && (0 <? length (modified d))
               then reviewCategory MODIFIED mName (modified d)
               else notReviewed) c1 with
        | (None, c2) => (None, c2)
        | (Some r2, c2) =>
            let quit2 := quitted r1 || quitted r2 in
            match (if negb quit2 && (0 <? length removableFromTheme)
                   then reviewCategory REMOVED rName removableFromTheme
                   else notReviewed) c2 with
            | (None, c3) => (None, c3)
            | (Some r3, c3) =>
                (Some ({| chAdded := approved r1; chUpdated := approved r2;
                          chRemovedFromTheme := approved r3 |},
                       length (skipped r1) + length (skipped r2)
                       + length (skipped r3),
                       quit2 || quitted r3), c3)
            end
        end
    end.
End Review.

Record outcome := {
  exitCode : Z;
  (** the merged registry handed to [writeOutputFiles] *)
  merged : option registry;
  (** how many of the three output files were written *)
  filesWritten : nat;
  approvedChanges : option changes;
  skippedCount : nat;
  terminal : console;
}.

Definition stop (code : Z) (c : console) : outcome :=
  {| exitCode := code; merged := None; filesWritten := 0;
     approvedChanges := None; skippedCount := 0; terminal := c |}.

(** Steps g) (its end) to i) of [main].  [writes] is the number of writes
    of [writeOutputFiles] that succeed before one throws (3 or more: all
    three files are written); an error there reaches [main().catch]. *)
Definition finish (writes : nat) (currentRegistry : registry)
    (approvedCh : changes) (skippedCnt : nat) (didQuit : bool) (c1 : console)
    : outcome :=
  let totalApproved :=
    length (chAdded approvedCh) + length (chUpdated approvedCh)
    + length (chRemovedFromTheme approvedCh) in
  if didQuit && Nat.eqb totalApproved 0 then
    {| exitCode := 2; merged := None; filesWritten := 0;
       approvedChanges := Some approvedCh;
       skippedCount := skippedCnt; terminal := c1 |}
  else if Nat.eqb totalApproved 0 then
    {| exitCode := 0; merged := None; filesWritten := 0;
       approvedChanges := Some approvedCh;
       skippedCount := skippedCnt; terminal := c1 |}
  else
    {| exitCode := if 3 <=? writes then 0 else 1;
       merged := Some (mergeRegistryChanges currentRegistry approvedCh);
       filesWritten := Nat.min writes 3;
       approvedChanges := Some approvedCh;
       skippedCount := skippedCnt; terminal := c1 |}.

(** [main].  [css] is [None] when no candidate stylesheet exists or reading
    it throws, [json] when the export file is missing: the run ends with 1
    either way. *)
Definition main (optYes : bool) (operator : nat -> input) (writes : nat)
    (css : option string) (json : option export) (regFile : registryFile)
    : outcome :=
  let c0 := {| asked := 0; shown := [] |} in
  match css with
  | None => stop 1 c0
  | Some cssText =>
      match json with
      | None => stop 1 c0
      | Some data =>
          let cssTokens := parseCSSTokens cssText in
          match parseFigmaExport data with
          | inl _ => stop 1 c0
          | inr figmaTokens =>
              let archErrors :=
                validateFigmaTiers figmaTokens
                ++ map CircularDependency (findCycles (buildFigmaGraph figmaTokens)) in
              if 0 <? length archErrors then stop 1 c0
              else
                let d := diffTokens cssTokens figmaTokens in
                if Nat.eqb (length (added d)) 0 && Nat.eqb (length (modified d)) 0
                then stop 0 c0
                else
                  let currentRegistry := loadUserThemeRegistry regFile in
                  let removableFromTheme :=
                    filter (fun r => bool_decide (is_Some (tokens currentRegistry !! rName r)))
                           (Figma.removed d) in
                  if optYes then
                    finish writes currentRegistry
                      {| chAdded := added d; chUpdated := modified d;
                         chRemovedFromTheme := [] |}
                      (length removableFromTheme) false c0
                  else
                    match review operator d removableFromTheme c0 with
                    | (None, c) => stop 130 c
                    | (Some (ch, n, q), c) =>
                        finish writes currentRegistry ch n q c
                    end
          end
      end
  end.

End Run.

(* ========================================================================= *)
(** ** Vocabulary of the statements below *)
(* ========================================================================= *)

Module Log.
Import Apply.

(** A changelog entry is the record of an approved NEW entry. *)
Definition addedEntryOf (item : Figma.addedEntry) (e : changeEntry) : Prop :=
  ceAction e = add ∧ ceToken e = Figma.aName item
  ∧ ceValue e = Some (Figma.aFigmaValue item).

(** ... of an approved MODIFIED entry. *)
Definition updatedEntryOf (item : Figma.modifiedEntry) (e : changeEntry) : Prop :=
  ceAction e = update ∧ ceToken e = Figma.mName item
  ∧ ceValue e = Some (Figma.mFigmaValue item).

(** ... of an approved REMOVED entry. *)
Definition removedEntryOf (item : Figma.removedEntry) (e : changeEntry) : Prop :=
  ceAction e = remove ∧ ceToken e = Figma.rName item ∧ ceValue e = None.

(** The name of the entry an event of the review is about. *)
Definition eventName (e : event) : string :=
  match e with
  | Rendered _ name _ _ => name
  | Asked _ name => name
  end.

Definition eventKind (e : event) : category :=
  match e with
  | Rendered kind _ _ _ => kind
  | Asked kind _ => kind
  end.


(** The number of approved changes. *)
Definition totalApproved (ch : changes) : nat :=
  length (chAdded ch) + length (chUpdated ch) + length (chRemovedFromTheme ch).

End Log.

(** Measures of the state of the validator's depth-first search. *)
Module Measure.
Import Validator.

Definition isWhite (c : colour) : bool :=
  match c with WHITE => true | _ => false end.

(** The number of white nodes. *)
Fixpoint whites (col : JSMap.t colour) : nat :=
  match col with
  | [] => 0
  | (_, c) :: r => (if isWhite c then 1 else 0) + whites r
  end.

(** Twice the white nodes plus the frames on the call stack: every iteration
    of the outer loop of [dfs] lowers it. *)
Definition dfsMeasure (st : dfsState) : nat :=
  2 * whites (color st) + length (callStack st).

End Measure.

(** Measures of the state of the sync scripts' depth-first search. *)
Module SyncMeasure.
Import Figma.

(** A node not yet turned gray: white or not coloured at all. *)
Definition undiscovered (col : JSMap.t colour) (k : string) : bool :=
  match JSMap.get col k with
  | None | Some WHITE => true
  | _ => false
  end.

(** Two steps per edge and two per node for every undiscovered node of the
    graph. *)
Fixpoint pending (g : JSMap.t (list string)) (col : JSMap.t colour) : nat :=
  match g with
  | [] => 0
  | (k, deps) :: r =>
      (if undiscovered col k then 2 * length deps + 2 else 0) + pending r col
  end.

Definition frameWeight (g : JSMap.t (list string)) (fr : frame) : nat :=
  2 * (length (default [] (JSMap.get g (node fr))) - edgeIdx fr) + 1.

Fixpoint stackWeight (g : JSMap.t (list string)) (stk : list frame) : nat :=
  match stk with
  | [] => 0
  | fr :: r => frameWeight g fr + stackWeight g r
  end.

(** Every iteration of the loop of [dfs] lowers this. *)
Definition dfsMeasure (g : JSMap.t (list string)) (st : dfsState) : nat :=
  stackWeight g (stack st) + pending g (color st).

(** The names a graph mentions: its keys and their dependencies. *)
Definition universe (g : JSMap.t (list string)) : list string :=
  JSMap.keys g ++ concat (JSMap.values g).

(** The colour map names each node once and only names of the graph. *)
Definition colourOk (g : JSMap.t (list string)) (col : JSMap.t colour) : Prop :=
  NoDup (JSMap.keys col) ∧ forall k, k ∈ JSMap.keys col -> k ∈ universe g.

(** The colour map is in order and the frames are nodes of the graph. *)
Definition stackOk (g : JSMap.t (list string)) (st : dfsState) : Prop :=
  colourOk g (color st) ∧ forall fr, fr ∈ stack st -> node fr ∈ universe g.

End SyncMeasure.

(** Cycles of a dependency graph, and the states of a depth-first search
    seen through its colour map and its stack of (node, next edge) frames. *)
Module Cycles.

(** [graph.get(u) || []]. *)
Definition depsOf (g : JSMap.t (list string)) (u : string) : list string :=
  default [] (JSMap.get g u).

(** Each name of [p] references the next one. *)
Fixpoint chain (g : JSMap.t (list string)) (p : list string) : Prop :=
  match p with
  | x :: ((y :: _) as r) => y ∈ depsOf g x ∧ chain g r
  | _ => True
  end.

(** A cycle through distinct names: each references the next and the last
    references the first. *)
Definition simpleCycle (g : JSMap.t (list string)) (p : list string) : Prop :=
  NoDup p ∧ chain g p
  ∧ exists x y, head p = Some x ∧ last p = Some y ∧ x ∈ depsOf g y.

(** The graph contains exactly the two-token cycle between [A] and [B]: [A]
    references [B] once, [B] references [A] once, and the only cycles through
    distinct names are that one, read from [A] or from [B]. *)
Definition onlyTwoCycle (g : JSMap.t (list string)) (A B : string) : Prop :=
  A ≠ B
  ∧ (exists j, depsOf g A !! j = Some B
               ∧ forall i, depsOf g A !! i = Some B -> i = j)
  ∧ (exists j, depsOf g B !! j = Some A
               ∧ forall i, depsOf g B !! i = Some A -> i = j)
  ∧ forall p, simpleCycle g p -> p = [A; B] ∨ p = [B; A].

(** The stack of a search, top first: each node with the index of its next
    edge. *)
Definition astack := list (string * nat).

(** The current path, in the order of the [path] arrays. *)
Definition pathOf (stk : astack) : list string := reverse (map fst stk).

(** [chain] read from the top of the stack down. *)
Fixpoint rchain (g : JSMap.t (list string)) (tp : list string) : Prop :=
  match tp with
  | v :: ((u :: _) as r) => v ∈ depsOf g u ∧ rchain g r
  | _ => True
  end.

(** Each frame was pushed by the last edge the frame below it examined. *)
Fixpoint linked (g : JSMap.t (list string)) (stk : astack) : Prop :=
  match stk with
  | (v, _) :: (((u, i) :: _) as r) =>
      (exists i', i = S i' ∧ depsOf g u !! i' = Some v) ∧ linked g r
  | _ => True
  end.

(** Edge number [k] of node [u] has been examined: [u] is fully explored, or
    its frame is past that edge. *)
Definition exam (col : string -> option colour) (stk : astack)
    (u : string) (k : nat) : Prop :=
  col u = Some BLACK ∨ exists i, (u, i) ∈ stk ∧ k < i.

(** The frame of [x] lies directly on the frame of [y]. *)
Definition above (stk : astack) (x y : string) : Prop :=
  exists pre k i post, stk = pre ++ (x, k) :: (y, i) :: post.

(** Where the search stands with respect to the two edges of the cycle
    ([jB] is the position of [B] among the references of [A], [jA] that of [A]
    among those of [B]): none examined and nothing reported; one examined,
    which pushed the other node; both examined and the cycle reported once. *)
Definition shape (A B : string) (jA jB : nat) (col : string -> option colour)
    (stk : astack) (cyc : list (list string)) : Prop :=
  (cyc = [] ∧ ~ exam col stk A jB ∧ ~ exam col stk B jA)
  ∨ (cyc = [] ∧ exam col stk A jB ∧ ~ exam col stk B jA ∧ above stk B A)
  ∨ (cyc = [] ∧ ~ exam col stk A jB ∧ exam col stk B jA ∧ above stk A B)
  ∨ (cyc = [[A; B; A]] ∧ exam col stk A jB ∧ exam col stk B jA)
  ∨ (cyc = [[B; A; B]] ∧ exam col stk A jB ∧ exam col stk B jA).

(** What every state of a search satisfies: the frames are distinct nodes,
    the gray nodes are those on the stack, each frame was pushed from the
    frame below, and every key of the graph has a colour. *)
Record core (g : JSMap.t (list string)) (col : string -> option colour)
    (stk : astack) : Prop := {
  core_nodup : NoDup (map fst stk);
  core_gray : forall x, col x = Some GRAY <-> x ∈ map fst stk;
  core_linked : linked g stk;
  core_keys : forall k, k ∈ JSMap.keys g -> col k ≠ None;
}.

(** A colour map after node [d] was given colour [c]. *)
Definition recoloured (col col' : string -> option colour) (d : string) (c : colour)
    : Prop :=
  forall x, col' x = if String.eqb d x then Some c else col x.

(** A property of the colours, the stack and the cycles reported so far that
    every step of a search keeps: the start from a node, an edge to an
    explored or uncoloured node, an edge to a gray node (reported), an edge
    to an undiscovered node (pushed), and the end of a frame (popped). *)
Record stable (g : JSMap.t (list string))
    (P : (string -> option colour) -> astack -> list (list string) -> Prop)
    : Prop := {
  stable_start : forall col col' s cyc,
    core g col [] -> P col [] cyc -> col s ≠ Some BLACK ->
    recoloured col col' s GRAY -> P col' [(s, 0)] cyc;
  stable_skip : forall col u i rest cyc d,
    core g col ((u, i) :: rest) -> P col ((u, i) :: rest) cyc ->
    depsOf g u !! i = Some d -> col d = Some BLACK ∨ col d = None ->
    P col ((u, S i) :: rest) cyc;
  stable_report : forall col u i rest cyc d,
    core g col ((u, i) :: rest) -> P col ((u, i) :: rest) cyc ->
    depsOf g u !! i = Some d -> col d = Some GRAY ->
    P col ((u, S i) :: rest)
      (cyc ++ [Validator.sliceFrom d (pathOf ((u, i) :: rest)) ++ [d]]);
  stable_push : forall col col' u i rest cyc d,
    core g col ((u, i) :: rest) -> P col ((u, i) :: rest) cyc ->
    depsOf g u !! i = Some d -> col d = Some WHITE ∨ col d = None ->
    recoloured col col' d GRAY -> P col' ((d, 0) :: (u, S i) :: rest) cyc;
  stable_pop : forall col col' u i rest cyc,
    core g col ((u, i) :: rest) -> P col ((u, i) :: rest) cyc ->
    depsOf g u !! i = None -> recoloured col col' u BLACK ->
    P col' rest cyc;
}.

(** The invariant of a search for such a property. *)
Definition inv (g : JSMap.t (list string))
    (P : (string -> option colour) -> astack -> list (list string) -> Prop)
    (col : string -> option colour) (stk : astack) (cyc : list (list string))
    : Prop :=
  core g col stk ∧ P col stk cyc.

(** Colours only move forward: white or none, then gray, then black. *)
Definition rank (c : option colour) : nat :=
  match c with
  | Some GRAY => 1
  | Some BLACK => 2
  | _ => 0
  end.

Definition advances (col col' : string -> option colour) : Prop :=
  forall x, rank (col x) <= rank (col' x).

(** The call stack of the validator's [dfs] as a stack of frames. *)
Definition validatorStack (cs : list Validator.frame) : astack :=
  map (fun fr => (Validator.node fr, Validator.childIdx fr)) cs.

(** The state of the validator's [dfs] satisfies the invariant and its
    [path] array is the path of its call stack. *)
Definition validatorInv (g : JSMap.t (list string))
    (P : (string -> option colour) -> astack -> list (list string) -> Prop)
    (st : Validator.dfsState) : Prop :=
  inv g P (JSMap.get (Validator.color st))
      (validatorStack (Validator.callStack st)) (Validator.cycles st)
  ∧ Validator.path st = pathOf (validatorStack (Validator.callStack st)).

(** The stack of the sync scripts' [dfs] as a stack of frames. *)
Definition syncStack (cs : list Figma.frame) : astack :=
  map (fun fr => (Figma.node fr, Figma.edgeIdx fr)) cs.

(** Every frame carries the path down to the bottom of the stack. *)
Fixpoint framesOk (cs : list Figma.frame) : Prop :=
  match cs with
  | [] => True
  | fr :: below => Figma.path fr = pathOf (syncStack cs) ∧ framesOk below
  end.

(** The state of the sync scripts' [dfs] satisfies the invariant, its frames
    carry their paths and its colour map names each node once. *)
Definition syncInv (g : JSMap.t (list string))
    (P : (string -> option colour) -> astack -> list (list string) -> Prop)
    (st : Figma.dfsState) : Prop :=
  inv g P (JSMap.get (Figma.color st))
      (syncStack (Figma.stack st)) (Figma.cycles st)
  ∧ framesOk (Figma.stack st)
  ∧ NoDup (JSMap.keys (Figma.color st)).

(** A colour map that only gained names, after those it had. *)
Definition extends (col col' : JSMap.t colour) : Prop :=
  exists extra, JSMap.keys col' = JSMap.keys col ++ extra.

(** A reported cycle: the names of a cycle of the graph in path order, the
    first one repeated at the end. *)
Definition closedCycle (g : JSMap.t (list string)) (c : list string) : Prop :=
  exists x p, c = (x :: p) ++ [x] ∧ simpleCycle g (x :: p).

(** No name reaches itself through references. *)
Definition acyclic (g : JSMap.t (list string)) : Prop :=
  forall p, ~ simpleCycle g p.

(** The property kept by every search: what is reported is a cycle. *)
Definition reported (g : JSMap.t (list string)) (col : string -> option colour)
    (stk : astack) (cyc : list (list string)) : Prop :=
  Forall (closedCycle g) cyc.

End Cycles.

(** The table of rule 3 as the specification words it: the tiers a token of
    each tier may reference. *)
Module TierTable.
Import Validator.

Definition allowed (tokenTier depTier : tier) : bool :=
  match tokenTier, depTier with
  | primitive, _ => false
  | semantic, primitive => true
  | component, semantic => true
  | component, base => true
  | base, semantic => true
  | unknown, _ => true
  | _, _ => false
  end.

(** Every reference of every definition is allowed by the table. *)
Definition respected (defs : JSMap.t tokenDef) : bool :=
  forallb (fun '(name, d) =>
      forallb (fun dep => allowed (getTier name) (getTier dep)) (refs d)) defs.

End TierTable.

Module Scope.

(** The variables of [parseCSS] (validator) after the first [n] lines. *)
Definition validatorAfter (lines : list string) (n : nat) : Validator.parseState :=
  Validator.parseLines Validator.parseInit 0 (take n lines).

(** Line [i] is, for the validator's parser, a definition of [name] with value
    [v] inside the root scope: after the line has been processed the parser is
    in [:root] and the line matches the declaration pattern. *)
Definition validatorDefinesAt (lines : list string) (i : nat) (name v : string) : Prop :=
  exists line,
    lines !! i = Some line
    ∧ Validator.inRoot (validatorAfter lines (S i)) = true
    ∧ JS.matchDeclaration (JS.trim line) = Some (name, v).

(** The same for [parseCSSTokens] of the sync scripts. *)
Definition syncAfter (lines : list string) (n : nat) : Figma.parseState :=
  Figma.parseLines Figma.parseInit 0 (take n lines).

Definition syncDefinesAt (lines : list string) (i : nat) (name v : string) : Prop :=
  exists line,
    lines !! i = Some line
    ∧ Figma.inRoot (syncAfter lines (S i)) = true
    ∧ JS.matchDeclaration (JS.trim line) = Some (name, v).

End Scope.

(* ========================================================================= *)
(** ** Sample inputs used by the concrete instances below *)
(* ========================================================================= *)

Module Samples.

Definition nl : string := String (JS.ch 10) "".

Definition lines (l : list string) : string :=
  fold_right (fun x acc => x +:+ nl +:+ acc) "" l.

(** A stylesheet with three primitives in its root scope. *)
Definition css3 : string :=
  lines [":root {"; "  --primitive-a: 1;"; "  --primitive-c: 3;"; "}"].

(** An export that changes [--primitive-a] and adds [--primitive-b]. *)
Definition export2 : Figma.export :=
  Figma.TokensArray
    [{| Figma.rawName := Some "primitive.a"; Figma.rawValue := Some "5" |};
     {| Figma.rawName := Some "primitive.b"; Figma.rawValue := Some "2" |}].

Definition tokens2 : list Figma.figmaToken :=
  [{| Figma.cssName := "--primitive-a"; Figma.cssValue := "5";
      Figma.figmaName := "primitive.a"; Figma.figmaValue := "5";
      Figma.tier := Some Figma.primitive |};
   {| Figma.cssName := "--primitive-b"; Figma.cssValue := "2";
      Figma.figmaName := "primitive.b"; Figma.figmaValue := "2";
      Figma.tier := Some Figma.primitive |}].

(** A registry file that overrides [--primitive-c] and has one changelog
    entry. *)
Definition registryC : Apply.registryFile :=
  Apply.ParsedRegistry (Some {[ "--primitive-c" := "7" ]}) (Some [])
    (Some [{| Apply.ceAction := Apply.add; Apply.ceToken := "--primitive-c";
              Apply.ceValue := Some "7"; Apply.prev := None |}]).

(** A stylesheet that defines [--primitive-a] twice in its root scope. *)
Definition cssTwice : string :=
  lines [":root {"; "  --primitive-a: 1;"; "  --primitive-a: 2;"; "}"].

(** A parsed stylesheet token set and a batch with the same names and values
    (in another order). *)
Definition cssPair : JSMap.t Figma.cssToken :=
  [("--primitive-a", {| Figma.value := "1"; Figma.line := 2 |});
   ("--semantic-b", {| Figma.value := "var(--primitive-a)"; Figma.line := 3 |})].

Definition figmaPair : list Figma.figmaToken :=
  [{| Figma.cssName := "--semantic-b"; Figma.cssValue := "var(--primitive-a)";
      Figma.figmaName := "semantic.b"; Figma.figmaValue := "{primitive.a}";
      Figma.tier := Some Figma.semantic |};
   {| Figma.cssName := "--primitive-a"; Figma.cssValue := "1";
      Figma.figmaName := "primitive.a"; Figma.figmaValue := "1";
      Figma.tier := Some Figma.primitive |}].

(** A stylesheet without tokens and an export of three new primitives. *)
Definition cssEmpty : string := lines [":root {"; "}"].

Definition export3 : Figma.export :=
  Figma.TokensArray
    [{| Figma.rawName := Some "primitive.x"; Figma.rawValue := Some "1" |};
     {| Figma.rawName := Some "primitive.y"; Figma.rawValue := Some "2" |};
     {| Figma.rawName := Some "primitive.z"; Figma.rawValue := Some "3" |}].


(** A stylesheet whose tokens hold the two-token cycle between
    [--semantic-a] and [--semantic-b], and its dependency graph. *)
Definition cssCycle : string :=
  lines [":root {"; "  --primitive-p: 4px;";
         "  --semantic-a: calc(var(--primitive-p) + var(--semantic-b));";
         "  --semantic-b: var(--semantic-a);";
         "  --component-c: var(--semantic-a);"; "}"].

Definition cycleGraph : JSMap.t (list string) :=
  Validator.buildGraph (Validator.tokenDefs (Validator.parseCSS cssCycle)).

(** A stylesheet with the two-token cycle between [--semantic-a] and
    [--semantic-b] alone, in which the value of [--semantic-b] names
    [--semantic-a] twice. *)
Definition cssRepeated : string :=
  lines [":root {"; "  --semantic-a: var(--semantic-b);";
         "  --semantic-b: calc(var(--semantic-a) + var(--semantic-a));"; "}"].

Definition repeatedGraph : JSMap.t (list string) :=
  [("--semantic-a", ["--semantic-b"]);
   ("--semantic-b", ["--semantic-a"; "--semantic-a"])].

(** A stylesheet whose tokens respect the tiers and hold no cycle, and its
    dependency graph. *)
Definition cssChain : string :=
  lines [":root {"; "  --primitive-p: 4px;";
         "  --semantic-a: var(--primitive-p);";
         "  --component-c: var(--semantic-a);"; "}"].

Definition chainGraph : JSMap.t (list string) :=
  Validator.buildGraph (Validator.tokenDefs (Validator.parseCSS cssChain)).

(** A stylesheet whose semantic token references a primitive that is not
    defined. *)
Definition cssMissing : string :=
  lines [":root {"; "  --semantic-a: var(--primitive-missing);"; "}"].

(** A batch of a primitive, a semantic token that references it and a
    component token that references the semantic one. *)
Definition exportChain : Figma.export :=
  Figma.TokensArray
    [{| Figma.rawName := Some "primitive.a"; Figma.rawValue := Some "1" |};
     {| Figma.rawName := Some "semantic.b"; Figma.rawValue := Some "{primitive.a}" |};
     {| Figma.rawName := Some "component.c"; Figma.rawValue := Some "{semantic.b}" |}].

(** A stylesheet that has the first two tokens of that batch, with the same
    values. *)
Definition cssFirstTwo : string :=
  lines [":root {"; "  --primitive-a: 1;"; "  --semantic-b: var(--primitive-a);"; "}"].

(** An operator who accepts at the first question and quits at the second. *)
Definition acceptThenQuit (n : nat) : string :=
  match n with
  | 0 => "y"
  | 1 => "q"
  | _ => "a"
  end.

(** An operator who accepts at the first question and interrupts at the
    second. *)
Definition acceptThenInterrupt (n : nat) : Run.input :=
  match n with
  | 0 => Run.Line "y"
  | _ => Run.Interrupt
  end.

End Samples.


(* ========================================================================= *)
(** ** Vocabulary of the further properties *)
(* ========================================================================= *)

(** The order in which a search finishes the nodes. *)
Module Explored.
Import Cycles.

(** The nodes finished so far, the latest first: each was finished after
    every key of the graph it references. *)
Fixpoint ordered (g : JSMap.t (list string)) (fin : list string) : Prop :=
  match fin with
  | [] => True
  | u :: r =>
      (forall d, d ∈ depsOf g u -> d ∈ JSMap.keys g -> d ∈ r)
      ∧ (u ∉ r) ∧ ordered g r
  end.

(** How late a node was finished; 0 for a node that is not finished. *)
Fixpoint pos (fin : list string) (x : string) : nat :=
  match fin with
  | [] => 0
  | u :: r => if String.eqb u x then S (length r) else pos r x
  end.

(** The edges the frame of [u] has examined lead to finished nodes, or to the
    node of the frame [above] it (keys of the graph only: other names have no
    edge). *)
Definition frameDone (g : JSMap.t (list string)) (fin : list string)
    (above : option string) (u : string) (i : nat) : Prop :=
  forall j d, j < i -> depsOf g u !! j = Some d -> d ∈ JSMap.keys g ->
    d ∈ fin ∨ above = Some d.

Fixpoint stackDone (g : JSMap.t (list string)) (fin : list string)
    (above : option string) (stk : astack) : Prop :=
  match stk with
  | [] => True
  | (u, i) :: rest => frameDone g fin above u i ∧ stackDone g fin (Some u) rest
  end.

(** As long as nothing is reported, the black nodes are finished in an order
    that follows the references. *)
Definition unreported (g : JSMap.t (list string)) (col : string -> option colour)
    (stk : astack) (cyc : list (list string)) : Prop :=
  cyc ≠ []
  ∨ (exists fin, ordered g fin
                 ∧ (forall x, col x = Some BLACK <-> x ∈ fin)
                 ∧ stackDone g fin None stk).

End Explored.

(** Stylesheets that the two parsers read alike. *)
Module Plain.

(** A line the validator skips (blank, or starting a comment) holds as many
    opening as closing braces, and a line that opens the root scope holds
    exactly one more opening than closing brace. *)
Definition plainLine (line : string) : bool :=
  let t := JS.trim line in
  let opens := JS.countChar "{" line in
  let closes := JS.countChar "}" line in
  (if String.eqb t "" || JS.startsWith t "/*" || JS.startsWith t "//"
   then Nat.eqb opens closes else true)
  && (if JS.matchRootOpen t then Nat.eqb opens (S closes) else true).

Definition plain (css : string) : bool :=
  forallb plainLine (JS.splitChar "010" css).

(** The two parsers are at the same depth and agree on being in the root
    scope; inside it the validator remembers the depth after the opening
    brace, the sync parser the depth before it. *)
Definition coupled (sv : Validator.parseState) (sf : Figma.parseState) : Prop :=
  Validator.braceDepth sv = Figma.braceDepth sf
  ∧ Validator.inRoot sv = Figma.inRoot sf
  ∧ (Figma.inRoot sf = true ->
     Validator.rootDepth sv = (Figma.rootDepth sf + 1)%Z
     ∧ (Figma.rootDepth sf < Figma.braceDepth sf)%Z).

End Plain.

(** What the validator's parser keeps true of its variables. *)
Module ParserInv.
Import Validator.

(** After [n] lines: the definitions name each token once, hold the
    references of their value and a line number up to [n]; the usages hold
    each name once; the primitive usages are usages of primitive names, and
    every usage of a primitive name is among them. *)
Definition invariant (st : parseState) (n : nat) : Prop :=
  NoDup (JSMap.keys (tokenDefs st))
  ∧ (forall name d, (name, d) ∈ tokenDefs st ->
       refs d = extractVarRefs (value d) ∧ 1 <= line d <= n)
  ∧ NoDup (ruleUsages st)
  ∧ (forall u, u ∈ primInRules st ->
       puToken u ∈ ruleUsages st ∧ getTier (puToken u) = primitive
       ∧ 1 <= puLine u <= n)
  ∧ (forall x, x ∈ ruleUsages st -> getTier x = primitive ->
       exists u, u ∈ primInRules st ∧ puToken u = x).

End ParserInv.

(** What a diff compares. *)
Module DiffView.
Import Figma.

(** The value a batch gives a name: that of the last token with this name. *)
Fixpoint batchValue (figma : list figmaToken) (k : string) : option string :=
  match figma with
  | [] => None
  | t :: r =>
      match batchValue r k with
      | Some v => Some v
      | None => if String.eqb (cssName t) k then Some (cssValue t) else None
      end
  end.

(** The stylesheet token of a name, when its tier is one an export may
    manage. *)
Definition cssManaged (css : JSMap.t cssToken) (k : string) : option cssToken :=
  if manageable k then JSMap.get css k else None.

End DiffView.

(** What a merge leaves in the registry. *)
Module MergeView.

(** The value the last entry named [k] gives, if there is one. *)
Fixpoint lastOf {A} (nameOf valueOf : A -> string) (items : list A) (k : string)
    : option string :=
  match items with
  | [] => None
  | x :: r =>
      match lastOf nameOf valueOf r k with
      | Some v => Some v
      | None => if String.eqb (nameOf x) k then Some (valueOf x) else None
      end
  end.

End MergeView.

(** Character classes of a whole string. *)
Module Text.

Fixpoint every (p : ascii -> bool) (s : string) : bool :=
  match s with
  | EmptyString => true
  | String c r => p c && every p r
  end.

(** No character that [.] of a regular expression refuses. *)
Definition oneLine (s : string) : bool :=
  every (fun c => negb (JS.isLineTerminator c)) s.

(** A dotted name made of the characters of a custom property name, with dots
    between its segments. *)
Definition dottedName (s : string) : bool :=
  every (fun c => JS.isNameChar c || Ascii.eqb c ".") s.

(** The number of segments of a dotted name. *)
Definition segments (s : string) : nat := length (JS.splitChar "." s).

(** The last character of a text. *)
Fixpoint lastChar (s : string) : option ascii :=
  match s with
  | EmptyString => None
  | String c r => match lastChar r with Some x => Some x | None => Some c end
  end.

(** A custom property name: two dashes and at least one name character. *)
Definition customProperty (s : string) : bool :=
  match s with
  | String "-" (String "-" (String c r)) => every JS.isNameChar (String c r)
  | _ => false
  end.

(** A value that a declaration holds as it is: on one line, without
    semicolon or brace, beginning and ending with a character that is no
    white space. *)
Definition valueChar (c : ascii) : bool :=
  negb (JS.isLineTerminator c) && negb (Ascii.eqb c ";")
  && negb (Ascii.eqb c "{") && negb (Ascii.eqb c "}").

Definition plainValue (v : string) : bool :=
  every valueChar v
  && match v with
     | String c _ => negb (JS.isWhiteSpace c)
     | EmptyString => false
     end
  && match lastChar v with
     | Some c => negb (JS.isWhiteSpace c)
     | None => false
     end.

(** The first character of [s], if any, is none that [p] accepts. *)
Definition stopsAt (p : ascii -> bool) (s : string) : Prop :=
  match s with
  | String c _ => p c = false
  | EmptyString => True
  end.

(** [ref] is a custom property name that the text [v] holds after [var(]
    and white space, and that ends where the name characters end. *)
Definition occursAsVar (v ref : string) : Prop :=
  exists pre ws n post,
    v = pre +:+ "var(" +:+ ws +:+ ref +:+ post
    ∧ every JS.isWhiteSpace ws = true
    ∧ ref = "--" +:+ n ∧ n ≠ EmptyString ∧ every JS.isNameChar n = true
    ∧ stopsAt JS.isNameChar post.

End Text.

(** What a batch holds. *)
Module ExportView.
Import Figma.

(** The token [t] is the one made of the entry [e] of an export. *)
Definition tokenOf (e : rawEntry) (t : figmaToken) : Prop :=
  exists name val,
    rawName e = Some name ∧ JS.trim name ≠ EmptyString ∧ rawValue e = Some val
    ∧ figmaName t = name ∧ figmaValue t = val
    ∧ cssName t = figmaNameToCSSVar name ∧ cssValue t = figmaValueToCSS val
    ∧ tier t = getTierFromFigmaName name.

(** The entry has a name and a value. *)
Definition complete (e : rawEntry) : Prop :=
  (exists name, rawName e = Some name ∧ JS.trim name ≠ EmptyString)
  ∧ is_Some (rawValue e).

(** The references of a token: the one its value names, if it is a
    reference. *)
Definition depsOfToken (t : figmaToken) : list string :=
  match extractFigmaRef (figmaValue t) with
  | Some ref => [ref]
  | None => []
  end.

(** The references a batch gives a name: those of the last token with this
    name. *)
Fixpoint batchDeps (figma : list figmaToken) (k : string) : option (list string) :=
  match figma with
  | [] => None
  | t :: r =>
      match batchDeps r k with
      | Some d => Some d
      | None => if String.eqb (cssName t) k then Some (depsOfToken t) else None
      end
  end.

(** The tier rule of exports: the token has a tier, and a reference goes
    from a semantic token to a primitive or from a component to a semantic
    token. *)
Definition allowed (tokenTier refTier : tierName) : bool :=
  match tokenTier, refTier with
  | semantic, primitive => true
  | component, semantic => true
  | _, _ => false
  end.

Definition respects (t : figmaToken) : Prop :=
  exists tokenTier,
    tier t = Some tokenTier
    ∧ forall ref, extractFigmaRef (figmaValue t) = Some ref ->
        exists refTier,
          getTierFromCSSName ref = Some refTier ∧ allowed tokenTier refTier = true.

(** The tier the validator gives a name of the tier [t] of an export. *)
Definition validatorTier (t : option tierName) : Validator.tier :=
  match t with
  | Some primitive => Validator.primitive
  | Some semantic => Validator.semantic
  | Some component => Validator.component
  | Some base => Validator.base
  | None => Validator.unknown
  end.

End ExportView.

(** What a command line sets. *)
Module ArgsView.
Import Args.

(** What the loop of [parseArgs] on [args] changes in the options: a flag or
    value of the result that the options did not have comes from an argument. *)
Definition fromArgs (args : list string) (opts o : options) : Prop :=
  (yes o = true -> yes opts = true ∨ "--yes" ∈ args ∨ "-y" ∈ args)
  ∧ (scope o = scope opts
     ∨ (scope o = "attr"
        ∧ exists i, args !! i = Some "--scope" ∧ args !! S i = Some "attr"))
  ∧ (themeName o = themeName opts
     ∨ (themeName o ≠ EmptyString
        ∧ exists i, args !! i = Some "--theme" ∧ args !! S i = Some (themeName o)))
  ∧ (figmaFile o = figmaFile opts
     ∨ exists f, figmaFile o = Some f ∧ f ∈ args ∧ JS.startsWith f "-" = false)
  ∧ (outputDir o = outputDir opts
     ∨ exists v, outputDir o = Some v ∧ v ≠ EmptyString
                 ∧ exists i, args !! i = Some "--out" ∧ args !! S i = Some v).

End ArgsView.
(* ========================================================================= *)
(** * Properties *)
(* ========================================================================= *)

(** ** Sanity checks of the matchers *)

Example trim_ex : JS.trim "  --a: 1;  " = "--a: 1;".
Proof. reflexivity. Qed.

Example decl_ex1 :
  JS.matchDeclaration "--semantic-x :  var(--primitive-y) ; /* c */"
  = Some ("--semantic-x", "var(--primitive-y)").
Proof. reflexivity. Qed.

Example decl_ex2 : JS.matchDeclaration "--a: ;" = Some ("--a", " ").
Proof. reflexivity. Qed.

Example decl_ex3 : JS.matchDeclaration "--a:;" = None.
Proof. reflexivity. Qed.

Example refs_ex :
  JS.varRefsFrom 0 "calc(var(--a) + var( --b-c, var(--d)))" = ["--a"; "--b-c"; "--d"].
Proof. reflexivity. Qed.

Example braced_ex :
  JS.matchBraced "{primitive.color.blue}" = Some "primitive.color.blue".
Proof. reflexivity. Qed.

Example split_ex : JS.splitChar "." "base.focus.ring" = ["base"; "focus"; "ring"].
Proof. reflexivity. Qed.

Example lower_ex : JS.toLowerCase (JS.trim "  No ") = "no".
Proof. reflexivity. Qed.

(** ** Generic list facts *)

Lemma in_flat_map_intro {A B} (f : A -> list B) (l : list A) (x : A) (y : B) :
  x ∈ l -> y ∈ f x -> y ∈ flat_map f l.
Proof.
  intros Hx Hy. apply list_elem_of_In, in_flat_map.
  exists x. split; apply list_elem_of_In; assumption.
Qed.

Lemma Forall2_impl_elem {A B} (P Q : A -> B -> Prop) (l : list A) (k : list B) :
  Forall2 P l k -> (forall x y, x ∈ l -> P x y -> Q x y) -> Forall2 Q l k.
Proof.
  induction 1 as [|x y l k Hxy _ IH]; intros Himp; constructor.
  - apply Himp; [constructor | exact Hxy].
  - apply IH. intros x' y' Hx'. apply Himp. by constructor.
Qed.

(** ** The approval prompt *)

(** C10. At the approval prompt the answer is trimmed and lower-cased; it
    resolves to [yes] (acceptance of the presented entry) exactly when it is
    none of a, s, q, n, no; in particular the empty answer is accepted, and
    [no] (rejection) is returned only for n or no. *)
Theorem prompt_defaults_to_yes (operator : nat -> string)
    (kind : Apply.category) (name : string) (c : Apply.console) :
  let answer := operator (Apply.asked c) in
  let a := JS.toLowerCase (JS.trim answer) in
  let d := fst (Apply.prompt operator kind name c) in
  (d = Apply.yes <-> a ≠ "a" ∧ a ≠ "s" ∧ a ≠ "q" ∧ a ≠ "n" ∧ a ≠ "no")
  ∧ (d = Apply.no <-> a = "n" ∨ a = "no")
  ∧ (d = Apply.all <-> a = "a")
  ∧ (d = Apply.skip <-> a = "s")
  ∧ (d = Apply.quit <-> a = "q")
  ∧ Apply.decide_answer "" = Apply.yes.
Proof.
  cbn zeta. unfold Apply.prompt; cbn [fst]. unfold Apply.decide_answer.
  set (a := JS.toLowerCase (JS.trim (operator (Apply.asked c)))).
  destruct (String.eqb_spec a "a") as [->|Ha]; [cbn; intuition congruence|].
  destruct (String.eqb_spec a "s") as [->|Hs]; [cbn; intuition congruence|].
  destruct (String.eqb_spec a "q") as [->|Hq]; [cbn; intuition congruence|].
  destruct (String.eqb_spec a "n") as [->|Hn]; [cbn; intuition congruence|].
  destruct (String.eqb_spec a "no") as [->|Hno]; cbn; intuition congruence.
Qed.

(** ** The tier rule *)

Lemma getTier_primitive (name : string) :
  JS.startsWith name "--primitive-" = true -> Validator.getTier name = Validator.primitive.
Proof. intros H. unfold Validator.getTier. rewrite H. reflexivity. Qed.

(** C2. Every reference in the value of a definition whose name has the
    primitive prefix is reported by [findTierViolations], whatever the tier of
    the referenced name, and [main] lists it among its errors. *)
Theorem primitive_reference_is_violation (defs : JSMap.t Validator.tokenDef)
    (name : string) (d : Validator.tokenDef) (dep : string) :
  (name, d) ∈ defs ->
  JS.startsWith name "--primitive-" = true ->
  dep ∈ Validator.refs d ->
  let v := {| Validator.token := name; Validator.dep := dep;
              Validator.tokenTier := Validator.primitive;
              Validator.depTier := Validator.getTier dep;
              Validator.tvLine := Validator.line d |} in
  v ∈ Validator.findTierViolations defs
  ∧ forall css, defs = Validator.tokenDefs (Validator.parseCSS css) ->
      Validator.TierViolation v ∈ Validator.errors (Validator.validate css)
      ∧ Validator.exitCode (Validator.main (Validator.Stylesheet css)) = 1%Z.
Proof.
  intros Hin Hprim Hdep v.
  assert (Hv : v ∈ Validator.findTierViolations defs).
  { unfold Validator.findTierViolations.
    apply (in_flat_map_intro _ _ (name, d)); [exact Hin|].
    unfold Validator.violationsOf.
    rewrite (getTier_primitive _ Hprim). cbn.
    apply list_elem_of_fmap. exists dep. split; [reflexivity | exact Hdep]. }
  split; [exact Hv|].
  intros css ->.
  assert (He : Validator.TierViolation v
               ∈ Validator.errors (Validator.validate css)).
  { unfold Validator.validate; cbn [Validator.errors].
    apply elem_of_app; right. apply elem_of_app; right. apply elem_of_app; left.
    apply list_elem_of_fmap. exists v. split; [reflexivity | exact Hv]. }
  split; [exact He|].
  unfold Validator.main; cbn [Validator.exitCode].
  destruct (Validator.errors (Validator.validate css)) as [|e es] eqn:E.
  - apply elem_of_nil in He. destruct He.
  - reflexivity.
Qed.

Lemma primitive_reference_is_violation_witness :
  let d := {| Validator.value := "var(--semantic-b)";
              Validator.refs := ["--semantic-b"];
              Validator.line := 2; Validator.layer := None |} in
  let defs := [("--primitive-a", d)] in
  let v := {| Validator.token := "--primitive-a"; Validator.dep := "--semantic-b";
              Validator.tokenTier := Validator.primitive;
              Validator.depTier := Validator.semantic;
              Validator.tvLine := 2 |} in
  ("--primitive-a", d) ∈ defs
  ∧ JS.startsWith "--primitive-a" "--primitive-" = true
  ∧ "--semantic-b" ∈ Validator.refs d
  ∧ v ∈ Validator.findTierViolations defs.
Proof.
  cbn zeta.
  split; [constructor|].
  split; [reflexivity|].
  split; [constructor|].
  refine (proj1 (primitive_reference_is_violation
           [("--primitive-a",
             {| Validator.value := "var(--semantic-b)";
                Validator.refs := ["--semantic-b"];
                Validator.line := 2; Validator.layer := None |})]
           "--primitive-a"
           {| Validator.value := "var(--semantic-b)";
              Validator.refs := ["--semantic-b"];
              Validator.line := 2; Validator.layer := None |}
           "--semantic-b" _ _ _));
    [constructor | reflexivity | constructor].
Defined.

(** ** The exit rule of the validator *)

(** C3. When [main] reaches the end of the validation its exit code is 0
    exactly when the compiled error list is empty and 1 otherwise; the code is
    a function of the error list alone, so the warnings play no part. *)
Theorem exit_code_reflects_errors (css : string) :
  let o := Validator.main (Validator.Stylesheet css) in
  let r := Validator.validate css in
  Validator.printed o = Some r
  ∧ (Validator.exitCode o = 0%Z <-> Validator.errors r = [])
  ∧ (Validator.exitCode o = 1%Z <-> Validator.errors r ≠ [])
  ∧ Validator.exitCode o
    = match Validator.errors r with [] => 0%Z | _ :: _ => 1%Z end.
Proof.
  cbn zeta. unfold Validator.main; cbn [Validator.printed Validator.exitCode].
  destruct (Validator.errors (Validator.validate css)) as [|e es]; cbn.
  - repeat split; try reflexivity; try congruence; intros; lia.
  - repeat split; try reflexivity; try congruence; intros; lia.
Qed.

(** ** The tier validation of external batches *)

Lemma getTierFromFigmaName_invalid (n : string) :
  Figma.firstSegment n ≠ "primitive" ->
  Figma.firstSegment n ≠ "semantic" ->
  Figma.firstSegment n ≠ "component" ->
  Figma.getTierFromFigmaName n = None.
Proof.
  intros H1 H2 H3. unfold Figma.getTierFromFigmaName.
  destruct (String.eqb_spec (Figma.firstSegment n) "primitive"); [contradiction|].
  destruct (String.eqb_spec (Figma.firstSegment n) "semantic"); [contradiction|].
  destruct (String.eqb_spec (Figma.firstSegment n) "component"); [contradiction|].
  reflexivity.
Qed.

Lemma parseEntry_name (idx : nat) (e : Figma.rawEntry) (t : Figma.figmaToken) (n : string) :
  Figma.parseEntry idx e = inr t -> Figma.rawName e = Some n ->
  Figma.figmaName t = n ∧ Figma.tier t = Figma.getTierFromFigmaName n.
Proof.
  unfold Figma.parseEntry. intros H Hn. rewrite Hn in H.
  destruct (String.eqb (JS.trim n) ""); [discriminate|].
  destruct (Figma.rawValue e); [|discriminate].
  injection H as <-. split; reflexivity.
Qed.

Lemma parseEntries_elem (entries : list Figma.rawEntry) :
  forall idx tokens e n,
    Figma.parseEntries idx entries = inr tokens ->
    e ∈ entries -> Figma.rawName e = Some n ->
    exists t, t ∈ tokens ∧ Figma.figmaName t = n
              ∧ Figma.tier t = Figma.getTierFromFigmaName n.
Proof.
  induction entries as [|e0 rest IH]; intros idx tokens e n Hp He Hn.
  - apply elem_of_nil in He. destruct He.
  - cbn in Hp.
    destruct (Figma.parseEntry idx e0) as [err|t0] eqn:E0; [discriminate|].
    destruct (Figma.parseEntries (S idx) rest) as [err|ts] eqn:Er; [discriminate|].
    injection Hp as <-.
    apply elem_of_cons in He as [->|He].
    + exists t0. destruct (parseEntry_name _ _ _ _ E0 Hn) as [H1 H2].
      split; [constructor | split; assumption].
    + destruct (IH _ _ _ _ Er He Hn) as [t [Ht [H1 H2]]].
      exists t. split; [by constructor | split; assumption].
Qed.

Lemma unknown_tier_reported (tokens : list Figma.figmaToken) (t : Figma.figmaToken) :
  t ∈ tokens -> Figma.tier t = None ->
  Figma.UnknownTier (Figma.figmaName t) ∈ Figma.validateFigmaTiers tokens.
Proof.
  intros Ht Htier. unfold Figma.validateFigmaTiers.
  apply (in_flat_map_intro _ _ t); [exact Ht|].
  unfold Figma.validateToken. rewrite Htier. constructor.
Qed.

Lemma nonempty_has_length {A} (x : A) (l l' : list A) :
  x ∈ l -> (0 <? length (l ++ l')) = true.
Proof.
  intros Hx. destruct l as [|y l]; [apply elem_of_nil in Hx; destruct Hx|].
  reflexivity.
Qed.

(** C4. A batch holding a token whose first name segment is not primitive,
    semantic or component never reaches the diff: the dry run exits with 1 and
    prints no diff, the validation of a batch that parses reports the
    unknown tier, and the apply run exits with 1 having asked nothing and
    written nothing. *)
Theorem invalid_tier_rejects_batch (css : string) (entries : list Figma.rawEntry)
    (e : Figma.rawEntry) (n : string) :
  e ∈ entries ->
  Figma.rawName e = Some n ->
  Figma.firstSegment n ≠ "primitive" ->
  Figma.firstSegment n ≠ "semantic" ->
  Figma.firstSegment n ≠ "component" ->
  let batch := Some (Figma.TokensArray entries) in
  let o := DryRun.main (Some css) batch in
  DryRun.exitCode o = 1%Z
  ∧ (forall r, DryRun.printed o = Some r ->
       DryRun.diffResult r = None ∧ Figma.UnknownTier n ∈ DryRun.archErrors r)
  ∧ (forall tokens, Figma.parseFigmaExport (Figma.TokensArray entries) = inr tokens ->
       Figma.UnknownTier n ∈ Figma.validateFigmaTiers tokens)
  ∧ (forall optYes operator regFile,
       Apply.main optYes operator (Some css) batch regFile
       = Apply.stop 1 {| Apply.asked := 0; Apply.shown := [] |}).
Proof.
  intros He Hn H1 H2 H3 batch o.
  assert (Hval : forall tokens,
             Figma.parseFigmaExport (Figma.TokensArray entries) = inr tokens ->
             Figma.UnknownTier n ∈ Figma.validateFigmaTiers tokens).
  { intros tokens Hp. cbn in Hp.
    destruct (parseEntries_elem _ _ _ _ _ Hp He Hn) as [t [Ht [Hname Htier]]].
    rewrite <- Hname. apply unknown_tier_reported; [exact Ht|].
    rewrite Htier. apply getTierFromFigmaName_invalid; assumption. }
  subst o batch. unfold DryRun.main, Apply.main.
  destruct (Figma.parseFigmaExport (Figma.TokensArray entries)) as [err|tokens] eqn:Ep.
  - cbn. repeat split; intros; try discriminate; try reflexivity.
  - pose proof (Hval tokens eq_refl) as Hin.
    rewrite (nonempty_has_length _ _ _ Hin). cbn.
    split; [reflexivity|]. split.
    + intros r Hr. injection Hr as <-. cbn. split; [reflexivity|].
      apply elem_of_app. left. exact Hin.
    + split; [exact Hval | reflexivity].
Qed.

Lemma invalid_tier_rejects_batch_witness :
  let e := {| Figma.rawName := Some "base.focus.ring.color";
              Figma.rawValue := Some "#ffffff" |} in
  let ok := {| Figma.rawName := Some "primitive.color.blue.600";
               Figma.rawValue := Some "#2563eb" |} in
  e ∈ [ok; e]
  ∧ Figma.firstSegment "base.focus.ring.color" = "base"
  ∧ DryRun.exitCode
      (DryRun.main (Some ":root {") (Some (Figma.TokensArray [ok; e]))) = 1%Z.
Proof.
  cbn zeta.
  split; [apply list_elem_of_further, list_elem_of_here|].
  split; [reflexivity|].
  refine (proj1 (invalid_tier_rejects_batch ":root {"
            [{| Figma.rawName := Some "primitive.color.blue.600";
                Figma.rawValue := Some "#2563eb" |};
             {| Figma.rawName := Some "base.focus.ring.color";
                Figma.rawValue := Some "#ffffff" |}]
            {| Figma.rawName := Some "base.focus.ring.color";
               Figma.rawValue := Some "#ffffff" |}
            "base.focus.ring.color" _ _ _ _ _)).
  - apply list_elem_of_further, list_elem_of_here.
  - reflexivity.
  - vm_compute. discriminate.
  - vm_compute. discriminate.
  - vm_compute. discriminate.
Defined.

(** ** Facts about [JSMap] *)

Section JSMapFacts.
Context {V : Type}.
Implicit Types (m : JSMap.t V) (k : string) (v : V).

Lemma jsmap_get_set_eq m k v : JSMap.get (JSMap.set m k v) k = Some v.
Proof.
  induction m as [|[k' v'] m IH]; cbn.
  - by rewrite String.eqb_refl.
  - destruct (String.eqb_spec k' k) as [->|Hne]; cbn.
    + by rewrite String.eqb_refl.
    + destruct (String.eqb_spec k' k); [contradiction | exact IH].
Qed.

Lemma jsmap_get_set_ne m k k' v :
  k ≠ k' -> JSMap.get (JSMap.set m k v) k' = JSMap.get m k'.
Proof.
  intros Hne. induction m as [|[k0 v0] m IH]; cbn.
  - destruct (String.eqb_spec k k'); [contradiction | reflexivity].
  - destruct (String.eqb_spec k0 k) as [->|Hk]; cbn.
    + destruct (String.eqb_spec k k'); [contradiction | reflexivity].
    + destruct (String.eqb_spec k0 k'); [reflexivity | exact IH].
Qed.

Lemma jsmap_get_None m k : JSMap.get m k = None <-> k ∉ JSMap.keys m.
Proof.
  induction m as [|[k0 v0] m IH]; cbn.
  - split; [intros _; apply not_elem_of_nil | reflexivity].
  - destruct (String.eqb_spec k0 k) as [->|Hk].
    + split; [discriminate | intros H; exfalso; apply H; constructor].
    + rewrite IH, not_elem_of_cons. intuition congruence.
Qed.

Lemma jsmap_get_Some_elem m k v : JSMap.get m k = Some v -> (k, v) ∈ m.
Proof.
  induction m as [|[k0 v0] m IH]; cbn; [discriminate|].
  destruct (String.eqb_spec k0 k) as [->|Hk].
  - intros [= ->]. constructor.
  - intros H. apply list_elem_of_further, IH, H.
Qed.

Lemma jsmap_has_true m k : JSMap.has m k = true <-> k ∈ JSMap.keys m.
Proof.
  unfold JSMap.has. destruct (JSMap.get m k) eqn:E.
  - split; [intros _|reflexivity].
    destruct (decide (k ∈ JSMap.keys m)) as [|Hn]; [assumption|].
    apply jsmap_get_None in Hn. congruence.
  - apply jsmap_get_None in E. split; [discriminate | contradiction].
Qed.

Lemma jsmap_has_false m k : JSMap.has m k = false <-> k ∉ JSMap.keys m.
Proof.
  rewrite <- jsmap_has_true. destruct (JSMap.has m k); intuition congruence.
Qed.

Lemma jsmap_keys_set_in m k v :
  k ∈ JSMap.keys m -> JSMap.keys (JSMap.set m k v) = JSMap.keys m.
Proof.
  induction m as [|[k0 v0] m IH]; cbn.
  - intros H. apply elem_of_nil in H. destruct H.
  - destruct (String.eqb_spec k0 k) as [->|Hk]; [reflexivity|].
    intros H. apply elem_of_cons in H as [->|H]; [contradiction|].
    cbn. f_equal. apply IH, H.
Qed.

Lemma jsmap_keys_set_notin m k v :
  k ∉ JSMap.keys m -> JSMap.keys (JSMap.set m k v) = JSMap.keys m ++ [k].
Proof.
  induction m as [|[k0 v0] m IH]; cbn; [reflexivity|].
  intros H. apply not_elem_of_cons in H as [Hk H].
  destruct (String.eqb_spec k0 k) as [->|_]; [contradiction|].
  cbn. f_equal. apply IH, H.
Qed.

Lemma jsmap_keys_set_elem m k k' v :
  k' ∈ JSMap.keys (JSMap.set m k v) <-> k' = k ∨ k' ∈ JSMap.keys m.
Proof.
  destruct (decide (k ∈ JSMap.keys m)) as [Hin|Hn].
  - rewrite jsmap_keys_set_in by assumption. intuition congruence.
  - rewrite jsmap_keys_set_notin by assumption.
    rewrite elem_of_app, list_elem_of_singleton. intuition congruence.
Qed.

Lemma jsmap_keys_set_NoDup m k v :
  NoDup (JSMap.keys m) -> NoDup (JSMap.keys (JSMap.set m k v)).
Proof.
  intros Hnd. destruct (decide (k ∈ JSMap.keys m)) as [Hin|Hn].
  - by rewrite jsmap_keys_set_in.
  - rewrite jsmap_keys_set_notin by assumption.
    apply NoDup_app. split; [assumption|]. split.
    + intros x Hx Hx'. apply list_elem_of_singleton in Hx'. by subst.
    + apply NoDup_singleton.
Qed.

Lemma jsmap_length_set m k v :
  length (JSMap.set m k v) = length m + (if JSMap.has m k then 0 else 1).
Proof.
  unfold JSMap.has. induction m as [|[k0 v0] m IH]; cbn; [reflexivity|].
  destruct (String.eqb_spec k0 k) as [->|Hk]; cbn; [lia|].
  rewrite IH. destruct (JSMap.get m k); lia.
Qed.
End JSMapFacts.

(** ** The registry merge *)

Section MergeFacts.
Import Apply Log.
Implicit Types (tk : gmap string string) (rs : JSSet.t) (cl : list changeEntry).

Lemma fold_mergeAdded items : forall tk rs cl,
  exists tk' rs' la,
    fold_left mergeAdded items (tk, rs, cl) = (tk', rs', cl ++ la)
    ∧ Forall2 addedEntryOf items la
    ∧ (forall k, k ∉ map Figma.aName items -> tk' !! k = tk !! k)
    ∧ (NoDup (map Figma.aName items) ->
         Forall2 (fun item e => prev e = orNull (tk !! Figma.aName item)) items la).
Proof.
  induction items as [|item items IH]; intros tk rs cl.
  - exists tk, rs, []. cbn. rewrite app_nil_r.
    repeat split; auto; constructor.
  - cbn [fold_left mergeAdded].
    destruct (IH (<[Figma.aName item := Figma.aFigmaValue item]> tk)
                 (JSSet.delete rs (Figma.aName item))
                 (cl ++ [{| ceAction := add; ceToken := Figma.aName item;
                            ceValue := Some (Figma.aFigmaValue item);
                            prev := orNull (tk !! Figma.aName item) |}]))
      as (tk' & rs' & la & Hf & Hall & Hfr & Hprev).
    eexists tk', rs', (_ :: la). rewrite Hf, <- app_assoc. cbn.
    split; [reflexivity|]. split; [|split].
    + constructor; [repeat split | exact Hall].
    + intros k Hk. cbn in Hk. apply not_elem_of_cons in Hk as [Hk1 Hk2].
      rewrite (Hfr k Hk2). by rewrite lookup_insert_ne.
    + intros Hnd. cbn in Hnd. apply NoDup_cons in Hnd as [Hni Hnd].
      constructor; [reflexivity|].
      specialize (Hprev Hnd).
      eapply Forall2_impl_elem; [exact Hprev|].
      intros it e Hit ->. f_equal.
      rewrite lookup_insert_ne; [reflexivity|].
      intros Heq. apply Hni. rewrite Heq.
      apply list_elem_of_fmap. eexists; split; [reflexivity | exact Hit].
Qed.

Lemma fold_mergeUpdated items : forall tk rs cl,
  exists tk' lu,
    fold_left mergeUpdated items (tk, rs, cl) = (tk', rs, cl ++ lu)
    ∧ Forall2 updatedEntryOf items lu
    ∧ (forall k, k ∉ map Figma.mName items -> tk' !! k = tk !! k)
    ∧ (NoDup (map Figma.mName items) ->
         Forall2 (fun item e =>
             prev e = Some (default (Figma.mCssValue item)
                              (orNull (tk !! Figma.mName item)))) items lu).
Proof.
  induction items as [|item items IH]; intros tk rs cl.
  - exists tk, []. cbn. rewrite app_nil_r.
    repeat split; auto; constructor.
  - cbn [fold_left mergeUpdated].
    destruct (IH (<[Figma.mName item := Figma.mFigmaValue item]> tk) rs
                 (cl ++ [{| ceAction := update; ceToken := Figma.mName item;
                            ceValue := Some (Figma.mFigmaValue item);
                            prev := Some (default (Figma.mCssValue item)
                                            (orNull (tk !! Figma.mName item))) |}]))
      as (tk' & lu & Hf & Hall & Hfr & Hprev).
    eexists tk', (_ :: lu). rewrite Hf, <- app_assoc. cbn.
    split; [reflexivity|]. split; [|split].
    + constructor; [repeat split | exact Hall].
    + intros k Hk. cbn in Hk. apply not_elem_of_cons in Hk as [Hk1 Hk2].
      rewrite (Hfr k Hk2). by rewrite lookup_insert_ne.
    + intros Hnd. cbn in Hnd. apply NoDup_cons in Hnd as [Hni Hnd].
      constructor; [reflexivity|].
      specialize (Hprev Hnd).
      eapply Forall2_impl_elem; [exact Hprev|].
      intros it e Hit ->. do 3 f_equal.
      rewrite lookup_insert_ne; [reflexivity|].
      intros Heq. apply Hni. rewrite Heq.
      apply list_elem_of_fmap. eexists; split; [reflexivity | exact Hit].
Qed.

Lemma fold_mergeRemoved items : forall tk rs cl,
  exists tk' rs' lr,
    fold_left mergeRemoved items (tk, rs, cl) = (tk', rs', cl ++ lr)
    ∧ Forall2 removedEntryOf items lr
    ∧ (forall k, k ∉ map Figma.rName items -> tk' !! k = tk !! k)
    ∧ (NoDup (map Figma.rName items) ->
         Forall2 (fun item e => prev e = orNull (tk !! Figma.rName item)) items lr).
Proof.
  induction items as [|item items IH]; intros tk rs cl.
  - exists tk, rs, []. cbn. rewrite app_nil_r.
    repeat split; auto; constructor.
  - cbn [fold_left mergeRemoved].
    destruct (IH (delete (Figma.rName item) tk)
                 (JSSet.add rs (Figma.rName item))
                 (cl ++ [{| ceAction := remove; ceToken := Figma.rName item;
                            ceValue := None;
                            prev := orNull (tk !! Figma.rName item) |}]))
      as (tk' & rs' & lr & Hf & Hall & Hfr & Hprev).
    eexists tk', rs', (_ :: lr). rewrite Hf, <- app_assoc. cbn.
    split; [reflexivity|]. split; [|split].
    + constructor; [repeat split | exact Hall].
    + intros k Hk. cbn in Hk. apply not_elem_of_cons in Hk as [Hk1 Hk2].
      rewrite (Hfr k Hk2). by rewrite lookup_delete_ne.
    + intros Hnd. cbn in Hnd. apply NoDup_cons in Hnd as [Hni Hnd].
      constructor; [reflexivity|].
      specialize (Hprev Hnd).
      eapply Forall2_impl_elem; [exact Hprev|].
      intros it e Hit ->. f_equal.
      rewrite lookup_delete_ne; [reflexivity|].
      intros Heq. apply Hni. rewrite Heq.
      apply list_elem_of_fmap. eexists; split; [reflexivity | exact Hit].
Qed.

(** The shape of a merge: the working copy of the changelog starts empty and
    receives the records of the additions, the updates and the removals. *)
Lemma merge_shape (current : registry) (ch : changes) :
  exists tk1 tk2 la lu lr,
    changelog (mergeRegistryChanges current ch) = la ++ lu ++ lr
    ∧ Forall2 addedEntryOf (chAdded ch) la
    ∧ Forall2 updatedEntryOf (chUpdated ch) lu
    ∧ Forall2 removedEntryOf (chRemovedFromTheme ch) lr
    ∧ (forall k, k ∉ map Figma.aName (chAdded ch) -> tk1 !! k = tokens current !! k)
    ∧ (forall k, k ∉ map Figma.mName (chUpdated ch) -> tk2 !! k = tk1 !! k)
    ∧ (forall k, k ∉ map Figma.rName (chRemovedFromTheme ch) ->
         tokens (mergeRegistryChanges current ch) !! k = tk2 !! k)
    ∧ (NoDup (map Figma.aName (chAdded ch)) ->
         Forall2 (fun item e => prev e = orNull (tokens current !! Figma.aName item))
           (chAdded ch) la)
    ∧ (NoDup (map Figma.mName (chUpdated ch)) ->
         Forall2 (fun item e =>
             prev e = Some (default (Figma.mCssValue item)
                              (orNull (tk1 !! Figma.mName item))))
           (chUpdated ch) lu)
    ∧ (NoDup (map Figma.rName (chRemovedFromTheme ch)) ->
         Forall2 (fun item e => prev e = orNull (tk2 !! Figma.rName item))
           (chRemovedFromTheme ch) lr).
Proof.
  unfold mergeRegistryChanges.
  destruct (fold_mergeAdded (chAdded ch) (tokens current)
              (JSSet.ofList (removed current)) [])
    as (tk1 & rs1 & la & Hf1 & Ha & Hfr1 & Hp1).
  destruct (fold_mergeUpdated (chUpdated ch) tk1 rs1 ([] ++ la))
    as (tk2 & lu & Hf2 & Hu & Hfr2 & Hp2).
  destruct (fold_mergeRemoved (chRemovedFromTheme ch) tk2 rs1 (([] ++ la) ++ lu))
    as (tk3 & rs3 & lr & Hf3 & Hr & Hfr3 & Hp3).
  rewrite Hf1, Hf2, Hf3. cbn [changelog tokens].
  exists tk1, tk2, la, lu, lr. rewrite app_nil_l, <- app_assoc.
  repeat split; assumption.
Qed.
End MergeFacts.

(** ** The changelog of the written registry *)

Section ChangelogFacts.
Import Apply Log.

(** C7 (as the code has it). The changelog of the merged registry is built
    from an empty list: it holds exactly one entry per approved entry, the
    additions first, then the updates, then the removals, each with its
    action, token and new value; when the approved names are pairwise
    distinct each entry carries the value the override had in the loaded
    registry ([null] when there was none; for an update the stylesheet value
    instead of [null]).  The changelog of the loaded registry plays no part in
    the result. *)
Theorem changelog_holds_the_run_only (current : registry) (ch : changes) :
  let merged := mergeRegistryChanges current ch in
  (exists la lu lr,
      changelog merged = la ++ lu ++ lr
      ∧ Forall2 addedEntryOf (chAdded ch) la
      ∧ Forall2 updatedEntryOf (chUpdated ch) lu
      ∧ Forall2 removedEntryOf (chRemovedFromTheme ch) lr
      ∧ (NoDup (map Figma.aName (chAdded ch) ++ map Figma.mName (chUpdated ch)
                ++ map Figma.rName (chRemovedFromTheme ch)) ->
           Forall2 (fun item e => prev e = orNull (tokens current !! Figma.aName item))
             (chAdded ch) la
           ∧ Forall2 (fun item e =>
                 prev e = Some (default (Figma.mCssValue item)
                                  (orNull (tokens current !! Figma.mName item))))
               (chUpdated ch) lu
           ∧ Forall2 (fun item e => prev e = orNull (tokens current !! Figma.rName item))
               (chRemovedFromTheme ch) lr))
  ∧ length (changelog merged)
    = length (chAdded ch) + length (chUpdated ch) + length (chRemovedFromTheme ch)
  ∧ (forall log,
       mergeRegistryChanges
         {| tokens := tokens current; removed := removed current; changelog := log |} ch
       = merged).
Proof.
  intros merged. subst merged.
  destruct (merge_shape current ch)
    as (tk1 & tk2 & la & lu & lr & Hlog & Ha & Hu & Hr & Hf1 & Hf2 & Hf3 & Hp1 & Hp2 & Hp3).
  split; [|split].
  - exists la, lu, lr. repeat split; try assumption.
    + apply Hp1. apply NoDup_app in H as (H1 & _ & _). exact H1.
    + apply NoDup_app in H as (H1 & Hdis & H2).
      apply NoDup_app in H2 as (H2 & _ & _).
      eapply Forall2_impl_elem; [exact (Hp2 H2)|].
      intros item e Hit ->. do 3 f_equal. apply Hf1.
      intros Hin. apply (Hdis _ Hin). apply elem_of_app. left.
      apply list_elem_of_fmap. eexists; split; [reflexivity | exact Hit].
    + apply NoDup_app in H as (H1 & Hdis & H2).
      apply NoDup_app in H2 as (H2 & Hdis2 & H3).
      eapply Forall2_impl_elem; [exact (Hp3 H3)|].
      intros item e Hit ->. f_equal.
      assert (Hin : Figma.rName item ∈ map Figma.rName (chRemovedFromTheme ch)).
      { apply list_elem_of_fmap. eexists; split; [reflexivity | exact Hit]. }
      rewrite Hf2, Hf1; [reflexivity | |].
      * intros Hin'. apply (Hdis _ Hin'). apply elem_of_app. by right.
      * intros Hin'. apply (Hdis2 _ Hin'). exact Hin.
  - rewrite Hlog, !length_app.
    rewrite <- (Forall2_length _ _ _ Ha), <- (Forall2_length _ _ _ Hu),
            <- (Forall2_length _ _ _ Hr). lia.
  - intros log. reflexivity.
Qed.

(** C7 (as the claim has it) fails: a run in batch mode over a registry file
    whose changelog holds one entry writes back a changelog with the new entry
    only. *)
Lemma changelog_not_kept_counterexample :
  let nl := String (JS.ch 10) "" in
  let css := ":root {" +:+ nl +:+ "  --primitive-a: 1;" +:+ nl +:+ "}" +:+ nl in
  let json := Figma.TokensArray
                [{| Figma.rawName := Some "primitive.b"; Figma.rawValue := Some "2" |}] in
  let old := {| ceAction := add; ceToken := "--primitive-z";
                ceValue := Some "9"; prev := None |} in
  let file := ParsedRegistry (Some ∅) (Some []) (Some [old]) in
  let o := main true (fun _ => "") (Some css) (Some json) file in
  changelog (loadUserThemeRegistry file) = [old]
  ∧ option_map changelog (written o)
    = Some [{| ceAction := add; ceToken := "--primitive-b";
               ceValue := Some "2"; prev := None |}]
  ∧ ~ (exists w new, written o = Some w ∧ changelog w = [old] ++ new).
Proof.
  cbn zeta. split; [reflexivity|].
  split; [vm_compute; reflexivity|].
  intros (w & new & Hw & Hlog).
  vm_compute in Hw. injection Hw as <-. cbn in Hlog. discriminate Hlog.
Qed.
End ChangelogFacts.

(** ** The diff engine: where the names of its lists come from *)

Section DiffNames.
Import Figma.

Lemma classify_names (cssRelevant : JSMap.t cssToken) (figma : list (string * string)) :
  forall d0,
    let d := classify cssRelevant figma d0 in
    (forall x, x ∈ added d -> x ∈ added d0 ∨ aName x ∈ map fst figma)
    ∧ (forall x, x ∈ modified d -> x ∈ modified d0 ∨ mName x ∈ map fst figma)
    ∧ (forall x, x ∈ unchanged d -> x ∈ unchanged d0 ∨ x ∈ map fst figma)
    ∧ removed d = removed d0.
Proof.
  induction figma as [|[name v] figma IH]; intros d0; cbn zeta.
  - cbn. repeat split; auto.
  - cbn [classify].
    match goal with |- context [classify cssRelevant figma ?x] => set (d1 := x) end.
    destruct (IH d1) as (Ha & Hm & Hu & Hr).
    assert (Hd1 :
      (forall x, x ∈ added d1 -> x ∈ added d0 ∨ aName x = name)
      ∧ (forall x, x ∈ modified d1 -> x ∈ modified d0 ∨ mName x = name)
      ∧ (forall x, x ∈ unchanged d1 -> x ∈ unchanged d0 ∨ x = name)
      ∧ removed d1 = removed d0).
    { subst d1. destruct (JSMap.get cssRelevant name) as [data|].
      - destruct (negb (String.eqb (value data) v)); cbn;
          repeat split; auto; intros x Hx;
          apply elem_of_app in Hx as [Hx|Hx]; auto;
          apply list_elem_of_singleton in Hx; subst x; auto.
      - cbn. repeat split; auto. intros x Hx.
        apply elem_of_app in Hx as [Hx|Hx]; auto.
        apply list_elem_of_singleton in Hx; subst x; auto. }
    destruct Hd1 as (Ha1 & Hm1 & Hu1 & Hr1).
    cbn [map fst]. repeat split.
    + intros x Hx. destruct (Ha x Hx) as [H|H].
      * destruct (Ha1 x H) as [H'|H']; [by left | right; rewrite H'; constructor].
      * right. by constructor.
    + intros x Hx. destruct (Hm x Hx) as [H|H].
      * destruct (Hm1 x H) as [H'|H']; [by left | right; rewrite H'; constructor].
      * right. by constructor.
    + intros x Hx. destruct (Hu x Hx) as [H|H].
      * destruct (Hu1 x H) as [H'|H']; [by left | right; rewrite H'; constructor].
      * right. by constructor.
    + congruence.
Qed.

(** Every NEW and MODIFIED name is a name of the batch, no REMOVED name is. *)
Lemma diff_names (cssTokens : JSMap.t cssToken) (figmaTokens : list figmaToken) :
  let d := diffTokens cssTokens figmaTokens in
  let names := JSMap.keys (figmaMapOf figmaTokens) in
  (forall x, x ∈ added d -> aName x ∈ names)
  ∧ (forall x, x ∈ modified d -> mName x ∈ names)
  ∧ (forall x, x ∈ unchanged d -> x ∈ names)
  ∧ (forall x, x ∈ removed d -> rName x ∉ names).
Proof.
  cbn zeta. unfold diffTokens.
  set (rel := cssRelevantOf cssTokens).
  destruct (classify_names rel (figmaMapOf figmaTokens)
              {| added := []; modified := []; removed := []; unchanged := [] |})
    as (Ha & Hm & Hu & _).
  cbn [added modified unchanged removed] in *. repeat split.
  - intros x Hx. destruct (Ha x Hx) as [H|H]; [by apply elem_of_nil in H | exact H].
  - intros x Hx. destruct (Hm x Hx) as [H|H]; [by apply elem_of_nil in H | exact H].
  - intros x Hx. destruct (Hu x Hx) as [H|H]; [by apply elem_of_nil in H | exact H].
  - intros x Hx. apply list_elem_of_In, in_flat_map in Hx as ([name data] & _ & Hx).
    destruct (JSMap.has (figmaMapOf figmaTokens) name) eqn:E; cbn in Hx; [contradiction|].
    destruct Hx as [<-|[]]. cbn. by apply jsmap_has_false.
Qed.
End DiffNames.

(** ** Batch mode *)

Section BatchMode.
Import Figma Apply Log.

Lemma length_zero_eqb {A} (l : list A) : Nat.eqb (length l) 0 = true <-> l = [].
Proof. destruct l; cbn; split; congruence. Qed.

(** C6. In batch mode ([--yes]) a run whose batch is valid and has something
    to apply approves every NEW and every MODIFIED entry of the diff and no
    REMOVED one, without asking: the written registry is the merge of exactly
    those, its changelog has no removal, every name of a REMOVED entry keeps
    the override it had, and the removable overrides are only counted as
    skipped. *)
Theorem batch_mode_approves_new_and_modified (operator : nat -> string)
    (cssText : string) (data : export) (regFile : registryFile)
    (figmaTokens : list figmaToken) :
  parseFigmaExport data = inr figmaTokens ->
  validateFigmaTiers figmaTokens = [] ->
  findCycles (buildFigmaGraph figmaTokens) = [] ->
  let d := diffTokens (parseCSSTokens cssText) figmaTokens in
  added d ≠ [] ∨ modified d ≠ [] ->
  let current := loadUserThemeRegistry regFile in
  let removable :=
    filter (fun r => bool_decide (is_Some (tokens current !! rName r)))
           (Figma.removed d) in
  let ch := {| chAdded := added d; chUpdated := modified d;
               chRemovedFromTheme := [] |} in
  let o := main true operator (Some cssText) (Some data) regFile in
  approvedChanges o = Some ch
  ∧ written o = Some (mergeRegistryChanges current ch)
  ∧ exitCode o = 0%Z
  ∧ skippedCount o = length removable
  ∧ terminal o = {| asked := 0; shown := [] |}
  ∧ (forall e, e ∈ changelog (mergeRegistryChanges current ch) -> ceAction e ≠ remove)
  ∧ (forall r, r ∈ Figma.removed d ->
       tokens (mergeRegistryChanges current ch) !! rName r
       = tokens current !! rName r).
Proof.
  intros Hparse Hval Hcyc d Hsome current removable ch o.
  assert (Hrun : o = {| exitCode := 0;
                        written := Some (mergeRegistryChanges current ch);
                        approvedChanges := Some ch;
                        skippedCount := length removable;
                        terminal := {| asked := 0; shown := [] |} |}).
  { subst o. unfold main. rewrite Hparse, Hval, Hcyc. cbn [map app length Nat.ltb Nat.leb].
    fold d. fold current.
    destruct (added d) as [|a la] eqn:Ea; destruct (modified d) as [|m lm] eqn:Em;
      cbn; try reflexivity.
    destruct Hsome; congruence. }
  rewrite Hrun. cbn. repeat split.
  - intros e He.
    destruct (merge_shape current ch)
      as (tk1 & tk2 & la & lu & lr & Hlog & Ha & Hu & Hr & _).
    rewrite Hlog in He. cbn in Hr. inversion Hr; subst lr. rewrite app_nil_r in He.
    apply elem_of_app in He as [He|He].
    + apply list_elem_of_lookup in He as [i Hi].
      destruct (Forall2_lookup_r _ _ _ _ _ Ha Hi) as (x & _ & Hx & _).
      rewrite Hx. discriminate.
    + apply list_elem_of_lookup in He as [i Hi].
      destruct (Forall2_lookup_r _ _ _ _ _ Hu Hi) as (x & _ & Hx & _).
      rewrite Hx. discriminate.
  - intros r Hr.
    destruct (diff_names (parseCSSTokens cssText) figmaTokens) as (Hna & Hnm & _ & Hnr).
    fold d in Hna, Hnm, Hnr.
    destruct (merge_shape current ch)
      as (tk1 & tk2 & la & lu & lr & _ & _ & _ & _ & Hf1 & Hf2 & Hf3 & _).
    rewrite Hf3, Hf2, Hf1; [reflexivity | | |].
    + cbn. intros Hin. apply list_elem_of_fmap in Hin as (x & Hx & Hin).
      apply (Hnr r Hr). rewrite Hx. by apply Hna.
    + cbn. intros Hin. apply list_elem_of_fmap in Hin as (x & Hx & Hin).
      apply (Hnr r Hr). rewrite Hx. by apply Hnm.
    + cbn. apply not_elem_of_nil.
Qed.

Lemma batch_mode_approves_new_and_modified_witness :
  parseFigmaExport Samples.export2 = inr Samples.tokens2
  ∧ validateFigmaTiers Samples.tokens2 = []
  ∧ findCycles (buildFigmaGraph Samples.tokens2) = []
  ∧ added (diffTokens (parseCSSTokens Samples.css3) Samples.tokens2) ≠ []
  ∧ exitCode (main true (fun _ => "") (Some Samples.css3) (Some Samples.export2)
                Samples.registryC) = 0%Z
  ∧ skippedCount (main true (fun _ => "") (Some Samples.css3) (Some Samples.export2)
                    Samples.registryC) = 1.
Proof.
  assert (H1 : parseFigmaExport Samples.export2 = inr Samples.tokens2)
    by (vm_compute; reflexivity).
  assert (H2 : validateFigmaTiers Samples.tokens2 = [])
    by (vm_compute; reflexivity).
  assert (H3 : findCycles (buildFigmaGraph Samples.tokens2) = [])
    by (vm_compute; reflexivity).
  assert (H4 : added (diffTokens (parseCSSTokens Samples.css3) Samples.tokens2) ≠ [])
    by (vm_compute; discriminate).
  repeat (split; [assumption|]).
  pose proof (batch_mode_approves_new_and_modified (fun _ => "") Samples.css3
                Samples.export2 Samples.registryC Samples.tokens2
                H1 H2 H3 (or_introl H4)) as H.
  destruct H as (_ & _ & Hexit & Hskip & _).
  split; [exact Hexit|]. rewrite Hskip. vm_compute. reflexivity.
Defined.
End BatchMode.

(** ** The diff of a token set against itself *)

Section JSMapEntries.
Context {V : Type}.
Implicit Types (m : JSMap.t V) (k : string) (v : V).

Lemma jsmap_set_elem m k v k' v' :
  (k', v') ∈ JSMap.set m k v -> (k', v') ∈ m ∨ (k' = k ∧ v' = v).
Proof.
  induction m as [|[k0 v0] m IH]; cbn.
  - intros H. apply list_elem_of_singleton in H. injection H as -> ->. by right.
  - destruct (String.eqb_spec k0 k) as [->|Hk]; intros H.
    + apply elem_of_cons in H as [H|H].
      * injection H as -> ->. by right.
      * left. by constructor.
    + apply elem_of_cons in H as [H|H].
      * left. rewrite H. constructor.
      * destruct (IH H) as [H'|H']; [left; by constructor | by right].
Qed.

Lemma jsmap_elem_key m k v : (k, v) ∈ m -> k ∈ JSMap.keys m.
Proof.
  intros H. apply list_elem_of_fmap. exists (k, v). by split.
Qed.

Lemma jsmap_get_of_elem m k v :
  NoDup (JSMap.keys m) -> (k, v) ∈ m -> JSMap.get m k = Some v.
Proof.
  induction m as [|[k0 v0] m IH]; cbn; intros Hnd H.
  - by apply elem_of_nil in H.
  - apply NoDup_cons in Hnd as [Hni Hnd].
    apply elem_of_cons in H as [H|H].
    + injection H as -> ->. by rewrite String.eqb_refl.
    + destruct (String.eqb_spec k0 k) as [->|Hk]; [|by apply IH].
      exfalso. apply Hni. eapply jsmap_elem_key, H.
Qed.

Lemma jsmap_get_of_key m k : k ∈ JSMap.keys m -> exists v, JSMap.get m k = Some v.
Proof.
  intros H. destruct (JSMap.get m k) as [v|] eqn:E; [by exists v|].
  by apply jsmap_get_None in E.
Qed.
End JSMapEntries.

Section SelfDiff.
Import Figma.

Lemma figmaMapOf_fold (figma : list figmaToken) : forall m0 : JSMap.t string,
  let m := fold_left (fun m t => JSMap.set m (cssName t) (cssValue t)) figma m0 in
  (forall k v, (k, v) ∈ m ->
     (k, v) ∈ m0 ∨ exists t, t ∈ figma ∧ cssName t = k ∧ cssValue t = v)
  ∧ (forall t, t ∈ figma -> cssName t ∈ JSMap.keys m)
  ∧ (forall k, k ∈ JSMap.keys m0 -> k ∈ JSMap.keys m).
Proof.
  induction figma as [|t0 figma IH]; intros m0; cbn zeta; cbn [fold_left].
  - repeat split; auto. intros t Ht. by apply elem_of_nil in Ht.
  - destruct (IH (JSMap.set m0 (cssName t0) (cssValue t0))) as (He & Hk & Hm).
    repeat split.
    + intros k v H. destruct (He k v H) as [H'|(t & Ht & Hkt)].
      * apply jsmap_set_elem in H' as [H'|[-> ->]]; [by left|].
        right. exists t0. split; [constructor | by split].
      * right. exists t. split; [by constructor | exact Hkt].
    + intros t Ht. apply elem_of_cons in Ht as [->|Ht]; [|by apply Hk].
      apply Hm, jsmap_keys_set_elem. by left.
    + intros k H. apply Hm, jsmap_keys_set_elem. by right.
Qed.

Lemma cssRelevantOf_fold (css : JSMap.t cssToken) : forall m0 : JSMap.t cssToken,
  let m := fold_left (fun m '(name, data) =>
               if manageable name then JSMap.set m name data else m) css m0 in
  (forall k d, (k, d) ∈ m -> (k, d) ∈ m0 ∨ (k, d) ∈ css)
  ∧ (forall k d, (k, d) ∈ css -> manageable k = true -> k ∈ JSMap.keys m)
  ∧ (forall k, k ∈ JSMap.keys m0 -> k ∈ JSMap.keys m).
Proof.
  induction css as [|[k0 d0] css IH]; intros m0; cbn zeta; cbn [fold_left].
  - repeat split; auto. intros k d H. by apply elem_of_nil in H.
  - destruct (manageable k0) eqn:E.
    + destruct (IH (JSMap.set m0 k0 d0)) as (He & Hk & Hm). repeat split.
      * intros k d H. destruct (He k d H) as [H'|H'].
        -- apply jsmap_set_elem in H' as [H'|[-> ->]]; [by left|].
           right. constructor.
        -- right. by constructor.
      * intros k d H Hman. apply elem_of_cons in H as [H|H]; [|by eapply Hk].
        injection H as -> ->. apply Hm, jsmap_keys_set_elem. by left.
      * intros k H. apply Hm, jsmap_keys_set_elem. by right.
    + destruct (IH m0) as (He & Hk & Hm). repeat split.
      * intros k d H. destruct (He k d H) as [H'|H']; [by left|].
        right. by constructor.
      * intros k d H Hman. apply elem_of_cons in H as [H|H]; [|by eapply Hk].
        injection H as -> ->. congruence.
      * exact Hm.
Qed.

Lemma classify_all_unchanged (rel : JSMap.t cssToken) (fm : list (string * string)) :
  forall d0,
    (forall k v, (k, v) ∈ fm ->
       exists data, JSMap.get rel k = Some data ∧ value data = v) ->
    classify rel fm d0
    = {| added := added d0; modified := modified d0; removed := removed d0;
         unchanged := unchanged d0 ++ map fst fm |}.
Proof.
  induction fm as [|[k v] fm IH]; intros d0 Hall; cbn [classify map fst].
  - rewrite app_nil_r. by destruct d0.
  - destruct (Hall k v) as (data & Hget & Hval); [constructor|].
    rewrite Hget, Hval, String.eqb_refl. cbn [negb].
    rewrite IH; [cbn; by rewrite <- app_assoc|].
    intros k' v' H. apply Hall. by constructor.
Qed.

(** C9. The diff is a function of its two arguments alone, so two runs on the
    same sets give the same lists; and for a stylesheet token set whose names
    all lie in the tiers an export may manage, the diff against a batch that
    holds the same names with the same values has no NEW, no MODIFIED and no
    REMOVED entry and classifies every name as UNCHANGED. *)
Theorem diff_of_equal_sets_is_unchanged (css : JSMap.t cssToken)
    (figma : list figmaToken) :
  NoDup (JSMap.keys css) ->
  (forall k, k ∈ JSMap.keys css -> manageable k = true) ->
  (forall t, t ∈ figma ->
     exists data, JSMap.get css (cssName t) = Some data ∧ value data = cssValue t) ->
  (forall k, k ∈ JSMap.keys css -> exists t, t ∈ figma ∧ cssName t = k) ->
  let d := diffTokens css figma in
  (forall d1 d2, d1 = diffTokens css figma -> d2 = diffTokens css figma -> d1 = d2)
  ∧ added d = [] ∧ modified d = [] ∧ removed d = []
  ∧ unchanged d = JSMap.keys (figmaMapOf figma)
  ∧ (forall k, k ∈ unchanged d <-> k ∈ JSMap.keys css).
Proof.
  intros Hnd Hman Hsame Hcover d.
  split; [intros d1 d2 -> ->; reflexivity|].
  destruct (figmaMapOf_fold figma []) as (Hfe & Hfk & _).
  destruct (cssRelevantOf_fold css []) as (Hre & Hrk & _).
  fold (figmaMapOf figma) in Hfe, Hfk. fold (cssRelevantOf css) in Hre, Hrk.
  assert (Hmatch : forall k v, (k, v) ∈ figmaMapOf figma ->
            exists data, JSMap.get (cssRelevantOf css) k = Some data ∧ value data = v).
  { intros k v H. destruct (Hfe k v H) as [H'|(t & Ht & <- & <-)];
      [by apply elem_of_nil in H'|].
    destruct (Hsame t Ht) as (data & Hget & Hval).
    pose proof (jsmap_get_Some_elem _ _ _ Hget) as Hin.
    pose proof (Hrk _ _ Hin (Hman _ (jsmap_elem_key _ _ _ Hin))) as Hkey.
    destruct (jsmap_get_of_key _ _ Hkey) as (data' & Hget').
    exists data'. split; [exact Hget'|].
    destruct (Hre _ _ (jsmap_get_Some_elem _ _ _ Hget')) as [H'|H'];
      [by apply elem_of_nil in H'|].
    rewrite (jsmap_get_of_elem _ _ _ Hnd H') in Hget. by injection Hget as ->. }
  subst d. unfold diffTokens.
  rewrite (classify_all_unchanged _ _ _ Hmatch). cbn [added modified removed unchanged].
  split; [reflexivity|]. split; [reflexivity|]. split; [|split; [reflexivity|]].
  - apply elem_of_nil_inv. intros x Hx.
    apply list_elem_of_In, in_flat_map in Hx as ([k data] & Hin & Hx).
    apply list_elem_of_In in Hin.
    destruct (Hre _ _ Hin) as [H'|H']; [by apply elem_of_nil in H'|].
    destruct (Hcover k (jsmap_elem_key _ _ _ H')) as (t & Ht & Hk).
    pose proof (Hfk t Ht) as Hkey. rewrite Hk in Hkey.
    apply jsmap_has_true in Hkey. rewrite Hkey in Hx. destruct Hx.
  - intros k. change (map fst (figmaMapOf figma)) with (JSMap.keys (figmaMapOf figma)).
    split.
    + intros H. apply list_elem_of_fmap in H as ([k' v] & -> & H). cbn.
      destruct (Hfe k' v H) as [H'|(t & Ht & <- & _)]; [by apply elem_of_nil in H'|].
      destruct (Hsame t Ht) as (data & Hget & _).
      eapply jsmap_elem_key, jsmap_get_Some_elem, Hget.
    + intros H. destruct (Hcover k H) as (t & Ht & <-). by apply Hfk.
Qed.

Lemma diff_of_equal_sets_is_unchanged_witness :
  NoDup (JSMap.keys Samples.cssPair)
  ∧ Forall (fun k => manageable k = true) (JSMap.keys Samples.cssPair)
  ∧ Forall (fun t => exists data,
                JSMap.get Samples.cssPair (cssName t) = Some data
                ∧ value data = cssValue t) Samples.figmaPair
  ∧ Forall (fun k => exists t, t ∈ Samples.figmaPair ∧ cssName t = k)
      (JSMap.keys Samples.cssPair)
  ∧ added (diffTokens Samples.cssPair Samples.figmaPair) = []
  ∧ modified (diffTokens Samples.cssPair Samples.figmaPair) = []
  ∧ removed (diffTokens Samples.cssPair Samples.figmaPair) = []
  ∧ unchanged (diffTokens Samples.cssPair Samples.figmaPair)
    = ["--semantic-b"; "--primitive-a"].
Proof.
  assert (H1 : NoDup (JSMap.keys Samples.cssPair)).
  { apply (bool_decide_unpack _). vm_compute. exact I. }
  assert (H2 : Forall (fun k => manageable k = true) (JSMap.keys Samples.cssPair)).
  { repeat constructor. }
  assert (H3 : Forall (fun t => exists data,
                JSMap.get Samples.cssPair (cssName t) = Some data
                ∧ value data = cssValue t) Samples.figmaPair).
  { constructor; [eexists; split; reflexivity|].
    constructor; [eexists; split; reflexivity|]. constructor. }
  assert (H4 : Forall (fun k => exists t, t ∈ Samples.figmaPair ∧ cssName t = k)
                 (JSMap.keys Samples.cssPair)).
  { constructor; [eexists; split; [apply list_elem_of_further, list_elem_of_here | reflexivity]|].
    constructor; [eexists; split; [apply list_elem_of_here | reflexivity]|]. constructor. }
  repeat (split; [assumption|]).
  destruct (diff_of_equal_sets_is_unchanged Samples.cssPair Samples.figmaPair H1
              (proj1 (Forall_forall _ _) H2) (proj1 (Forall_forall _ _) H3)
              (proj1 (Forall_forall _ _) H4))
    as (_ & Ha & Hm & Hr & Hu & _).
  repeat (split; [assumption|]). rewrite Hu. reflexivity.
Defined.
End SelfDiff.

(** ** Which definition of a name the parsers keep *)

Section ParserFacts.
Import Scope.

Lemma skipped_line_is_no_declaration (trimmed : string) :
  String.eqb trimmed "" || JS.startsWith trimmed "/*" || JS.startsWith trimmed "//" = true ->
  JS.matchDeclaration trimmed = None.
Proof.
  destruct trimmed as [|c1 r]; [reflexivity|].
  unfold JS.matchDeclaration, JS.matchCustomProp, JS.startsWith.
  cbn [String.eqb JS.stripPrefix orb].
  destruct (Ascii.eqb_spec c1 "-") as [->|Hc].
  - cbn. discriminate.
  - intros _. destruct c1 as [[] [] [] [] [] [] [] []]; try reflexivity.
    contradiction.
Qed.

Lemma validator_parseLines_snoc (l : list string) : forall st i x,
  Validator.parseLines st i (l ++ [x])
  = Validator.parseLine (Validator.parseLines st i l) (i + length l) x.
Proof.
  induction l as [|y l IH]; intros st i x; cbn.
  - by rewrite Nat.add_0_r.
  - rewrite IH. f_equal. lia.
Qed.

Lemma sync_parseLines_snoc (l : list string) : forall st i x,
  Figma.parseLines st i (l ++ [x])
  = Figma.parseLine (Figma.parseLines st i l) (i + length l) x.
Proof.
  induction l as [|y l IH]; intros st i x; cbn.
  - by rewrite Nat.add_0_r.
  - rewrite IH. f_equal. lia.
Qed.

(** What one line does to the definitions of the validator's parser. *)
Lemma validator_parseLine_tokenDefs (st : Validator.parseState) (i : nat) (line : string) :
  let st' := Validator.parseLine st i line in
  (Validator.inRoot st' = true
   ∧ exists name v layer,
       JS.matchDeclaration (JS.trim line) = Some (name, v)
       ∧ Validator.tokenDefs st'
         = if JSMap.has (Validator.tokenDefs st) name
           then Validator.tokenDefs st
           else JSMap.set (Validator.tokenDefs st) name
                  {| Validator.value := v;
                     Validator.refs := Validator.extractVarRefs v;
                     Validator.line := i + 1;
                     Validator.layer := layer |})
  ∨ ((Validator.inRoot st' = false ∨ JS.matchDeclaration (JS.trim line) = None)
     ∧ Validator.tokenDefs st' = Validator.tokenDefs st).
Proof.
  cbn zeta. unfold Validator.parseLine.
  destruct (String.eqb (JS.trim line) "" || JS.startsWith (JS.trim line) "/*"
            || JS.startsWith (JS.trim line) "//") eqn:Eskip.
  { right. split; [right; by apply skipped_line_is_no_declaration | reflexivity]. }
  repeat match goal with
         | |- context [let '(_, _) := ?x in _] => destruct x eqn:?
         | |- context [if ?b then _ else _] => destruct b eqn:?
         | |- context [match ?x with Some _ => _ | None => _ end] => destruct x eqn:?
         | |- context [match ?x with (_, _) => _ end] => destruct x eqn:?
         end; cbn [Validator.inRoot Validator.tokenDefs];
    try (right; split; [by (left + right) | reflexivity]).
  all: left; split; [reflexivity|]; do 3 eexists; split; [reflexivity|];
    match goal with H : negb _ = _ |- _ => apply (f_equal negb) in H; rewrite negb_involutive in H; cbn in H; rewrite H end;
    reflexivity.
  Unshelve. all: exact None.
Qed.

(** What one line does to the tokens of the sync scripts' parser. *)
Lemma sync_parseLine_tokens (st : Figma.parseState) (i : nat) (raw : string) :
  let st' := Figma.parseLine st i raw in
  (Figma.inRoot st' = true
   ∧ exists name v,
       JS.matchDeclaration (JS.trim raw) = Some (name, v)
       ∧ Figma.tokens st'
         = JSMap.set (Figma.tokens st) name
             {| Figma.value := v; Figma.line := i + 1 |})
  ∨ ((Figma.inRoot st' = false ∨ JS.matchDeclaration (JS.trim raw) = None)
     ∧ Figma.tokens st' = Figma.tokens st).
Proof.
  cbn zeta. unfold Figma.parseLine.
  repeat match goal with
         | |- context [let '(_, _) := ?x in _] => destruct x eqn:?
         | |- context [if ?b then _ else _] => destruct b eqn:?
         | |- context [match ?x with Some _ => _ | None => _ end] => destruct x eqn:?
         | |- context [match ?x with (_, _) => _ end] => destruct x eqn:?
         end; cbn [Figma.inRoot Figma.tokens];
    try (right; split; [by (left + right) | reflexivity]).
  all: left; split; [reflexivity|]; do 2 eexists; split; reflexivity.
Qed.

Lemma validatorAfter_S (lines : list string) (n : nat) (line : string) :
  lines !! n = Some line ->
  validatorAfter lines (S n) = Validator.parseLine (validatorAfter lines n) n line.
Proof.
  intros Hl. unfold validatorAfter.
  rewrite (take_S_r _ _ _ Hl), validator_parseLines_snoc. f_equal.
  rewrite length_take. apply lookup_lt_Some in Hl. lia.
Qed.

Lemma syncAfter_S (lines : list string) (n : nat) (line : string) :
  lines !! n = Some line ->
  syncAfter lines (S n) = Figma.parseLine (syncAfter lines n) n line.
Proof.
  intros Hl. unfold syncAfter.
  rewrite (take_S_r _ _ _ Hl), sync_parseLines_snoc. f_equal.
  rewrite length_take. apply lookup_lt_Some in Hl. lia.
Qed.

(** The validator keeps, for each name, its first definition in root scope. *)
Lemma validator_keeps_first (lines : list string) (n : nat) :
  n <= length lines ->
  forall name,
    (forall d, JSMap.get (Validator.tokenDefs (validatorAfter lines n)) name = Some d ->
       exists i, i < n
         ∧ validatorDefinesAt lines i name (Validator.value d)
         ∧ Validator.line d = i + 1
         ∧ (forall j v, j < i -> ~ validatorDefinesAt lines j name v))
    ∧ (JSMap.get (Validator.tokenDefs (validatorAfter lines n)) name = None ->
       forall j v, j < n -> ~ validatorDefinesAt lines j name v).
Proof.
  induction n as [|n IH]; intros Hn name.
  - split; [discriminate | intros _ j v Hj; lia].
  - destruct (lookup_lt_is_Some_2 lines n) as [line Hl]; [lia|].
    specialize (IH ltac:(lia)).
    pose proof (validatorAfter_S _ _ _ Hl) as HS.
    destruct (validator_parseLine_tokenDefs (validatorAfter lines n) n line)
      as [(Hroot & nm & v & layer & Hm & Hdefs) | (Hno & Hdefs)];
      rewrite <- HS in *.
    + assert (Hhere : validatorDefinesAt lines n nm v) by (exists line; auto).
      assert (Hother : forall name' v', name' ≠ nm -> ~ validatorDefinesAt lines n name' v').
      { intros name' v' Hne (line' & Hl' & _ & Hm'). congruence. }
      destruct (String.eqb_spec nm name) as [->|Hne].
      * destruct (JSMap.has (Validator.tokenDefs (validatorAfter lines n)) name) eqn:Ehas.
        -- rewrite Hdefs. destruct (IH name) as [IHs IHn]. split.
           ++ intros d Hd. destruct (IHs d Hd) as (i & Hi & H). exists i. split; [lia | exact H].
           ++ intros Hnone. unfold JSMap.has in Ehas. rewrite Hnone in Ehas. discriminate.
        -- rewrite Hdefs, jsmap_get_set_eq. split; [|discriminate].
           intros d [= <-]. exists n. cbn. repeat split; [lia | exact Hhere |].
           intros j v' Hj. destruct (IH name) as [_ IHn]. apply IHn; [|exact Hj].
           unfold JSMap.has in Ehas.
           destruct (JSMap.get (Validator.tokenDefs (validatorAfter lines n)) name);
             [discriminate | reflexivity].
      * assert (Hget : JSMap.get (Validator.tokenDefs (validatorAfter lines (S n))) name
                       = JSMap.get (Validator.tokenDefs (validatorAfter lines n)) name).
        { rewrite Hdefs.
          destruct (JSMap.has (Validator.tokenDefs (validatorAfter lines n)) nm);
            [reflexivity | by apply jsmap_get_set_ne]. }
        rewrite Hget. destruct (IH name) as [IHs IHn]. split.
        -- intros d Hd. destruct (IHs d Hd) as (i & Hi & H). exists i. split; [lia | exact H].
        -- intros Hnone j v' Hj. destruct (decide (j = n)) as [->|Hjn].
           ++ apply Hother. congruence.
           ++ apply IHn; [exact Hnone | lia].
    + assert (Hnot : forall name' v', ~ validatorDefinesAt lines n name' v').
      { intros name' v' (line' & Hl' & Hroot & Hm').
        assert (line' = line) as -> by congruence.
        destruct Hno; congruence. }
      rewrite Hdefs. destruct (IH name) as [IHs IHn]. split.
      * intros d Hd. destruct (IHs d Hd) as (i & Hi & H). exists i. split; [lia | exact H].
      * intros Hnone j v' Hj. destruct (decide (j = n)) as [->|Hjn].
        -- apply Hnot.
        -- apply IHn; [exact Hnone | lia].
Qed.

(** The sync scripts' parser keeps, for each name, its last definition in
    root scope. *)
Lemma sync_keeps_last (lines : list string) (n : nat) :
  n <= length lines ->
  forall name,
    (forall d, JSMap.get (Figma.tokens (syncAfter lines n)) name = Some d ->
       exists i, i < n
         ∧ syncDefinesAt lines i name (Figma.value d)
         ∧ Figma.line d = i + 1
         ∧ (forall j v, i < j -> j < n -> ~ syncDefinesAt lines j name v))
    ∧ (JSMap.get (Figma.tokens (syncAfter lines n)) name = None ->
       forall j v, j < n -> ~ syncDefinesAt lines j name v).
Proof.
  induction n as [|n IH]; intros Hn name.
  - split; [discriminate | intros _ j v Hj; lia].
  - destruct (lookup_lt_is_Some_2 lines n) as [line Hl]; [lia|].
    specialize (IH ltac:(lia)).
    pose proof (syncAfter_S _ _ _ Hl) as HS.
    destruct (sync_parseLine_tokens (syncAfter lines n) n line)
      as [(Hroot & nm & v & Hm & Htok) | (Hno & Htok)];
      rewrite <- HS in *.
    + assert (Hhere : syncDefinesAt lines n nm v) by (exists line; auto).
      assert (Hother : forall name' v', name' ≠ nm -> ~ syncDefinesAt lines n name' v').
      { intros name' v' Hne (line' & Hl' & _ & Hm'). congruence. }
      rewrite Htok. destruct (String.eqb_spec nm name) as [->|Hne].
      * rewrite jsmap_get_set_eq. split; [|discriminate].
        intros d [= <-]. exists n. cbn. repeat split; [lia | exact Hhere |].
        intros j v' Hj Hj'. lia.
      * rewrite jsmap_get_set_ne by exact Hne.
        destruct (IH name) as [IHs IHn]. split.
        -- intros d Hd. destruct (IHs d Hd) as (i & Hi & Hdef & Hline & Hlater).
           exists i. repeat split; [lia | exact Hdef | exact Hline |].
           intros j v' Hj Hj'. destruct (decide (j = n)) as [->|Hjn].
           ++ apply Hother. congruence.
           ++ apply Hlater; lia.
        -- intros Hnone j v' Hj. destruct (decide (j = n)) as [->|Hjn].
           ++ apply Hother. congruence.
           ++ apply IHn; [exact Hnone | lia].
    + assert (Hnot : forall name' v', ~ syncDefinesAt lines n name' v').
      { intros name' v' (line' & Hl' & Hroot & Hm').
        assert (line' = line) as -> by congruence.
        destruct Hno; congruence. }
      rewrite Htok. destruct (IH name) as [IHs IHn]. split.
      * intros d Hd. destruct (IHs d Hd) as (i & Hi & Hdef & Hline & Hlater).
        exists i. repeat split; [lia | exact Hdef | exact Hline |].
        intros j v' Hj Hj'. destruct (decide (j = n)) as [->|Hjn].
        -- apply Hnot.
        -- apply Hlater; lia.
      * intros Hnone j v' Hj. destruct (decide (j = n)) as [->|Hjn].
        -- apply Hnot.
        -- apply IHn; [exact Hnone | lia].
Qed.

(** C8 (as the code has it). For every stylesheet text, the validator's
    [parseCSS] maps a name to its first definition in root scope, and
    [parseCSSTokens], whose result the diff engine consumes, maps a name to its
    last definition in root scope; a name defined in root scope is in the
    extracted set of either parser. *)
Theorem duplicate_definitions_first_or_last (css : string) :
  let lines := JS.splitChar "010" css in
  (forall name d,
     JSMap.get (Validator.tokenDefs (Validator.parseCSS css)) name = Some d ->
     exists i,
       validatorDefinesAt lines i name (Validator.value d)
       ∧ Validator.line d = i + 1
       ∧ (forall j v, validatorDefinesAt lines j name v -> i <= j))
  ∧ (forall i name v,
       validatorDefinesAt lines i name v ->
       JSMap.has (Validator.tokenDefs (Validator.parseCSS css)) name = true)
  ∧ (forall name d,
       JSMap.get (Figma.parseCSSTokens css) name = Some d ->
       exists i,
         syncDefinesAt lines i name (Figma.value d)
         ∧ Figma.line d = i + 1
         ∧ (forall j v, syncDefinesAt lines j name v -> j <= i))
  ∧ (forall i name v,
       syncDefinesAt lines i name v ->
       JSMap.has (Figma.parseCSSTokens css) name = true).
Proof.
  intros lines.
  assert (HV : Validator.parseCSS css = validatorAfter lines (length lines)).
  { unfold Validator.parseCSS, validatorAfter. by rewrite firstn_all. }
  assert (HS : Figma.parseCSSTokens css = Figma.tokens (syncAfter lines (length lines))).
  { unfold Figma.parseCSSTokens, syncAfter. by rewrite firstn_all. }
  rewrite HV, HS.
  assert (Hbound : forall i, is_Some (lines !! i) -> i < length lines).
  { intros i [x Hx]. by apply lookup_lt_Some in Hx. }
  repeat split.
  - intros name d Hd.
    destruct (validator_keeps_first lines (length lines) (le_n _) name) as [Hs _].
    destruct (Hs d Hd) as (i & _ & Hdef & Hline & Hfirst).
    exists i. repeat split; [exact Hdef | exact Hline |].
    intros j v Hj. destruct (decide (i <= j)) as [|Hlt]; [assumption|].
    exfalso. apply (Hfirst j v); [lia | exact Hj].
  - intros i name v Hdef.
    destruct (validator_keeps_first lines (length lines) (le_n _) name) as [_ Hn].
    unfold JSMap.has.
    destruct (JSMap.get _ name) eqn:E; [reflexivity|].
    exfalso. apply (Hn eq_refl i v); [|exact Hdef].
    destruct Hdef as (line & Hl & _). apply Hbound. by exists line.
  - intros name d Hd.
    destruct (sync_keeps_last lines (length lines) (le_n _) name) as [Hs _].
    destruct (Hs d Hd) as (i & _ & Hdef & Hline & Hlast).
    exists i. repeat split; [exact Hdef | exact Hline |].
    intros j v Hj. destruct (decide (j <= i)) as [|Hlt]; [assumption|].
    exfalso. apply (Hlast j v); [lia | | exact Hj].
    destruct Hj as (line & Hl & _). apply Hbound. by exists line.
  - intros i name v Hdef.
    destruct (sync_keeps_last lines (length lines) (le_n _) name) as [_ Hn].
    unfold JSMap.has.
    destruct (JSMap.get _ name) eqn:E; [reflexivity|].
    exfalso. apply (Hn eq_refl i v); [|exact Hdef].
    destruct Hdef as (line & Hl & _). apply Hbound. by exists line.
Qed.

(** C8 (as the claim has it) fails for the extraction the diff engine
    consumes: of two definitions of one name in root scope, [parseCSSTokens]
    keeps the value of the second, while the validator keeps the first. *)
Lemma sync_parser_keeps_last_counterexample :
  let lines := JS.splitChar "010" Samples.cssTwice in
  syncDefinesAt lines 1 "--primitive-a" "1"
  ∧ syncDefinesAt lines 2 "--primitive-a" "2"
  ∧ JSMap.get (Figma.parseCSSTokens Samples.cssTwice) "--primitive-a"
    = Some {| Figma.value := "2"; Figma.line := 3 |}
  ∧ option_map Validator.value
      (JSMap.get (Validator.tokenDefs (Validator.parseCSS Samples.cssTwice))
         "--primitive-a")
    = Some "1".
Proof.
  cbn zeta. split; [|split; [|split]].
  - eexists. split; [reflexivity|]. split; vm_compute; reflexivity.
  - eexists. split; [reflexivity|]. split; vm_compute; reflexivity.
  - vm_compute. reflexivity.
  - vm_compute. reflexivity.
Qed.
End ParserFacts.

(** ** The interactive review *)

Section ReviewFacts.
Import Figma Apply Log.
Context {A : Type} (operator : nat -> string) (kind : category) (nameOf : A -> string).

(** One iteration of the loop of [reviewCategory]. *)
Lemma reviewLoop_cons (total i : nat) (item : A) (rest : list A)
    (applyAll skipAll : bool) (appr skp : list A) (c : console) :
  reviewLoop operator kind nameOf total i (item :: rest) applyAll skipAll appr skp c
  = let c1 := {| asked := asked c;
                 shown := shown c ++ [Rendered kind (nameOf item) i total] |} in
    if applyAll then
      reviewLoop operator kind nameOf total (S i) rest applyAll skipAll
        (appr ++ [item]) skp c1
    else if skipAll then
      reviewLoop operator kind nameOf total (S i) rest applyAll skipAll
        appr (skp ++ [item]) c1
    else
      let c2 := {| asked := S (asked c);
                   shown := shown c1 ++ [Asked kind (nameOf item)] |} in
      match decide_answer (operator (asked c)) with
      | quit => ({| approved := appr; skipped := (skp ++ [item]) ++ rest;
                    quitted := true |}, c2)
      | all => reviewLoop operator kind nameOf total (S i) rest true skipAll
                 (appr ++ [item]) skp c2
      | skip => reviewLoop operator kind nameOf total (S i) rest applyAll true
                  appr (skp ++ [item]) c2
      | yes => reviewLoop operator kind nameOf total (S i) rest applyAll skipAll
                 (appr ++ [item]) skp c2
      | no => reviewLoop operator kind nameOf total (S i) rest applyAll skipAll
                appr (skp ++ [item]) c2
      end.
Proof.
  cbn [reviewLoop]. unfold mbind, io_bind, show, prompt, mret, io_ret.
  cbn [asked shown].
  destruct applyAll; [reflexivity|]. destruct skipAll; [reflexivity|].
  cbn beta. cbn [asked shown].
  destruct (decide_answer (operator (asked c))); reflexivity.
Qed.

(** Once [all] or [skip] was answered nothing more is asked, so the category
    cannot be quit any more. *)
Lemma reviewLoop_flag_no_quit (total : nat) (items : list A) :
  forall i applyAll skipAll appr skp c,
    applyAll || skipAll = true ->
    quitted (fst (reviewLoop operator kind nameOf total i items
                    applyAll skipAll appr skp c)) = false
    ∧ asked (snd (reviewLoop operator kind nameOf total i items
                    applyAll skipAll appr skp c)) = asked c.
Proof.
  induction items as [|item rest IH]; intros i applyAll skipAll appr skp c Hflag.
  - split; reflexivity.
  - rewrite reviewLoop_cons. cbn zeta.
    destruct applyAll.
    { edestruct (IH (S i) true skipAll) as [H1 H2]; [reflexivity|].
      split; [exact H1 | rewrite H2; reflexivity]. }
    destruct skipAll; [|discriminate].
    edestruct (IH (S i) false true) as [H1 H2]; [reflexivity|].
    split; [exact H1 | rewrite H2; reflexivity].
Qed.

(** A category that was quit: the items before the one at which the operator
    quit were each approved or rejected, that item and all after it are
    skipped, and nothing after it was shown or asked. *)
Lemma reviewLoop_quit (total : nat) (items : list A) :
  forall i applyAll skipAll appr skp c,
    let rc := reviewLoop operator kind nameOf total i items
                applyAll skipAll appr skp c in
    quitted (fst rc) = true ->
    exists pre item post acc rej evs,
      items = pre ++ item :: post
      ∧ approved (fst rc) = appr ++ acc
      ∧ skipped (fst rc) = skp ++ rej ++ item :: post
      ∧ sublist acc pre ∧ sublist rej pre
      ∧ length acc + length rej = length pre
      ∧ shown (snd rc)
        = shown c ++ evs ++ [Rendered kind (nameOf item) (i + length pre) total;
                             Asked kind (nameOf item)]
      ∧ Forall (fun e => eventName e ∈ map nameOf pre) evs
      ∧ decide_answer (operator (pred (asked (snd rc)))) = quit.
Proof.
  induction items as [|item rest IH]; intros i applyAll skipAll appr skp c rc Hq.
  - discriminate.
  - subst rc. rewrite reviewLoop_cons in *. cbn zeta in *. cbn [shown asked] in *.
    destruct applyAll.
    { destruct (reviewLoop_flag_no_quit total rest (S i) true skipAll (appr ++ [item]) skp
                  {| asked := asked c;
                     shown := shown c ++ [Rendered kind (nameOf item) i total] |}
                  eq_refl) as [Hf _]. congruence. }
    destruct skipAll.
    { destruct (reviewLoop_flag_no_quit total rest (S i) false true appr (skp ++ [item])
                  {| asked := asked c;
                     shown := shown c ++ [Rendered kind (nameOf item) i total] |}
                  eq_refl) as [Hf _]. congruence. }
    destruct (decide_answer (operator (asked c))) eqn:Eans.
    + (* yes *)
      destruct (IH _ _ _ _ _ _ Hq)
        as (pre & it & post & acc & rej & evs & Hit & Ha & Hs & Hsa & Hsr & Hlen & Hsh & Hev & Hlast).
      exists (item :: pre), it, post, (item :: acc), rej,
        (Rendered kind (nameOf item) i total :: Asked kind (nameOf item) :: evs).
      rewrite Ha, Hs, Hsh. clear IH. subst rest. cbn [shown].
      repeat split.
      * by rewrite <- app_assoc.
      * by apply sublist_skip.
      * by apply sublist_cons.
      * cbn. lia.
      * rewrite <- !app_assoc. cbn.
        replace (i + S (length pre)) with (S (i + length pre)) by lia. reflexivity.
      * constructor; [cbn; constructor|]. constructor; [cbn; constructor|].
        eapply Forall_impl; [exact Hev|]. intros e He. cbn. by constructor.
      * exact Hlast.
    + (* no *)
      destruct (IH _ _ _ _ _ _ Hq)
        as (pre & it & post & acc & rej & evs & Hit & Ha & Hs & Hsa & Hsr & Hlen & Hsh & Hev & Hlast).
      exists (item :: pre), it, post, acc, (item :: rej),
        (Rendered kind (nameOf item) i total :: Asked kind (nameOf item) :: evs).
      rewrite Ha, Hs, Hsh. clear IH. subst rest. cbn [shown].
      repeat split.
      * by rewrite <- app_assoc.
      * by apply sublist_cons.
      * by apply sublist_skip.
      * cbn. lia.
      * rewrite <- !app_assoc. cbn.
        replace (i + S (length pre)) with (S (i + length pre)) by lia. reflexivity.
      * constructor; [cbn; constructor|]. constructor; [cbn; constructor|].
        eapply Forall_impl; [exact Hev|]. intros e He. cbn. by constructor.
      * exact Hlast.
    + (* all *)
      destruct (reviewLoop_flag_no_quit total rest (S i) true false (appr ++ [item]) skp
                  {| asked := S (asked c);
                     shown := (shown c ++ [Rendered kind (nameOf item) i total])
                              ++ [Asked kind (nameOf item)] |}
                  eq_refl) as [Hf _]. congruence.
    + (* skip *)
      destruct (reviewLoop_flag_no_quit total rest (S i) false true appr (skp ++ [item])
                  {| asked := S (asked c);
                     shown := (shown c ++ [Rendered kind (nameOf item) i total])
                              ++ [Asked kind (nameOf item)] |}
                  eq_refl) as [Hf _]. congruence.
    + (* quit *)
      exists [], item, rest, [], [], []. cbn.
      rewrite !app_nil_r, Nat.add_0_r, <- !app_assoc. cbn.
      repeat split; try constructor. exact Eans.
Qed.
End ReviewFacts.

Section AbortFacts.
Import Figma Apply Log.


(** The three categories in turn; a category is not reviewed once an earlier
    one was quit. *)
Lemma review_categories (operator : nat -> string) (d : diff)
    (removable : list removedEntry) (c : console) :
  let rc1 := reviewCategory operator NEW aName (added d) c in
  let rc2 := reviewCategory operator MODIFIED mName (modified d) (snd rc1) in
  let rc3 := reviewCategory operator REMOVED rName removable (snd rc2) in
  review operator d removable c
  = if quitted (fst rc1) then
      ({| chAdded := approved (fst rc1); chUpdated := [];
          chRemovedFromTheme := [] |},
       length (skipped (fst rc1)) + 0 + 0, true, snd rc1)
    else if quitted (fst rc2) then
      ({| chAdded := approved (fst rc1); chUpdated := approved (fst rc2);
          chRemovedFromTheme := [] |},
       length (skipped (fst rc1)) + length (skipped (fst rc2)) + 0, true, snd rc2)
    else
      ({| chAdded := approved (fst rc1); chUpdated := approved (fst rc2);
          chRemovedFromTheme := approved (fst rc3) |},
       length (skipped (fst rc1)) + length (skipped (fst rc2))
       + length (skipped (fst rc3)),
       quitted (fst rc3), snd rc3).
Proof.
  cbn zeta. unfold review, mbind, io_bind, mret, io_ret.
  assert (E1 : (if 0 <? length (added d)
                then reviewCategory operator NEW aName (added d)
                else fun c => ({| approved := []; skipped := []; quitted := false |}, c)) c
               = reviewCategory operator NEW aName (added d) c).
  { destruct (added d); reflexivity. }
  rewrite E1. destruct (reviewCategory operator NEW aName (added d) c) as [r1 c1].
  cbn [fst snd]. destruct (quitted r1) eqn:Eq1; cbn [negb andb orb].
  - reflexivity.
  - assert (E2 : (if 0 <? length (modified d)
                  then reviewCategory operator MODIFIED mName (modified d)
                  else fun c => ({| approved := []; skipped := []; quitted := false |}, c)) c1
                 = reviewCategory operator MODIFIED mName (modified d) c1).
    { destruct (modified d); reflexivity. }
    rewrite E2. destruct (reviewCategory operator MODIFIED mName (modified d) c1) as [r2 c2].
    cbn [fst snd]. destruct (quitted r2) eqn:Eq2; cbn [negb andb orb].
    + reflexivity.
    + assert (E3 : (if 0 <? length removable
                    then reviewCategory operator REMOVED rName removable
                    else fun c => ({| approved := []; skipped := []; quitted := false |}, c)) c2
                   = reviewCategory operator REMOVED rName removable c2).
      { destruct removable; reflexivity. }
      rewrite E3. destruct (reviewCategory operator REMOVED rName removable c2) as [r3 c3].
      reflexivity.
Qed.



End AbortFacts.

(** ** The cycle detector on the two-token cycle *)

Lemma validator_dfsLoop_S (fuel : nat) (g : JSMap.t (list string)) (st : Validator.dfsState) :
  Validator.dfsLoop (S fuel) g st
  = match Validator.callStack st with
    | [] => Some st
    | fr :: below => Validator.dfsLoop fuel g (Validator.dfsStep g st fr below)
    end.
Proof. reflexivity. Qed.

Lemma sync_dfsLoop_S (fuel : nat) (g : JSMap.t (list string)) (st : Figma.dfsState) :
  Figma.dfsLoop (S fuel) g st
  = match Figma.stack st with
    | [] => Some st
    | fr :: below => Figma.dfsLoop fuel g (Figma.dfsStep g st fr below)
    end.
Proof. reflexivity. Qed.

Lemma sync_visitAll_S (fuel : nat) (g : JSMap.t (list string)) (i : nat)
    (col : JSMap.t colour) (cyc : list (list string)) :
  Figma.visitAll (S fuel) g i col cyc
  = match col !! i with
    | None => Some cyc
    | Some (name, clr) =>
        match clr with
        | WHITE =>
            match Figma.dfs g col cyc name with
            | Some st => Figma.visitAll fuel g (S i) (Figma.color st) (Figma.cycles st)
            | None => None
            end
        | _ => Figma.visitAll fuel g (S i) col cyc
        end
    end.
Proof. reflexivity. Qed.

Section TwoCycle.
Variables A B : string.
Hypothesis HAB : A ≠ B.

Lemma eqb_AB : String.eqb A B = false.
Proof. by apply String.eqb_neq. Qed.

Lemma eqb_BA : String.eqb B A = false.
Proof. apply String.eqb_neq. congruence. Qed.

Ltac eval_names :=
  repeat (cbn -[Validator.dfsLoop Figma.dfsLoop Figma.visitAll];
          unfold JSMap.has, Figma.sliceFrom, Validator.sliceFrom;
          rewrite ?String.eqb_refl, ?eqb_AB, ?eqb_BA).

Ltac validator_step :=
  rewrite validator_dfsLoop_S; cbn [Validator.callStack];
  try unfold Validator.dfsStep; eval_names.

Ltac sync_step :=
  rewrite sync_dfsLoop_S; cbn [Figma.stack];
  try unfold Figma.dfsStep; eval_names.

Lemma validator_two_cycle_run :
  Validator.findCycles_run [(A, [B]); (B, [A])] = Some [[A; B; A]].
Proof.
  unfold Validator.findCycles_run. eval_names.
  unfold Validator.dfs, Validator.dfsFuel. eval_names.
  repeat validator_step. reflexivity.
Qed.

Lemma sync_two_cycle_run :
  Figma.findCycles_run [(A, [B]); (B, [A])] = Some [[A; B; A]].
Proof.
  unfold Figma.findCycles_run, Figma.visitFuel. eval_names.
  rewrite sync_visitAll_S. eval_names.
  unfold Figma.dfs, Figma.dfsFuel. eval_names.
  repeat sync_step.
  repeat (rewrite sync_visitAll_S; eval_names). reflexivity.
Qed.
End TwoCycle.

(** ** The cycle detector always ends within its fuel (validator) *)

Section ValidatorTermination.
Import Validator Measure.

Lemma whites_le_length (col : JSMap.t colour) : whites col <= length col.
Proof.
  induction col as [|[k c] col IH]; cbn; [lia|]. destruct (isWhite c); lia.
Qed.

Lemma whites_cons (k : string) (c : colour) (col : JSMap.t colour) :
  whites ((k, c) :: col) = (if isWhite c then 1 else 0) + whites col.
Proof. reflexivity. Qed.

Lemma whites_set_not_white (col : JSMap.t colour) (k : string) (c : colour) :
  isWhite c = false -> whites (JSMap.set col k c) <= whites col.
Proof.
  intros Hc. induction col as [|[k' c'] col IH]; cbn [JSMap.set].
  - rewrite whites_cons, Hc. cbn. lia.
  - destruct (String.eqb k' k); rewrite !whites_cons.
    + rewrite Hc. lia.
    + lia.
Qed.

Lemma whites_set_white_node (col : JSMap.t colour) (k : string) (c : colour) :
  JSMap.get col k = Some WHITE -> isWhite c = false ->
  S (whites (JSMap.set col k c)) = whites col.
Proof.
  intros Hget Hc. induction col as [|[k' c'] col IH]; cbn in *; [discriminate|].
  destruct (String.eqb k' k); rewrite !whites_cons.
  - injection Hget as ->. rewrite Hc. reflexivity.
  - rewrite <- (IH Hget). lia.
Qed.

(** The inner loop stops at a dependency only when it is white. *)
Lemma scanDeps_advanced_white (col : JSMap.t colour) (pth : list string)
    (rest : list string) :
  forall idx cyc idx' cyc' dep,
    scanDeps col pth rest idx cyc = (idx', cyc', Some dep) ->
    JSMap.get col dep = Some WHITE.
Proof.
  induction rest as [|d rest IH]; intros idx cyc idx' cyc' dep H; cbn in H.
  - discriminate.
  - destruct (JSMap.get col d) as [[]|] eqn:E; eauto.
    injection H as _ _ <-. exact E.
Qed.

Lemma dfsStep_measure (g : JSMap.t (list string)) (st : dfsState)
    (fr : frame) (below : list frame) :
  callStack st = fr :: below ->
  S (dfsMeasure (dfsStep g st fr below)) <= dfsMeasure st.
Proof.
  intros Hst. unfold dfsStep, dfsMeasure. rewrite Hst.
  destruct (scanDeps _ _ _ _ _) as [[idx cyc] [dep|]] eqn:Escan; cbn.
  - apply scanDeps_advanced_white in Escan.
    pose proof (whites_set_white_node _ _ GRAY Escan eq_refl). lia.
  - pose proof (whites_set_not_white (color st) (node fr) BLACK eq_refl). lia.
Qed.

Lemma dfsLoop_total (g : JSMap.t (list string)) (fuel : nat) :
  forall st, dfsMeasure st <= fuel -> is_Some (dfsLoop fuel g st).
Proof.
  induction fuel as [|fuel IH]; intros st Hm.
  - unfold dfsMeasure in Hm. cbn. destruct (callStack st); [by eexists | cbn in Hm; lia].
  - rewrite validator_dfsLoop_S. destruct (callStack st) as [|fr below] eqn:Est.
    + by eexists.
    + apply IH. pose proof (dfsStep_measure g st fr below Est). lia.
Qed.

Lemma dfs_total (g : JSMap.t (list string)) (col : JSMap.t colour)
    (cyc : list (list string)) (start : string) :
  is_Some (dfs g col cyc start).
Proof.
  unfold dfs. apply dfsLoop_total. unfold dfsMeasure, dfsFuel. cbn.
  pose proof (whites_set_not_white col start GRAY eq_refl).
  pose proof (whites_le_length col). lia.
Qed.

Lemma visitAll_total (g : JSMap.t (list string)) (names : list string) :
  forall col cyc, is_Some (visitAll g names col cyc).
Proof.
  induction names as [|name names IH]; intros col cyc; cbn [visitAll].
  - by eexists.
  - destruct (JSMap.get col name) as [[]|]; try apply IH.
    destruct (dfs_total g col cyc name) as [st ->]. apply IH.
Qed.

(** The search of the validator ends within its fuel on every graph. *)
Lemma validator_findCycles_run_total (g : JSMap.t (list string)) :
  findCycles_run g = Some (findCycles g).
Proof.
  unfold findCycles.
  destruct (visitAll_total g (JSMap.keys g)
              (fold_left (fun c name => JSMap.set c name WHITE) (JSMap.keys g) []) [])
    as [cyc H].
  unfold findCycles_run. rewrite H. reflexivity.
Qed.
End ValidatorTermination.

(** ** The cycle detector always ends within its fuel (sync scripts) *)

Section SyncTermination.
Import Figma SyncMeasure.
Implicit Types (g : JSMap.t (list string)) (col : JSMap.t colour).

Lemma jsmap_get_set {V} (m : JSMap.t V) (k k' : string) (v : V) :
  JSMap.get (JSMap.set m k v) k' = if String.eqb k k' then Some v else JSMap.get m k'.
Proof.
  destruct (String.eqb_spec k k') as [->|Hne].
  - apply jsmap_get_set_eq.
  - by apply jsmap_get_set_ne.
Qed.

Lemma pending_mono g col col' :
  (forall k, undiscovered col' k = true -> undiscovered col k = true) ->
  pending g col' <= pending g col.
Proof.
  intros H. induction g as [|[k deps] g IH]; cbn; [lia|].
  specialize (H k). destruct (undiscovered col' k).
  - rewrite H by reflexivity. lia.
  - destruct (undiscovered col k); lia.
Qed.

Lemma pending_set_not_white g col k c :
  c ≠ WHITE -> pending g (JSMap.set col k c) <= pending g col.
Proof.
  intros Hc. apply pending_mono. intros k'. unfold undiscovered.
  rewrite jsmap_get_set. destruct (String.eqb k k'); [|auto].
  destruct c; congruence.
Qed.

Lemma pending_set_white_new g col k :
  JSMap.get col k = None -> pending g (JSMap.set col k WHITE) = pending g col.
Proof.
  intros Hk. apply Nat.le_antisymm; apply pending_mono; intros k'; unfold undiscovered;
    rewrite jsmap_get_set; destruct (String.eqb_spec k k') as [<-|]; auto.
  by rewrite Hk.
Qed.

Lemma pending_set_gray g col k deps :
  JSMap.get g k = Some deps -> undiscovered col k = true ->
  pending g (JSMap.set col k GRAY) + 2 * length deps + 2 <= pending g col.
Proof.
  intros Hg Hu. induction g as [|[k0 deps0] g IH]; cbn in *; [discriminate|].
  destruct (String.eqb_spec k0 k) as [->|Hne].
  - injection Hg as ->. rewrite Hu.
    assert (undiscovered (JSMap.set col k GRAY) k = false) as ->.
    { unfold undiscovered. by rewrite jsmap_get_set_eq. }
    pose proof (pending_set_not_white g col k GRAY ltac:(discriminate)). lia.
  - specialize (IH Hg).
    assert (undiscovered (JSMap.set col k GRAY) k0 = undiscovered col k0) as ->.
    { unfold undiscovered. by rewrite jsmap_get_set_ne. }
    lia.
Qed.

Lemma pending_bound g col : pending g col <= 2 * length (concat (JSMap.values g)) + 2 * length g.
Proof.
  induction g as [|[k deps] g IH]; cbn; [lia|].
  rewrite length_app. fold (JSMap.values g). destruct (undiscovered col k); lia.
Qed.

Lemma pending_gray_bound g col k deps :
  JSMap.get g k = Some deps ->
  pending g (JSMap.set col k GRAY) + 2 * length deps + 2
  <= 2 * length (concat (JSMap.values g)) + 2 * length g.
Proof.
  intros Hg. induction g as [|[k0 deps0] g IH]; cbn in *; [discriminate|].
  rewrite length_app. fold (JSMap.values g).
  destruct (String.eqb_spec k0 k) as [->|Hne].
  - injection Hg as ->.
    assert (undiscovered (JSMap.set col k GRAY) k = false) as ->.
    { unfold undiscovered. by rewrite jsmap_get_set_eq. }
    pose proof (pending_bound g (JSMap.set col k GRAY)). lia.
  - specialize (IH Hg). destruct (undiscovered (JSMap.set col k GRAY) k0); lia.
Qed.

Lemma sync_dfsStep_measure g (st : dfsState) (fr : frame) (below : list frame) :
  stack st = fr :: below ->
  S (dfsMeasure g (dfsStep g st fr below)) <= dfsMeasure g st.
Proof.
  intros Hst. unfold dfsMeasure. rewrite Hst. unfold dfsStep.
  destruct (default [] (JSMap.get g (node fr)) !! edgeIdx fr) as [dep|] eqn:Edep.
  - apply lookup_lt_Some in Edep.
    set (col1 := if JSMap.has (color st) dep then color st
                 else JSMap.set (color st) dep WHITE).
    assert (Hp1 : pending g col1 = pending g (color st)).
    { subst col1. unfold JSMap.has. destruct (JSMap.get (color st) dep) eqn:E; [reflexivity|].
      by apply pending_set_white_new. }
    assert (Hfw : frameWeight g {| node := node fr; path := path fr;
                                   edgeIdx := S (edgeIdx fr) |} + 2
                  = frameWeight g fr).
    { unfold frameWeight. cbn. lia. }
    destruct (JSMap.get col1 dep) as [[]|] eqn:Ecol; cbn [stack color stackWeight].
    + (* white: the dependency is pushed *)
      destruct (JSMap.get g dep) as [deps'|] eqn:Eg.
      * assert (Hu : undiscovered col1 dep = true) by (unfold undiscovered; by rewrite Ecol).
        pose proof (pending_set_gray g col1 dep deps' Eg Hu).
        unfold frameWeight at 1. cbn [node edgeIdx]. rewrite Eg. cbn [from_option id]. lia.
      * pose proof (pending_set_not_white g col1 dep GRAY ltac:(discriminate)).
        unfold frameWeight at 1. cbn [node edgeIdx]. rewrite Eg. cbn [from_option id length]. lia.
    + lia.
    + lia.
    + lia.
  - cbn [stack color stackWeight].
    pose proof (pending_set_not_white g (color st) (node fr) BLACK ltac:(discriminate)).
    unfold frameWeight. lia.
Qed.

Lemma sync_dfsLoop_total g (fuel : nat) :
  forall st, dfsMeasure g st <= fuel -> is_Some (dfsLoop fuel g st).
Proof.
  induction fuel as [|fuel IH]; intros st Hm.
  - unfold dfsMeasure in Hm. cbn. destruct (stack st) as [|fr below]; [by eexists|].
    cbn in Hm. unfold frameWeight in Hm. lia.
  - rewrite sync_dfsLoop_S. destruct (stack st) as [|fr below] eqn:Est.
    + by eexists.
    + apply IH. pose proof (sync_dfsStep_measure g st fr below Est). lia.
Qed.

Lemma sync_dfs_total g col (cyc : list (list string)) (start : string) :
  is_Some (dfs g col cyc start).
Proof.
  unfold dfs. apply sync_dfsLoop_total. unfold dfsMeasure, dfsFuel.
  cbn [stack color stackWeight]. unfold frameWeight. cbn [node edgeIdx].
  destruct (JSMap.get g start) as [deps|] eqn:Eg; cbn [from_option id length].
  - pose proof (pending_gray_bound g col start deps Eg). lia.
  - pose proof (pending_bound g (JSMap.set col start GRAY)). lia.
Qed.

Lemma colourOk_set g col k c :
  colourOk g col -> k ∈ universe g -> colourOk g (JSMap.set col k c).
Proof.
  intros [Hnd Hsub] Hk. split.
  - by apply jsmap_keys_set_NoDup.
  - intros k' Hk'. apply jsmap_keys_set_elem in Hk' as [->|Hk']; auto.
Qed.

Lemma colourOk_length g col : colourOk g col -> length col <= length (universe g).
Proof.
  intros [Hnd Hsub].
  replace (length col) with (length (JSMap.keys col)) by apply length_map.
  apply submseteq_length, NoDup_submseteq; assumption.
Qed.

Lemma dependency_in_universe g k deps dep :
  JSMap.get g k = Some deps -> dep ∈ deps -> dep ∈ universe g.
Proof.
  intros Hg Hd. apply elem_of_app. right.
  apply jsmap_get_Some_elem in Hg.
  apply list_elem_of_In, in_concat. exists deps. split.
  - apply list_elem_of_In, list_elem_of_fmap. exists (k, deps). by split.
  - by apply list_elem_of_In.
Qed.

Lemma sync_dfsStep_ok g (st : dfsState) (fr : frame) (below : list frame) :
  stack st = fr :: below -> stackOk g st -> stackOk g (dfsStep g st fr below).
Proof.
  intros Hst [Hcol Hstack]. rewrite Hst in Hstack.
  assert (Hfr : node fr ∈ universe g) by (apply Hstack; constructor).
  assert (Hbelow : forall f, f ∈ below -> node f ∈ universe g).
  { intros f Hf. apply Hstack. by constructor. }
  unfold dfsStep.
  destruct (default [] (JSMap.get g (node fr)) !! edgeIdx fr) as [dep|] eqn:Edep.
  - assert (Hdep : dep ∈ universe g).
    { destruct (JSMap.get g (node fr)) as [deps|] eqn:Eg; cbn in Edep.
      - eapply dependency_in_universe; [exact Eg|]. eapply list_elem_of_lookup_2, Edep.
      - discriminate. }
    set (col1 := if JSMap.has (color st) dep then color st
                 else JSMap.set (color st) dep WHITE).
    assert (Hcol1 : colourOk g col1).
    { subst col1. destruct (JSMap.has (color st) dep); [assumption|]. by apply colourOk_set. }
    assert (Hstack' : forall f,
              f ∈ {| node := node fr; path := path fr; edgeIdx := S (edgeIdx fr) |} :: below ->
              node f ∈ universe g).
    { intros f Hf. apply elem_of_cons in Hf as [->|Hf]; [exact Hfr | by apply Hbelow]. }
    destruct (JSMap.get col1 dep) as [[]|]; split; cbn [color stack]; try assumption.
    + by apply colourOk_set.
    + intros f Hf. apply elem_of_cons in Hf as [->|Hf]; [exact Hdep | by apply Hstack'].
  - split; cbn [color stack]; [by apply colourOk_set | exact Hbelow].
Qed.

Lemma sync_dfsLoop_ok g (fuel : nat) :
  forall st st', stackOk g st -> dfsLoop fuel g st = Some st' -> colourOk g (color st').
Proof.
  induction fuel as [|fuel IH]; intros st st' Hok Hrun.
  - cbn in Hrun. destruct (stack st); [|discriminate]. injection Hrun as <-. apply Hok.
  - rewrite sync_dfsLoop_S in Hrun. destruct (stack st) as [|fr below] eqn:Est.
    + injection Hrun as <-. apply Hok.
    + eapply IH; [|exact Hrun]. by apply sync_dfsStep_ok.
Qed.

Lemma sync_visitAll_total g (fuel : nat) :
  forall i col cyc,
    colourOk g col -> length (universe g) + 1 <= fuel + i ->
    is_Some (visitAll fuel g i col cyc).
Proof.
  induction fuel as [|fuel IH]; intros i col cyc Hcol Hfuel.
  - cbn. destruct (col !! i) as [[name clr]|] eqn:Ei; [|by eexists].
    apply lookup_lt_Some in Ei. pose proof (colourOk_length g col Hcol). lia.
  - rewrite sync_visitAll_S. destruct (col !! i) as [[name clr]|] eqn:Ei; [|by eexists].
    destruct clr; try (apply IH; [assumption | lia]).
    destruct (sync_dfs_total g col cyc name) as [st Hst]. rewrite Hst.
    apply IH; [|lia]. unfold dfs in Hst.
    eapply sync_dfsLoop_ok; [|exact Hst].
    assert (Hname : name ∈ universe g).
    { apply Hcol. apply list_elem_of_fmap. exists (name, WHITE).
      split; [reflexivity|]. eapply list_elem_of_lookup_2, Ei. }
    split; cbn [color stack].
    + by apply colourOk_set.
    + intros fr Hfr. apply list_elem_of_singleton in Hfr. by subst fr.
Qed.

Lemma initial_colourOk g :
  colourOk g (fold_left (fun c name => JSMap.set c name WHITE) (JSMap.keys g) []).
Proof.
  assert (H : forall names (col : JSMap.t colour),
             colourOk g col -> (forall k, k ∈ names -> k ∈ universe g) ->
             colourOk g (fold_left (fun c name => JSMap.set c name WHITE) names col)).
  { induction names as [|n names IH]; intros col Hcol Hn; cbn; [assumption|].
    apply IH.
    - apply colourOk_set; [assumption|]. apply Hn. constructor.
    - intros k Hk. apply Hn. by constructor. }
  apply H.
  - split; [constructor | intros k Hk; by apply elem_of_nil in Hk].
  - intros k Hk. apply elem_of_app. by left.
Qed.

(** The search of the sync scripts ends within its fuel on every graph. *)
Lemma sync_findCycles_run_total g : findCycles_run g = Some (findCycles g).
Proof.
  unfold findCycles.
  destruct (sync_visitAll_total g (visitFuel g) 0
              (fold_left (fun c name => JSMap.set c name WHITE) (JSMap.keys g) []) []
              (initial_colourOk g)) as [cyc H].
  { unfold visitFuel, universe. rewrite length_app.
    unfold JSMap.keys. rewrite length_map. lia. }
  unfold findCycles_run. rewrite H. reflexivity.
Qed.
End SyncTermination.

(** ** The states of the depth-first search *)

Section SearchFacts.
Import Cycles.
Variable g : JSMap.t (list string).

Lemma frame_unique (stk : astack) (u : string) (i i' : nat) :
  NoDup (map fst stk) -> (u, i) ∈ stk -> (u, i') ∈ stk -> i = i'.
Proof.
  induction stk as [|[v k] stk IH]; cbn [map fst]; intros Hnd H1 H2.
  - by apply elem_of_nil in H1.
  - apply NoDup_cons in Hnd as [Hv Hnd].
    assert (Hin : forall n, (u, n) ∈ stk -> u ∈ map fst stk).
    { intros n Hn. apply list_elem_of_fmap. by exists (u, n). }
    apply elem_of_cons in H1 as [H1|H1]; apply elem_of_cons in H2 as [H2|H2].
    + congruence.
    + injection H1 as -> ->. destruct Hv. eauto.
    + injection H2 as -> ->. destruct Hv. eauto.
    + eauto.
Qed.

Lemma top_not_exam (col : string -> option colour) (u : string) (i : nat)
    (rest : astack) :
  NoDup (map fst ((u, i) :: rest)) -> col u = Some GRAY ->
  ~ exam col ((u, i) :: rest) u i.
Proof.
  intros Hnd Hg [Hb | (i' & Hin & Hlt)]; [congruence|].
  assert (i' = i); [|lia].
  eapply frame_unique; [exact Hnd | exact Hin | apply list_elem_of_here].
Qed.

Lemma exam_inc (col : string -> option colour) (u : string) (i : nat)
    (rest : astack) (x : string) (k : nat) :
  exam col ((u, i) :: rest) x k -> exam col ((u, S i) :: rest) x k.
Proof.
  intros [Hb | (i' & Hin & Hlt)]; [by left|]. right.
  apply elem_of_cons in Hin as [Hin|Hin].
  - injection Hin as -> ->. exists (S i). split; [apply list_elem_of_here | lia].
  - exists i'. split; [by apply list_elem_of_further | done].
Qed.

Lemma exam_inc_inv (col : string -> option colour) (u : string) (i : nat)
    (rest : astack) (x : string) (k : nat) :
  exam col ((u, S i) :: rest) x k ->
  exam col ((u, i) :: rest) x k ∨ (x = u ∧ k = i).
Proof.
  intros [Hb | (i' & Hin & Hlt)]; [by left; left|].
  apply elem_of_cons in Hin as [Hin|Hin].
  - injection Hin as -> ->. destruct (decide (k = i)) as [->|Hne]; [by right|].
    left. right. exists i. split; [apply list_elem_of_here | lia].
  - left. right. exists i'. split; [by apply list_elem_of_further | done].
Qed.

Lemma recoloured_eq (col col' : string -> option colour) (d : string) (c : colour) :
  recoloured col col' d c -> col' d = Some c.
Proof. intros H. rewrite H. by rewrite String.eqb_refl. Qed.

Lemma recoloured_ne (col col' : string -> option colour) (d x : string) (c : colour) :
  recoloured col col' d c -> d ≠ x -> col' x = col x.
Proof. intros H Hne. rewrite H. apply String.eqb_neq in Hne. by rewrite Hne. Qed.

Lemma exam_grow (col col' : string -> option colour) (d : string)
    (stk : astack) (x : string) (k : nat) :
  recoloured col col' d GRAY -> col d ≠ Some BLACK ->
  exam col' ((d, 0) :: stk) x k <-> exam col stk x k.
Proof.
  intros Hrc Hd. split.
  - intros [Hb | (i' & Hin & Hlt)].
    + left. destruct (decide (d = x)) as [->|Hne].
      * rewrite (recoloured_eq _ _ _ _ Hrc) in Hb. discriminate.
      * by rewrite <- (recoloured_ne _ _ _ _ _ Hrc Hne).
    + apply elem_of_cons in Hin as [Hin|Hin]; [injection Hin as -> ->; lia|].
      right. eauto.
  - intros [Hb | (i' & Hin & Hlt)].
    + left. destruct (decide (d = x)) as [->|Hne]; [congruence|].
      by rewrite (recoloured_ne _ _ _ _ _ Hrc Hne).
    + right. exists i'. split; [by apply list_elem_of_further | done].
Qed.

Lemma exam_pop (col col' : string -> option colour) (u : string) (i : nat)
    (rest : astack) (x : string) (k : nat) :
  recoloured col col' u BLACK ->
  exam col ((u, i) :: rest) x k -> exam col' rest x k.
Proof.
  intros Hrc [Hb | (i' & Hin & Hlt)].
  - left. destruct (decide (u = x)) as [->|Hne].
    + by apply (recoloured_eq _ _ _ _ Hrc).
    + by rewrite (recoloured_ne _ _ _ _ _ Hrc Hne).
  - apply elem_of_cons in Hin as [Hin|Hin].
    + injection Hin as -> ->. left. by apply (recoloured_eq _ _ _ _ Hrc).
    + right. eauto.
Qed.

Lemma exam_pop_inv (col col' : string -> option colour) (u : string) (i : nat)
    (rest : astack) (x : string) (k : nat) :
  recoloured col col' u BLACK -> depsOf g u !! i = None ->
  is_Some (depsOf g x !! k) ->
  exam col' rest x k -> exam col ((u, i) :: rest) x k.
Proof.
  intros Hrc Hend Hk [Hb | (i' & Hin & Hlt)].
  - destruct (decide (u = x)) as [->|Hne].
    + right. exists i. split; [apply list_elem_of_here|].
      apply lookup_lt_is_Some_1 in Hk. apply lookup_ge_None_1 in Hend. lia.
    + left. by rewrite <- (recoloured_ne _ _ _ _ _ Hrc Hne).
  - right. exists i'. split; [by apply list_elem_of_further | done].
Qed.

Lemma above_inc (u : string) (i i' : nat) (rest : astack) (x y : string) :
  above ((u, i) :: rest) x y -> above ((u, i') :: rest) x y.
Proof.
  intros (pre & k & n & post & H). destruct pre as [|p pre]; cbn in H.
  - injection H as -> -> ->. by exists [], i', n, post.
  - injection H as <- ->. by exists ((u, i') :: pre), k, n, post.
Qed.

Lemma above_push (f : string * nat) (stk : astack) (x y : string) :
  above stk x y -> above (f :: stk) x y.
Proof. intros (pre & k & n & post & ->). by exists (f :: pre), k, n, post. Qed.

Lemma above_pop (u : string) (i : nat) (rest : astack) (x y : string) :
  above ((u, i) :: rest) x y -> x = u ∨ above rest x y.
Proof.
  intros (pre & k & n & post & H). destruct pre as [|p pre]; cbn in H.
  - injection H as -> -> ->. by left.
  - injection H as <- ->. right. by exists pre, k, n, post.
Qed.

Lemma above_in (stk : astack) (x y : string) :
  above stk x y -> x ∈ map fst stk ∧ y ∈ map fst stk.
Proof.
  intros (pre & k & n & post & ->). rewrite map_app. cbn [map fst].
  split; apply elem_of_app; right.
  - apply list_elem_of_here.
  - apply list_elem_of_further, list_elem_of_here.
Qed.

Lemma above_nil (x y : string) : ~ above [] x y.
Proof. intros (pre & k & n & post & H). by destruct pre. Qed.

Lemma linked_rchain (stk : astack) : linked g stk -> rchain g (map fst stk).
Proof.
  induction stk as [|[v k] [|[u i] stk] IH]; cbn [map fst]; try done.
  intros [(i' & -> & Hv) Hl]. split; [|by apply IH].
  by eapply list_elem_of_lookup_2.
Qed.

Lemma rchain_prefix (l1 l2 : list string) : rchain g (l1 ++ l2) -> rchain g l1.
Proof.
  induction l1 as [|v [|u l1] IH]; try done.
  intros [Hv Hr]. split; [done|]. by apply IH.
Qed.

Lemma chain_snoc (p : list string) (v : string) :
  chain g p -> (forall y, last p = Some y -> v ∈ depsOf g y) -> chain g (p ++ [v]).
Proof.
  induction p as [|x [|y p] IH]; intros Hc Hl.
  - done.
  - cbn. split; [|done]. by apply Hl.
  - destruct Hc as [Hy Hc]. split; [done|]. apply IH; [done|].
    intros z Hz. apply Hl. done.
Qed.

Lemma rchain_chain (tp : list string) : rchain g tp -> chain g (reverse tp).
Proof.
  induction tp as [|v [|u tp] IH]; try done.
  intros [Hv Hr]. rewrite reverse_cons. apply chain_snoc; [by apply IH|].
  intros y Hy. rewrite last_reverse in Hy. by injection Hy as <-.
Qed.

Lemma sliceFromFirst_app (d : string) (l1 l2 : list string) :
  d ∉ l1 -> Validator.sliceFromFirst d (l1 ++ d :: l2) = Some (d :: l2).
Proof.
  induction l1 as [|x l1 IH]; intros Hd; cbn.
  - by rewrite String.eqb_refl.
  - apply not_elem_of_cons in Hd as [Hne Hd].
    assert (E : String.eqb x d = false) by (apply String.eqb_neq; congruence).
    rewrite E. by apply IH.
Qed.

Lemma exam_inc_other (col : string -> option colour) (u : string) (i : nat)
    (rest : astack) (x : string) (k : nat) :
  ~ (x = u ∧ k = i) ->
  exam col ((u, S i) :: rest) x k <-> exam col ((u, i) :: rest) x k.
Proof.
  intros Hne. split; [|apply exam_inc].
  intros H. by apply exam_inc_inv in H as [H|H].
Qed.

Lemma above_pop_keep (col : string -> option colour) (u : string) (i : nat)
    (rest : astack) (x y : string) (k : nat) :
  above ((u, i) :: rest) x y -> depsOf g u !! i = None ->
  is_Some (depsOf g x !! k) -> ~ exam col ((u, i) :: rest) x k ->
  above rest x y.
Proof.
  intros Hab Hend Hk Hn. apply above_pop in Hab as [->|Hab]; [|done].
  destruct Hn. right. exists i. split; [apply list_elem_of_here|].
  apply lookup_lt_is_Some_1 in Hk. apply lookup_ge_None_1 in Hend. lia.
Qed.

Lemma linked_inc (u : string) (i i' : nat) (rest : astack) :
  linked g ((u, i) :: rest) -> linked g ((u, i') :: rest).
Proof. by destruct rest as [|[w n] r]. Qed.

Lemma key_of_dependency (x : string) (k : nat) :
  is_Some (depsOf g x !! k) -> x ∈ JSMap.keys g.
Proof.
  intros [d Hd]. destruct (decide (x ∈ JSMap.keys g)) as [|Hn]; [done|].
  apply jsmap_get_None in Hn. unfold depsOf in Hd. by rewrite Hn in Hd.
Qed.
Lemma core_top_gray (col : string -> option colour) (u : string) (i : nat)
    (rest : astack) :
  core g col ((u, i) :: rest) -> col u = Some GRAY.
Proof. intros H. apply (core_gray _ _ _ H). apply list_elem_of_here. Qed.

Lemma core_top_not_exam (col : string -> option colour) (u : string) (i : nat)
    (rest : astack) :
  core g col ((u, i) :: rest) -> ~ exam col ((u, i) :: rest) u i.
Proof.
  intros H. apply top_not_exam; [apply (core_nodup _ _ _ H)|].
  by eapply core_top_gray.
Qed.

Lemma core_idle_no_gray (col : string -> option colour) (x : string) :
  core g col [] -> col x ≠ Some GRAY.
Proof.
  intros H Hg. apply (core_gray _ _ _ H) in Hg. by apply elem_of_nil in Hg.
Qed.

Lemma core_start (col col' : string -> option colour) (s : string) :
  core g col [] -> recoloured col col' s GRAY -> core g col' [(s, 0)].
Proof.
  intros [Hnd Hgray Hl Hkeys] Hrc. constructor.
  - cbn. apply NoDup_singleton.
  - intros x. cbn [map fst]. rewrite list_elem_of_singleton.
    destruct (decide (s = x)) as [->|Hne].
    + by rewrite (recoloured_eq _ _ _ _ Hrc).
    + rewrite (recoloured_ne _ _ _ _ _ Hrc Hne), Hgray. cbn.
      rewrite elem_of_nil. intuition congruence.
  - done.
  - intros k Hk. destruct (decide (s = k)) as [->|Hne].
    + by rewrite (recoloured_eq _ _ _ _ Hrc).
    + rewrite (recoloured_ne _ _ _ _ _ Hrc Hne). by apply Hkeys.
Qed.

Lemma core_next (col : string -> option colour) (u : string) (i i' : nat)
    (rest : astack) :
  core g col ((u, i) :: rest) -> core g col ((u, i') :: rest).
Proof. intros [Hnd Hgray Hl Hkeys]. by constructor. Qed.

Lemma core_push (col col' : string -> option colour) (u : string) (i : nat)
    (rest : astack) (d : string) :
  core g col ((u, i) :: rest) -> depsOf g u !! i = Some d ->
  col d ≠ Some GRAY -> recoloured col col' d GRAY ->
  core g col' ((d, 0) :: (u, S i) :: rest).
Proof.
  intros [Hnd Hgray Hl Hkeys] Hi HnG Hrc.
  assert (Hfresh : d ∉ map fst ((u, i) :: rest)) by (by rewrite <- Hgray).
  constructor.
  - cbn [map fst] in *. by apply NoDup_cons.
  - intros x. change (map fst ((d, 0) :: (u, S i) :: rest))
      with (d :: map fst ((u, i) :: rest)).
    rewrite elem_of_cons, <- Hgray.
    destruct (decide (d = x)) as [->|Hne].
    + rewrite (recoloured_eq _ _ _ _ Hrc). intuition.
    + rewrite (recoloured_ne _ _ _ _ _ Hrc Hne). intuition congruence.
  - split; [by eauto|]. by eapply linked_inc.
  - intros k Hk. destruct (decide (d = k)) as [->|Hne].
    + by rewrite (recoloured_eq _ _ _ _ Hrc).
    + rewrite (recoloured_ne _ _ _ _ _ Hrc Hne). by apply Hkeys.
Qed.

Lemma core_pop (col col' : string -> option colour) (u : string) (i : nat)
    (rest : astack) :
  core g col ((u, i) :: rest) -> recoloured col col' u BLACK ->
  core g col' rest.
Proof.
  intros [Hnd Hgray Hl Hkeys] Hrc.
  cbn [map fst] in Hnd. apply NoDup_cons in Hnd as [Hu Hnd].
  constructor; try done.
  - intros x. destruct (decide (u = x)) as [->|Hne].
    + rewrite (recoloured_eq _ _ _ _ Hrc). split; [discriminate | done].
    + rewrite (recoloured_ne _ _ _ _ _ Hrc Hne), Hgray. cbn [map fst].
      rewrite elem_of_cons. intuition congruence.
  - destruct rest as [|[w n] [|[w' n'] r]]; try done. by destruct Hl.
  - intros k Hk. destruct (decide (u = k)) as [->|Hne].
    + by rewrite (recoloured_eq _ _ _ _ Hrc).
    + rewrite (recoloured_ne _ _ _ _ _ Hrc Hne). by apply Hkeys.
Qed.

(** A dependency found gray closes a cycle of the graph: the part of the path
    from that dependency to the top frame. *)
Lemma back_edge_is_a_cycle (col : string -> option colour) (u : string) (i : nat)
    (rest : astack) (d : string) :
  core g col ((u, i) :: rest) -> depsOf g u !! i = Some d -> col d = Some GRAY ->
  exists q1 q2,
    map fst ((u, i) :: rest) = q1 ++ d :: q2
    ∧ Validator.sliceFrom d (pathOf ((u, i) :: rest)) = d :: reverse q1
    ∧ simpleCycle g (d :: reverse q1).
Proof.
  intros [Hnd Hgray Hl _] Hi Hd. apply Hgray in Hd.
  apply list_elem_of_split in Hd as (q1 & q2 & Hsplit).
  exists q1, q2. split; [done|]. split.
  - unfold pathOf, Validator.sliceFrom. rewrite Hsplit, reverse_app, reverse_cons.
    rewrite <- app_assoc. cbn [app]. rewrite sliceFromFirst_app; [done|].
    rewrite Hsplit in Hnd. apply NoDup_app in Hnd as (_ & _ & Hnd).
    apply NoDup_cons in Hnd as [Hnd _]. by rewrite elem_of_reverse.
  - assert (E : d :: reverse q1 = reverse (q1 ++ [d])).
    { by rewrite reverse_app. }
    assert (Hsp : map fst ((u, i) :: rest) = (q1 ++ [d]) ++ q2).
    { by rewrite <- app_assoc. }
    rewrite E. split; [|split].
    + rewrite reverse_Permutation. rewrite Hsp in Hnd. by apply NoDup_app in Hnd as (? & _).
    + apply rchain_chain. apply (rchain_prefix _ q2). rewrite <- Hsp.
      by apply linked_rchain.
    + exists d, u. rewrite <- E. split; [done|]. rewrite E, last_reverse.
      split; [|by eapply list_elem_of_lookup_2].
      cbn [map fst] in Hsp. destruct q1; cbn in Hsp |- *; congruence.
Qed.

Lemma recoloured_set (c : JSMap.t colour) (d : string) (v : colour) :
  recoloured (JSMap.get c) (JSMap.get (JSMap.set c d v)) d v.
Proof. intros x. apply jsmap_get_set. Qed.

Lemma advances_refl (col : string -> option colour) : advances col col.
Proof. by intros x. Qed.

Lemma advances_trans (c1 c2 c3 : string -> option colour) :
  advances c1 c2 -> advances c2 c3 -> advances c1 c3.
Proof. intros H1 H2 x. specialize (H1 x). specialize (H2 x). lia. Qed.

Lemma advances_set (c : JSMap.t colour) (d : string) (v : colour) :
  rank (JSMap.get c d) <= rank (Some v) ->
  advances (JSMap.get c) (JSMap.get (JSMap.set c d v)).
Proof.
  intros H x. rewrite jsmap_get_set.
  destruct (String.eqb_spec d x) as [->|_]; [done | lia].
Qed.
End SearchFacts.

(** ** The search on a graph with exactly the two-token cycle *)

Section FirstEdge.
Import Cycles.
Variable g : JSMap.t (list string).
Variables A B : string.
Variables jA jB : nat.
Hypothesis HAB : A ≠ B.
Hypothesis HjA : depsOf g B !! jA = Some A.

Lemma shape_sym (col : string -> option colour) (stk : astack)
    (cyc : list (list string)) :
  shape A B jA jB col stk cyc -> shape B A jB jA col stk cyc.
Proof. unfold shape. intuition auto. Qed.

(** The shape only depends on which of the two edges are examined and on
    which of the two frames lies on the other. *)
Lemma shape_transfer (col col' : string -> option colour) (stk stk' : astack)
    (cyc : list (list string)) :
  (exam col' stk' A jB <-> exam col stk A jB) ->
  (exam col' stk' B jA <-> exam col stk B jA) ->
  (above stk B A -> ~ exam col stk B jA -> above stk' B A) ->
  (above stk A B -> ~ exam col stk A jB -> above stk' A B) ->
  shape A B jA jB col stk cyc -> shape A B jA jB col' stk' cyc.
Proof. unfold shape. intros -> -> H1 H2. intuition auto. Qed.

(** While the frame of [A] stands at its edge to [B], nothing is reported
    yet, and [B] is on the stack if its edge to [A] has been examined. *)
Lemma shape_at_first_edge (col : string -> option colour) (rest : astack)
    (cyc : list (list string)) :
  core g col ((A, jB) :: rest) -> shape A B jA jB col ((A, jB) :: rest) cyc ->
  cyc = [] ∧ (~ exam col ((A, jB) :: rest) B jA ∨ col B = Some GRAY).
Proof.
  intros Hcore Hshape. pose proof (core_top_not_exam _ _ _ _ _ Hcore) as Htop.
  destruct Hshape as [(? & _ & ?)|[(_ & ? & _)|[(? & _ & _ & Hab)|[(_ & ? & _)|(_ & ? & _)]]]];
    try done; [by auto|].
  split; [done|]. right. apply (core_gray _ _ _ Hcore).
  by apply above_in in Hab as [_ ?].
Qed.

(** The edge from [A] to [B] is never skipped. *)
Lemma first_edge_not_skipped (col : string -> option colour) (rest : astack)
    (cyc : list (list string)) :
  core g col ((A, jB) :: rest) -> shape A B jA jB col ((A, jB) :: rest) cyc ->
  col B = Some BLACK ∨ col B = None -> False.
Proof.
  intros Hcore Hshape Hd.
  destruct (shape_at_first_edge _ _ _ Hcore Hshape) as [_ [Hn|Hg]].
  - destruct Hd as [Hd|Hd]; [apply Hn; by left|].
    eapply (core_keys _ _ _ Hcore); [|exact Hd].
    eapply key_of_dependency. by rewrite HjA.
  - destruct Hd; congruence.
Qed.

(** Pushing [B] from the edge of [A]: one edge examined, [B] on [A]. *)
Lemma first_edge_pushes (col col' : string -> option colour) (rest : astack)
    (cyc : list (list string)) :
  core g col ((A, jB) :: rest) -> shape A B jA jB col ((A, jB) :: rest) cyc ->
  col B ≠ Some GRAY -> col B ≠ Some BLACK -> recoloured col col' B GRAY ->
  shape A B jA jB col' ((B, 0) :: (A, S jB) :: rest) cyc.
Proof.
  intros Hcore Hshape HnG HnB Hrc.
  destruct (shape_at_first_edge _ _ _ Hcore Hshape) as [-> [Hn|Hg]]; [|done].
  right. left. split; [done|]. split; [|split].
  - right. exists (S jB). split; [|lia].
    apply list_elem_of_further, list_elem_of_here.
  - rewrite (exam_grow _ _ _ _ _ _ Hrc HnB). rewrite exam_inc_other; [done|].
    intros [? _]. congruence.
  - by exists [], 0, (S jB), rest.
Qed.

(** The edge from [B] back to [A], found with [A] directly below: the cycle
    is reported for the first time. *)
Lemma second_edge_reports (col : string -> option colour) (rest : astack)
    (cyc : list (list string)) :
  core g col ((B, jA) :: (A, S jB) :: rest) ->
  shape A B jA jB col ((B, jA) :: (A, S jB) :: rest) cyc ->
  shape A B jA jB col ((B, S jA) :: (A, S jB) :: rest) (cyc ++ [[A; B; A]]).
Proof.
  intros Hcore Hshape. pose proof (core_top_not_exam _ _ _ _ _ Hcore) as Htop.
  assert (HA : forall n, exam col ((B, n) :: (A, S jB) :: rest) A jB).
  { intros n. right. exists (S jB). split; [|lia].
    apply list_elem_of_further, list_elem_of_here. }
  assert (HB : exam col ((B, S jA) :: (A, S jB) :: rest) B jA).
  { right. exists (S jA). split; [apply list_elem_of_here | lia]. }
  destruct Hshape as [(_ & Hn & _)|[(-> & _)|[(_ & _ & ? & _)|[(_ & _ & ?)|(_ & _ & ?)]]]];
    try done.
  - destruct Hn. apply HA.
  - right. right. right. left. by auto.
Qed.
End FirstEdge.

Section TwoCycleShape.
Import Cycles.
Variable g : JSMap.t (list string).
Variables A B : string.
Variables jA jB : nat.
Hypothesis HAB : A ≠ B.
Hypothesis HjB : depsOf g A !! jB = Some B.
Hypothesis HjB_only : forall i, depsOf g A !! i = Some B -> i = jB.
Hypothesis HjA : depsOf g B !! jA = Some A.
Hypothesis HjA_only : forall i, depsOf g B !! i = Some A -> i = jA.
Hypothesis Honly : forall p, simpleCycle g p -> p = [A; B] ∨ p = [B; A].

Lemma B_differs_from_A : B ≠ A.
Proof. congruence. Qed.

(** A dependency found gray closes the two-token cycle: the top frame is
    one of the two names at its edge to the other, which lies directly
    below. *)
Lemma back_edge_closes_the_cycle (col : string -> option colour) (u : string)
    (i : nat) (rest : astack) (d : string) :
  core g col ((u, i) :: rest) -> depsOf g u !! i = Some d -> col d = Some GRAY ->
  (d = A ∧ u = B ∧ i = jA ∧ (exists rest', rest = (A, S jB) :: rest')
   ∧ Validator.sliceFrom d (pathOf ((u, i) :: rest)) = [A; B])
  ∨ (d = B ∧ u = A ∧ i = jB ∧ (exists rest', rest = (B, S jA) :: rest')
     ∧ Validator.sliceFrom d (pathOf ((u, i) :: rest)) = [B; A]).
Proof.
  intros Hcore Hi Hd.
  destruct (back_edge_is_a_cycle g col u i rest d Hcore Hi Hd)
    as (q1 & q2 & Hsplit & Hslice & Hcyc).
  pose proof (core_linked _ _ _ Hcore) as Hl.
  rewrite Hslice.
  assert (Hq : forall X Y, d :: reverse q1 = [X; Y] -> X ≠ Y ->
            d = X ∧ u = Y ∧ exists n rest', rest = (X, S n) :: rest'
                                            ∧ depsOf g X !! n = Some Y).
  { intros X Y E HXY. injection E as -> E.
    apply (f_equal reverse) in E. rewrite reverse_involutive in E.
    change (reverse [Y]) with [Y] in E. subst q1.
    cbn [map fst app] in Hsplit. injection Hsplit as -> Hrest.
    split; [done|]. split; [done|].
    destruct rest as [|[x n] rest']; [discriminate|].
    cbn [map fst] in Hrest. injection Hrest as -> _.
    destruct Hl as [(n' & -> & Hn') _]. eauto. }
  destruct (Honly _ Hcyc) as [E|E].
  - destruct (Hq A B E HAB) as (-> & -> & n & rest' & -> & Hn).
    left. apply HjB_only in Hn as ->. apply HjA_only in Hi as ->. eauto 10.
  - destruct (Hq B A E (not_eq_sym HAB)) as (-> & -> & n & rest' & -> & Hn).
    right. apply HjA_only in Hn as ->. apply HjB_only in Hi as ->. eauto 10.
Qed.

(** Every step of a search keeps the shape. *)
Lemma shape_stable : stable g (shape A B jA jB).
Proof.
  constructor.
  - (* start *)
    intros col col' s cyc Hcore Hshape Hs Hrc.
    eapply shape_transfer; [| | | |exact Hshape].
    + by apply exam_grow.
    + by apply exam_grow.
    + intros H. by apply above_nil in H.
    + intros H. by apply above_nil in H.
  - (* skip *)
    intros col u i rest cyc d Hcore Hshape Hi Hd.
    assert (H1 : ~ (A = u ∧ jB = i)).
    { intros [<- <-]. assert (d = B) as -> by congruence.
      by eapply (first_edge_not_skipped g A B jA jB). }
    assert (H2 : ~ (B = u ∧ jA = i)).
    { intros [<- <-]. assert (d = A) as -> by congruence.
      apply shape_sym in Hshape. by eapply (first_edge_not_skipped g B A jB jA). }
    eapply shape_transfer; [| | | |exact Hshape].
    + by apply exam_inc_other.
    + by apply exam_inc_other.
    + intros H _. by eapply above_inc.
    + intros H _. by eapply above_inc.
  - (* report *)
    intros col u i rest cyc d Hcore Hshape Hi Hd.
    destruct (back_edge_closes_the_cycle col u i rest d Hcore Hi Hd) as
      [(-> & -> & -> & [rest' ->] & ->)|(-> & -> & -> & [rest' ->] & ->)].
    + by apply (second_edge_reports g A B jA jB).
    + apply shape_sym in Hshape. apply shape_sym.
      by apply (second_edge_reports g B A jB jA).
  - (* push *)
    intros col col' u i rest cyc d Hcore Hshape Hi Hd Hrc.
    assert (HnG : col d ≠ Some GRAY) by (destruct Hd; congruence).
    assert (HnB : col d ≠ Some BLACK) by (destruct Hd; congruence).
    destruct (decide (A = u ∧ jB = i)) as [[<- <-]|H1].
    { assert (d = B) as -> by congruence.
      by eapply (first_edge_pushes g A B jA jB). }
    destruct (decide (B = u ∧ jA = i)) as [[<- <-]|H2].
    { assert (d = A) as -> by congruence. apply shape_sym in Hshape.
      apply shape_sym. by eapply (first_edge_pushes g B A jB jA B_differs_from_A). }
    eapply shape_transfer; [| | | |exact Hshape].
    + rewrite (exam_grow _ _ _ _ _ _ Hrc HnB). by apply exam_inc_other.
    + rewrite (exam_grow _ _ _ _ _ _ Hrc HnB). by apply exam_inc_other.
    + intros H _. by eapply above_push, above_inc.
    + intros H _. by eapply above_push, above_inc.
  - (* pop *)
    intros col col' u i rest cyc Hcore Hshape Hend Hrc.
    eapply shape_transfer; [| | | |exact Hshape].
    + split; [by apply (exam_pop_inv g _ _ _ _ _ _ _ Hrc Hend) | by apply exam_pop].
    + split; [by apply (exam_pop_inv g _ _ _ _ _ _ _ Hrc Hend) | by apply exam_pop].
    + intros H Hn. by eapply (above_pop_keep g col u i rest B A jA).
    + intros H Hn. by eapply (above_pop_keep g col u i rest A B jB).
Qed.

(** When the search is over and both names are explored, the cycle has been
    reported exactly once. *)
Lemma final_cycles (col : string -> option colour) (cyc : list (list string)) :
  shape A B jA jB col [] cyc -> col A = Some BLACK -> col B = Some BLACK ->
  cyc = [[A; B; A]] ∨ cyc = [[B; A; B]].
Proof.
  intros Hshape HA HB.
  destruct Hshape
    as [(_ & Hn & _)|[(_ & _ & Hn & _)|[(_ & Hn & _)|[(-> & _)|(-> & _)]]]];
    try (by auto); destruct Hn; by left.
Qed.

Lemma initial_shape (col : string -> option colour) :
  (forall x, col x ≠ Some BLACK) -> shape A B jA jB col [] [].
Proof.
  intros Hcol. left. split; [done|].
  split; (intros [H|(i & H & _)]; [by apply Hcol in H | by apply elem_of_nil in H]).
Qed.
End TwoCycleShape.

(** ** Both searches keep every stable property *)

Section Search.
Import Cycles.
Variable g : JSMap.t (list string).
Variable P : (string -> option colour) -> astack -> list (list string) -> Prop.
Hypothesis HP : stable g P.

Lemma inv_start (col col' : string -> option colour) (s : string)
    (cyc : list (list string)) :
  inv g P col [] cyc -> col s ≠ Some BLACK -> recoloured col col' s GRAY ->
  inv g P col' [(s, 0)] cyc.
Proof.
  intros [Hc Hp] Hs Hrc.
  split; [by eapply core_start | by eapply (stable_start _ _ HP)].
Qed.

Lemma inv_skip (col : string -> option colour) (u : string) (i : nat)
    (rest : astack) (cyc : list (list string)) (d : string) :
  inv g P col ((u, i) :: rest) cyc ->
  depsOf g u !! i = Some d -> col d = Some BLACK ∨ col d = None ->
  inv g P col ((u, S i) :: rest) cyc.
Proof.
  intros [Hc Hp] Hi Hd.
  split; [by eapply core_next | by eapply (stable_skip _ _ HP)].
Qed.

Lemma inv_report (col : string -> option colour) (u : string) (i : nat)
    (rest : astack) (cyc : list (list string)) (d : string) :
  inv g P col ((u, i) :: rest) cyc ->
  depsOf g u !! i = Some d -> col d = Some GRAY ->
  inv g P col ((u, S i) :: rest)
      (cyc ++ [Validator.sliceFrom d (pathOf ((u, i) :: rest)) ++ [d]]).
Proof.
  intros [Hc Hp] Hi Hd.
  split; [by eapply core_next | by eapply (stable_report _ _ HP)].
Qed.

Lemma inv_push (col col' : string -> option colour) (u : string) (i : nat)
    (rest : astack) (cyc : list (list string)) (d : string) :
  inv g P col ((u, i) :: rest) cyc ->
  depsOf g u !! i = Some d -> col d = Some WHITE ∨ col d = None ->
  recoloured col col' d GRAY ->
  inv g P col' ((d, 0) :: (u, S i) :: rest) cyc.
Proof.
  intros [Hc Hp] Hi Hd Hrc. split; [|by eapply (stable_push _ _ HP)].
  eapply core_push; [exact Hc | exact Hi | | exact Hrc]. destruct Hd; congruence.
Qed.

Lemma inv_pop (col col' : string -> option colour) (u : string) (i : nat)
    (rest : astack) (cyc : list (list string)) :
  inv g P col ((u, i) :: rest) cyc ->
  depsOf g u !! i = None -> recoloured col col' u BLACK ->
  inv g P col' rest cyc.
Proof.
  intros [Hc Hp] Hend Hrc.
  split; [by eapply core_pop | by eapply (stable_pop _ _ HP)].
Qed.

(** *** The validator's search *)

(** The inner loop of the validator's [dfs] keeps the invariant; it stops at
    a white dependency or past the last one. *)
Lemma scanDeps_inv (col : JSMap.t colour) (u : string) (rest : astack) :
  forall (l : list string) (i : nat) (cyc : list (list string)) idx cyc' adv,
    drop i (depsOf g u) = l ->
    inv g P (JSMap.get col) ((u, i) :: rest) cyc ->
    Validator.scanDeps col (pathOf ((u, 0) :: rest)) l i cyc = (idx, cyc', adv) ->
    match adv with
    | None =>
        depsOf g u !! idx = None
        ∧ inv g P (JSMap.get col) ((u, idx) :: rest) cyc'
    | Some dep =>
        exists i', idx = S i' ∧ depsOf g u !! i' = Some dep
                   ∧ JSMap.get col dep = Some WHITE
                   ∧ inv g P (JSMap.get col) ((u, i') :: rest) cyc'
    end.
Proof.
  induction l as [|dep l IH]; intros i cyc idx cyc' adv Hdrop Hinv Hscan.
  - cbn in Hscan. injection Hscan as <- <- <-. split; [|done].
    pose proof (lookup_drop (depsOf g u) i 0) as E.
    rewrite Hdrop, Nat.add_0_r in E. done.
  - assert (Hi : depsOf g u !! i = Some dep).
    { pose proof (lookup_drop (depsOf g u) i 0) as E.
      rewrite Hdrop, Nat.add_0_r in E. done. }
    assert (Hdrop' : drop (S i) (depsOf g u) = l).
    { rewrite (drop_S _ _ _ Hi) in Hdrop. by injection Hdrop. }
    cbn [Validator.scanDeps] in Hscan.
    destruct (JSMap.get col dep) as [[]|] eqn:Ecol.
    + injection Hscan as <- <- <-. eauto.
    + eapply IH; [exact Hdrop' | | exact Hscan].
      by apply (inv_report _ _ _ _ _ _ Hinv Hi).
    + eapply IH; [exact Hdrop' | | exact Hscan].
      eapply inv_skip; [exact Hinv | exact Hi | by left].
    + eapply IH; [exact Hdrop' | | exact Hscan].
      eapply inv_skip; [exact Hinv | exact Hi | by right].
Qed.

Lemma validator_dfsStep_inv (st : Validator.dfsState) (fr : Validator.frame)
    (below : list Validator.frame) :
  Validator.callStack st = fr :: below ->
  validatorInv g P st ->
  validatorInv g P (Validator.dfsStep g st fr below)
  ∧ advances (JSMap.get (Validator.color st))
             (JSMap.get (Validator.color (Validator.dfsStep g st fr below))).
Proof.
  intros Hst [Hinv Hpath]. rewrite Hst in Hinv, Hpath.
  destruct fr as [u i]. cbn [validatorStack map Validator.node Validator.childIdx] in *.
  fold (validatorStack below) in *.
  unfold Validator.dfsStep. cbn [Validator.node Validator.childIdx].
  destruct (Validator.scanDeps (Validator.color st) (Validator.path st)
              (drop i (default [] (JSMap.get g u))) i (Validator.cycles st))
    as [[idx cyc'] adv] eqn:Escan.
  rewrite Hpath in Escan.
  pose proof (scanDeps_inv _ _ _ _ _ _ _ _ _ eq_refl Hinv Escan) as Hscan.
  destruct adv as [dep|].
  - destruct Hscan as (i' & -> & Hi' & Hwhite & Hinv').
    split; [split|]; cbn [Validator.color Validator.cycles Validator.callStack
                          Validator.path validatorStack map
                          Validator.node Validator.childIdx].
    + eapply inv_push; [exact Hinv' | exact Hi' | by left | apply recoloured_set].
    + rewrite Hpath. unfold pathOf. cbn [map fst]. by rewrite (reverse_cons _ dep).
    + apply advances_set. rewrite Hwhite. cbn. lia.
  - destruct Hscan as [Hend Hinv'].
    split; [split|]; cbn [Validator.color Validator.cycles Validator.callStack
                          Validator.path].
    + eapply inv_pop; [exact Hinv' | exact Hend | apply recoloured_set].
    + rewrite Hpath. unfold pathOf. cbn [map fst]. rewrite reverse_cons.
      apply removelast_last.
    + apply advances_set. unfold rank.
      destruct (JSMap.get (Validator.color st) u) as [[]|]; lia.
Qed.

Lemma validator_dfsLoop_inv (fuel : nat) :
  forall st st' : Validator.dfsState,
    validatorInv g P st -> Validator.dfsLoop fuel g st = Some st' ->
    inv g P (JSMap.get (Validator.color st')) [] (Validator.cycles st')
    ∧ advances (JSMap.get (Validator.color st)) (JSMap.get (Validator.color st')).
Proof.
  induction fuel as [|fuel IH]; intros st st' Hinv Hrun.
  - cbn in Hrun. destruct (Validator.callStack st) eqn:Est; [|discriminate].
    injection Hrun as <-. destruct Hinv as [Hinv _]. rewrite Est in Hinv.
    split; [done | apply advances_refl].
  - rewrite validator_dfsLoop_S in Hrun.
    destruct (Validator.callStack st) as [|fr below] eqn:Est.
    + injection Hrun as <-. destruct Hinv as [Hinv _]. rewrite Est in Hinv.
      split; [done | apply advances_refl].
    + destruct (validator_dfsStep_inv st fr below Est Hinv) as [Hinv' Hadv].
      destruct (IH _ _ Hinv' Hrun) as [Hfin Hadv'].
      split; [done | by eapply advances_trans].
Qed.

Lemma no_gray_when_idle (col : string -> option colour) (cyc : list (list string))
    (x : string) :
  inv g P col [] cyc -> col x ≠ Some GRAY.
Proof.
  intros H Hg. apply (core_gray _ _ _ (proj1 H)) in Hg. by apply elem_of_nil in Hg.
Qed.

Lemma black_of_rank (col : string -> option colour) (cyc : list (list string))
    (x : string) :
  inv g P col [] cyc -> 1 <= rank (col x) -> col x = Some BLACK.
Proof.
  intros H Hr. pose proof (no_gray_when_idle col cyc x H) as Hg.
  destruct (col x) as [[]|]; cbn in Hr; try done; lia.
Qed.

Lemma validator_dfs_inv (col : JSMap.t colour) (cyc : list (list string))
    (s : string) (st : Validator.dfsState) :
  inv g P (JSMap.get col) [] cyc -> JSMap.get col s = Some WHITE ->
  Validator.dfs g col cyc s = Some st ->
  inv g P (JSMap.get (Validator.color st)) [] (Validator.cycles st)
  ∧ advances (JSMap.get col) (JSMap.get (Validator.color st))
  ∧ JSMap.get (Validator.color st) s = Some BLACK.
Proof.
  intros Hinv Hs Hrun. unfold Validator.dfs in Hrun.
  apply validator_dfsLoop_inv in Hrun as [Hfin Hadv]; cbn [Validator.color] in *.
  - split; [done|]. split.
    + eapply advances_trans; [|exact Hadv]. apply advances_set. rewrite Hs. cbn. lia.
    + eapply black_of_rank; [exact Hfin|]. specialize (Hadv s).
      rewrite jsmap_get_set_eq in Hadv. exact Hadv.
  - split; cbn; [|done].
    eapply inv_start; [exact Hinv | congruence | apply recoloured_set].
Qed.

Lemma validator_visitAll_inv (names : list string) :
  forall (col : JSMap.t colour) (cyc res : list (list string)),
    inv g P (JSMap.get col) [] cyc ->
    Validator.visitAll g names col cyc = Some res ->
    exists col' : JSMap.t colour,
      inv g P (JSMap.get col') [] res
      ∧ advances (JSMap.get col) (JSMap.get col')
      ∧ forall x, x ∈ names -> x ∈ JSMap.keys g -> JSMap.get col' x = Some BLACK.
Proof.
  induction names as [|name names IH]; intros col cyc res Hinv Hrun.
  - injection Hrun as <-. exists col. split; [done|]. split; [apply advances_refl|].
    intros x Hx. by apply elem_of_nil in Hx.
  - cbn [Validator.visitAll] in Hrun.
    assert (Hstep : exists col1 cyc1,
               inv g P (JSMap.get col1) [] cyc1
               ∧ advances (JSMap.get col) (JSMap.get col1)
               ∧ (name ∈ JSMap.keys g -> JSMap.get col1 name = Some BLACK)
               ∧ Validator.visitAll g names col1 cyc1 = Some res).
    { destruct (JSMap.get col name) as [c|] eqn:Ename.
      - destruct c.
        + destruct (Validator.dfs g col cyc name) as [st|] eqn:Edfs; [|discriminate].
          destruct (validator_dfs_inv _ _ _ _ Hinv Ename Edfs) as (H1 & H2 & H3).
          exists (Validator.color st), (Validator.cycles st). eauto.
        + by apply (no_gray_when_idle _ _ name) in Hinv.
        + exists col, cyc. split; [done|]. split; [apply advances_refl|]. eauto.
      - exists col, cyc. split; [done|]. split; [apply advances_refl|].
        split; [|done]. intros Hk.
        by apply (core_keys _ _ _ (proj1 Hinv)) in Hk. }
    destruct Hstep as (col1 & cyc1 & Hinv1 & Hadv1 & Hname & Hrun1).
    destruct (IH _ _ _ Hinv1 Hrun1) as (col' & Hinv' & Hadv' & Hall).
    exists col'. split; [done|]. split; [by eapply advances_trans|].
    intros x Hx Hk. apply elem_of_cons in Hx as [->|Hx]; [|by apply Hall].
    eapply black_of_rank; [exact Hinv'|]. specialize (Hadv' name).
    rewrite (Hname Hk) in Hadv'. cbn in Hadv'. lia.
Qed.

(** *** The sync scripts' search *)

Lemma extends_refl (col : JSMap.t colour) : extends col col.
Proof. exists []. by rewrite app_nil_r. Qed.

Lemma extends_trans (c1 c2 c3 : JSMap.t colour) :
  extends c1 c2 -> extends c2 c3 -> extends c1 c3.
Proof.
  intros [e1 H1] [e2 H2]. exists (e1 ++ e2). by rewrite H2, H1, app_assoc.
Qed.

Lemma extends_set (col : JSMap.t colour) (k : string) (v : colour) :
  extends col (JSMap.set col k v).
Proof.
  destruct (decide (k ∈ JSMap.keys col)) as [Hin|Hn].
  - exists []. by rewrite jsmap_keys_set_in, app_nil_r.
  - exists [k]. by rewrite jsmap_keys_set_notin.
Qed.

Lemma sync_dfsStep_inv (st : Figma.dfsState) (fr : Figma.frame)
    (below : list Figma.frame) :
  Figma.stack st = fr :: below ->
  syncInv g P st ->
  syncInv g P (Figma.dfsStep g st fr below)
  ∧ advances (JSMap.get (Figma.color st))
             (JSMap.get (Figma.color (Figma.dfsStep g st fr below)))
  ∧ extends (Figma.color st) (Figma.color (Figma.dfsStep g st fr below)).
Proof.
  intros Hst (Hinv & Hframes & Hnd). rewrite Hst in Hinv, Hframes.
  destruct fr as [u pth i]. destruct Hframes as [Hpth Hbelow].
  cbn [syncStack map Figma.node Figma.edgeIdx Figma.path] in *.
  fold (syncStack below) in *.
  unfold Figma.dfsStep. cbn [Figma.node Figma.edgeIdx Figma.path].
  fold (depsOf g u).
  destruct (depsOf g u !! i) as [dep|] eqn:Hi.
  - destruct (JSMap.has (Figma.color st) dep) eqn:Ehas.
    + destruct (JSMap.get (Figma.color st) dep) as [[]|] eqn:Ecol.
      * (* white: pushed *)
        split; [split; [|split]|split];
          cbn [Figma.color Figma.cycles Figma.stack syncStack map
               Figma.node Figma.edgeIdx Figma.path framesOk].
        -- eapply inv_push; [exact Hinv | exact Hi | by left | apply recoloured_set].
        -- fold (syncStack below). split; [|by split].
           rewrite Hpth. unfold pathOf. cbn [map fst]. by rewrite (reverse_cons _ dep).
        -- by apply jsmap_keys_set_NoDup.
        -- apply advances_set. rewrite Ecol. cbn. lia.
        -- apply extends_set.
      * (* gray: reported *)
        split; [split; [|split]|split];
          cbn [Figma.color Figma.cycles Figma.stack syncStack map
               Figma.node Figma.edgeIdx Figma.path framesOk];
          try done; try apply advances_refl; try apply extends_refl.
        rewrite Hpth. by apply (inv_report _ _ _ _ _ _ Hinv Hi).
      * (* black: skipped *)
        split; [split; [|split]|split];
          cbn [Figma.color Figma.cycles Figma.stack syncStack map
               Figma.node Figma.edgeIdx Figma.path framesOk];
          try done; try apply advances_refl; try apply extends_refl.
        eapply inv_skip; [exact Hinv | exact Hi | by left].
      * apply jsmap_has_true in Ehas. by apply jsmap_get_None in Ecol.
    + assert (Ecol : JSMap.get (Figma.color st) dep = None).
      { by apply jsmap_get_None, jsmap_has_false. }
      rewrite jsmap_get_set_eq.
      split; [split; [|split]|split];
        cbn [Figma.color Figma.cycles Figma.stack syncStack map
             Figma.node Figma.edgeIdx Figma.path framesOk].
      * eapply inv_push; [exact Hinv | exact Hi | by right |].
        intros x. rewrite !jsmap_get_set. by destruct (String.eqb dep x).
      * fold (syncStack below). split; [|by split].
        rewrite Hpth. unfold pathOf. cbn [map fst]. by rewrite (reverse_cons _ dep).
      * by do 2 apply jsmap_keys_set_NoDup.
      * eapply advances_trans; apply advances_set.
        -- rewrite Ecol. cbn. lia.
        -- rewrite jsmap_get_set_eq. cbn. lia.
      * eapply extends_trans; apply extends_set.
  - split; [split; [|split]|split];
      cbn [Figma.color Figma.cycles Figma.stack].
    + eapply inv_pop; [exact Hinv | exact Hi | apply recoloured_set].
    + done.
    + by apply jsmap_keys_set_NoDup.
    + apply advances_set. unfold rank.
      destruct (JSMap.get (Figma.color st) u) as [[]|]; lia.
    + apply extends_set.
Qed.

Lemma sync_dfsLoop_inv (fuel : nat) :
  forall st st' : Figma.dfsState,
    syncInv g P st -> Figma.dfsLoop fuel g st = Some st' ->
    inv g P (JSMap.get (Figma.color st')) [] (Figma.cycles st')
    ∧ NoDup (JSMap.keys (Figma.color st'))
    ∧ advances (JSMap.get (Figma.color st)) (JSMap.get (Figma.color st'))
    ∧ extends (Figma.color st) (Figma.color st').
Proof.
  assert (Hidle : forall st, syncInv g P st -> Figma.stack st = [] ->
            inv g P (JSMap.get (Figma.color st)) [] (Figma.cycles st)
            ∧ NoDup (JSMap.keys (Figma.color st))
            ∧ advances (JSMap.get (Figma.color st)) (JSMap.get (Figma.color st))
            ∧ extends (Figma.color st) (Figma.color st)).
  { intros st (Hinv & _ & Hnd) Est. rewrite Est in Hinv.
    split; [done|]. split; [done|]. split; [apply advances_refl | apply extends_refl]. }
  induction fuel as [|fuel IH]; intros st st' Hinv Hrun.
  - cbn in Hrun. destruct (Figma.stack st) eqn:Est; [|discriminate].
    injection Hrun as <-. by apply Hidle.
  - rewrite sync_dfsLoop_S in Hrun.
    destruct (Figma.stack st) as [|fr below] eqn:Est.
    + injection Hrun as <-. by apply Hidle.
    + destruct (sync_dfsStep_inv st fr below Est Hinv) as (Hinv' & Hadv & Hext).
      destruct (IH _ _ Hinv' Hrun) as (Hfin & Hnd & Hadv' & Hext').
      split; [done|]. split; [done|].
      split; [by eapply advances_trans | by eapply extends_trans].
Qed.

Lemma sync_dfs_inv (col : JSMap.t colour) (cyc : list (list string))
    (s : string) (st : Figma.dfsState) :
  inv g P (JSMap.get col) [] cyc -> NoDup (JSMap.keys col) ->
  JSMap.get col s = Some WHITE ->
  Figma.dfs g col cyc s = Some st ->
  inv g P (JSMap.get (Figma.color st)) [] (Figma.cycles st)
  ∧ NoDup (JSMap.keys (Figma.color st))
  ∧ advances (JSMap.get col) (JSMap.get (Figma.color st))
  ∧ extends col (Figma.color st)
  ∧ JSMap.get (Figma.color st) s = Some BLACK.
Proof.
  intros Hinv Hnd Hs Hrun. unfold Figma.dfs in Hrun.
  apply sync_dfsLoop_inv in Hrun as (Hfin & Hnd' & Hadv & Hext); cbn [Figma.color] in *.
  - split; [done|]. split; [done|]. split; [|split].
    + eapply advances_trans; [|exact Hadv]. apply advances_set. rewrite Hs. cbn. lia.
    + eapply extends_trans; [|exact Hext]. apply extends_set.
    + eapply black_of_rank; [exact Hfin|]. specialize (Hadv s).
      rewrite jsmap_get_set_eq in Hadv. exact Hadv.
  - split; [|split]; cbn [Figma.color Figma.cycles Figma.stack syncStack map
                          Figma.node Figma.edgeIdx Figma.path framesOk].
    + eapply inv_start; [exact Hinv | congruence | apply recoloured_set].
    + done.
    + by apply jsmap_keys_set_NoDup.
Qed.

(** The final loop walks the colour map while the search extends it: the
    names before the iterator are explored. *)
Lemma sync_visitAll_inv (fuel : nat) :
  forall (i : nat) (col : JSMap.t colour) (cyc res : list (list string)),
    inv g P (JSMap.get col) [] cyc -> NoDup (JSMap.keys col) ->
    (forall x, x ∈ take i (JSMap.keys col) -> JSMap.get col x = Some BLACK) ->
    Figma.visitAll fuel g i col cyc = Some res ->
    exists col' : JSMap.t colour,
      inv g P (JSMap.get col') [] res
      ∧ forall x, x ∈ JSMap.keys col' -> JSMap.get col' x = Some BLACK.
Proof.
  assert (Hend : forall i (col : JSMap.t colour) cyc,
            inv g P (JSMap.get col) [] cyc ->
            (forall x, x ∈ take i (JSMap.keys col) -> JSMap.get col x = Some BLACK) ->
            col !! i = None ->
            exists col' : JSMap.t colour,
              inv g P (JSMap.get col') [] cyc
              ∧ forall x, x ∈ JSMap.keys col' -> JSMap.get col' x = Some BLACK).
  { intros i col cyc Hinv Hdone Hi. exists col. split; [done|].
    intros x Hx. apply Hdone. rewrite take_ge; [done|].
    apply lookup_ge_None_1 in Hi. unfold JSMap.keys. by rewrite length_map. }
  induction fuel as [|fuel IH]; intros i col cyc res Hinv Hnd Hdone Hrun.
  - cbn in Hrun. destruct (col !! i) as [[name clr]|] eqn:Ei; [discriminate|].
    injection Hrun as <-. by eapply Hend.
  - rewrite sync_visitAll_S in Hrun.
    destruct (col !! i) as [[name clr]|] eqn:Ei;
      [|injection Hrun as <-; by eapply Hend].
    assert (Hkey : JSMap.keys col !! i = Some name).
    { unfold JSMap.keys. rewrite list_lookup_fmap.
      change (JSMap.t colour) with (list (string * colour)) in *. by rewrite Ei. }
    assert (Hclr : JSMap.get col name = Some clr).
    { apply jsmap_get_of_elem; [done|]. by eapply list_elem_of_lookup_2. }
    assert (Hstep : exists col1 cyc1,
               inv g P (JSMap.get col1) [] cyc1
               ∧ NoDup (JSMap.keys col1)
               ∧ advances (JSMap.get col) (JSMap.get col1)
               ∧ extends col col1
               ∧ JSMap.get col1 name = Some BLACK
               ∧ Figma.visitAll fuel g (S i) col1 cyc1 = Some res).
    { destruct clr.
      - destruct (Figma.dfs g col cyc name) as [st|] eqn:Edfs; [|discriminate].
        destruct (sync_dfs_inv _ _ _ _ Hinv Hnd Hclr Edfs) as (H1 & H2 & H3 & H4 & H5).
        exists (Figma.color st), (Figma.cycles st). eauto 10.
      - by apply (no_gray_when_idle _ _ name) in Hinv.
      - exists col, cyc. split; [done|]. split; [done|].
        split; [apply advances_refl|]. split; [apply extends_refl|]. eauto. }
    destruct Hstep as (col1 & cyc1 & Hinv1 & Hnd1 & Hadv1 & [extra Hext1] & Hname & Hrun1).
    eapply (IH _ _ _ _ Hinv1 Hnd1); [|exact Hrun1].
    intros x Hx. rewrite Hext1 in Hx.
    rewrite take_app_le in Hx by (apply lookup_lt_Some in Hkey; lia).
    rewrite (take_S_r _ _ _ Hkey) in Hx.
    apply elem_of_app in Hx as [Hx|Hx].
    + eapply black_of_rank; [exact Hinv1|]. specialize (Hadv1 x).
      rewrite (Hdone x Hx) in Hadv1. cbn in Hadv1. lia.
    + apply list_elem_of_singleton in Hx as ->. exact Hname.
Qed.


(** *** Before and after the search *)

Lemma initial_colours (names : list string) :
  forall (c0 : JSMap.t colour) (x : string),
    JSMap.get (fold_left (fun c name => JSMap.set c name WHITE) names c0) x
    = if decide (x ∈ names) then Some WHITE else JSMap.get c0 x.
Proof.
  induction names as [|n names IH]; intros c0 x; cbn [fold_left].
  - destruct (decide (x ∈ [])) as [H|_]; [by apply elem_of_nil in H | done].
  - rewrite IH. destruct (decide (x ∈ names)) as [Hin|Hn].
    + rewrite decide_True; [done | by apply list_elem_of_further].
    + rewrite jsmap_get_set. destruct (String.eqb_spec n x) as [->|Hne].
      * rewrite decide_True; [done | apply list_elem_of_here].
      * rewrite decide_False; [done|]. rewrite elem_of_cons. intuition congruence.
Qed.


Lemma initial_core :
  core g (JSMap.get (fold_left (fun c name => JSMap.set c name WHITE) (JSMap.keys g) []))
       [].
Proof.
  constructor.
  - constructor.
  - intros x. rewrite initial_colours. cbn [map].
    destruct (decide (x ∈ JSMap.keys g)); split; try done;
      intros H; by apply elem_of_nil in H.
  - done.
  - intros k Hk. rewrite initial_colours. by rewrite decide_True.
Qed.

Lemma initial_not_black (x : string) :
  JSMap.get (fold_left (fun c name => JSMap.set c name WHITE) (JSMap.keys g) []) x
  ≠ Some BLACK.
Proof. rewrite initial_colours. by destruct (decide _). Qed.

(** The validator's [findCycles] ends with the property kept and every key
    of the graph explored. *)
Lemma validator_search :
  P (JSMap.get (fold_left (fun c name => JSMap.set c name WHITE) (JSMap.keys g) []))
    [] [] ->
  exists col' : JSMap.t colour,
    P (JSMap.get col') [] (Validator.findCycles g)
    ∧ forall k, k ∈ JSMap.keys g -> JSMap.get col' k = Some BLACK.
Proof.
  intros H0. pose proof (validator_findCycles_run_total g) as Hrun.
  unfold Validator.findCycles_run in Hrun.
  apply (validator_visitAll_inv _ _ _ _ (conj initial_core H0)) in Hrun
    as (col' & [_ Hp] & _ & Hall).
  exists col'. split; [done|]. intros k Hk. by apply Hall.
Qed.

(** So does the [findCycles] of the sync scripts. *)
Lemma sync_search :
  P (JSMap.get (fold_left (fun c name => JSMap.set c name WHITE) (JSMap.keys g) []))
    [] [] ->
  exists col' : JSMap.t colour,
    P (JSMap.get col') [] (Figma.findCycles g)
    ∧ forall k, k ∈ JSMap.keys g -> JSMap.get col' k = Some BLACK.
Proof.
  intros H0. pose proof (sync_findCycles_run_total g) as Hrun.
  unfold Figma.findCycles_run in Hrun.
  apply (sync_visitAll_inv _ _ _ _ _ (conj initial_core H0)) in Hrun
    as (col' & [Hc Hp] & Hall).
  - exists col'. split; [done|]. intros k Hk. apply Hall.
    destruct (decide (k ∈ JSMap.keys col')) as [|Hn]; [done|].
    apply jsmap_get_None in Hn. by apply (core_keys _ _ _ Hc) in Hk.
  - apply (initial_colourOk g).
  - intros x Hx. by apply elem_of_nil in Hx.
Qed.
End Search.

(** ** What the detectors report *)

Section TwoCycleResult.
Import Cycles.
Variable g : JSMap.t (list string).
Variables A B : string.
Variables jA jB : nat.
Hypothesis HAB : A ≠ B.
Hypothesis HjB : depsOf g A !! jB = Some B.
Hypothesis HjB_only : forall i, depsOf g A !! i = Some B -> i = jB.
Hypothesis HjA : depsOf g B !! jA = Some A.
Hypothesis HjA_only : forall i, depsOf g B !! i = Some A -> i = jA.
Hypothesis Honly : forall p, simpleCycle g p -> p = [A; B] ∨ p = [B; A].

Lemma validator_finds_the_cycle :
  Validator.findCycles g = [[A; B; A]] ∨ Validator.findCycles g = [[B; A; B]].
Proof.
  destruct (validator_search g (shape A B jA jB)) as (col' & Hshape & Hall).
  - by apply shape_stable.
  - apply initial_shape. apply initial_not_black.
  - eapply final_cycles; [exact Hshape | |].
    + apply Hall; by eapply key_of_dependency; rewrite HjB.
    + apply Hall; by eapply key_of_dependency; rewrite HjA.
Qed.

Lemma sync_finds_the_cycle :
  Figma.findCycles g = [[A; B; A]] ∨ Figma.findCycles g = [[B; A; B]].
Proof.
  destruct (sync_search g (shape A B jA jB)) as (col' & Hshape & Hall).
  - by apply shape_stable.
  - apply initial_shape. apply initial_not_black.
  - eapply final_cycles; [exact Hshape | |].
    + apply Hall; by eapply key_of_dependency; rewrite HjB.
    + apply Hall; by eapply key_of_dependency; rewrite HjA.
Qed.
End TwoCycleResult.

Section ReportedCycles.
Import Cycles.
Variable g : JSMap.t (list string).

(** Every step of a search keeps that what is reported is a cycle. *)
Lemma reported_stable : stable g (reported g).
Proof.
  constructor; unfold reported; try done.
  intros col u i rest cyc d Hcore Hp Hi Hd.
  destruct (back_edge_is_a_cycle g col u i rest d Hcore Hi Hd)
    as (q1 & q2 & _ & -> & Hcyc).
  apply Forall_app. split; [done|]. apply Forall_singleton.
  by exists d, (reverse q1).
Qed.

Lemma validator_reports_cycles : Forall (closedCycle g) (Validator.findCycles g).
Proof.
  destruct (validator_search g (reported g) reported_stable) as (col' & H & _);
    [by apply Forall_nil | exact H].
Qed.

Lemma sync_reports_cycles : Forall (closedCycle g) (Figma.findCycles g).
Proof.
  destruct (sync_search g (reported g) reported_stable) as (col' & H & _);
    [by apply Forall_nil | exact H].
Qed.

Lemma no_cycle_no_report (l : list (list string)) :
  acyclic g -> Forall (closedCycle g) l -> l = [].
Proof.
  intros Hacyc Hl. destruct l as [|c l]; [done|].
  apply Forall_cons in Hl as [(x & p & _ & Hc) _]. by apply Hacyc in Hc.
Qed.
End ReportedCycles.
(** ** Graphs with exactly the two-token cycle *)

Section CycleMembers.
Import Cycles.
Variable g : JSMap.t (list string).

Lemma chain_out (p : list string) :
  chain g p -> forall x, x ∈ p -> (exists y, y ∈ depsOf g x) ∨ last p = Some x.
Proof.
  induction p as [|a [|b p] IH]; intros Hc x Hx.
  - by apply elem_of_nil in Hx.
  - apply list_elem_of_singleton in Hx as ->. by right.
  - destruct Hc as [Hb Hc]. apply elem_of_cons in Hx as [->|Hx]; [by eauto|].
    destruct (IH Hc x Hx) as [H|H]; [by left | by right].
Qed.

Lemma chain_in (p : list string) :
  chain g p -> forall x, x ∈ p -> (exists z, x ∈ depsOf g z) ∨ head p = Some x.
Proof.
  induction p as [|a [|b p] IH]; intros Hc x Hx.
  - by apply elem_of_nil in Hx.
  - apply list_elem_of_singleton in Hx as ->. by right.
  - destruct Hc as [Hb Hc]. apply elem_of_cons in Hx as [->|Hx]; [by right|].
    left. destruct (IH Hc x Hx) as [H|H]; [done|].
    injection H as <-. by eauto.
Qed.

(** Every name of a cycle references a name and is referenced by one. *)
Lemma cycle_member (p : list string) (x : string) :
  simpleCycle g p -> x ∈ p ->
  (exists y, y ∈ depsOf g x) ∧ (exists z, x ∈ depsOf g z).
Proof.
  intros (_ & Hc & h & l & Hh & Hl & Hclose) Hx. split.
  - destruct (chain_out p Hc x Hx) as [H|H]; [done|].
    rewrite Hl in H. injection H as ->. by eauto.
  - destruct (chain_in p Hc x Hx) as [H|H]; [done|].
    rewrite Hh in H. injection H as ->. by eauto.
Qed.

Lemma lists_of_two_names (X Y : string) (p : list string) :
  NoDup p -> (forall x, x ∈ p -> x = X ∨ x = Y) ->
  p = [] ∨ p = [X] ∨ p = [Y] ∨ p = [X; Y] ∨ p = [Y; X].
Proof.
  intros Hnd H. destruct p as [|x [|y [|z p]]].
  - by left.
  - assert (Hx : x = X ∨ x = Y) by (apply H; apply list_elem_of_here).
    destruct Hx as [->| ->]; by auto.
  - assert (Hx : x = X ∨ x = Y) by (apply H; apply list_elem_of_here).
    assert (Hy : y = X ∨ y = Y)
      by (apply H; apply list_elem_of_further, list_elem_of_here).
    apply NoDup_cons in Hnd as [Hxy _]. rewrite list_elem_of_singleton in Hxy.
    destruct Hx as [->| ->], Hy as [->| ->]; try done; by auto 6.
  - exfalso.
    assert (Hx : x = X ∨ x = Y) by (apply H; apply list_elem_of_here).
    assert (Hy : y = X ∨ y = Y)
      by (apply H; apply list_elem_of_further, list_elem_of_here).
    assert (Hz : z = X ∨ z = Y)
      by (apply H; do 2 apply list_elem_of_further; apply list_elem_of_here).
    apply NoDup_cons in Hnd as [Hx' Hnd]. apply NoDup_cons in Hnd as [Hy' _].
    apply not_elem_of_cons in Hx' as [Hxy Hx'].
    apply not_elem_of_cons in Hx' as [Hxz _].
    apply not_elem_of_cons in Hy' as [Hyz _].
    destruct Hx as [->| ->], Hy as [->| ->], Hz as [->| ->]; done.
Qed.
End CycleMembers.

Example cycleGraph_parsed :
  Samples.cycleGraph
  = [("--primitive-p", []);
     ("--semantic-a", ["--primitive-p"; "--semantic-b"]);
     ("--semantic-b", ["--semantic-a"]);
     ("--component-c", ["--semantic-a"])].
Proof. vm_compute. reflexivity. Qed.

(** The graph of the sample stylesheet contains exactly the two-token cycle
    between [--semantic-a] and [--semantic-b]. *)
Lemma cycleGraph_has_only_the_two_cycle :
  Cycles.onlyTwoCycle Samples.cycleGraph "--semantic-a" "--semantic-b".
Proof.
  rewrite cycleGraph_parsed. split; [discriminate|]. split; [|split].
  - exists 1. split; [reflexivity|].
    intros [|[|i]] H; vm_compute in H; try discriminate; reflexivity.
  - exists 0. split; [reflexivity|].
    intros [|i] H; vm_compute in H; try discriminate; reflexivity.
  - intros p Hp.
    assert (Hmem : forall x, x ∈ p -> x = "--semantic-a" ∨ x = "--semantic-b").
    { intros x Hx. destruct (cycle_member _ p x Hp Hx) as [[y Hy] [z Hz]].
      unfold Cycles.depsOf in Hy, Hz. cbn [JSMap.get] in Hy, Hz.
      repeat (destruct (String.eqb _ z); cbn [default from_option id] in Hz;
              [rewrite ?elem_of_cons, ?elem_of_nil in Hz|]);
        try tauto; try (by apply elem_of_nil in Hz).
      destruct Hz as [->|[|[]]]; [|by auto].
      vm_compute in Hy. by apply elem_of_nil in Hy. }
    destruct Hp as (Hnd & Hc & h & l & Hh & Hl & Hclose).
    destruct (lists_of_two_names _ _ p Hnd Hmem) as [->|[->|[->|[->| ->]]]];
      [discriminate | | | by left | by right];
      injection Hh as <-; injection Hl as <-;
      unfold Cycles.depsOf in Hclose; cbn in Hclose;
      repeat (apply elem_of_cons in Hclose as [Hclose|Hclose]; [discriminate|]);
      by apply elem_of_nil in Hclose.
Qed.

(** ** The two-token cycle *)

(** C1 (as the code has it). On every dependency graph that contains exactly
    the two-token cycle between [A] and [B], each of the two referencing the
    other once, with its names in any order and whatever else it holds, both
    cycle detectors end and return exactly one cycle: the two names in the
    order of the path, with the closing name repeated.  A detector reports a
    cycle at every back edge, so the condition on the number of occurrences
    is needed. *)
Theorem two_token_cycle_found_once (g : JSMap.t (list string)) (A B : string) :
  Cycles.onlyTwoCycle g A B ->
  (Validator.findCycles g = [[A; B; A]] ∨ Validator.findCycles g = [[B; A; B]])
  ∧ (Figma.findCycles g = [[A; B; A]] ∨ Figma.findCycles g = [[B; A; B]]).
Proof.
  intros (HAB & (jB & HjB & HjB_only) & (jA & HjA & HjA_only) & Honly). split.
  - by apply (validator_finds_the_cycle g A B jA jB).
  - by apply (sync_finds_the_cycle g A B jA jB).
Qed.

Lemma two_token_cycle_found_once_witness :
  Cycles.onlyTwoCycle Samples.cycleGraph "--semantic-a" "--semantic-b"
  ∧ Validator.findCycles Samples.cycleGraph
    = [["--semantic-a"; "--semantic-b"; "--semantic-a"]]
  ∧ Figma.findCycles Samples.cycleGraph
    = [["--semantic-a"; "--semantic-b"; "--semantic-a"]].
Proof.
  split; [exact cycleGraph_has_only_the_two_cycle|].
  pose proof (two_token_cycle_found_once Samples.cycleGraph
                "--semantic-a" "--semantic-b"
                cycleGraph_has_only_the_two_cycle) as [Hv Hs].
  split.
  - destruct Hv as [Hv|Hv]; [exact Hv|].
    rewrite Hv. vm_compute in Hv. discriminate.
  - destruct Hs as [Hs|Hs]; [exact Hs|].
    rewrite Hs. vm_compute in Hs. discriminate.
Defined.

(** C1 (as the claim has it) fails when a value names the other token more
    than once: the graph of the sample stylesheet holds the two-token cycle
    and no other, yet each detector reports it once for each of the two
    occurrences of the closing reference; with the two names in the other
    order the cycle is reported once, so the number of reports also depends
    on the order of the visit. *)
Lemma repeated_reference_reported_twice_counterexample :
  Validator.buildGraph (Validator.tokenDefs (Validator.parseCSS Samples.cssRepeated))
  = Samples.repeatedGraph
  ∧ (forall p, Cycles.simpleCycle Samples.repeatedGraph p ->
       p = ["--semantic-a"; "--semantic-b"] ∨ p = ["--semantic-b"; "--semantic-a"])
  ∧ Validator.findCycles Samples.repeatedGraph
    = [["--semantic-a"; "--semantic-b"; "--semantic-a"];
       ["--semantic-a"; "--semantic-b"; "--semantic-a"]]
  ∧ Figma.findCycles Samples.repeatedGraph
    = [["--semantic-a"; "--semantic-b"; "--semantic-a"];
       ["--semantic-a"; "--semantic-b"; "--semantic-a"]]
  ∧ Validator.findCycles (reverse Samples.repeatedGraph)
    = [["--semantic-b"; "--semantic-a"; "--semantic-b"]]
  ∧ ~ (exists c, Validator.findCycles Samples.repeatedGraph = [c])
  ∧ ~ (exists c, Figma.findCycles Samples.repeatedGraph = [c]).
Proof.
  split; [vm_compute; reflexivity|]. split.
  { intros p Hp.
    assert (Hmem : forall x, x ∈ p -> x = "--semantic-a" ∨ x = "--semantic-b").
    { intros x Hx. destruct (cycle_member _ p x Hp Hx) as [_ [z Hz]].
      unfold Cycles.depsOf, Samples.repeatedGraph in Hz. cbn [JSMap.get] in Hz.
      repeat (destruct (String.eqb _ z); cbn [default from_option id] in Hz;
              [rewrite ?elem_of_cons, ?elem_of_nil in Hz|]);
        try tauto; by apply elem_of_nil in Hz. }
    destruct Hp as (Hnd & Hc & h & l & Hh & Hl & Hclose).
    destruct (lists_of_two_names _ _ p Hnd Hmem) as [->|[->|[->|[->| ->]]]];
      [discriminate | | | by left | by right];
      injection Hh as <-; injection Hl as <-;
      unfold Cycles.depsOf in Hclose; cbn in Hclose;
      repeat (apply elem_of_cons in Hclose as [Hclose|Hclose]; [discriminate|]);
      by apply elem_of_nil in Hclose. }
  split; [vm_compute; reflexivity|]. split; [vm_compute; reflexivity|].
  split; [vm_compute; reflexivity|].
  split; intros [c Hc]; vm_compute in Hc; discriminate.
Qed.

(** X1. On the graph made of the two tokens alone, the cycle starts at the
    name visited first, in both detectors. *)
Theorem two_token_cycle_starts_at_first_visited (A B : string) :
  A ≠ B ->
  Validator.findCycles [(A, [B]); (B, [A])] = [[A; B; A]]
  ∧ Validator.findCycles [(B, [A]); (A, [B])] = [[B; A; B]]
  ∧ Figma.findCycles [(A, [B]); (B, [A])] = [[A; B; A]]
  ∧ Figma.findCycles [(B, [A]); (A, [B])] = [[B; A; B]].
Proof.
  intros HAB. assert (HBA : B ≠ A) by congruence.
  unfold Validator.findCycles, Figma.findCycles.
  rewrite (validator_two_cycle_run A B HAB), (validator_two_cycle_run B A HBA),
          (sync_two_cycle_run A B HAB), (sync_two_cycle_run B A HBA).
  repeat split.
Qed.

Lemma two_token_cycle_starts_at_first_visited_witness :
  "--semantic-a" ≠ "--semantic-b"
  ∧ Validator.findCycles [("--semantic-a", ["--semantic-b"]); ("--semantic-b", ["--semantic-a"])]
    = [["--semantic-a"; "--semantic-b"; "--semantic-a"]].
Proof.
  split; [discriminate|].
  exact (proj1 (two_token_cycle_starts_at_first_visited "--semantic-a" "--semantic-b"
                  ltac:(discriminate))).
Defined.

(** ** What the detectors report on any graph *)

(** X2. Every list either detector returns is a cycle of the graph: names
    that each reference the next, all distinct, the last referencing the
    first, with the first name repeated at the end. *)
Theorem reported_cycles_are_cycles (g : JSMap.t (list string)) :
  Forall (Cycles.closedCycle g) (Validator.findCycles g)
  ∧ Forall (Cycles.closedCycle g) (Figma.findCycles g).
Proof.
  split; [apply validator_reports_cycles | apply sync_reports_cycles].
Qed.

(** X3. On a graph in which no name reaches itself both detectors return no
    cycle. *)
Theorem acyclic_graph_has_no_report (g : JSMap.t (list string)) :
  Cycles.acyclic g -> Validator.findCycles g = [] ∧ Figma.findCycles g = [].
Proof.
  intros Hacyc. split; apply (no_cycle_no_report g _ Hacyc);
    [apply validator_reports_cycles | apply sync_reports_cycles].
Qed.

Example chainGraph_parsed :
  Samples.chainGraph
  = [("--primitive-p", []); ("--semantic-a", ["--primitive-p"]);
     ("--component-c", ["--semantic-a"])].
Proof. vm_compute. reflexivity. Qed.

Lemma chainGraph_is_acyclic : Cycles.acyclic Samples.chainGraph.
Proof.
  rewrite chainGraph_parsed. intros p Hp.
  assert (Hmem : forall x, x ∈ p -> x = "--semantic-a" ∨ x = "--semantic-a").
  { intros x Hx. destruct (cycle_member _ p x Hp Hx) as [[y Hy] [z Hz]].
    unfold Cycles.depsOf in Hy, Hz. cbn [JSMap.get] in Hy, Hz.
    repeat (destruct (String.eqb _ z); cbn [default from_option id] in Hz;
            [rewrite ?elem_of_cons, ?elem_of_nil in Hz|]);
      try tauto; try (by apply elem_of_nil in Hz).
    destruct Hz as [->|[]]. vm_compute in Hy. by apply elem_of_nil in Hy. }
  destruct Hp as (Hnd & Hc & h & l & Hh & Hl & Hclose).
  destruct (lists_of_two_names _ _ p Hnd Hmem) as [->|[->|[->|[->| ->]]]];
    try discriminate;
    try (apply NoDup_cons in Hnd as [Hnd _]; destruct Hnd; apply list_elem_of_here);
    injection Hh as <-; injection Hl as <-;
    unfold Cycles.depsOf in Hclose; cbn in Hclose;
    repeat (apply elem_of_cons in Hclose as [Hclose|Hclose]; [discriminate|]);
    by apply elem_of_nil in Hclose.
Qed.

Lemma acyclic_graph_has_no_report_witness :
  Cycles.acyclic Samples.chainGraph
  ∧ Validator.findCycles Samples.chainGraph = []
  ∧ Figma.findCycles Samples.chainGraph = [].
Proof.
  split; [exact chainGraph_is_acyclic|].
  exact (acyclic_graph_has_no_report Samples.chainGraph chainGraph_is_acyclic).
Defined.

(** X4. Both searches end on every graph: the loops of [findCycles] stop
    within their bound of iterations. *)
Theorem findCycles_always_ends (g : JSMap.t (list string)) :
  is_Some (Validator.findCycles_run g) ∧ is_Some (Figma.findCycles_run g).
Proof.
  split.
  - rewrite validator_findCycles_run_total. by eexists.
  - rewrite sync_findCycles_run_total. by eexists.
Qed.

(** ** The tier rule and its table *)

Section TierRule.
Import Validator TierTable.

Lemma includes_is_the_table (t d : tier) :
  includes (ALLOWED_DEPS t) d = allowed t d.
Proof. by destruct t, d. Qed.

Lemma violationsOf_nil (name : string) (d : tokenDef) :
  violationsOf name d = []
  <-> forallb (fun dep => allowed (getTier name) (getTier dep)) (refs d) = true.
Proof.
  unfold violationsOf. destruct (getTier name) eqn:Et; cbn [tier_eqb].
  - (* primitive *)
    destruct (refs d) as [|dep l]; cbn; [done|]. split; discriminate.
  - induction (refs d) as [|dep l IH]; cbn [flat_map forallb]; [done|].
    rewrite <- includes_is_the_table.
    destruct (includes (ALLOWED_DEPS semantic) (getTier dep)); cbn; [exact IH|].
    split; discriminate.
  - induction (refs d) as [|dep l IH]; cbn [flat_map forallb]; [done|].
    rewrite <- includes_is_the_table.
    destruct (includes (ALLOWED_DEPS component) (getTier dep)); cbn; [exact IH|].
    split; discriminate.
  - induction (refs d) as [|dep l IH]; cbn [flat_map forallb]; [done|].
    rewrite <- includes_is_the_table.
    destruct (includes (ALLOWED_DEPS base) (getTier dep)); cbn; [exact IH|].
    split; discriminate.
  - (* unknown *)
    split; [|done]. intros _. by induction (refs d).
Qed.

(** X5. The tier rule reports nothing exactly when every reference of every
    definition is allowed by the table: none from a primitive, a primitive
    from a semantic token, a semantic or base token from a component, a
    semantic token from a base token, anything from a token of unknown
    tier. *)
Theorem tier_rule_follows_the_table (defs : JSMap.t tokenDef) :
  findTierViolations defs = [] <-> respected defs = true.
Proof.
  unfold findTierViolations, respected.
  induction defs as [|[name d] defs IH]; cbn [flat_map forallb]; [done|].
  rewrite app_nil, andb_true_iff, IH, violationsOf_nil. done.
Qed.
End TierRule.

(** ** Scenarios *)

(** A semantic token that references a primitive that is not defined
    gives exactly one error, the missing reference naming that primitive, and
    the validator fails. *)
Example scenario_missing_reference :
  Validator.errors (Validator.validate Samples.cssMissing)
  = [Validator.MissingReference
       {| Validator.consumer := "--semantic-a";
          Validator.missing := "--primitive-missing";
          Validator.mrLine := Some 2 |}]
  ∧ Validator.exitCode (Validator.main (Validator.Stylesheet Samples.cssMissing)) = 1%Z.
Proof. split; vm_compute; reflexivity. Qed.

(** A batch of a primitive, a semantic token referencing it and a
    component token referencing the semantic one, against a stylesheet that
    has the first two with the same values: the dry run succeeds and its diff
    has one NEW entry, the component token, and two UNCHANGED names. *)
Example scenario_one_new_two_unchanged :
  DryRun.main (Some Samples.cssFirstTwo) (Some Samples.exportChain)
  = {| DryRun.exitCode := 0;
       DryRun.printed := Some
         {| DryRun.archErrors := [];
            DryRun.noCycles := true;
            DryRun.diffResult := Some
              {| Figma.added := [{| Figma.aName := "--component-c";
                                    Figma.aFigmaValue := "var(--semantic-b)" |}];
                 Figma.modified := [];
                 Figma.removed := [];
                 Figma.unchanged := ["--primitive-a"; "--semantic-b"] |} |} |}.
Proof. vm_compute. reflexivity. Qed.

(** ** The detectors miss no cycle *)

Section Completeness.
Import Cycles Explored.
Variable g : JSMap.t (list string).

Lemma pos_le_length (fin : list string) (x : string) : pos fin x <= length fin.
Proof.
  induction fin as [|u r IH]; cbn; [lia|].
  destruct (String.eqb u x); lia.
Qed.

Lemma ordered_dep_in (fin : list string) (u d : string) :
  ordered g fin -> u ∈ fin -> d ∈ depsOf g u -> d ∈ JSMap.keys g -> d ∈ fin.
Proof.
  induction fin as [|v r IH]; intros Hord Hu Hd Hk.
  - by apply elem_of_nil in Hu.
  - destruct Hord as (Hdeps & Hv & Hord).
    apply elem_of_cons in Hu as [->|Hu].
    + apply list_elem_of_further. by apply Hdeps.
    + apply list_elem_of_further. by apply IH.
Qed.

(** A finished node was finished after the keys it references. *)
Lemma ordered_dep_earlier (fin : list string) (u d : string) :
  ordered g fin -> u ∈ fin -> d ∈ depsOf g u -> d ∈ JSMap.keys g ->
  pos fin d < pos fin u.
Proof.
  induction fin as [|v r IH]; intros Hord Hu Hd Hk.
  - by apply elem_of_nil in Hu.
  - destruct Hord as (Hdeps & Hv & Hord). cbn [pos].
    apply elem_of_cons in Hu as [->|Hu].
    + rewrite String.eqb_refl.
      assert (Hdr : d ∈ r) by (by apply Hdeps).
      destruct (String.eqb_spec v d) as [->|_]; [done|].
      pose proof (pos_le_length r d). lia.
    + assert (Hdr : d ∈ r) by (by eapply ordered_dep_in).
      destruct (String.eqb_spec v u) as [->|_]; [done|].
      destruct (String.eqb_spec v d) as [->|_]; [done|].
      by apply IH.
Qed.

Lemma member_of_chain_is_key (x y : string) : y ∈ depsOf g x -> x ∈ JSMap.keys g.
Proof.
  intros Hy. apply list_elem_of_lookup in Hy as [k Hk].
  eapply key_of_dependency. by rewrite Hk.
Qed.

(** Along a chain of finished keys the position only goes down. *)
Lemma chain_goes_down (fin : list string) (p : list string) :
  ordered g fin -> (forall x, x ∈ p -> x ∈ fin ∧ x ∈ JSMap.keys g) ->
  chain g p ->
  forall x l, head p = Some x -> last p = Some l -> pos fin l <= pos fin x.
Proof.
  intros Hord. induction p as [|a [|b p] IH]; intros Hin Hc x l Hx Hl.
  - discriminate.
  - cbn in Hx, Hl. injection Hx as <-. injection Hl as <-. lia.
  - destruct Hc as [Hb Hc]. injection Hx as <-.
    assert (Hlt : pos fin b < pos fin a).
    { apply ordered_dep_earlier; [done | | done |].
      - apply Hin, list_elem_of_here.
      - apply Hin, list_elem_of_further, list_elem_of_here. }
    assert (Hle : pos fin l <= pos fin b).
    { apply (IH (fun y Hy => Hin y (list_elem_of_further _ _ _ Hy)) Hc b l);
        [done | exact Hl]. }
    lia.
Qed.

(** A graph whose keys are all finished in such an order has no cycle. *)
Lemma ordered_is_acyclic (fin : list string) :
  ordered g fin -> (forall k, k ∈ JSMap.keys g -> k ∈ fin) -> acyclic g.
Proof.
  intros Hord Hall p Hp.
  assert (Hkeys : forall x, x ∈ p -> x ∈ fin ∧ x ∈ JSMap.keys g).
  { intros x Hx. destruct (cycle_member g p x Hp Hx) as [[y Hy] _].
    assert (x ∈ JSMap.keys g) by (by eapply member_of_chain_is_key). auto. }
  destruct Hp as (_ & Hc & h & l & Hh & Hl & Hclose).
  pose proof (chain_goes_down fin p Hord Hkeys Hc h l Hh Hl) as Hle.
  assert (Hlin : l ∈ p).
  { destruct p as [|a p] using rev_ind; [discriminate|].
    rewrite last_snoc in Hl. injection Hl as ->.
    apply elem_of_app. right. apply list_elem_of_here. }
  assert (Hhin : h ∈ p).
  { destruct p; [discriminate|]. injection Hh as ->. apply list_elem_of_here. }
  assert (Hlt : pos fin h < pos fin l).
  { apply ordered_dep_earlier; [done | by apply Hkeys | done | by apply Hkeys]. }
  lia.
Qed.

Lemma frameDone_mono (fin : list string) (above : option string) (u v : string)
    (i : nat) :
  frameDone g fin above u i -> frameDone g (v :: fin) above u i.
Proof.
  intros H j d Hj Hd Hk. destruct (H j d Hj Hd Hk) as [?|?]; [|by right].
  left. by apply list_elem_of_further.
Qed.

Lemma stackDone_mono (fin : list string) (v : string) (stk : astack) :
  forall above, stackDone g fin above stk -> stackDone g (v :: fin) above stk.
Proof.
  induction stk as [|[u i] rest IH]; intros above H; [done|].
  destruct H as [Hf Hr]. split; [by apply frameDone_mono | by apply IH].
Qed.

(** Once the frame above is finished, the frame below has only finished
    edges behind it. *)
Lemma stackDone_pop (fin : list string) (u : string) (stk : astack) :
  stackDone g fin (Some u) stk -> stackDone g (u :: fin) None stk.
Proof.
  destruct stk as [|[w n] rest]; [done|]. intros [Hf Hr].
  split; [|by apply stackDone_mono].
  intros j d Hj Hd Hk. left. destruct (Hf j d Hj Hd Hk) as [?|[= ->]].
  - by apply list_elem_of_further.
  - apply list_elem_of_here.
Qed.

(** Every step of a search keeps the finishing order while nothing is
    reported. *)
Lemma unreported_stable : stable g (unreported g).
Proof.
  constructor.
  - (* start *)
    intros col col' s cyc Hcore [Hc|(fin & Hord & Hblack & Hstk)] Hs Hrc; [by left|].
    right. exists fin. split; [done|]. split; [|split; [intros j d Hj; lia | done]].
    intros x. rewrite <- Hblack. destruct (decide (s = x)) as [->|Hne].
    + rewrite (recoloured_eq _ _ _ _ Hrc). split; [discriminate | done].
    + by rewrite (recoloured_ne _ _ _ _ _ Hrc Hne).
  - (* skip *)
    intros col u i rest cyc d Hcore [Hc|(fin & Hord & Hblack & Hf & Hstk)] Hi Hd;
      [by left|].
    right. exists fin. split; [done|]. split; [done|]. split; [|done].
    intros j d' Hj Hd' Hk. destruct (decide (j = i)) as [->|Hne].
    + assert (d' = d) as -> by congruence. left. apply Hblack.
      destruct Hd as [Hd|Hd]; [done|]. by apply (core_keys _ _ _ Hcore) in Hk.
    + apply (Hf j d'); [lia | done | done].
  - (* report *)
    intros col u i rest cyc d Hcore _ Hi Hd. left. by destruct cyc.
  - (* push *)
    intros col col' u i rest cyc d Hcore [Hc|(fin & Hord & Hblack & Hf & Hstk)]
      Hi Hd Hrc; [by left|].
    right. exists fin. split; [done|]. split; [|split; [|split]].
    + intros x. rewrite <- Hblack. destruct (decide (d = x)) as [->|Hne].
      * rewrite (recoloured_eq _ _ _ _ Hrc). split; [discriminate|].
        destruct Hd; congruence.
      * by rewrite (recoloured_ne _ _ _ _ _ Hrc Hne).
    + intros j d' Hj. lia.
    + intros j d' Hj Hd' Hk. destruct (decide (j = i)) as [->|Hne].
      * right. congruence.
      * destruct (Hf j d') as [?|?]; [lia | done | done | by left | done].
    + done.
  - (* pop *)
    intros col col' u i rest cyc Hcore [Hc|(fin & Hord & Hblack & Hf & Hstk)]
      Hend Hrc; [by left|].
    right. exists (u :: fin). split; [|split].
    + split; [|split; [|done]].
      * intros d Hd Hk. apply list_elem_of_lookup in Hd as [j Hj].
        destruct (Hf j d) as [?|?]; [|done|done|done|done].
        apply lookup_lt_Some in Hj. apply lookup_ge_None_1 in Hend. lia.
      * rewrite <- Hblack. rewrite (core_top_gray g _ _ _ _ Hcore). discriminate.
    + intros x. rewrite elem_of_cons, <- Hblack.
      destruct (decide (u = x)) as [->|Hne].
      * rewrite (recoloured_eq _ _ _ _ Hrc). intuition.
      * rewrite (recoloured_ne _ _ _ _ _ Hrc Hne). intuition congruence.
    + by apply stackDone_pop.
Qed.

Lemma initial_unreported (col : string -> option colour) :
  (forall x, col x ≠ Some BLACK) -> unreported g col [] [].
Proof.
  intros Hcol. right. exists []. split; [done|]. split; [|done].
  intros x. split; [by intros ?%Hcol | by intros ?%elem_of_nil].
Qed.

Lemma explored_without_report (col : string -> option colour) (cyc : list (list string)) :
  unreported g col [] cyc ->
  (forall k, k ∈ JSMap.keys g -> col k = Some BLACK) ->
  cyc = [] -> acyclic g.
Proof.
  intros [Hc|(fin & Hord & Hblack & _)] Hall Hnil; [done|].
  apply (ordered_is_acyclic fin Hord). intros k Hk. by apply Hblack, Hall.
Qed.

Lemma validator_misses_no_cycle : Validator.findCycles g = [] -> acyclic g.
Proof.
  destruct (validator_search g (unreported g) unreported_stable) as (col' & H & Hall).
  - refine (initial_unreported _ _). apply initial_not_black.
  - intros Hnil. by apply (explored_without_report (JSMap.get col') _ H Hall).
Qed.

Lemma sync_misses_no_cycle : Figma.findCycles g = [] -> acyclic g.
Proof.
  destruct (sync_search g (unreported g) unreported_stable) as (col' & H & Hall).
  - refine (initial_unreported _ _). apply initial_not_black.
  - intros Hnil. by apply (explored_without_report (JSMap.get col') _ H Hall).
Qed.
End Completeness.

(** X8. Each detector returns the empty list exactly when the graph has no
    cycle: a graph in which some name reaches itself through references
    always gets at least one cycle reported. *)
Theorem no_report_exactly_when_acyclic (g : JSMap.t (list string)) :
  (Validator.findCycles g = [] <-> Cycles.acyclic g)
  ∧ (Figma.findCycles g = [] <-> Cycles.acyclic g).
Proof.
  split; split.
  - apply validator_misses_no_cycle.
  - intros H. apply (no_cycle_no_report g _ H), validator_reports_cycles.
  - apply sync_misses_no_cycle.
  - intros H. apply (no_cycle_no_report g _ H), sync_reports_cycles.
Qed.

(** ** The two stylesheet parsers side by side *)

Section ParsersAgree.
Import Scope Plain.

Lemma skipped_line_opens_no_root (trimmed : string) :
  String.eqb trimmed "" || JS.startsWith trimmed "/*" || JS.startsWith trimmed "//" = true ->
  JS.matchRootOpen trimmed = false.
Proof.
  destruct trimmed as [|c1 r]; [reflexivity|].
  unfold JS.matchRootOpen, JS.startsWith.
  cbn [String.eqb JS.stripPrefix orb].
  destruct (Ascii.eqb_spec ":" c1) as [<-|Hc]; [cbn; discriminate|].
  reflexivity.
Qed.

Lemma coupled_step (sv : Validator.parseState) (sf : Figma.parseState)
    (i : nat) (line : string) :
  coupled sv sf -> plainLine line = true ->
  coupled (Validator.parseLine sv i line) (Figma.parseLine sf i line).
Proof.
  intros (Hd & Hr & Hin) Hplain. unfold plainLine in Hplain.
  apply andb_true_iff in Hplain as [Hskip Hopen].
  unfold Validator.parseLine, Figma.parseLine, coupled.
  destruct (String.eqb (JS.trim line) "" || JS.startsWith (JS.trim line) "/*"
            || JS.startsWith (JS.trim line) "//") eqn:Eskip.
  - apply Nat.eqb_eq in Hskip.
    rewrite (skipped_line_opens_no_root _ Eskip), andb_false_r, Hskip.
    replace (Figma.braceDepth sf + (Z.of_nat (JS.countChar "}" line)
                                     - Z.of_nat (JS.countChar "}" line)))%Z
      with (Figma.braceDepth sf) by lia.
    destruct (Figma.inRoot sf) eqn:Ein.
    + destruct (Hin eq_refl) as [Hrd Hlt].
      destruct (Z.leb_spec (Figma.braceDepth sf) (Figma.rootDepth sf)); [lia|].
      cbn [andb]. rewrite (skipped_line_is_no_declaration _ Eskip). cbn.
      split; [done|]. split; [done|]. intros _. by split.
    + cbn. split; [done|]. split; [done | discriminate].
  - rewrite Hr, Hd. clear Hskip.
    set (depth := (Figma.braceDepth sf
                   + (Z.of_nat (JS.countChar "{" line)
                      - Z.of_nat (JS.countChar "}" line)))%Z).
    destruct (Figma.inRoot sf) eqn:Ein; cbn [negb andb].
    + destruct (Hin eq_refl) as [Hrd Hlt]. rewrite Hrd.
      destruct (Z.ltb_spec depth (Figma.rootDepth sf + 1)),
               (Z.leb_spec depth (Figma.rootDepth sf)); try lia.
      * repeat match goal with
               | |- context [let '(_, _) := ?x in _] => destruct x eqn:?
               | |- context [if ?b then _ else _] => destruct b eqn:?
               | |- context [match ?x with Some _ => _ | None => _ end] => destruct x eqn:?
               | |- context [match ?x with (_, _) => _ end] => destruct x eqn:?
               end;
          cbn [Validator.braceDepth Validator.inRoot Validator.rootDepth
               Figma.braceDepth Figma.inRoot Figma.rootDepth];
          (split; [done|]; split; [done | discriminate]).
      * repeat match goal with
               | |- context [let '(_, _) := ?x in _] => destruct x eqn:?
               | |- context [if ?b then _ else _] => destruct b eqn:?
               | |- context [match ?x with Some _ => _ | None => _ end] => destruct x eqn:?
               | |- context [match ?x with (_, _) => _ end] => destruct x eqn:?
               end;
          cbn [Validator.braceDepth Validator.inRoot Validator.rootDepth
               Figma.braceDepth Figma.inRoot Figma.rootDepth];
          (split; [done|]; split; [done|]; intros _; split; [done | lia]).
    + destruct (JS.matchRootOpen (JS.trim line)) eqn:Eopen.
      * apply Nat.eqb_eq in Hopen.
        assert (Hdepth : depth = (Figma.braceDepth sf + 1)%Z) by (subst depth; lia).
        destruct (Z.ltb_spec depth depth), (Z.leb_spec depth (Figma.braceDepth sf));
          try lia. cbn [andb].
        repeat match goal with
               | |- context [let '(_, _) := ?x in _] => destruct x eqn:?
               | |- context [if ?b then _ else _] => destruct b eqn:?
               | |- context [match ?x with Some _ => _ | None => _ end] => destruct x eqn:?
               | |- context [match ?x with (_, _) => _ end] => destruct x eqn:?
               end;
          cbn [Validator.braceDepth Validator.inRoot Validator.rootDepth
               Figma.braceDepth Figma.inRoot Figma.rootDepth];
          (split; [done|]; split; [done|]; intros _; split; lia).
      * cbn [andb].
        repeat match goal with
               | |- context [let '(_, _) := ?x in _] => destruct x eqn:?
               | |- context [if ?b then _ else _] => destruct b eqn:?
               | |- context [match ?x with Some _ => _ | None => _ end] => destruct x eqn:?
               | |- context [match ?x with (_, _) => _ end] => destruct x eqn:?
               end;
          cbn [Validator.braceDepth Validator.inRoot Validator.rootDepth
               Figma.braceDepth Figma.inRoot Figma.rootDepth];
          (split; [done|]; split; [done | discriminate]).
Qed.

Lemma coupled_after (lines : list string) :
  (forall line, line ∈ lines -> plainLine line = true) ->
  forall n, n <= length lines -> coupled (validatorAfter lines n) (syncAfter lines n).
Proof.
  intros Hplain. induction n as [|n IH]; intros Hn.
  - unfold validatorAfter, syncAfter. cbn. split; [done|]. split; [done | discriminate].
  - destruct (lookup_lt_is_Some_2 lines n) as [line Hl]; [lia|].
    rewrite (validatorAfter_S _ _ _ Hl), (syncAfter_S _ _ _ Hl).
    apply coupled_step; [apply IH; lia|].
    apply Hplain. by eapply list_elem_of_lookup_2.
Qed.

(** On a plain stylesheet a line is a definition in root scope for one parser
    exactly when it is one for the other. *)
Lemma defines_alike (lines : list string) (i : nat) (name v : string) :
  (forall line, line ∈ lines -> plainLine line = true) ->
  validatorDefinesAt lines i name v <-> syncDefinesAt lines i name v.
Proof.
  intros Hplain. unfold validatorDefinesAt, syncDefinesAt.
  split; intros (line & Hl & Hroot & Hm); exists line; (split; [done|]);
    (split; [|done]);
    destruct (coupled_after lines Hplain (S i)) as (_ & Hr & _);
    try (apply lookup_lt_Some in Hl; lia); congruence.
Qed.
End ParsersAgree.

(** X9. On a stylesheet in which every line the validator skips (blank or
    starting a comment) has balanced braces and every line opening the root
    scope has exactly one more opening than closing brace, the validator's
    parser and the sync parser find the same definitions at the same lines
    and extract the same set of names; for a name they both hold, the
    validator's is the earlier definition, and it is the same value when it
    is the same line. *)
Theorem parsers_agree_on_plain_stylesheets (css : string) :
  Plain.plain css = true ->
  let lines := JS.splitChar "010" css in
  (forall i name v,
     Scope.validatorDefinesAt lines i name v <-> Scope.syncDefinesAt lines i name v)
  ∧ (forall name,
       JSMap.has (Validator.tokenDefs (Validator.parseCSS css)) name
       = JSMap.has (Figma.parseCSSTokens css) name)
  ∧ (forall name d t,
       JSMap.get (Validator.tokenDefs (Validator.parseCSS css)) name = Some d ->
       JSMap.get (Figma.parseCSSTokens css) name = Some t ->
       Validator.line d <= Figma.line t
       ∧ (Validator.line d = Figma.line t -> Validator.value d = Figma.value t)).
Proof.
  intros Hplain lines.
  assert (Hall : forall line, line ∈ lines -> Plain.plainLine line = true).
  { intros line Hl. unfold Plain.plain in Hplain.
    rewrite forallb_forall in Hplain. by apply Hplain, list_elem_of_In. }
  assert (HV : Validator.parseCSS css = Scope.validatorAfter lines (length lines)).
  { unfold Validator.parseCSS, Scope.validatorAfter. by rewrite firstn_all. }
  assert (HS : Figma.parseCSSTokens css
               = Figma.tokens (Scope.syncAfter lines (length lines))).
  { unfold Figma.parseCSSTokens, Scope.syncAfter. by rewrite firstn_all. }
  rewrite HV, HS.
  pose proof (validator_keeps_first lines (length lines) (le_n _)) as Hv.
  pose proof (sync_keeps_last lines (length lines) (le_n _)) as Hs.
  assert (Hbound : forall i name v,
            Scope.syncDefinesAt lines i name v -> i < length lines).
  { intros i name v (line & Hl & _). by apply lookup_lt_Some in Hl. }
  split; [|split].
  - intros i name v. by apply defines_alike.
  - intros name. unfold JSMap.has.
    destruct (Hv name) as [Hv1 Hv2]. destruct (Hs name) as [Hs1 Hs2].
    destruct (JSMap.get (Validator.tokenDefs _) name) as [d|] eqn:Ed;
      destruct (JSMap.get (Figma.tokens _) name) as [t|] eqn:Et; try done.
    + destruct (Hv1 d eq_refl) as (i & Hi & Hdef & _).
      apply (defines_alike lines i name _ Hall) in Hdef.
      destruct (Hs2 eq_refl i _ Hi Hdef).
    + destruct (Hs1 t eq_refl) as (i & Hi & Hdef & _).
      apply (defines_alike lines i name _ Hall) in Hdef.
      destruct (Hv2 eq_refl i _ Hi Hdef).
  - intros name d t Hd Ht.
    destruct (Hv name) as [Hv1 _]. destruct (Hs name) as [Hs1 _].
    destruct (Hv1 d Hd) as (i & Hi & Hdi & Hli & Hfirst).
    destruct (Hs1 t Ht) as (j & Hj & Hdj & Hlj & Hlast).
    rewrite Hli, Hlj. split.
    + destruct (decide (i <= j)) as [|Hgt]; [lia|]. exfalso.
      apply (Hfirst j (Figma.value t)); [lia|]. by apply defines_alike.
    + intros E. assert (i = j) as -> by lia.
      destruct Hdi as (l1 & Hl1 & _ & Hm1). destruct Hdj as (l2 & Hl2 & _ & Hm2).
      congruence.
Qed.

Lemma parsers_agree_on_plain_stylesheets_witness :
  Plain.plain Samples.cssCycle = true
  ∧ JSMap.has (Validator.tokenDefs (Validator.parseCSS Samples.cssCycle)) "--semantic-a"
    = JSMap.has (Figma.parseCSSTokens Samples.cssCycle) "--semantic-a".
Proof.
  assert (H : Plain.plain Samples.cssCycle = true) by (vm_compute; reflexivity).
  split; [exact H|].
  exact (proj1 (proj2 (parsers_agree_on_plain_stylesheets Samples.cssCycle H))
           "--semantic-a").
Defined.

(** ** The name sets of the scripts *)

Section JSSetFacts.

Lemma jsset_has_true (s : JSSet.t) (x : string) : JSSet.has s x = true <-> x ∈ s.
Proof.
  unfold JSSet.has. rewrite existsb_exists. split.
  - intros (y & Hy & E). apply String.eqb_eq in E as ->. by apply list_elem_of_In.
  - intros Hx. exists x. split; [by apply list_elem_of_In | apply String.eqb_refl].
Qed.

Lemma jsset_has_false (s : JSSet.t) (x : string) : JSSet.has s x = false <-> x ∉ s.
Proof.
  rewrite <- jsset_has_true. destruct (JSSet.has s x); intuition congruence.
Qed.

Lemma jsset_add_elem (s : JSSet.t) (x y : string) :
  y ∈ JSSet.add s x <-> y = x ∨ y ∈ s.
Proof.
  unfold JSSet.add. destruct (JSSet.has s x) eqn:E.
  - apply jsset_has_true in E. split; [by right | intros [->|?]; done].
  - rewrite elem_of_app, list_elem_of_singleton. tauto.
Qed.

Lemma jsset_add_NoDup (s : JSSet.t) (x : string) : NoDup s -> NoDup (JSSet.add s x).
Proof.
  intros Hnd. unfold JSSet.add. destruct (JSSet.has s x) eqn:E; [done|].
  apply jsset_has_false in E. apply NoDup_app. split; [done|]. split.
  - intros y Hy ->%list_elem_of_singleton. done.
  - apply NoDup_singleton.
Qed.

Lemma jsset_fold_add (l : list string) :
  forall s0, (forall x, x ∈ fold_left JSSet.add l s0 <-> x ∈ l ∨ x ∈ s0)
             ∧ (NoDup s0 -> NoDup (fold_left JSSet.add l s0)).
Proof.
  induction l as [|y l IH]; intros s0; cbn [fold_left].
  - split; [|done]. intros x. rewrite elem_of_nil. tauto.
  - destruct (IH (JSSet.add s0 y)) as [H1 H2]. split.
    + intros x. rewrite H1, jsset_add_elem, elem_of_cons. tauto.
    + intros Hnd. by apply H2, jsset_add_NoDup.
Qed.

Lemma jsset_ofList_elem (l : list string) (x : string) : x ∈ JSSet.ofList l <-> x ∈ l.
Proof.
  unfold JSSet.ofList. destruct (jsset_fold_add l []) as [H _].
  rewrite H, elem_of_nil. tauto.
Qed.

Lemma jsset_ofList_NoDup (l : list string) : NoDup (JSSet.ofList l).
Proof.
  unfold JSSet.ofList. destruct (jsset_fold_add l []) as [_ H]. apply H. constructor.
Qed.

Lemma jsset_delete_elem (s : JSSet.t) (x y : string) :
  y ∈ JSSet.delete s x <-> y ∈ s ∧ y ≠ x.
Proof.
  unfold JSSet.delete. rewrite list_elem_of_filter.
  destruct (String.eqb_spec x y) as [->|Hne]; cbn; intuition congruence.
Qed.

Lemma jsset_delete_NoDup (s : JSSet.t) (x : string) : NoDup s -> NoDup (JSSet.delete s x).
Proof. intros H. unfold JSSet.delete. by apply NoDup_filter. Qed.
End JSSetFacts.

(** ** The rules of the validator *)

Section ValidatorRules.
Import Validator.

Lemma flat_map_nil_iff {A B} (f : A -> list B) (l : list A) :
  flat_map f l = [] <-> forall x, x ∈ l -> f x = [].
Proof.
  induction l as [|a l IH]; cbn [flat_map].
  - split; [intros _ x Hx; by apply elem_of_nil in Hx | done].
  - rewrite app_nil, IH. split.
    + intros [Ha Hl] x Hx. apply elem_of_cons in Hx as [->|Hx]; auto.
    + intros H. split; [apply H, list_elem_of_here|].
      intros x Hx. by apply H, list_elem_of_further.
Qed.

Lemma elem_of_flat_map {A B} (f : A -> list B) (l : list A) (y : B) :
  y ∈ flat_map f l <-> exists x, x ∈ l ∧ y ∈ f x.
Proof.
  rewrite list_elem_of_In, in_flat_map. split; intros (x & Hx & Hy); exists x;
    split; by apply list_elem_of_In.
Qed.

Lemma defined_has (defs : JSMap.t tokenDef) (x : string) :
  JSSet.has (JSSet.ofList (JSMap.keys defs)) x = true <-> x ∈ JSMap.keys defs.
Proof. by rewrite jsset_has_true, jsset_ofList_elem. Qed.

(** What rule 1 reports for the references of the definitions and for the
    usages in rules. *)
Lemma missing_reference_elem (defs : JSMap.t tokenDef) (usages : JSSet.t)
    (m : missingRef) :
  m ∈ findMissingRefs defs usages
  <-> (missing m ∉ JSMap.keys defs)
      ∧ ((exists name d, (name, d) ∈ defs ∧ missing m ∈ refs d
                         ∧ consumer m = name ∧ mrLine m = Some (line d))
         ∨ (missing m ∈ usages ∧ consumer m = "(css rule)" ∧ mrLine m = None)).
Proof.
  unfold findMissingRefs. rewrite elem_of_app, !elem_of_flat_map. split.
  - intros [([name d] & Hd & Hm)|(u & Hu & Hm)].
    + apply elem_of_flat_map in Hm as (dep & Hdep & Hm).
      destruct (JSSet.has _ dep) eqn:E; cbn in Hm; [by apply elem_of_nil in Hm|].
      apply list_elem_of_singleton in Hm as ->. cbn.
      split; [by rewrite <- defined_has, E|]. left. by exists name, d.
    + destruct (JSSet.has _ u) eqn:E; cbn in Hm; [by apply elem_of_nil in Hm|].
      apply list_elem_of_singleton in Hm as ->. cbn.
      split; [by rewrite <- defined_has, E|]. by right.
  - intros [Hundef [(name & d & Hd & Hdep & Hc & Hl)|(Hu & Hc & Hl)]].
    + left. exists (name, d). split; [done|]. apply elem_of_flat_map.
      exists (missing m). split; [done|].
      assert (E : JSSet.has (JSSet.ofList (JSMap.keys defs)) (missing m) = false).
      { destruct (JSSet.has _ _) eqn:E; [|done]. by apply defined_has in E. }
      rewrite E. cbn. apply list_elem_of_singleton. destruct m; cbn in *. congruence.
    + right. exists (missing m). split; [done|].
      assert (E : JSSet.has (JSSet.ofList (JSMap.keys defs)) (missing m) = false).
      { destruct (JSSet.has _ _) eqn:E; [|done]. by apply defined_has in E. }
      rewrite E. cbn. apply list_elem_of_singleton. destruct m; cbn in *. congruence.
Qed.

Lemma no_missing_reference (defs : JSMap.t tokenDef) (usages : JSSet.t) :
  findMissingRefs defs usages = []
  <-> (forall name d dep, (name, d) ∈ defs -> dep ∈ refs d -> dep ∈ JSMap.keys defs)
      ∧ (forall u, u ∈ usages -> u ∈ JSMap.keys defs).
Proof.
  split.
  - intros Hnil. split.
    + intros name d dep Hd Hdep.
      destruct (decide (dep ∈ JSMap.keys defs)) as [|Hn]; [done|]. exfalso.
      eapply (elem_of_nil {| consumer := name; missing := dep; mrLine := Some (line d) |}).
      rewrite <- Hnil. apply missing_reference_elem. split; [done|]. left.
      by exists name, d.
    + intros u Hu.
      destruct (decide (u ∈ JSMap.keys defs)) as [|Hn]; [done|]. exfalso.
      eapply (elem_of_nil {| consumer := "(css rule)"; missing := u; mrLine := None |}).
      rewrite <- Hnil. apply missing_reference_elem. split; [done|]. by right.
  - intros [Hrefs Husages].
    destruct (findMissingRefs defs usages) as [|m l] eqn:E; [done|]. exfalso.
    assert (Hm : m ∈ findMissingRefs defs usages) by (rewrite E; apply list_elem_of_here).
    apply missing_reference_elem in Hm as [Hundef [(name & d & Hd & Hdep & _)|(Hu & _)]].
    + by apply Hundef, (Hrefs name d).
    + by apply Hundef, Husages.
Qed.
End ValidatorRules.

(** X6. Rule 1 reports a name exactly when it is not defined and a
    definition references it (the report names that definition and its line)
    or a rule uses it (the report names the rule context and no line); it
    reports nothing exactly when every reference of every definition and
    every usage in a rule is a defined name. *)
Theorem missing_references_are_the_undefined_names
    (defs : JSMap.t Validator.tokenDef) (usages : JSSet.t) :
  (forall m, m ∈ Validator.findMissingRefs defs usages
     <-> (Validator.missing m ∉ JSMap.keys defs)
         ∧ ((exists name d, (name, d) ∈ defs ∧ Validator.missing m ∈ Validator.refs d
                            ∧ Validator.consumer m = name
                            ∧ Validator.mrLine m = Some (Validator.line d))
            ∨ (Validator.missing m ∈ usages ∧ Validator.consumer m = "(css rule)"
               ∧ Validator.mrLine m = None)))
  ∧ (Validator.findMissingRefs defs usages = []
     <-> (forall name d dep, (name, d) ∈ defs -> dep ∈ Validator.refs d ->
            dep ∈ JSMap.keys defs)
         ∧ (forall u, u ∈ usages -> u ∈ JSMap.keys defs)).
Proof.
  split; [intros m; apply missing_reference_elem | apply no_missing_reference].
Qed.

Section Warnings.
Import Validator.

Lemma tier_eqb_eq (a b : tier) : tier_eqb a b = true <-> a = b.
Proof. destruct a, b; cbn; split; congruence. Qed.

Lemma referenced_elem (graph : JSMap.t (list string)) (name : string) :
  name ∈ concat (JSMap.values graph) <-> exists k deps, (k, deps) ∈ graph ∧ name ∈ deps.
Proof.
  unfold JSMap.values. induction graph as [|[k deps] graph IH]; cbn [map concat snd].
  - split; [by intros ?%elem_of_nil | intros (k & deps & H & _); by apply elem_of_nil in H].
  - rewrite elem_of_app, IH. split.
    + intros [H|(k' & deps' & H & Hn)].
      * exists k, deps. split; [apply list_elem_of_here | done].
      * exists k', deps'. split; [by apply list_elem_of_further | done].
    + intros (k' & deps' & H & Hn). apply elem_of_cons in H as [[= -> ->]|H].
      * by left.
      * right. by exists k', deps'.
Qed.

Lemma orphan_elem (defs : JSMap.t tokenDef) (graph : JSMap.t (list string))
    (usages : JSSet.t) (name : string) :
  name ∈ findOrphans defs graph usages
  <-> name ∈ JSMap.keys defs
      ∧ (forall k deps, (k, deps) ∈ graph -> name ∉ deps)
      ∧ name ∉ usages.
Proof.
  unfold findOrphans. rewrite list_elem_of_filter, andb_True, !negb_True.
  rewrite !Is_true_true, !jsset_has_true, jsset_ofList_elem, referenced_elem.
  split.
  - intros [[Hr Hu] Hk]. split; [done|]. split; [|done].
    intros k deps Hg Hn. apply Hr. by exists k, deps.
  - intros (Hk & Hr & Hu). split; [|done]. split; [|done].
    intros (k & deps & Hg & Hn). by apply (Hr k deps).
Qed.

Lemma used_by_component_elem (graph : JSMap.t (list string)) (name : string) :
  name ∈ flat_map (fun '(k, deps) =>
             if tier_eqb (getTier k) component
             then filter (fun dep => tier_eqb (getTier dep) semantic) deps
             else []) graph
  <-> getTier name = semantic
      ∧ exists k deps, (k, deps) ∈ graph ∧ getTier k = component ∧ name ∈ deps.
Proof.
  rewrite elem_of_flat_map. split.
  - intros ([k deps] & Hg & Hn).
    destruct (tier_eqb (getTier k) component) eqn:E; [|by apply elem_of_nil in Hn].
    apply tier_eqb_eq in E. apply list_elem_of_filter in Hn as [Ht Hn].
    apply Is_true_true, tier_eqb_eq in Ht. split; [done|]. by exists k, deps.
  - intros (Ht & k & deps & Hg & Hc & Hn). exists (k, deps). split; [done|].
    apply tier_eqb_eq in Hc. rewrite Hc. apply list_elem_of_filter. split; [|done].
    by apply Is_true_true, tier_eqb_eq.
Qed.

Lemma unused_semantic_elem (defs : JSMap.t tokenDef) (graph : JSMap.t (list string))
    (usages : JSSet.t) (name : string) :
  name ∈ findUnusedSemantics defs graph usages
  <-> name ∈ JSMap.keys defs
      ∧ getTier name = semantic
      ∧ (forall k deps, (k, deps) ∈ graph -> getTier k = component -> name ∉ deps)
      ∧ name ∉ usages.
Proof.
  unfold findUnusedSemantics. rewrite list_elem_of_filter, !andb_True, !negb_True.
  rewrite !Is_true_true, !jsset_has_true, jsset_ofList_elem, used_by_component_elem,
    tier_eqb_eq.
  split.
  - intros [[[Ht Hc] Hu] Hk]. split; [done|]. split; [done|]. split; [|done].
    intros k deps Hg Hkc Hn. apply Hc. split; [done|]. by exists k, deps.
  - intros (Hk & Ht & Hc & Hu). split; [|done]. split; [|done]. split; [done|].
    intros (_ & k & deps & Hg & Hkc & Hn). by apply (Hc k deps).
Qed.
End Warnings.

(** X10. Rule 4 reports the defined names that no definition references and
    no rule uses; rule 5 reports the defined semantic names that no component
    definition references and no rule uses; so every semantic name rule 4
    reports is also reported by rule 5. *)
Theorem orphans_and_unused_semantics (defs : JSMap.t Validator.tokenDef)
    (graph : JSMap.t (list string)) (usages : JSSet.t) :
  (forall name, name ∈ Validator.findOrphans defs graph usages
     <-> name ∈ JSMap.keys defs
         ∧ (forall k deps, (k, deps) ∈ graph -> name ∉ deps)
         ∧ name ∉ usages)
  ∧ (forall name, name ∈ Validator.findUnusedSemantics defs graph usages
       <-> name ∈ JSMap.keys defs
           ∧ Validator.getTier name = Validator.semantic
           ∧ (forall k deps, (k, deps) ∈ graph ->
                Validator.getTier k = Validator.component -> name ∉ deps)
           ∧ name ∉ usages)
  ∧ (forall name, name ∈ Validator.findOrphans defs graph usages ->
       Validator.getTier name = Validator.semantic ->
       name ∈ Validator.findUnusedSemantics defs graph usages).
Proof.
  split; [intros name; apply orphan_elem|].
  split; [intros name; apply unused_semantic_elem|].
  intros name (Hk & Hr & Hu)%orphan_elem Ht. apply unused_semantic_elem.
  split; [done|]. split; [done|]. split; [|done].
  intros k deps Hg _. by apply (Hr k deps).
Qed.

(** ** What the validator's parser keeps *)

Section ParserInvariant.
Import Validator ParserInv.

Lemma getTier_primitive_iff (name : string) :
  getTier name = primitive <-> JS.startsWith name "--primitive-" = true.
Proof.
  unfold getTier. destruct (JS.startsWith name "--primitive-"); [done|].
  repeat match goal with |- context [if ?b then _ else _] => destruct b end;
    split; discriminate.
Qed.

Lemma recordUsages_spec (lineNum : nat) (trimmed : string) (names : list string) :
  forall (usages : JSSet.t) (prims : list primUsage),
    let r := recordUsages lineNum trimmed names usages prims in
    (forall x, x ∈ fst r <-> x ∈ usages ∨ x ∈ names)
    ∧ (NoDup usages -> NoDup (fst r))
    ∧ (forall p, p ∈ snd r ->
         p ∈ prims ∨ (puToken p ∈ names ∧ getTier (puToken p) = primitive
                      ∧ puLine p = lineNum))
    ∧ (forall p, p ∈ prims -> p ∈ snd r)
    ∧ (forall x, x ∈ names -> getTier x = primitive ->
         exists p, p ∈ snd r ∧ puToken p = x).
Proof.
  induction names as [|y names IH]; intros usages prims; cbn zeta.
  - cbn. split; [intros x; rewrite elem_of_nil; tauto|]. split; [done|].
    split; [by left|]. split; [done|]. intros x Hx. by apply elem_of_nil in Hx.
  - cbn [recordUsages].
    match goal with |- context [recordUsages _ _ names ?u ?p] =>
      destruct (IH u p) as (H1 & H2 & H3 & H4 & H5) end.
    split; [|split; [|split; [|split]]].
    + intros x. rewrite H1, jsset_add_elem, elem_of_cons. tauto.
    + intros Hnd. by apply H2, jsset_add_NoDup.
    + intros p Hp. destruct (H3 p Hp) as [Hin|(Hn & Ht & Hl)].
      * destruct (JS.startsWith y "--primitive-") eqn:E; [|by left].
        apply elem_of_app in Hin as [? | ->%list_elem_of_singleton]; [by left|].
        right. cbn. split; [apply list_elem_of_here|].
        split; [by apply getTier_primitive_iff | done].
      * right. split; [by apply list_elem_of_further | done].
    + intros p Hp. apply H4.
      destruct (JS.startsWith y "--primitive-"); [|done].
      apply elem_of_app. by left.
    + intros x Hx Ht. apply elem_of_cons in Hx as [->|Hx]; [|by apply H5].
      apply getTier_primitive_iff in Ht. rewrite Ht in H4 |- *.
      eexists. split; [apply H4, elem_of_app; right; apply list_elem_of_here|].
      reflexivity.
Qed.

(** What one line does to the usages of the validator's parser. *)
Lemma validator_parseLine_usages (st : parseState) (i : nat) (line : string) :
  let st' := parseLine st i line in
  (ruleUsages st', primInRules st') = (ruleUsages st, primInRules st)
  ∨ (ruleUsages st', primInRules st')
    = recordUsages (i + 1) (JS.trim line) (extractVarRefs (JS.trim line))
        (ruleUsages st) (primInRules st).
Proof.
  cbn zeta. unfold parseLine.
  repeat match goal with
         | |- context [let '(_, _) := ?x in _] => destruct x eqn:?
         | |- context [if ?b then _ else _] => destruct b eqn:?
         | |- context [match ?x with Some _ => _ | None => _ end] => destruct x eqn:?
         | |- context [match ?x with (_, _) => _ end] => destruct x eqn:?
         end; cbn [ruleUsages primInRules]; auto.
Qed.

Lemma invariant_mono (st : parseState) (n m : nat) :
  invariant st n -> n <= m -> invariant st m.
Proof.
  intros (H1 & H2 & H3 & H4 & H5) Hle. split; [done|]. split; [|split; [done|split; [|done]]].
  - intros name d Hd. destruct (H2 name d Hd). split; [done | lia].
  - intros u Hu. destruct (H4 u Hu) as (? & ? & ?). split; [done|]. split; [done | lia].
Qed.

Lemma invariant_step (st : parseState) (i : nat) (raw : string) :
  invariant st i -> invariant (parseLine st i raw) (S i).
Proof.
  intros Hinv. apply (invariant_mono _ _ (S i)) in Hinv; [|lia].
  destruct Hinv as (H1 & H2 & H3 & H4 & H5).
  assert (Hdefs : NoDup (JSMap.keys (tokenDefs (parseLine st i raw)))
            ∧ forall name d, (name, d) ∈ tokenDefs (parseLine st i raw) ->
                refs d = extractVarRefs (value d) ∧ 1 <= line d <= S i).
  { destruct (validator_parseLine_tokenDefs st i raw)
      as [(_ & name & v & layer & _ & ->)|[_ ->]]; [|done].
    destruct (JSMap.has (tokenDefs st) name); [done|].
    split; [by apply jsmap_keys_set_NoDup|].
    intros name' d' Hd. apply jsmap_set_elem in Hd as [Hd | [-> ->] ]; [by apply (H2 name')|].
    cbn. split; [done | lia]. }
  destruct Hdefs as [Hd1 Hd2].
  assert (Huse : NoDup (ruleUsages (parseLine st i raw))
            ∧ (forall u, u ∈ primInRules (parseLine st i raw) ->
                 puToken u ∈ ruleUsages (parseLine st i raw)
                 ∧ getTier (puToken u) = primitive ∧ 1 <= puLine u <= S i)
            ∧ (forall x, x ∈ ruleUsages (parseLine st i raw) ->
                 getTier x = primitive ->
                 exists u, u ∈ primInRules (parseLine st i raw) ∧ puToken u = x)).
  { destruct (validator_parseLine_usages st i raw) as [E|E].
    - injection E as -> ->. done.
    - destruct (recordUsages_spec (i + 1) (JS.trim raw) (extractVarRefs (JS.trim raw))
                  (ruleUsages st) (primInRules st)) as (R1 & R2 & R3 & R4 & R5).
      rewrite <- E in R1, R2, R3, R4, R5. cbn [fst snd] in *.
      split; [by apply R2|]. split.
      + intros u Hu. destruct (R3 u Hu) as [Hin|(Hn & Ht & Hl)].
        * destruct (H4 u Hin) as (? & ? & ?). split; [apply R1; by left | done].
        * split; [apply R1; by right|]. split; [done | lia].
      + intros x Hx Ht. apply R1 in Hx as [Hx|Hx].
        * destruct (H5 x Hx Ht) as (u & Hu & <-). exists u. split; [by apply R4 | done].
        * by apply R5. }
  destruct Huse as (Hu1 & Hu2 & Hu3). unfold invariant. auto 10.
Qed.

Lemma invariant_lines (lines : list string) :
  forall st i, invariant st i ->
               invariant (parseLines st i lines) (i + length lines).
Proof.
  induction lines as [|l lines IH]; intros st i Hinv; cbn [parseLines length].
  - by rewrite Nat.add_0_r.
  - replace (i + S (length lines)) with (S i + length lines) by lia.
    apply IH. by apply invariant_step.
Qed.

Lemma invariant_parseCSS (css : string) :
  invariant (parseCSS css) (length (JS.splitChar "010" css)).
Proof.
  apply (invariant_lines _ parseInit 0). unfold invariant. cbn.
  split; [constructor|]. split; [by intros ? ? ?%elem_of_nil|].
  split; [constructor|]. split; [by intros ? ?%elem_of_nil|].
  by intros ? ?%elem_of_nil.
Qed.

(** The graph of a set of definitions maps each name to the references of its
    definition. *)
Lemma buildGraph_get (defs : JSMap.t tokenDef) (name : string) :
  NoDup (JSMap.keys defs) ->
  JSMap.get (buildGraph defs) name = option_map refs (JSMap.get defs name).
Proof.
  intros Hnd. unfold buildGraph.
  assert (H : forall (l : JSMap.t tokenDef) (g0 : JSMap.t (list string)),
            NoDup (JSMap.keys l) ->
            JSMap.get (fold_left (fun g '(n, d) => JSMap.set g n (refs d)) l g0) name
            = match JSMap.get l name with
              | Some d => Some (refs d)
              | None => JSMap.get g0 name
              end).
  { induction l as [|[k d] l IH]; intros g0 Hl; cbn [fold_left JSMap.get]; [done|].
    cbn [JSMap.keys map fst] in Hl. apply NoDup_cons in Hl as [Hk Hl].
    rewrite (IH _ Hl). destruct (String.eqb_spec k name) as [->|Hne].
    - apply jsmap_get_None in Hk. unfold JSMap.keys in Hk. rewrite Hk.
      apply jsmap_get_set_eq.
    - destruct (JSMap.get l name); [done|]. by apply jsmap_get_set_ne. }
  rewrite (H defs [] Hnd). by destruct (JSMap.get defs name).
Qed.
End ParserInvariant.

(** X11. For every stylesheet text the validator's parser returns
    definitions that name each token once, each holding the references that
    occur in its value and a line number within the text; the graph built
    from them maps each name to those references; the usages hold each name
    once; every primitive usage recorded for rule 6 is a usage of a name with
    the primitive prefix, and every such usage in a rule is recorded. *)
Theorem parser_keeps_its_tables_consistent (css : string) :
  let st := Validator.parseCSS css in
  let n := length (JS.splitChar "010" css) in
  NoDup (JSMap.keys (Validator.tokenDefs st))
  ∧ (forall name d, JSMap.get (Validator.tokenDefs st) name = Some d ->
       Validator.refs d = Validator.extractVarRefs (Validator.value d)
       ∧ 1 <= Validator.line d <= n
       ∧ JSMap.get (Validator.buildGraph (Validator.tokenDefs st)) name
         = Some (Validator.refs d))
  ∧ (forall name, JSMap.get (Validator.tokenDefs st) name = None ->
       JSMap.get (Validator.buildGraph (Validator.tokenDefs st)) name = None)
  ∧ NoDup (Validator.ruleUsages st)
  ∧ (forall u, u ∈ Validator.primInRules st ->
       Validator.puToken u ∈ Validator.ruleUsages st
       ∧ Validator.getTier (Validator.puToken u) = Validator.primitive
       ∧ 1 <= Validator.puLine u <= n)
  ∧ (forall x, x ∈ Validator.ruleUsages st ->
       Validator.getTier x = Validator.primitive ->
       exists u, u ∈ Validator.primInRules st ∧ Validator.puToken u = x).
Proof.
  cbn zeta. destruct (invariant_parseCSS css) as (H1 & H2 & H3 & H4 & H5).
  split; [done|]. split; [|split; [|auto]].
  - intros name d Hd. destruct (H2 name d (jsmap_get_Some_elem _ _ _ Hd)) as [Hr Hl].
    split; [done|]. split; [done|]. by rewrite buildGraph_get, Hd.
  - intros name Hn. by rewrite buildGraph_get, Hn.
Qed.

(** ** When the validator passes *)

Section Verdict.
Import Validator.

Lemma no_tier_violation (defs : JSMap.t tokenDef) :
  findTierViolations defs = [] <-> TierTable.respected defs = true.
Proof.
  unfold findTierViolations, TierTable.respected.
  induction defs as [|[name d] defs IH]; cbn [flat_map forallb]; [done|].
  by rewrite app_nil, andb_true_iff, IH, violationsOf_nil.
Qed.

Lemma map_nil_iff {A B} (f : A -> B) (l : list A) : map f l = [] <-> l = [].
Proof. destruct l; cbn; split; congruence. Qed.

Lemma no_primitive_in_rules (css : string) :
  primInRules (parseCSS css) = []
  <-> forall u, u ∈ ruleUsages (parseCSS css) -> getTier u ≠ primitive.
Proof.
  destruct (invariant_parseCSS css) as (_ & _ & _ & H4 & H5). split.
  - intros Hnil u Hu Ht. destruct (H5 u Hu Ht) as (p & Hp & _).
    rewrite Hnil in Hp. by apply elem_of_nil in Hp.
  - intros Hno. destruct (primInRules (parseCSS css)) as [|p l] eqn:E; [done|].
    exfalso. destruct (H4 p) as (Hu & Ht & _); [apply list_elem_of_here|].
    by apply (Hno _ Hu).
Qed.
End Verdict.

(** X12. The validator exits with 0 on a stylesheet exactly when every
    reference of every definition is a defined name, every name used in a
    rule is defined and has no primitive prefix, no definition reaches itself
    through references, and every reference is allowed by the tier table. *)
Theorem validator_passes_exactly_when (css : string) :
  let st := Validator.parseCSS css in
  let defs := Validator.tokenDefs st in
  Validator.exitCode (Validator.main (Validator.Stylesheet css)) = 0%Z
  <-> (forall name d dep, (name, d) ∈ defs -> dep ∈ Validator.refs d ->
         dep ∈ JSMap.keys defs)
      ∧ (forall u, u ∈ Validator.ruleUsages st ->
           u ∈ JSMap.keys defs ∧ Validator.getTier u ≠ Validator.primitive)
      ∧ Cycles.acyclic (Validator.buildGraph defs)
      ∧ TierTable.respected defs = true.
Proof.
  cbn zeta. unfold Validator.main, Validator.validate.
  cbn [Validator.exitCode Validator.errors].
  match goal with |- (if 0 <? length ?l then _ else _) = _ <-> _ =>
    assert (Hexit : (if 0 <? length l then 1%Z else 0%Z) = 0%Z <-> l = []) end.
  { match goal with |- context [length ?l] => destruct l end; cbn; split; congruence. }
  rewrite Hexit, !app_nil, !map_nil_iff.
  rewrite no_missing_reference, no_tier_violation, (no_primitive_in_rules css).
  split.
  - intros ([Hrefs Huse] & Hcyc & Htier & Hprim).
    split; [done|]. split; [intros u Hu; split; auto|]. split; [|done].
    by apply validator_misses_no_cycle.
  - intros (Hrefs & Huse & Hacyc & Htier).
    split; [split; [done | intros u Hu; by apply Huse]|].
    split; [|split; [done | intros u Hu; by apply Huse]].
    apply (no_cycle_no_report _ _ Hacyc), validator_reports_cycles.
Qed.

(** ** What the diff engine classifies *)

Section DiffFacts.
Import Figma DiffView.

Lemma jsmap_elem_get {V} (m : JSMap.t V) (k : string) (v : V) :
  NoDup (JSMap.keys m) -> ((k, v) ∈ m <-> JSMap.get m k = Some v).
Proof.
  intros Hnd. split; [by apply jsmap_get_of_elem | apply jsmap_get_Some_elem].
Qed.

Lemma figmaMapOf_get (figma : list figmaToken) (k : string) :
  forall m0 : JSMap.t string,
    JSMap.get (fold_left (fun m t => JSMap.set m (cssName t) (cssValue t)) figma m0) k
    = match batchValue figma k with
      | Some v => Some v
      | None => JSMap.get m0 k
      end.
Proof.
  induction figma as [|t r IH]; intros m0; cbn [fold_left batchValue]; [done|].
  rewrite IH. destruct (batchValue r k); [done|].
  rewrite jsmap_get_set. by destruct (String.eqb (cssName t) k).
Qed.

Lemma figmaMapOf_NoDup (figma : list figmaToken) : NoDup (JSMap.keys (figmaMapOf figma)).
Proof.
  unfold figmaMapOf.
  assert (H : forall m0 : JSMap.t string, NoDup (JSMap.keys m0) ->
            NoDup (JSMap.keys (fold_left (fun m t => JSMap.set m (cssName t) (cssValue t))
                                 figma m0))).
  { induction figma as [|t r IH]; intros m0 H0; cbn [fold_left]; [done|].
    by apply IH, jsmap_keys_set_NoDup. }
  apply H. constructor.
Qed.

Lemma cssRelevantOf_get (css : JSMap.t cssToken) (k : string) :
  NoDup (JSMap.keys css) ->
  forall m0 : JSMap.t cssToken,
    JSMap.get (fold_left (fun m '(name, data) =>
                 if manageable name then JSMap.set m name data else m) css m0) k
    = match cssManaged css k with
      | Some d => Some d
      | None => JSMap.get m0 k
      end.
Proof.
  unfold cssManaged.
  induction css as [|[k0 d0] r IH]; intros Hnd m0; cbn [fold_left JSMap.get].
  - by destruct (manageable k).
  - cbn [JSMap.keys map fst] in Hnd. apply NoDup_cons in Hnd as [Hk0 Hnd].
    rewrite (IH Hnd). destruct (String.eqb_spec k0 k) as [->|Hne].
    + apply jsmap_get_None in Hk0. unfold JSMap.keys in Hk0. rewrite Hk0.
      destruct (manageable k); [|done]. apply jsmap_get_set_eq.
    + destruct (manageable k); [|destruct (manageable k0); [by apply jsmap_get_set_ne | done]].
      destruct (JSMap.get r k); [done|].
      destruct (manageable k0); [by apply jsmap_get_set_ne | done].
Qed.

Lemma cssRelevantOf_NoDup (css : JSMap.t cssToken) :
  NoDup (JSMap.keys (cssRelevantOf css)).
Proof.
  unfold cssRelevantOf.
  assert (H : forall m0 : JSMap.t cssToken, NoDup (JSMap.keys m0) ->
            NoDup (JSMap.keys (fold_left (fun m '(name, data) =>
                                  if manageable name then JSMap.set m name data else m)
                                 css m0))).
  { induction css as [|[k0 d0] r IH]; intros m0 H0; cbn [fold_left]; [done|].
    apply IH. destruct (manageable k0); [by apply jsmap_keys_set_NoDup | done]. }
  apply H. constructor.
Qed.

(** The loop over the batch, as three selections from it. *)
Lemma classify_lists (rel : JSMap.t cssToken) (fm : list (string * string)) :
  forall d0,
    let d := classify rel fm d0 in
    added d
    = added d0 ++ flat_map (fun '(k, v) =>
                     match JSMap.get rel k with
                     | None => [{| aName := k; aFigmaValue := v |}]
                     | Some _ => []
                     end) fm
    ∧ modified d
      = modified d0 ++ flat_map (fun '(k, v) =>
                          match JSMap.get rel k with
                          | Some data =>
                              if String.eqb (value data) v then []
                              else [{| mName := k; mCssValue := value data;
                                       mFigmaValue := v |}]
                          | None => []
                          end) fm
    ∧ unchanged d
      = unchanged d0 ++ flat_map (fun '(k, v) =>
                           match JSMap.get rel k with
                           | Some data => if String.eqb (value data) v then [k] else []
                           | None => []
                           end) fm.
Proof.
  induction fm as [|[k v] fm IH]; intros d0; cbn zeta.
  - cbn. by rewrite !app_nil_r.
  - cbn [classify flat_map].
    match goal with |- context [classify rel fm ?x] => destruct (IH x) as (Ha & Hm & Hu) end.
    rewrite Ha, Hm, Hu.
    destruct (JSMap.get rel k) as [data|]; [destruct (String.eqb (value data) v)|];
      cbn [negb added modified unchanged]; rewrite <- ?app_assoc; done.
Qed.

(** Every name of the batch is classified once. *)
Lemma classify_partition (rel : JSMap.t cssToken) (fm : list (string * string)) :
  map aName (flat_map (fun '(k, v) =>
                 match JSMap.get rel k with
                 | None => [{| aName := k; aFigmaValue := v |}]
                 | Some _ => []
                 end) fm)
  ++ map mName (flat_map (fun '(k, v) =>
                   match JSMap.get rel k with
                   | Some data =>
                       if String.eqb (value data) v then []
                       else [{| mName := k; mCssValue := value data;
                                mFigmaValue := v |}]
                   | None => []
                   end) fm)
  ++ flat_map (fun '(k, v) =>
        match JSMap.get rel k with
        | Some data => if String.eqb (value data) v then [k] else []
        | None => []
        end) fm
  ≡ₚ map fst fm.
Proof.
  induction fm as [|[k v] fm IH]; [done|]. cbn [flat_map map fst].
  destruct (JSMap.get rel k) as [data|]; [destruct (String.eqb (value data) v)|];
    cbn [app map aName mName].
  - rewrite <- IH. by rewrite !Permutation_middle.
  - rewrite <- IH. by rewrite !Permutation_middle.
  - by rewrite IH.
Qed.
End DiffFacts.

Section DiffTheorem.
Import Figma DiffView.

Lemma figmaMapOf_elem (figma : list figmaToken) (k v : string) :
  (k, v) ∈ figmaMapOf figma <-> batchValue figma k = Some v.
Proof.
  rewrite (jsmap_elem_get _ _ _ (figmaMapOf_NoDup figma)).
  unfold figmaMapOf. rewrite figmaMapOf_get. by destruct (batchValue figma k).
Qed.

Lemma cssRelevantOf_lookup (css : JSMap.t cssToken) (k : string) :
  NoDup (JSMap.keys css) -> JSMap.get (cssRelevantOf css) k = cssManaged css k.
Proof.
  intros Hnd. unfold cssRelevantOf. rewrite (cssRelevantOf_get css k Hnd).
  by destruct (cssManaged css k).
Qed.

Lemma diff_lists (css : JSMap.t cssToken) (figma : list figmaToken) :
  let d := diffTokens css figma in
  let rel := cssRelevantOf css in
  let fm := figmaMapOf figma in
  added d = flat_map (fun '(k, v) =>
                match JSMap.get rel k with
                | None => [{| aName := k; aFigmaValue := v |}]
                | Some _ => []
                end) fm
  ∧ modified d = flat_map (fun '(k, v) =>
                     match JSMap.get rel k with
                     | Some data =>
                         if String.eqb (value data) v then []
                         else [{| mName := k; mCssValue := value data;
                                  mFigmaValue := v |}]
                     | None => []
                     end) fm
  ∧ unchanged d = flat_map (fun '(k, v) =>
                      match JSMap.get rel k with
                      | Some data => if String.eqb (value data) v then [k] else []
                      | None => []
                      end) fm.
Proof.
  cbn zeta. unfold diffTokens. cbn [added modified unchanged].
  destruct (classify_lists (cssRelevantOf css) (figmaMapOf figma)
              {| added := []; modified := []; removed := []; unchanged := [] |})
    as (Ha & Hm & Hu).
  by rewrite Ha, Hm, Hu.
Qed.
End DiffTheorem.

(** X7. The diff of a stylesheet token set and a batch classifies each
    distinct name of the batch exactly once, with the value of its last token:
    NEW when the stylesheet has no token of that name in a manageable tier,
    MODIFIED when it has one with another value, UNCHANGED when it has one
    with the same value; REMOVED are the manageable stylesheet tokens whose
    name the batch does not hold. *)
Theorem diff_classifies_every_name (css : JSMap.t Figma.cssToken)
    (figma : list Figma.figmaToken) :
  NoDup (JSMap.keys css) ->
  let d := Figma.diffTokens css figma in
  (forall a, a ∈ Figma.added d
     <-> DiffView.batchValue figma (Figma.aName a) = Some (Figma.aFigmaValue a)
         ∧ DiffView.cssManaged css (Figma.aName a) = None)
  ∧ (forall m, m ∈ Figma.modified d
       <-> DiffView.batchValue figma (Figma.mName m) = Some (Figma.mFigmaValue m)
           ∧ (exists data, DiffView.cssManaged css (Figma.mName m) = Some data
                           ∧ Figma.value data = Figma.mCssValue m)
           ∧ Figma.mCssValue m ≠ Figma.mFigmaValue m)
  ∧ (forall k, k ∈ Figma.unchanged d
       <-> exists data, DiffView.cssManaged css k = Some data
                        ∧ DiffView.batchValue figma k = Some (Figma.value data))
  ∧ (forall r, r ∈ Figma.removed d
       <-> (exists data, DiffView.cssManaged css (Figma.rName r) = Some data
                         ∧ Figma.value data = Figma.rCssValue r)
           ∧ DiffView.batchValue figma (Figma.rName r) = None)
  ∧ map Figma.aName (Figma.added d) ++ map Figma.mName (Figma.modified d)
      ++ Figma.unchanged d
    ≡ₚ JSMap.keys (Figma.figmaMapOf figma)
  ∧ NoDup (JSMap.keys (Figma.figmaMapOf figma)).
Proof.
  intros Hnd. cbn zeta.
  destruct (diff_lists css figma) as (Ha & Hm & Hu). rewrite Ha, Hm, Hu.
  split; [|split; [|split; [|split; [|split]]]].
  - intros [k v]. rewrite elem_of_flat_map. cbn [Figma.aName Figma.aFigmaValue].
    split.
    + intros ([k' v'] & Hin & Hx). rewrite cssRelevantOf_lookup in Hx by done.
      destruct (DiffView.cssManaged css k') eqn:E; [by apply elem_of_nil in Hx|].
      apply list_elem_of_singleton in Hx. injection Hx as -> ->.
      by apply figmaMapOf_elem in Hin.
    + intros [Hb Hc]. exists (k, v). split; [by apply figmaMapOf_elem|].
      rewrite cssRelevantOf_lookup, Hc by done. apply list_elem_of_here.
  - intros [k c v]. rewrite elem_of_flat_map.
    cbn [Figma.mName Figma.mCssValue Figma.mFigmaValue]. split.
    + intros ([k' v'] & Hin & Hx). rewrite cssRelevantOf_lookup in Hx by done.
      destruct (DiffView.cssManaged css k') as [data|] eqn:E;
        [|by apply elem_of_nil in Hx].
      destruct (String.eqb_spec (Figma.value data) v') as [|Hne];
        [by apply elem_of_nil in Hx|].
      apply list_elem_of_singleton in Hx. injection Hx as -> -> ->.
      split; [by apply figmaMapOf_elem|]. split; [by exists data | done].
    + intros (Hb & (data & Hc & <-) & Hne). exists (k, v).
      split; [by apply figmaMapOf_elem|].
      rewrite cssRelevantOf_lookup, Hc by done.
      destruct (String.eqb_spec (Figma.value data) v); [done|]. apply list_elem_of_here.
  - intros k. rewrite elem_of_flat_map. split.
    + intros ([k' v'] & Hin & Hx). rewrite cssRelevantOf_lookup in Hx by done.
      destruct (DiffView.cssManaged css k') as [data|] eqn:E;
        [|by apply elem_of_nil in Hx].
      destruct (String.eqb_spec (Figma.value data) v') as [E'|Hne];
        [|by apply elem_of_nil in Hx].
      apply list_elem_of_singleton in Hx as ->. exists data.
      split; [done|]. apply figmaMapOf_elem. by rewrite E'.
    + intros (data & Hc & Hb). exists (k, Figma.value data).
      split; [by apply figmaMapOf_elem|].
      rewrite cssRelevantOf_lookup, Hc, String.eqb_refl by done. apply list_elem_of_here.
  - intros [k c]. unfold Figma.diffTokens. cbn [Figma.removed Figma.rName Figma.rCssValue].
    rewrite elem_of_flat_map. unfold JSMap.has, Figma.figmaMapOf.
    split.
    + intros ([k' data] & Hin & Hx). rewrite figmaMapOf_get in Hx.
      destruct (DiffView.batchValue figma k') eqn:E; cbn in Hx;
        [by apply elem_of_nil in Hx|].
      apply list_elem_of_singleton in Hx. injection Hx as -> ->.
      apply (jsmap_elem_get _ _ _ (cssRelevantOf_NoDup css)) in Hin.
      rewrite cssRelevantOf_lookup in Hin by done. split; [by exists data | done].
    + intros ((data & Hc & <-) & Hb). exists (k, data). split.
      * apply (jsmap_elem_get _ _ _ (cssRelevantOf_NoDup css)).
        by rewrite cssRelevantOf_lookup.
      * rewrite figmaMapOf_get, Hb. cbn. apply list_elem_of_here.
  - apply classify_partition.
  - apply figmaMapOf_NoDup.
Qed.

Lemma diff_classifies_every_name_witness :
  NoDup (JSMap.keys Samples.cssPair)
  ∧ map Figma.aName (Figma.added (Figma.diffTokens Samples.cssPair Samples.tokens2))
      ++ map Figma.mName (Figma.modified (Figma.diffTokens Samples.cssPair Samples.tokens2))
      ++ Figma.unchanged (Figma.diffTokens Samples.cssPair Samples.tokens2)
    ≡ₚ JSMap.keys (Figma.figmaMapOf Samples.tokens2).
Proof.
  assert (H : NoDup (JSMap.keys Samples.cssPair)).
  { apply (bool_decide_unpack _). vm_compute. reflexivity. }
  split; [exact H|].
  exact (proj1 (proj2 (proj2 (proj2 (proj2
           (diff_classifies_every_name Samples.cssPair Samples.tokens2 H)))))).
Defined.

(** ** What a merge leaves in the registry *)

Section MergeLookup.
Import Apply MergeView.
Implicit Types (tk : gmap string string) (rs : JSSet.t) (cl : list changeEntry).

Lemma fold_mergeAdded_state items : forall tk rs cl,
  let '(tk', rs', _) := fold_left mergeAdded items (tk, rs, cl) in
  (forall k, tk' !! k = match lastOf Figma.aName Figma.aFigmaValue items k with
                        | Some v => Some v
                        | None => tk !! k
                        end)
  ∧ (forall x, x ∈ rs' <-> x ∈ rs ∧ x ∉ map Figma.aName items)
  ∧ (NoDup rs -> NoDup rs').
Proof.
  induction items as [|item items IH]; intros tk rs cl.
  - cbn. split; [done|]. split; [|done]. intros x. rewrite elem_of_nil. tauto.
  - cbn [fold_left mergeAdded lastOf map].
    specialize (IH (<[Figma.aName item := Figma.aFigmaValue item]> tk)
                   (JSSet.delete rs (Figma.aName item))
                   (cl ++ [{| ceAction := add; ceToken := Figma.aName item;
                              ceValue := Some (Figma.aFigmaValue item);
                              prev := orNull (tk !! Figma.aName item) |}])).
    destruct (fold_left mergeAdded items _) as [[tk' rs'] cl'].
    destruct IH as (H1 & H2 & H3). split; [|split].
    + intros k. rewrite H1.
      destruct (lastOf Figma.aName Figma.aFigmaValue items k); [done|].
      destruct (String.eqb_spec (Figma.aName item) k) as [->|Hne].
      * by rewrite lookup_insert_eq.
      * by rewrite lookup_insert_ne.
    + intros x. rewrite H2, jsset_delete_elem, not_elem_of_cons. tauto.
    + intros Hnd. by apply H3, jsset_delete_NoDup.
Qed.

Lemma fold_mergeUpdated_state items : forall tk rs cl,
  let '(tk', rs', _) := fold_left mergeUpdated items (tk, rs, cl) in
  (forall k, tk' !! k = match lastOf Figma.mName Figma.mFigmaValue items k with
                        | Some v => Some v
                        | None => tk !! k
                        end)
  ∧ rs' = rs.
Proof.
  induction items as [|item items IH]; intros tk rs cl.
  - cbn. by split.
  - cbn [fold_left mergeUpdated lastOf].
    specialize (IH (<[Figma.mName item := Figma.mFigmaValue item]> tk) rs
                   (cl ++ [{| ceAction := update; ceToken := Figma.mName item;
                              ceValue := Some (Figma.mFigmaValue item);
                              prev := Some (default (Figma.mCssValue item)
                                              (orNull (tk !! Figma.mName item))) |}])).
    destruct (fold_left mergeUpdated items _) as [[tk' rs'] cl'].
    destruct IH as (H1 & H2). split; [|done].
    intros k. rewrite H1.
    destruct (lastOf Figma.mName Figma.mFigmaValue items k); [done|].
    destruct (String.eqb_spec (Figma.mName item) k) as [->|Hne].
    + by rewrite lookup_insert_eq.
    + by rewrite lookup_insert_ne.
Qed.

Lemma fold_mergeRemoved_state items : forall tk rs cl,
  let '(tk', rs', _) := fold_left mergeRemoved items (tk, rs, cl) in
  (forall k, tk' !! k = if bool_decide (k ∈ map Figma.rName items) then None
                        else tk !! k)
  ∧ (forall x, x ∈ rs' <-> x ∈ rs ∨ x ∈ map Figma.rName items)
  ∧ (NoDup rs -> NoDup rs').
Proof.
  induction items as [|item items IH]; intros tk rs cl.
  - cbn. split; [done|]. split; [|done]. intros x. rewrite elem_of_nil. tauto.
  - cbn [fold_left mergeRemoved map].
    specialize (IH (delete (Figma.rName item) tk)
                   (JSSet.add rs (Figma.rName item))
                   (cl ++ [{| ceAction := remove; ceToken := Figma.rName item;
                              ceValue := None;
                              prev := orNull (tk !! Figma.rName item) |}])).
    destruct (fold_left mergeRemoved items _) as [[tk' rs'] cl'].
    destruct IH as (H1 & H2 & H3). split; [|split].
    + intros k. rewrite H1.
      destruct (decide (k ∈ map Figma.rName items)) as [Hin|Hn].
      * rewrite !bool_decide_eq_true_2; [done | by apply list_elem_of_further | done].
      * rewrite (bool_decide_eq_false_2 _ Hn).
        destruct (decide (Figma.rName item = k)) as [<-|Hne].
        -- rewrite bool_decide_eq_true_2 by apply list_elem_of_here.
           apply lookup_delete_eq.
        -- rewrite bool_decide_eq_false_2.
           ++ by apply lookup_delete_ne.
           ++ rewrite not_elem_of_cons. split; congruence.
    + intros x. rewrite H2, jsset_add_elem, elem_of_cons. tauto.
    + intros Hnd. by apply H3, jsset_add_NoDup.
Qed.
End MergeLookup.

(** X13. After a merge the override of a name is gone when an approved
    removal names it; otherwise it is the value of the last approved update
    of that name, else of the last approved addition, else the override the
    loaded registry had.  The removed names of the result are those of the
    approved removals and those of the loaded registry that no approved
    addition names, each once. *)
Theorem merge_lookup (current : Apply.registry) (ch : Apply.changes) :
  let merged := Apply.mergeRegistryChanges current ch in
  (forall k,
     Apply.tokens merged !! k
     = if bool_decide (k ∈ map Figma.rName (Apply.chRemovedFromTheme ch)) then None
       else match MergeView.lastOf Figma.mName Figma.mFigmaValue (Apply.chUpdated ch) k with
            | Some v => Some v
            | None =>
                match MergeView.lastOf Figma.aName Figma.aFigmaValue (Apply.chAdded ch) k with
                | Some v => Some v
                | None => Apply.tokens current !! k
                end
            end)
  ∧ (forall x,
       x ∈ Apply.removed merged
       <-> x ∈ map Figma.rName (Apply.chRemovedFromTheme ch)
           ∨ (x ∈ Apply.removed current ∧ x ∉ map Figma.aName (Apply.chAdded ch)))
  ∧ NoDup (Apply.removed merged).
Proof.
  cbn zeta. unfold Apply.mergeRegistryChanges.
  pose proof (fold_mergeAdded_state (Apply.chAdded ch) (Apply.tokens current)
                (JSSet.ofList (Apply.removed current)) []) as HA.
  destruct (fold_left Apply.mergeAdded _ _) as [[tk1 rs1] cl1].
  destruct HA as (A1 & A2 & A3).
  pose proof (fold_mergeUpdated_state (Apply.chUpdated ch) tk1 rs1 cl1) as HU.
  destruct (fold_left Apply.mergeUpdated _ _) as [[tk2 rs2] cl2].
  destruct HU as (U1 & ->).
  pose proof (fold_mergeRemoved_state (Apply.chRemovedFromTheme ch) tk2 rs1 cl2) as HR.
  destruct (fold_left Apply.mergeRemoved _ _) as [[tk3 rs3] cl3].
  destruct HR as (R1 & R2 & R3). cbn [Apply.tokens Apply.removed].
  split; [|split].
  - intros k. by rewrite R1, U1, A1.
  - intros x. rewrite R2, A2, jsset_ofList_elem. tauto.
  - apply R3, A3, jsset_ofList_NoDup.
Qed.

(** ** What a review does with the entries of a category *)

Section ReviewPartition.
Import Figma Apply.
Context {A : Type} (operator : nat -> string) (kind : category) (nameOf : A -> string).

Lemma reviewLoop_partition (total : nat) (items : list A) :
  forall i applyAll skipAll appr skp c,
    let res := reviewLoop operator kind nameOf total i items applyAll skipAll appr skp c in
    exists a s,
      approved (fst res) = appr ++ a ∧ skipped (fst res) = skp ++ s
      ∧ a ++ s ≡ₚ items ∧ sublist a items ∧ sublist s items
      ∧ asked c <= asked (snd res) <= asked c + length items
      ∧ (applyAll = true -> a = items)
      ∧ (applyAll = false -> skipAll = true -> s = items).
Proof.
  induction items as [|item rest IH]; intros i applyAll skipAll appr skp c; cbn zeta.
  - exists [], []. cbn. rewrite !app_nil_r. repeat split; auto; lia.
  - rewrite reviewLoop_cons. cbn zeta.
    assert (Hyes : forall aa sa c1, asked c <= asked c1 <= S (asked c) ->
              (applyAll = true -> aa = true) ->
              let res := reviewLoop operator kind nameOf total (S i) rest aa sa
                           (appr ++ [item]) skp c1 in
              exists a s,
                approved (fst res) = appr ++ a ∧ skipped (fst res) = skp ++ s
                ∧ a ++ s ≡ₚ item :: rest ∧ sublist a (item :: rest)
                ∧ sublist s (item :: rest)
                ∧ asked c <= asked (snd res) <= asked c + length (item :: rest)
                ∧ (applyAll = true -> a = item :: rest)
                ∧ (applyAll = false -> skipAll = true -> False -> s = item :: rest)).
    { intros aa sa c1 Hc Haa. cbn zeta.
      destruct (IH (S i) aa sa (appr ++ [item]) skp c1)
        as (a & s & Ha & Hs & Hp & Hsa & Hss & Hq & Hall & _).
      exists (item :: a), s. rewrite Ha, Hs, <- app_assoc. cbn [app length].
      split; [done|]. split; [done|]. split; [by rewrite Hp|].
      split; [by apply sublist_skip|]. split; [by apply sublist_cons|].
      split; [lia|]. split; [|done].
      intros Haa'. by rewrite (Hall (Haa Haa')). }
    assert (Hno : forall aa sa c1, asked c <= asked c1 <= S (asked c) ->
              (applyAll = false -> skipAll = true -> aa = false ∧ sa = true) ->
              applyAll = false ->
              let res := reviewLoop operator kind nameOf total (S i) rest aa sa
                           appr (skp ++ [item]) c1 in
              exists a s,
                approved (fst res) = appr ++ a ∧ skipped (fst res) = skp ++ s
                ∧ a ++ s ≡ₚ item :: rest ∧ sublist a (item :: rest)
                ∧ sublist s (item :: rest)
                ∧ asked c <= asked (snd res) <= asked c + length (item :: rest)
                ∧ (applyAll = true -> a = item :: rest)
                ∧ (applyAll = false -> skipAll = true -> s = item :: rest)).
    { intros aa sa c1 Hc Hflags Hnot. cbn zeta.
      destruct (IH (S i) aa sa appr (skp ++ [item]) c1)
        as (a & s & Ha & Hs & Hp & Hsa & Hss & Hq & _ & Hskip).
      exists a, (item :: s). rewrite Ha, Hs, <- app_assoc. cbn [app length].
      split; [done|]. split; [done|].
      split; [by rewrite <- Permutation_middle, Hp|].
      split; [by apply sublist_cons|]. split; [by apply sublist_skip|].
      split; [lia|]. split; [congruence|].
      intros _ Hsk. destruct (Hflags Hnot Hsk) as [-> ->]. by rewrite Hskip. }
    destruct applyAll.
    { destruct (Hyes true skipAll
                  {| asked := asked c;
                     shown := shown c ++ [Rendered kind (nameOf item) i total] |})
        as (a & s & H); [cbn; lia | done |].
      exists a, s. intuition congruence. }
    destruct skipAll.
    { apply Hno; [cbn; lia | done | done]. }
    destruct (decide_answer (operator (asked c))).
    + destruct (Hyes false false
                  {| asked := S (asked c);
                     shown := (shown c ++ [Rendered kind (nameOf item) i total])
                              ++ [Asked kind (nameOf item)] |})
        as (a & s & H); [cbn; lia | done |].
      exists a, s. intuition congruence.
    + apply Hno; [cbn; lia | done | done].
    + destruct (Hyes true false
                  {| asked := S (asked c);
                     shown := (shown c ++ [Rendered kind (nameOf item) i total])
                              ++ [Asked kind (nameOf item)] |})
        as (a & s & H); [cbn; lia | done |].
      exists a, s. intuition congruence.
    + apply Hno; [cbn; lia | done | done].
    + exists [], (item :: rest). cbn [fst snd approved skipped asked app length].
      rewrite app_nil_r, <- app_assoc. cbn [app].
      split; [done|]. split; [done|]. split; [done|].
      split; [apply sublist_nil_l|]. split; [done|]. split; [lia|]. done.
Qed.
End ReviewPartition.

Lemma reviewCategory_split {A : Type} (operator : nat -> string)
    (kind : Apply.category) (nameOf : A -> string) (items : list A)
    (c : Apply.console) :
  let res := Apply.reviewCategory operator kind nameOf items c in
  Apply.approved (fst res) ++ Apply.skipped (fst res) ≡ₚ items
  ∧ sublist (Apply.approved (fst res)) items
  ∧ sublist (Apply.skipped (fst res)) items
  ∧ Apply.asked c <= Apply.asked (snd res) <= Apply.asked c + length items.
Proof.
  cbn zeta. destruct items as [|item rest].
  - cbn. repeat split; auto; lia.
  - unfold Apply.reviewCategory.
    destruct (reviewLoop_partition operator kind nameOf (length (item :: rest))
                (item :: rest) 1 false false [] [] c)
      as (a & s & Ha & Hs & Hp & Hsa & Hss & Hq & _).
    cbn [app] in Ha, Hs. by rewrite Ha, Hs.
Qed.

Lemma reviewCategory_quit_answer {A : Type} (operator : nat -> string)
    (kind : Apply.category) (nameOf : A -> string) (items : list A)
    (c : Apply.console) :
  let res := Apply.reviewCategory operator kind nameOf items c in
  Apply.quitted (fst res) = true ->
  Apply.decide_answer (operator (pred (Apply.asked (snd res)))) = Apply.quit.
Proof.
  cbn zeta. unfold Apply.reviewCategory. destruct items as [|x items]; [discriminate|].
  intros Hq.
  destruct (reviewLoop_quit operator kind nameOf (length (x :: items)) (x :: items)
              1 false false [] [] c Hq)
    as (pre & item & post & acc & rej & evs & _ & _ & _ & _ & _ & _ & _ & _ & Hlast).
  exact Hlast.
Qed.

(** X14. Whatever the operator answers, the review of a category returns the
    entries split in two: the approved and the skipped ones are each in the
    order of the category and together are exactly its entries; at most one
    question per entry is asked; and a first answer [a] approves every
    entry, a first answer [s] skips every entry, after that single
    question. *)
Theorem review_splits_the_entries {A : Type} (operator : nat -> string)
    (kind : Apply.category) (nameOf : A -> string) (items : list A)
    (c : Apply.console) :
  let res := Apply.reviewCategory operator kind nameOf items c in
  Apply.approved (fst res) ++ Apply.skipped (fst res) ≡ₚ items
  ∧ sublist (Apply.approved (fst res)) items
  ∧ sublist (Apply.skipped (fst res)) items
  ∧ Apply.asked c <= Apply.asked (snd res) <= Apply.asked c + length items
  ∧ (items ≠ [] ->
     Apply.decide_answer (operator (Apply.asked c)) = Apply.all ->
     Apply.approved (fst res) = items ∧ Apply.skipped (fst res) = []
     ∧ Apply.asked (snd res) = S (Apply.asked c))
  ∧ (items ≠ [] ->
     Apply.decide_answer (operator (Apply.asked c)) = Apply.skip ->
     Apply.approved (fst res) = [] ∧ Apply.skipped (fst res) = items
     ∧ Apply.asked (snd res) = S (Apply.asked c)).
Proof.
  cbn zeta. destruct items as [|item rest].
  - cbn. repeat split; auto; try lia; done.
  - unfold Apply.reviewCategory.
    destruct (reviewLoop_partition operator kind nameOf (length (item :: rest))
                (item :: rest) 1 false false [] [] c)
      as (a & s & Ha & Hs & Hp & Hsa & Hss & Hq & _).
    cbn [app] in Ha, Hs. rewrite Ha, Hs.
    split; [done|]. split; [done|]. split; [done|]. split; [done|].
    split; intros _ Hans.
    + rewrite <- Ha, <- Hs. rewrite reviewLoop_cons. cbn zeta. rewrite Hans.
      match goal with |- context [Apply.reviewLoop _ _ _ ?t ?i rest true false ?ap ?sk ?c1] =>
        destruct (reviewLoop_partition operator kind nameOf t rest i true false ap sk c1)
          as (a' & s' & Ha' & Hs' & Hp' & _ & _ & _ & Hall & _);
        destruct (reviewLoop_flag_no_quit operator kind nameOf t rest i true false ap sk c1
                    eq_refl) as [_ Hasked]
      end.
      rewrite Ha', Hs', Hasked. rewrite (Hall eq_refl) in Hp' |- *.
      assert (s' = []) as ->.
      { apply Permutation_length in Hp'. rewrite length_app in Hp'.
        destruct s'; [done | cbn in Hp'; lia]. }
      done.
    + rewrite <- Ha, <- Hs. rewrite reviewLoop_cons. cbn zeta. rewrite Hans.
      match goal with |- context [Apply.reviewLoop _ _ _ ?t ?i rest false true ?ap ?sk ?c1] =>
        destruct (reviewLoop_partition operator kind nameOf t rest i false true ap sk c1)
          as (a' & s' & Ha' & Hs' & Hp' & _ & _ & _ & _ & Hskip);
        destruct (reviewLoop_flag_no_quit operator kind nameOf t rest i false true ap sk c1
                    eq_refl) as [_ Hasked]
      end.
      rewrite Ha', Hs', Hasked. rewrite (Hskip eq_refl eq_refl) in Hp' |- *.
      assert (a' = []) as ->.
      { apply Permutation_length in Hp'. rewrite length_app in Hp'.
        destruct a'; [done | cbn in Hp'; lia]. }
      done.
Qed.

(** ** The outcomes of an apply run *)

Section ApplyOutcomes.
Import Figma Apply Log.

(** What a review returns, whatever the operator answers. *)
Lemma review_result (operator : nat -> string) (d : diff)
    (removable : list removedEntry) (c : console) :
  forall ch n q c1,
    review operator d removable c = (ch, n, q, c1) ->
    sublist (chAdded ch) (added d)
    ∧ sublist (chUpdated ch) (modified d)
    ∧ sublist (chRemovedFromTheme ch) removable
    ∧ totalApproved ch + n <= length (added d) + length (modified d) + length removable
    ∧ (q = false ->
       totalApproved ch + n = length (added d) + length (modified d) + length removable)
    ∧ (q = true -> decide_answer (operator (pred (asked c1))) = quit)
    ∧ asked c <= asked c1
      <= asked c + (length (added d) + length (modified d) + length removable).
Proof.
  intros ch n q c1. rewrite review_categories. cbn zeta.
  pose proof (reviewCategory_split operator NEW aName (added d) c) as H1.
  pose proof (reviewCategory_quit_answer operator NEW aName (added d) c) as Q1.
  set (rc1 := reviewCategory operator NEW aName (added d) c) in *.
  pose proof (reviewCategory_split operator MODIFIED mName (modified d) (snd rc1)) as H2.
  pose proof (reviewCategory_quit_answer operator MODIFIED mName (modified d) (snd rc1)) as Q2.
  set (rc2 := reviewCategory operator MODIFIED mName (modified d) (snd rc1)) in *.
  pose proof (reviewCategory_split operator REMOVED rName removable (snd rc2)) as H3.
  pose proof (reviewCategory_quit_answer operator REMOVED rName removable (snd rc2)) as Q3.
  set (rc3 := reviewCategory operator REMOVED rName removable (snd rc2)) in *.
  cbn zeta in *.
  destruct H1 as (P1 & A1 & S1 & N1), H2 as (P2 & A2 & S2 & N2),
    H3 as (P3 & A3 & S3 & N3).
  apply Permutation_length in P1, P2, P3. rewrite length_app in P1, P2, P3.
  destruct (quitted (fst rc1)) eqn:E1; [|destruct (quitted (fst rc2)) eqn:E2];
    intros [= <- <- <- <-]; unfold totalApproved; cbn [chAdded chUpdated chRemovedFromTheme length].
  - repeat split; auto using sublist_nil_l; try lia; try done.
  - repeat split; auto using sublist_nil_l; try lia; try done.
  - repeat split; auto; try lia.
Qed.


End ApplyOutcomes.

Section RunFacts.
Import Figma Apply.
Context {A : Type} (operator : nat -> Run.input) (kind : category)
  (nameOf : A -> string).



End RunFacts.

Section RunOutcomes.
Import Figma Apply.



End RunOutcomes.


(** Three new tokens, the first accepted, an interrupt at the second
    question: the run ends with 130 after two questions and nothing is
    merged or written. *)
Example interrupted_run_writes_nothing :
  let o := Run.main false Samples.acceptThenInterrupt 3 (Some Samples.cssEmpty)
             (Some Samples.export3) Apply.NoRegistry in
  Run.exitCode o = 130%Z ∧ Run.merged o = None ∧ Run.filesWritten o = 0
  ∧ Apply.asked (Run.terminal o) = 2.
Proof. vm_compute. repeat split. Qed.

(** The same tokens in batch mode, with a write error at the second file:
    the run ends with 1 and one file is written. *)
Example failed_write_leaves_one_file :
  let o := Run.main true Samples.acceptThenInterrupt 1 (Some Samples.cssEmpty)
             (Some Samples.export3) Apply.NoRegistry in
  Run.exitCode o = 1%Z ∧ is_Some (Run.merged o) ∧ Run.filesWritten o = 1
  ∧ Apply.asked (Run.terminal o) = 0.
Proof. cbn zeta. split; [by vm_compute|]. split; [|by vm_compute]. by eexists. Qed.

(** X16. An apply run approves nothing that the dry run on the same inputs
    does not show: when the dry run prints a diff, a diff without NEW and
    MODIFIED entries ends the run with exit code 0 before the registry is
    read, even when it has REMOVED entries; otherwise the approved changes
    are taken, in order, from the NEW, MODIFIED and REMOVED entries of that
    diff, an approved removal is the removal of an override of the loaded
    registry, approved and skipped entries together are no more than the diff
    has, no more questions are asked than the diff has entries, and what is
    written is the merge of the approved changes into the loaded registry, or
    nothing when there is none. *)
Theorem apply_stays_within_the_diff (optYes : bool) (operator : nat -> string)
    (cssText : string) (json : option Figma.export)
    (regFile : Apply.registryFile) (r : DryRun.syncReport) (d : Figma.diff) :
  DryRun.printed (DryRun.main (Some cssText) json) = Some r ->
  DryRun.diffResult r = Some d ->
  let o := Apply.main optYes operator (Some cssText) json regFile in
  let current := Apply.loadUserThemeRegistry regFile in
  let size := length (Figma.added d) + length (Figma.modified d)
              + length (Figma.removed d) in
  (Figma.added d = [] -> Figma.modified d = [] ->
   o = Apply.stop 0 {| Apply.asked := 0; Apply.shown := [] |})
  ∧ (Figma.added d ≠ [] ∨ Figma.modified d ≠ [] ->
     exists ch,
       Apply.approvedChanges o = Some ch
       ∧ sublist (Apply.chAdded ch) (Figma.added d)
       ∧ sublist (Apply.chUpdated ch) (Figma.modified d)
       ∧ sublist (Apply.chRemovedFromTheme ch) (Figma.removed d)
       ∧ (forall x, x ∈ Apply.chRemovedFromTheme ch ->
            is_Some (Apply.tokens current !! Figma.rName x))
       ∧ Log.totalApproved ch + Apply.skippedCount o <= size
       ∧ Apply.asked (Apply.terminal o) <= size
       ∧ Apply.written o
         = if Nat.eqb (Log.totalApproved ch) 0 then None
           else Some (Apply.mergeRegistryChanges current ch)).
Proof.
  unfold Apply.main, DryRun.main.
  destruct json as [data|]; [|discriminate].
  destruct (Figma.parseFigmaExport data) as [err|figmaTokens]; [discriminate|].
  destruct (0 <? length _); [by intros [= <-]|].
  intros [= <-]. cbn [DryRun.diffResult]. intros [= <-]. cbn zeta.
  set (d := Figma.diffTokens _ _).
  split.
  { intros -> ->. reflexivity. }
  intros Hsome.
  assert (Hne : Nat.eqb (length (Figma.added d)) 0
                && Nat.eqb (length (Figma.modified d)) 0 = false).
  { destruct (Figma.added d), (Figma.modified d); cbn; try reflexivity.
    destruct Hsome; congruence. }
  rewrite Hne. clear Hne.
  set (removable := filter _ _).
  assert (Hsub : sublist removable (Figma.removed d)) by apply sublist_filter.
  assert (Hlen : length removable <= length (Figma.removed d))
    by by apply sublist_length.
  assert (Hover : forall x, x ∈ removable ->
            is_Some (Apply.tokens (Apply.loadUserThemeRegistry regFile)
                     !! Figma.rName x)).
  { intros x Hx. apply list_elem_of_filter in Hx as [Hx _].
    by apply bool_decide_unpack in Hx. }
  clearbody removable. clearbody d.
  destruct optYes.
  { cbn [andb Apply.chAdded Apply.chUpdated Apply.chRemovedFromTheme length].
    exists {| Apply.chAdded := Figma.added d; Apply.chUpdated := Figma.modified d;
              Apply.chRemovedFromTheme := [] |}.
    unfold Log.totalApproved.
    cbn [Apply.chAdded Apply.chUpdated Apply.chRemovedFromTheme length].
    destruct (Nat.eqb _ 0) eqn:E; cbn.
    all: split; [done|]; split; [done|]; split; [done|].
    all: split; [apply sublist_nil_l|].
    all: split; [by intros x Hx%elem_of_nil|].
    all: repeat split; try lia; done. }
  destruct (Apply.review operator d removable _) as [[[ch n] q] c1] eqn:Hrev.
  pose proof (review_result operator d removable _ ch n q c1 Hrev)
    as (Ha & Hm & Hr & Hcount & _ & _ & Hasked).
  cbn [Apply.asked] in Hasked.
  exists ch. unfold Log.totalApproved in *.
  destruct q; cbn [andb]; destruct (Nat.eqb _ 0) eqn:Hzero; cbn.
  all: split; [done|]; split; [done|]; split; [done|].
  all: split; [by etrans|].
  all: split; [intros x Hx; apply Hover; by eapply elem_of_sublist|].
  all: repeat split; try lia; done.
Qed.

Lemma apply_stays_within_the_diff_witness :
  let d := Figma.diffTokens (Figma.parseCSSTokens Samples.css3) Samples.tokens2 in
  let r := {| DryRun.archErrors := []; DryRun.noCycles := true;
              DryRun.diffResult := Some d |} in
  let o := Apply.main false Samples.acceptThenQuit (Some Samples.css3)
             (Some Samples.export2) Samples.registryC in
  DryRun.printed (DryRun.main (Some Samples.css3) (Some Samples.export2)) = Some r
  ∧ Figma.added d ≠ []
  ∧ exists ch,
      Apply.approvedChanges o = Some ch
      ∧ sublist (Apply.chAdded ch) (Figma.added d)
      ∧ sublist (Apply.chUpdated ch) (Figma.modified d)
      ∧ sublist (Apply.chRemovedFromTheme ch) (Figma.removed d).
Proof.
  cbn zeta. split; [vm_compute; reflexivity|].
  assert (Hadded : Figma.added (Figma.diffTokens (Figma.parseCSSTokens Samples.css3)
                                  Samples.tokens2) ≠ []).
  { intros E. vm_compute in E. discriminate E. }
  split; [exact Hadded|].
  assert (Hsome := or_introl Hadded
            : Figma.added (Figma.diffTokens (Figma.parseCSSTokens Samples.css3)
                             Samples.tokens2) ≠ []
              ∨ Figma.modified (Figma.diffTokens (Figma.parseCSSTokens Samples.css3)
                                  Samples.tokens2) ≠ []).
  destruct (apply_stays_within_the_diff false Samples.acceptThenQuit Samples.css3
              (Some Samples.export2) Samples.registryC
              {| DryRun.archErrors := []; DryRun.noCycles := true;
                 DryRun.diffResult :=
                   Some (Figma.diffTokens (Figma.parseCSSTokens Samples.css3)
                           Samples.tokens2) |}
              (Figma.diffTokens (Figma.parseCSSTokens Samples.css3) Samples.tokens2))
    as [_ H]; [vm_compute; reflexivity | reflexivity |].
  destruct (H Hsome) as (ch & H1 & H2 & H3 & H4 & _).
  exists ch. auto.
Defined.

(** ** Names and values of an export *)

Section Conversion.
Import Figma.

Lemma string_app_cons (x : ascii) (a b : string) :
  String x a +:+ b = String x (a +:+ b).
Proof. reflexivity. Qed.

Lemma string_app_nil_l (b : string) : EmptyString +:+ b = b.
Proof. reflexivity. Qed.

Lemma string_app_assoc (a b c : string) : (a +:+ b) +:+ c = a +:+ (b +:+ c).
Proof.
  induction a as [|x a IH]; [done|]. rewrite !string_app_cons. by f_equal.
Qed.

Lemma string_app_nil_r (a : string) : a +:+ EmptyString = a.
Proof.
  induction a as [|x a IH]; [done|]. rewrite !string_app_cons. by f_equal.
Qed.

Lemma string_app_length (a b : string) :
  String.length (a +:+ b) = String.length a + String.length b.
Proof.
  induction a as [|x a IH]; [done|]. rewrite !string_app_cons. cbn. by f_equal.
Qed.

Lemma replaceChar_length (x y : ascii) (s : string) :
  String.length (JS.replaceChar x y s) = String.length s.
Proof. induction s as [|c s IH]; simpl; [done | by f_equal]. Qed.

Lemma replaceChar_app (x y : ascii) (a b : string) :
  JS.replaceChar x y (a +:+ b) = JS.replaceChar x y a +:+ JS.replaceChar x y b.
Proof.
  induction a as [|c a IH]; [done|]. rewrite !string_app_cons. cbn.
  rewrite string_app_cons. by f_equal.
Qed.

Lemma replaceChar_none (x y : ascii) (s : string) :
  x ≠ y -> JS.countChar x (JS.replaceChar x y s) = 0.
Proof.
  intros Hxy. induction s as [|c s IH]; cbn; [done|]. rewrite IH.
  destruct (Ascii.eqb_spec c x) as [->|Hc].
  - destruct (Ascii.eqb_spec y x); [congruence | done].
  - destruct (Ascii.eqb_spec c x); [congruence | done].
Qed.

(** Names without the replacing character are told apart by their
    replacements. *)
Lemma replaceChar_inj (x y : ascii) (a b : string) :
  JS.countChar y a = 0 -> JS.countChar y b = 0 ->
  JS.replaceChar x y a = JS.replaceChar x y b -> a = b.
Proof.
  revert b. induction a as [|c a IH]; intros [|c' b]; cbn; try done.
  intros Ha Hb [= Hc Hr].
  destruct (Ascii.eqb_spec c y) as [->|Hcy]; [discriminate|].
  destruct (Ascii.eqb_spec c' y) as [->|Hcy']; [discriminate|].
  cbn in Ha, Hb. f_equal; [|by apply IH].
  destruct (Ascii.eqb_spec c x) as [->|Hcx], (Ascii.eqb_spec c' x) as [->|Hcx'];
    congruence.
Qed.

(** [split] and [join] are inverse. *)
Lemma splitChar_cons (sep : ascii) (s : string) :
  exists x xs, JS.splitChar sep s = x :: xs.
Proof.
  destruct s as [|c r]; cbn; [by eauto|].
  destruct (Ascii.eqb c sep); [by eauto|].
  destruct (JS.splitChar sep r); eauto.
Qed.

Lemma splitChar_first (sep : ascii) (s x : string) (xs : list string) :
  JS.splitChar sep s = x :: xs ->
  JS.countChar sep x = 0
  ∧ match xs with
    | [] => s = x
    | _ :: _ => exists rest, s = x +:+ String sep rest
                             ∧ JS.splitChar sep rest = xs
    end.
Proof.
  revert x xs. induction s as [|c r IH]; intros x xs; cbn.
  - by intros [= <- <-].
  - destruct (Ascii.eqb_spec c sep) as [->|Hc].
    + intros [= <- <-]. split; [done|].
      destruct (splitChar_cons sep r) as (y & ys & E). rewrite E.
      exists r. by rewrite string_app_nil_l, E.
    + destruct (splitChar_cons sep r) as (y & ys & E). rewrite E.
      intros [= <- <-]. destruct (IH y ys E) as [Hy Hrest].
      cbn. destruct (Ascii.eqb_spec c sep); [congruence|]. split; [done|].
      destruct ys as [|z zs].
      * by rewrite Hrest.
      * destruct Hrest as (rest & -> & Hs). exists rest.
        by rewrite string_app_cons.
Qed.

Lemma startsWith_app (p s : string) : JS.startsWith (p +:+ s) p = true.
Proof.
  unfold JS.startsWith. induction p as [|c p IH]; [done|].
  rewrite string_app_cons. cbn. by rewrite Ascii.eqb_refl.
Qed.

Lemma stripPrefix_Some (p s r : string) :
  JS.stripPrefix p s = Some r <-> s = p +:+ r.
Proof.
  revert s. induction p as [|a p IH]; intros s.
  - rewrite string_app_nil_l. cbn. split; congruence.
  - rewrite string_app_cons. destruct s as [|b s]; cbn; [split; discriminate|].
    destruct (Ascii.eqb_spec a b) as [->|Hab].
    + rewrite IH. split; congruence.
    + split; [discriminate | congruence].
Qed.

Lemma every_impl (p q : ascii -> bool) (s : string) :
  (forall c, p c = true -> q c = true) ->
  Text.every p s = true -> Text.every q s = true.
Proof.
  intros Hpq. induction s as [|c s IH]; cbn; [done|].
  intros [Hc Hs]%andb_prop. by rewrite (Hpq c Hc), IH.
Qed.

Lemma every_app (p : ascii -> bool) (a b : string) :
  Text.every p (a +:+ b) = Text.every p a && Text.every p b.
Proof.
  induction a as [|c a IH]; [done|]. rewrite string_app_cons. cbn.
  by rewrite IH, andb_assoc.
Qed.

Lemma dotted_is_one_line (c : ascii) :
  JS.isNameChar c || Ascii.eqb c "." = true -> negb (JS.isLineTerminator c) = true.
Proof. destruct c as [[] [] [] [] [] [] [] []]; vm_compute; congruence. Qed.

Lemma dotted_becomes_name (m : string) :
  Text.dottedName m = true ->
  Text.every JS.isNameChar (JS.replaceChar "." "-" m) = true.
Proof.
  unfold Text.dottedName. induction m as [|c m IH]; cbn; [done|].
  intros [Hc Hm]%andb_prop. rewrite (IH Hm), andb_true_r.
  destruct (Ascii.eqb_spec c ".") as [->|Hne]; [reflexivity|].
  by rewrite orb_false_r in Hc.
Qed.

Lemma spanName_app (n rest : string) :
  Text.every JS.isNameChar n = true ->
  match rest with String c _ => JS.isNameChar c = false | EmptyString => True end ->
  JS.spanName (n +:+ rest) = (n, rest).
Proof.
  intros Hn Hrest. induction n as [|c n IH].
  - rewrite string_app_nil_l. destruct rest as [|c r]; cbn; [done|]. by rewrite Hrest.
  - cbn in Hn. apply andb_prop in Hn as [Hc Hn].
    rewrite string_app_cons. cbn. by rewrite Hc, (IH Hn).
Qed.

Lemma varRefsFrom_skip (a b : string) :
  JS.varRefsFrom (String.length a) (a +:+ b) = JS.varRefsFrom 0 b.
Proof.
  induction a as [|c a IH]; [done|]. rewrite string_app_cons. cbn. exact IH.
Qed.

Lemma varRefsFrom_match (c : ascii) (r n : string) (len : nat) :
  JS.matchVarAt (String c r) = Some (n, len) ->
  JS.varRefsFrom 0 (String c r) = n :: JS.varRefsFrom (len - 1) r.
Proof. intros H. cbn [JS.varRefsFrom]. by rewrite H. Qed.

Lemma matchVarAt_var (n : string) :
  n ≠ EmptyString -> Text.every JS.isNameChar n = true ->
  JS.matchVarAt (String "v" ("ar(--" +:+ (n +:+ ")")))
  = Some ("--" +:+ n, S (String.length ("ar(--" +:+ n))).
Proof.
  intros Hne Hn. unfold JS.matchVarAt.
  repeat (rewrite string_app_cons || rewrite string_app_nil_l).
  cbn [JS.stripPrefix Ascii.eqb Bool.eqb]. cbn [JS.skipWs JS.trimStart].
  change (JS.isWhiteSpace "-") with false. cbn iota.
  unfold JS.matchCustomProp. rewrite (spanName_app n ")" Hn eq_refl).
  destruct n as [|c n']; [done|].
  do 2 f_equal. cbn [String.length]. rewrite string_app_length. cbn [String.length]. lia.
Qed.

(** The references the validator reads in [var(<name>)]. *)
Lemma varRefs_of_var (n : string) :
  n ≠ EmptyString -> Text.every JS.isNameChar n = true ->
  Validator.extractVarRefs ("var(" +:+ ("--" +:+ n) +:+ ")") = ["--" +:+ n].
Proof.
  intros Hne Hn. unfold Validator.extractVarRefs.
  change ("var(" +:+ ("--" +:+ n) +:+ ")")
    with (String "v" ("ar(--" +:+ (n +:+ ")"))).
  rewrite (varRefsFrom_match _ _ _ _ (matchVarAt_var n Hne Hn)).
  f_equal. rewrite <- string_app_assoc.
  replace (S (String.length ("ar(--" +:+ n)) - 1)
    with (String.length ("ar(--" +:+ n)) by lia.
  rewrite varRefsFrom_skip. reflexivity.
Qed.

(** The text between the braces of [/^\{(.+)\}$/]. *)
Lemma matchBraceBody_cons (c : ascii) (r : string) :
  JS.matchBraceBody (String c r)
  = if JS.isLineTerminator c then None
    else if String.eqb r "}" then Some (String c EmptyString)
    else option_map (String c) (JS.matchBraceBody r).
Proof.
  cbn [JS.matchBraceBody]. destruct (JS.isLineTerminator c); [done|].
  destruct r as [|a r']; [done|].
  destruct a as [[] [] [] [] [] [] [] []]; try reflexivity.
  destruct r'; reflexivity.
Qed.

Lemma matchBraceBody_spec (s m : string) :
  JS.matchBraceBody s = Some m
  <-> s = m +:+ "}" ∧ m ≠ EmptyString ∧ Text.oneLine m = true.
Proof.
  revert m. induction s as [|c r IH]; intros m.
  - split; [discriminate|]. intros [E [Hm _]]. destruct m; [done | discriminate].
  - rewrite matchBraceBody_cons. unfold Text.oneLine in *.
    destruct (JS.isLineTerminator c) eqn:Hc.
    { split; [discriminate|]. intros (E & Hm & Hl).
      destruct m as [|c' m]; [done|]. rewrite string_app_cons in E.
      injection E as <- _. cbn in Hl. by rewrite Hc in Hl. }
    destruct (String.eqb_spec r "}") as [->|Hr].
    { split.
      - intros [= <-]. cbn. by rewrite Hc.
      - intros (E & Hm & Hl). destruct m as [|c' m]; [done|].
        rewrite string_app_cons in E. injection E as <- E.
        destruct m as [|c'' m]; [done|]. rewrite string_app_cons in E.
        injection E as _ E. destruct m; discriminate. }
    destruct (JS.matchBraceBody r) as [m'|] eqn:Hbody; cbn [option_map].
    + destruct (proj1 (IH m') eq_refl) as (E & Hm' & Hl').
      split.
      * intros [= <-]. rewrite string_app_cons, <- E. cbn. by rewrite Hc, Hl'.
      * intros (E' & Hm & Hl). destruct m as [|c' m]; [done|].
        rewrite string_app_cons in E'. injection E' as <- E'.
        f_equal. f_equal. rewrite E in E'.
        revert E'. clear. revert m. induction m' as [|x m' IHm]; intros [|y m].
        -- done.
        -- rewrite string_app_nil_l, string_app_cons. intros [= -> E].
           destruct m; discriminate.
        -- rewrite string_app_nil_l, string_app_cons. intros [= -> E].
           destruct m'; discriminate.
        -- rewrite !string_app_cons. intros [= -> E]. by rewrite (IHm m E).
    + split; [discriminate|]. intros (E & Hm & Hl).
      destruct m as [|c' m]; [done|]. rewrite string_app_cons in E.
      injection E as <- E. cbn in Hl. apply andb_prop in Hl as [_ Hl].
      destruct m as [|c'' m]; [by rewrite string_app_nil_l in E|].
      assert (None = Some (String c'' m)) as Habs; [|discriminate].
      apply IH. by rewrite E.
Qed.

Lemma matchBraced_spec (v m : string) :
  JS.matchBraced v = Some m
  <-> v = "{" +:+ m +:+ "}" ∧ m ≠ EmptyString ∧ Text.oneLine m = true.
Proof.
  rewrite string_app_cons, string_app_nil_l. unfold JS.matchBraced.
  destruct v as [|c r]; [split; [discriminate | by intros [? _]]|].
  destruct (Ascii.eqb_spec c "{") as [->|Hne].
  - rewrite matchBraceBody_spec. split; intros (E & ? & ?); split; auto; congruence.
  - assert (match c with "{"%char => JS.matchBraceBody r | _ => None end = None) as ->.
    { destruct c as [[] [] [] [] [] [] [] []]; try reflexivity. done. }
    split; [discriminate|]. intros ([= ? _] & _). done.
Qed.

Lemma css_tier_of_export_name (n : string) (t : Figma.tierName) :
  Figma.getTierFromFigmaName n = Some t ->
  (2 <= Text.segments n ->
   Figma.getTierFromCSSName (Figma.figmaNameToCSSVar n) = Some t
   ∧ Figma.manageable (Figma.figmaNameToCSSVar n) = true)
  ∧ (Text.segments n < 2 ->
     Figma.getTierFromCSSName (Figma.figmaNameToCSSVar n) = None
     ∧ Figma.manageable (Figma.figmaNameToCSSVar n) = false).
Proof.
  intros Ht. unfold Figma.figmaNameToCSSVar.
  unfold Figma.getTierFromFigmaName, Figma.firstSegment in Ht.
  unfold Text.segments.
  destruct (splitChar_cons "." n) as (x & xs & E). rewrite E in Ht |- *.
  destruct (splitChar_first "." n x xs E) as [_ Hrest].
  assert (Hx : (x = "primitive" ∧ t = Figma.primitive)
               ∨ (x = "semantic" ∧ t = Figma.semantic)
               ∨ (x = "component" ∧ t = Figma.component)).
  { destruct (String.eqb_spec x "primitive"); [left; split; congruence|].
    destruct (String.eqb_spec x "semantic"); [right; left; split; congruence|].
    destruct (String.eqb_spec x "component"); [right; right; split; congruence|].
    discriminate. }
  destruct xs as [|y ys]; cbn [length].
  + subst n. split; [lia|]. intros _.
    destruct Hx as [[-> ->]|[[-> ->]|[-> ->]]]; by vm_compute.
  + destruct Hrest as (rest & -> & _). split; [|lia]. intros _.
    rewrite replaceChar_app. unfold Figma.manageable.
    destruct Hx as [[-> ->]|[[-> ->]|[-> ->]]].
    * assert (Figma.getTierFromCSSName
                ("--" +:+ JS.replaceChar "." "-" "primitive"
                 +:+ JS.replaceChar "." "-" (String "." rest))
              = Some Figma.primitive) as ->; [|done].
      reflexivity.
    * assert (Figma.getTierFromCSSName
                ("--" +:+ JS.replaceChar "." "-" "semantic"
                 +:+ JS.replaceChar "." "-" (String "." rest))
              = Some Figma.semantic) as ->; [|done].
      reflexivity.
    * assert (Figma.getTierFromCSSName
                ("--" +:+ JS.replaceChar "." "-" "component"
                 +:+ JS.replaceChar "." "-" (String "." rest))
              = Some Figma.component) as ->; [|done].
      reflexivity.
Qed.

End Conversion.

(** X17. The stylesheet name of an export name starts with two dashes, is
    two characters longer and has no dot.  When the first segment of the
    export name is a tier, the stylesheet name has the prefix of that tier,
    and so is a name the diff manages, exactly when the export name has a
    second segment; the bare tier name alone gets a stylesheet name of no
    tier.  Two export names without a hyphen get different stylesheet
    names. *)
Theorem export_names_keep_their_tier (n : string) :
  let css := Figma.figmaNameToCSSVar n in
  JS.startsWith css "--" = true
  ∧ String.length css = String.length n + 2
  ∧ JS.countChar "." css = 0
  ∧ (forall t, Figma.getTierFromFigmaName n = Some t ->
       (2 <= Text.segments n ->
        Figma.getTierFromCSSName css = Some t ∧ Figma.manageable css = true)
       ∧ (Text.segments n < 2 ->
          Figma.getTierFromCSSName css = None ∧ Figma.manageable css = false))
  ∧ (forall n', JS.countChar "-" n = 0 -> JS.countChar "-" n' = 0 ->
       Figma.figmaNameToCSSVar n = Figma.figmaNameToCSSVar n' -> n = n').
Proof.
  cbn zeta.
  split; [apply startsWith_app|].
  unfold Figma.figmaNameToCSSVar at 1 2.
  split; [rewrite string_app_length, replaceChar_length; cbn; lia|].
  split.
  { rewrite !string_app_cons, string_app_nil_l. cbn [JS.countChar Ascii.eqb Bool.eqb].
    by rewrite replaceChar_none. }
  split.
  - intros t Ht. by apply css_tier_of_export_name.
  - intros n' Hn Hn' E. apply (replaceChar_inj "." "-"); try done.
    by apply (inj (String.append "--")) in E.
Qed.

(** X18. A value of the export is a reference exactly when it is an opening
    brace, a non-empty text without line break, and a closing brace; its
    stylesheet value is then [var(...)] of the stylesheet name of that text,
    and any other value is kept as it is.  When the text is a dotted name,
    the references that the validator reads in the stylesheet value are that
    one name. *)
Theorem export_reference_conversion (v : string) :
  (forall ref, Figma.extractFigmaRef v = Some ref
     <-> exists m, v = "{" +:+ m +:+ "}" ∧ m ≠ EmptyString
                   ∧ Text.oneLine m = true ∧ ref = Figma.figmaNameToCSSVar m)
  ∧ (forall ref, Figma.extractFigmaRef v = Some ref ->
       Figma.figmaValueToCSS v = "var(" +:+ ref +:+ ")")
  ∧ (Figma.extractFigmaRef v = None -> Figma.figmaValueToCSS v = v)
  ∧ (forall m, v = "{" +:+ m +:+ "}" -> m ≠ EmptyString ->
       Text.dottedName m = true ->
       Figma.extractFigmaRef v = Some (Figma.figmaNameToCSSVar m)
       ∧ Validator.extractVarRefs (Figma.figmaValueToCSS v)
         = [Figma.figmaNameToCSSVar m]).
Proof.
  unfold Figma.extractFigmaRef, Figma.figmaValueToCSS.
  split; [|split; [|split]].
  - intros ref. destruct (JS.matchBraced v) as [m|] eqn:Hm.
    + apply matchBraced_spec in Hm as (E & Hne & Hl). split.
      * intros [= <-]. by exists m.
      * intros (m' & E' & _ & _ & ->). rewrite E in E'.
        rewrite !string_app_cons, !string_app_nil_l in E'. injection E' as E'.
        do 2 f_equal. revert E'. clear. revert m'.
        induction m as [|x m IHm]; intros [|y m'].
        -- done.
        -- rewrite string_app_nil_l, string_app_cons. intros [= -> E].
           destruct m'; discriminate.
        -- rewrite string_app_nil_l, string_app_cons. intros [= -> E].
           destruct m; discriminate.
        -- rewrite !string_app_cons. intros [= -> E]. by rewrite (IHm m' E).
    + split; [discriminate|]. intros (m' & E' & Hne & Hl & _).
      assert (JS.matchBraced v = Some m') as Habs by by apply matchBraced_spec.
      congruence.
  - intros ref. destruct (JS.matchBraced v); [by intros [= <-] | discriminate].
  - by destruct (JS.matchBraced v).
  - intros m E Hne Hd.
    assert (Hl : Text.oneLine m = true).
    { unfold Text.oneLine. eapply every_impl; [|exact Hd]. apply dotted_is_one_line. }
    assert (Hm : JS.matchBraced v = Some m) by by apply matchBraced_spec.
    rewrite Hm. split; [done|]. unfold Figma.figmaNameToCSSVar.
    apply varRefs_of_var.
    + destruct m; [done | discriminate].
    + by apply dotted_becomes_name.
Qed.

(** ** Batches *)

Section ExportFacts.
Import Figma ExportView.

Lemma parseEntry_inr (idx : nat) (e : rawEntry) (t : figmaToken) :
  parseEntry idx e = inr t <-> tokenOf e t.
Proof.
  unfold parseEntry, tokenOf. split.
  - destruct (rawName e) as [name|]; [|discriminate].
    destruct (String.eqb_spec (JS.trim name) ""); [discriminate|].
    destruct (rawValue e) as [val|]; [|discriminate].
    intros [= <-]. by exists name, val.
  - intros (name & val & -> & Hne & -> & H1 & H2 & H3 & H4 & H5).
    destruct (String.eqb_spec (JS.trim name) ""); [done|].
    destruct t; cbn in *; by subst.
Qed.

Lemma parseEntry_inl (idx : nat) (e : rawEntry) (err : parseError) :
  parseEntry idx e = inl err
  <-> match rawName e with
      | Some name =>
          if String.eqb (JS.trim name) "" then err = ErrName idx
          else rawValue e = None ∧ err = ErrValue name
      | None => err = ErrName idx
      end.
Proof.
  unfold parseEntry. destruct (rawName e) as [name|]; [|split; congruence].
  destruct (String.eqb (JS.trim name) ""); [split; congruence|].
  destruct (rawValue e); [split; [discriminate | by intros [? _]]|].
  split; [by intros [= <-] | intros [_ ->]; done].
Qed.

Lemma parseEntries_inr (entries : list rawEntry) :
  forall idx ts, parseEntries idx entries = inr ts <-> Forall2 tokenOf entries ts.
Proof.
  induction entries as [|e rest IH]; intros idx ts; cbn [parseEntries].
  - split; [intros [= <-]; constructor | by intros ->%Forall2_nil_inv_l].
  - destruct (parseEntry idx e) as [err|t] eqn:He.
    + split; [discriminate|]. intros (t & ts' & Ht & _ & _)%Forall2_cons_inv_l.
      apply (parseEntry_inr idx) in Ht. congruence.
    + apply parseEntry_inr in He.
      destruct (parseEntries (S idx) rest) as [err|ts'] eqn:Hr.
      * split; [discriminate|].
        intros (t' & ts' & _ & Hts & _)%Forall2_cons_inv_l.
        apply (IH (S idx)) in Hts. congruence.
      * apply IH in Hr. split.
        -- intros [= <-]. by constructor.
        -- intros (t' & ts'' & Ht' & Hts & ->)%Forall2_cons_inv_l.
           apply (parseEntry_inr idx) in Ht', He. apply (IH (S idx)) in Hts, Hr.
           congruence.
Qed.

Lemma parseEntries_inl (entries : list rawEntry) :
  forall idx err,
    parseEntries idx entries = inl err
    <-> exists i e,
          entries !! i = Some e ∧ parseEntry (idx + i) e = inl err
          ∧ forall j e', j < i -> entries !! j = Some e' ->
              exists t, parseEntry (idx + j) e' = inr t.
Proof.
  induction entries as [|e rest IH]; intros idx err; cbn [parseEntries].
  - split; [discriminate | by intros (i & e & [=] & _)].
  - destruct (parseEntry idx e) as [err0|t] eqn:He.
    + split.
      * intros [= <-]. exists 0, e. rewrite Nat.add_0_r.
        split; [done|]. split; [done|]. intros j e' Hj. lia.
      * intros ([|i] & e' & Hi & Herr & Hbefore).
        -- cbn in Hi. injection Hi as <-. rewrite Nat.add_0_r in Herr. congruence.
        -- destruct (Hbefore 0 e) as [t Ht]; [lia | done |].
           rewrite Nat.add_0_r in Ht. congruence.
    + destruct (parseEntries (S idx) rest) as [err1|ts] eqn:Hr.
      * apply IH in Hr as (i & e' & Hi & Herr & Hbefore). split.
        -- intros [= <-]. exists (S i), e'. split; [done|].
           split; [by rewrite Nat.add_succ_r|].
           intros [|j] e'' Hj Hj'.
           ++ cbn in Hj'. injection Hj' as <-. rewrite Nat.add_0_r. by exists t.
           ++ rewrite Nat.add_succ_r. apply (Hbefore j e''); [lia | done].
        -- intros ([|i'] & e2 & Hi' & Herr' & Hbefore').
           ++ cbn in Hi'. injection Hi' as <-. rewrite Nat.add_0_r in Herr'.
              congruence.
           ++ change (rest !! i' = Some e2) in Hi'. rewrite Nat.add_succ_r in Herr'.
              destruct (Nat.lt_trichotomy i i') as [Hlt|[->|Hgt]].
              ** destruct (Hbefore' (S i) e') as [t' Ht']; [lia | done |].
                 rewrite Nat.add_succ_r in Ht'. cbn in Herr. congruence.
              ** cbn in Herr. rewrite Hi in Hi'. injection Hi' as <-.
                 rewrite Herr in Herr'. by injection Herr' as ->.
              ** destruct (Hbefore i' e2) as [t' Ht']; [lia | done |].
                 cbn in Ht'. congruence.
      * split; [discriminate|].
        intros ([|i] & e' & Hi & Herr & Hbefore).
        -- cbn in Hi. injection Hi as <-. rewrite Nat.add_0_r in Herr. congruence.
        -- cbn in Hi. rewrite Nat.add_succ_r in Herr.
           assert (Habs : parseEntries (S idx) rest = inl err); [|congruence].
           apply IH. exists i, e'. split; [done|]. split; [done|].
           intros j e'' Hj Hj'. destruct (Hbefore (S j) e'') as [t' Ht']; [lia | done |].
           rewrite Nat.add_succ_r in Ht'. by exists t'.
Qed.

End ExportFacts.

(** X19. An export parses exactly when it holds a [tokens] array whose
    entries all have a non-blank name and a value; the tokens are then one
    per entry, in the order of the entries, each with the name and value of
    its entry and with the stylesheet name, stylesheet value and tier
    computed from them.  Otherwise the error is that of the first entry
    which lacks its name or its value, with the index of that entry. *)
Theorem export_parses_entry_by_entry (entries : list Figma.rawEntry) :
  (forall ts, Figma.parseFigmaExport (Figma.TokensArray entries) = inr ts
     <-> Forall2 ExportView.tokenOf entries ts)
  ∧ (forall err, Figma.parseFigmaExport (Figma.TokensArray entries) = inl err
       <-> exists i e,
             entries !! i = Some e ∧ Figma.parseEntry i e = inl err
             ∧ forall j e', j < i -> entries !! j = Some e' ->
                 exists t, Figma.parseEntry j e' = inr t)
  ∧ (forall ts, Figma.parseFigmaExport (Figma.TokensArray entries) = inr ts ->
       length ts = length entries
       ∧ map Figma.figmaName ts = omap Figma.rawName entries
       ∧ map Figma.figmaValue ts = omap Figma.rawValue entries).
Proof.
  cbn [Figma.parseFigmaExport]. split; [|split].
  - intros ts. apply parseEntries_inr.
  - intros err. apply (parseEntries_inl entries 0 err).
  - intros ts Hts%parseEntries_inr.
    induction Hts as [|e t entries ts (name & val & Hn & _ & Hv & <- & <- & _) _ IH];
      [done|].
    destruct IH as (IH1 & IH2 & IH3). cbn. rewrite Hn, Hv. cbn.
    by rewrite IH1, IH2, IH3.
Qed.

Section ExportTiers.
Import Figma ExportView.

Lemma validateToken_nil (t : figmaToken) : validateToken t = [] <-> respects t.
Proof.
  unfold validateToken, respects. destruct (tier t) as [tokenTier|].
  2:{ split; [discriminate | by intros (? & [=] & _)]. }
  destruct (extractFigmaRef (figmaValue t)) as [ref|].
  2:{ split; [|done]. intros _. exists tokenTier. split; [done | discriminate]. }
  destruct (getTierFromCSSName ref) as [refTier|] eqn:Hrt.
  2:{ split; [discriminate|]. intros (tt & [= <-] & H).
      destruct (H ref eq_refl) as (? & Hx & _). congruence. }
  split.
  - intros H. exists tokenTier. split; [done|]. intros ? [= <-]. exists refTier.
    split; [done|]. by destruct tokenTier, refTier.
  - intros (tt & [= <-] & H). destruct (H ref eq_refl) as (rt & Hrt' & Hal).
    rewrite Hrt in Hrt'. injection Hrt' as <-.
    by destruct tokenTier, refTier.
Qed.

Lemma validateFigmaTiers_nil (ts : list figmaToken) :
  validateFigmaTiers ts = [] <-> forall t, t ∈ ts -> respects t.
Proof.
  unfold validateFigmaTiers. induction ts as [|t ts IH]; cbn [flat_map].
  - split; [by intros _ t Ht%elem_of_nil | done].
  - rewrite app_nil, IH, validateToken_nil. split.
    + intros [Ht Hts] t' [->|Hin]%elem_of_cons; auto.
    + intros H. split; [apply H; left | intros t' Hin; apply H; by right].
Qed.

(** The validator and the export rule read the same tier in a name. *)
Lemma validator_tier_of_name (name : string) :
  Validator.getTier name = validatorTier (getTierFromCSSName name).
Proof.
  unfold Validator.getTier, getTierFromCSSName.
  repeat (destruct (JS.startsWith name _); [reflexivity|]). reflexivity.
Qed.

Lemma buildFigmaGraph_get (ts : list figmaToken) (k : string) :
  JSMap.get (buildFigmaGraph ts) k = batchDeps ts k.
Proof.
  unfold buildFigmaGraph.
  assert (H : forall g0 : JSMap.t (list string),
            JSMap.get (fold_left (fun g t =>
                JSMap.set g (cssName t)
                  (match extractFigmaRef (figmaValue t) with
                   | Some ref => [ref]
                   | None => []
                   end)) ts g0) k
            = match batchDeps ts k with
              | Some d => Some d
              | None => JSMap.get g0 k
              end).
  { induction ts as [|t r IH]; intros g0; cbn [fold_left batchDeps]; [done|].
    rewrite IH. destruct (batchDeps r k); [done|].
    rewrite jsmap_get_set. by destruct (String.eqb (cssName t) k). }
  rewrite H. by destruct (batchDeps ts k).
Qed.

End ExportTiers.

(** X20. The tier validation of a batch reports nothing exactly when every
    token has a tier and every token whose value is a reference refers to a
    name with a tier prefix that its own tier may use: a primitive from a
    semantic token, a semantic token from a component, and nothing else. *)
Theorem export_tier_rule (ts : list Figma.figmaToken) :
  Figma.validateFigmaTiers ts = []
  <-> forall t, t ∈ ts ->
        exists tokenTier,
          Figma.tier t = Some tokenTier
          ∧ forall ref, Figma.extractFigmaRef (Figma.figmaValue t) = Some ref ->
              exists refTier,
                Figma.getTierFromCSSName ref = Some refTier
                ∧ ExportView.allowed tokenTier refTier = true.
Proof. apply validateFigmaTiers_nil. Qed.

(** X21. The tier rule of exports is within the tier rule of the validator:
    in a parsed batch that the tier validation accepts, the reference of
    every token whose value is a reference is one that the validator's table
    allows between the stylesheet names, and when that value names a dotted
    name it is the one reference the validator reads in the stylesheet
    value. *)
Theorem accepted_batch_respects_the_validator_table (data : Figma.export)
    (ts : list Figma.figmaToken) :
  Figma.parseFigmaExport data = inr ts ->
  Figma.validateFigmaTiers ts = [] ->
  forall t ref, t ∈ ts ->
    Figma.extractFigmaRef (Figma.figmaValue t) = Some ref ->
    TierTable.allowed (Validator.getTier (Figma.cssName t)) (Validator.getTier ref)
    = true
    ∧ (forall m, Figma.figmaValue t = "{" +:+ m +:+ "}" ->
         Text.dottedName m = true ->
         Validator.extractVarRefs (Figma.cssValue t) = [ref]).
Proof.
  intros Hparse Hval t ref Ht Href.
  destruct (proj1 (validateFigmaTiers_nil ts) Hval t Ht) as (tokenTier & Htier & Hrefs).
  destruct (Hrefs ref Href) as (refTier & Hrt & Hal).
  assert (Htok : exists e, ExportView.tokenOf e t).
  { destruct data as [| |entries]; try discriminate.
    apply (parseEntries_inr entries 0 ts) in Hparse.
    apply list_elem_of_lookup in Ht as [i Hi].
    destruct (Forall2_lookup_r _ _ _ _ _ Hparse Hi) as (e & _ & He). by exists e. }
  destruct Htok as (e & name & val & _ & _ & _ & Hname & Hvalue & Hcss & Hcssv & Ht').
  split.
  - rewrite !validator_tier_of_name, Hrt, Hcss.
    rewrite Htier in Ht'. symmetry in Ht'.
    destruct (css_tier_of_export_name name tokenTier Ht') as [Hmany Hone].
    destruct (Nat.le_gt_cases 2 (Text.segments name)) as [H2|H1].
    + destruct (Hmany H2) as [-> _]. by destruct tokenTier, refTier.
    + destruct (Hone H1) as [-> _]. reflexivity.
  - intros m Hm Hd. rewrite Hcssv, <- Hvalue.
    assert (Hne : m ≠ EmptyString).
    { intros ->. rewrite Hm in Href. vm_compute in Href. discriminate. }
    unfold Figma.extractFigmaRef, Figma.figmaValueToCSS in *.
    assert (Hl : Text.oneLine m = true).
    { unfold Text.oneLine. eapply every_impl; [|exact Hd]. apply dotted_is_one_line. }
    assert (Hb : JS.matchBraced (Figma.figmaValue t) = Some m)
      by by apply matchBraced_spec.
    rewrite Hb in Href |- *. injection Href as <-.
    unfold Figma.figmaNameToCSSVar. apply varRefs_of_var.
    + destruct m; [done | discriminate].
    + by apply dotted_becomes_name.
Qed.

Lemma accepted_batch_respects_the_validator_table_witness :
  TierTable.allowed (Validator.getTier "--semantic-b")
    (Validator.getTier "--primitive-a") = true
  ∧ (forall m, "{primitive.a}" = "{" +:+ m +:+ "}" ->
       Text.dottedName m = true ->
       Validator.extractVarRefs "var(--primitive-a)" = ["--primitive-a"]).
Proof.
  refine (accepted_batch_respects_the_validator_table Samples.exportChain
            [{| Figma.cssName := "--primitive-a"; Figma.cssValue := "1";
                Figma.figmaName := "primitive.a"; Figma.figmaValue := "1";
                Figma.tier := Some Figma.primitive |};
             {| Figma.cssName := "--semantic-b";
                Figma.cssValue := "var(--primitive-a)";
                Figma.figmaName := "semantic.b";
                Figma.figmaValue := "{primitive.a}";
                Figma.tier := Some Figma.semantic |};
             {| Figma.cssName := "--component-c";
                Figma.cssValue := "var(--semantic-b)";
                Figma.figmaName := "component.c";
                Figma.figmaValue := "{semantic.b}";
                Figma.tier := Some Figma.component |}]
            _ _
            {| Figma.cssName := "--semantic-b";
               Figma.cssValue := "var(--primitive-a)";
               Figma.figmaName := "semantic.b";
               Figma.figmaValue := "{primitive.a}";
               Figma.tier := Some Figma.semantic |}
            "--primitive-a" _ _).
  - vm_compute. reflexivity.
  - vm_compute. reflexivity.
  - apply list_elem_of_further, list_elem_of_here.
  - vm_compute. reflexivity.
Defined.

(** X22. With a stylesheet and an export file at hand, the dry run exits
    with 0 exactly when the export parses, its tier validation reports
    nothing and no stylesheet name of the batch reaches itself through the
    references of the batch; it then prints the diff of the stylesheet
    against the batch, and in every other case it exits with 1 and prints no
    diff.  The references a name has in that graph are those of the last
    token of the batch with this name. *)
Theorem dry_run_passes_exactly_when (cssText : string) (data : Figma.export) :
  let o := DryRun.main (Some cssText) (Some data) in
  (DryRun.exitCode o = 0%Z ∨ DryRun.exitCode o = 1%Z)
  ∧ (DryRun.exitCode o = 0%Z
     <-> exists ts,
           Figma.parseFigmaExport data = inr ts
           ∧ Figma.validateFigmaTiers ts = []
           ∧ Cycles.acyclic (Figma.buildFigmaGraph ts))
  ∧ (forall ts, Figma.parseFigmaExport data = inr ts ->
       (forall k, JSMap.get (Figma.buildFigmaGraph ts) k = ExportView.batchDeps ts k)
       ∧ exists r,
           DryRun.printed o = Some r
           ∧ (DryRun.noCycles r = true <-> Cycles.acyclic (Figma.buildFigmaGraph ts))
           ∧ DryRun.diffResult r
             = if DryRun.exitCode o =? 0
               then Some (Figma.diffTokens (Figma.parseCSSTokens cssText) ts)
               else None)%Z
  ∧ (forall err, Figma.parseFigmaExport data = inl err ->
       DryRun.exitCode o = 1%Z ∧ DryRun.printed o = None).
Proof.
  cbn zeta. unfold DryRun.main.
  destruct (Figma.parseFigmaExport data) as [err|ts].
  { cbn. split; [by right|]. split; [split; [discriminate | by intros (? & [=] & _)]|].
    split; [discriminate | done]. }
  assert (Hcyc : Figma.findCycles (Figma.buildFigmaGraph ts) = []
                 <-> Cycles.acyclic (Figma.buildFigmaGraph ts)).
  { split; [apply sync_misses_no_cycle|].
    intros Hac. apply (no_cycle_no_report _ _ Hac), sync_reports_cycles. }
  assert (Hlen : Nat.eqb (length (Figma.findCycles (Figma.buildFigmaGraph ts))) 0 = true
                 <-> Figma.findCycles (Figma.buildFigmaGraph ts) = []).
  { destruct (Figma.findCycles _); cbn; split; congruence. }
  destruct (0 <? length _) eqn:Harch; cbn.
  - apply Nat.ltb_lt in Harch. rewrite length_app, length_map in Harch.
    split; [by right|]. split.
    + split; [discriminate|]. intros (ts' & [= <-] & Hval & Hac).
      apply Hcyc in Hac. rewrite Hval, Hac in Harch. cbn in Harch. lia.
    + split; [|discriminate]. intros ? [= <-].
      split; [apply buildFigmaGraph_get|]. eexists. split; [reflexivity|].
      cbn. split; [|reflexivity]. by rewrite Hlen, Hcyc.
  - apply Nat.ltb_ge in Harch. rewrite length_app, length_map in Harch.
    assert (Hval : Figma.validateFigmaTiers ts = []).
    { destruct (Figma.validateFigmaTiers ts); [done | cbn in Harch; lia]. }
    assert (Hnone : Figma.findCycles (Figma.buildFigmaGraph ts) = []).
    { destruct (Figma.findCycles _); [done | cbn in Harch; lia]. }
    split; [by left|]. split.
    + split; [|done]. intros _. exists ts. split; [done|]. split; [done|].
      by apply Hcyc.
    + split; [|discriminate]. intros ? [= <-].
      split; [apply buildFigmaGraph_get|]. eexists. split; [reflexivity|].
      cbn. split; [|reflexivity]. by rewrite Hlen, Hcyc.
Qed.

(** ** The references of a value *)

Section References.

Lemma trimStart_spec (s : string) :
  exists ws, s = ws +:+ JS.trimStart s ∧ Text.every JS.isWhiteSpace ws = true
             ∧ Text.stopsAt JS.isWhiteSpace (JS.trimStart s).
Proof.
  induction s as [|c s (ws & E & Hws & Hstop)].
  - by exists EmptyString.
  - cbn [JS.trimStart]. destruct (JS.isWhiteSpace c) eqn:Hc.
    + exists (String c ws). rewrite string_app_cons, <- E. cbn. by rewrite Hc, Hws.
    + by exists EmptyString.
Qed.

Lemma spanName_spec (s : string) :
  forall n rest, JS.spanName s = (n, rest) ->
    s = n +:+ rest ∧ Text.every JS.isNameChar n = true
    ∧ Text.stopsAt JS.isNameChar rest.
Proof.
  induction s as [|c s IH]; intros n rest; cbn [JS.spanName].
  - by intros [= <- <-].
  - destruct (JS.isNameChar c) eqn:Hc.
    + destruct (JS.spanName s) as [n' rest'] eqn:E. intros [= <- <-].
      destruct (IH n' rest' eq_refl) as (-> & Hn & Hstop).
      rewrite string_app_cons. cbn. by rewrite Hc, Hn.
    + by intros [= <- <-].
Qed.

Lemma matchCustomProp_spec (s n rest : string) :
  JS.matchCustomProp s = Some (n, rest) ->
  exists m, n = "--" +:+ m ∧ s = n +:+ rest ∧ m ≠ EmptyString
            ∧ Text.every JS.isNameChar m = true
            ∧ Text.stopsAt JS.isNameChar rest.
Proof.
  unfold JS.matchCustomProp.
  destruct s as [|a s]; [discriminate|].
  destruct (Ascii.eqb_spec a "-") as [->|Ha].
  2:{ destruct a as [[] [] [] [] [] [] [] []]; try discriminate. done. }
  destruct s as [|b s]; [discriminate|].
  destruct (Ascii.eqb_spec b "-") as [->|Hb].
  2:{ destruct b as [[] [] [] [] [] [] [] []]; try discriminate. done. }
  destruct (JS.spanName s) as [m rest'] eqn:E.
  destruct (spanName_spec s m rest' E) as (-> & Hm & Hstop).
  destruct m as [|c m]; [discriminate|]. intros [= <- <-].
  exists (String c m). repeat split; done.
Qed.

Lemma matchVarAt_spec (s n : string) (len : nat) :
  JS.matchVarAt s = Some (n, len) ->
  exists ws m post,
    s = "var(" +:+ ws +:+ n +:+ post
    ∧ Text.every JS.isWhiteSpace ws = true
    ∧ n = "--" +:+ m ∧ m ≠ EmptyString ∧ Text.every JS.isNameChar m = true
    ∧ Text.stopsAt JS.isNameChar post.
Proof.
  unfold JS.matchVarAt.
  destruct (JS.stripPrefix "var(" s) as [r|] eqn:Hp; [|discriminate].
  apply stripPrefix_Some in Hp as ->.
  destruct (JS.matchCustomProp (JS.skipWs r)) as [[n' rest]|] eqn:Hc; [|discriminate].
  intros [= <- <-].
  destruct (matchCustomProp_spec _ _ _ Hc) as (m & Hn & Hs & Hm & Hname & Hstop).
  destruct (trimStart_spec r) as (ws & Hr & Hws & _).
  exists ws, m, rest. unfold JS.skipWs in Hs. rewrite Hs in Hr.
  by rewrite <- Hr.
Qed.

Lemma varRefsFrom_sound (s : string) :
  forall skip ref, ref ∈ JS.varRefsFrom skip s ->
    exists pre suf len, s = pre +:+ suf ∧ JS.matchVarAt suf = Some (ref, len).
Proof.
  induction s as [|c s IH]; intros skip ref; cbn [JS.varRefsFrom].
  - by intros ?%elem_of_nil.
  - assert (Hrest : forall k, ref ∈ JS.varRefsFrom k s ->
              exists pre suf len,
                String c s = pre +:+ suf ∧ JS.matchVarAt suf = Some (ref, len)).
    { intros k Hk. destruct (IH k ref Hk) as (pre & suf & len & -> & Hm).
      exists (String c pre), suf, len. by rewrite string_app_cons. }
    destruct skip as [|k]; [|by apply Hrest].
    destruct (JS.matchVarAt (String c s)) as [[n len]|] eqn:Hm; [|by apply Hrest].
    intros [->|Hin]%elem_of_cons; [|by eapply Hrest].
    exists EmptyString, (String c s), len. by rewrite string_app_nil_l.
Qed.

(** A name is a custom property name: two dashes and name characters. *)
Lemma declared_name_shape (s n v : string) :
  JS.matchDeclaration s = Some (n, v) ->
  exists m, n = "--" +:+ m ∧ m ≠ EmptyString ∧ Text.every JS.isNameChar m = true.
Proof.
  unfold JS.matchDeclaration.
  destruct (JS.matchCustomProp s) as [[n' rest]|] eqn:Hc; [|discriminate].
  destruct (matchCustomProp_spec _ _ _ Hc) as (m & Hn & _ & Hm & Hname & _).
  destruct (JS.skipWs rest) as [|a r]; [discriminate|].
  destruct (Ascii.eqb_spec a ":") as [->|Ha].
  2:{ destruct a as [[] [] [] [] [] [] [] []]; try discriminate. done. }
  destruct (JS.matchAfterColon r); [|discriminate].
  intros [= <- <-]. by exists m.
Qed.

End References.

(** X23. Every reference that the validator reads in a value stands in that
    value after [var(] and optional white space, is two dashes followed by at
    least one letter, digit, underscore or hyphen, and ends where those
    characters end; so does every reference recorded for a definition of a
    stylesheet.  Every name that either parser records for a stylesheet is
    two dashes followed by at least one such character. *)
Theorem names_and_references_are_custom_properties :
  (forall v ref, ref ∈ Validator.extractVarRefs v -> Text.occursAsVar v ref)
  ∧ (forall css name d ref,
       JSMap.get (Validator.tokenDefs (Validator.parseCSS css)) name = Some d ->
       ref ∈ Validator.refs d -> Text.occursAsVar (Validator.value d) ref)
  ∧ (forall css name,
       JSMap.has (Validator.tokenDefs (Validator.parseCSS css)) name = true
       ∨ JSMap.has (Figma.parseCSSTokens css) name = true ->
       exists m, name = "--" +:+ m ∧ m ≠ EmptyString
                 ∧ Text.every JS.isNameChar m = true).
Proof.
  assert (Hsound : forall v ref,
            ref ∈ Validator.extractVarRefs v -> Text.occursAsVar v ref).
  { intros v ref Hin. unfold Validator.extractVarRefs in Hin.
    destruct (varRefsFrom_sound v 0 ref Hin) as (pre & suf & len & -> & Hm).
    destruct (matchVarAt_spec _ _ _ Hm)
      as (ws & m & post & -> & Hws & Hn & Hne & Hname & Hstop).
    by exists pre, ws, m, post. }
  split; [apply Hsound|]. split.
  - intros css name d ref Hget Hin.
    destruct (invariant_parseCSS css) as (_ & Hdefs & _).
    apply jsmap_get_Some_elem in Hget.
    destruct (Hdefs name d Hget) as [Hrefs _]. rewrite Hrefs in Hin. by apply Hsound.
  - intros css name. set (lines := JS.splitChar "010" css).
    intros [Hv|Hs].
    + apply jsmap_has_true, jsmap_get_of_key in Hv as [d Hd].
      destruct (validator_keeps_first lines (length lines) (Nat.le_refl _) name)
        as [Hsome _].
      unfold Scope.validatorAfter in Hsome. rewrite firstn_all in Hsome.
      destruct (Hsome d Hd) as (i & _ & (line & _ & _ & Hm) & _).
      by apply declared_name_shape in Hm.
    + apply jsmap_has_true, jsmap_get_of_key in Hs as [d Hd].
      destruct (sync_keeps_last lines (length lines) (Nat.le_refl _) name)
        as [Hsome _].
      unfold Scope.syncAfter in Hsome. rewrite firstn_all in Hsome.
      destruct (Hsome d Hd) as (i & _ & (line & _ & _ & Hm) & _).
      by apply declared_name_shape in Hm.
Qed.

(** ** The generated theme, read back *)

Section TextFacts.

Lemma countChar_app (x : ascii) (a b : string) :
  JS.countChar x (a +:+ b) = JS.countChar x a + JS.countChar x b.
Proof.
  induction a as [|c a IH]; [done|]. rewrite string_app_cons. cbn.
  rewrite IH. lia.
Qed.

Lemma every_no_char (p : ascii -> bool) (x : ascii) (s : string) :
  p x = false -> Text.every p s = true -> JS.countChar x s = 0.
Proof.
  intros Hx. induction s as [|c s IH]; cbn; [done|].
  intros [Hc Hs]%andb_prop. rewrite (IH Hs).
  destruct (Ascii.eqb_spec c x) as [->|_]; [congruence | done].
Qed.

Lemma splitChar_app (sep : ascii) (a b : string) :
  JS.splitChar sep (a +:+ String sep b) = JS.splitChar sep a ++ JS.splitChar sep b.
Proof.
  induction a as [|c a IH].
  - rewrite string_app_nil_l. cbn. by rewrite Ascii.eqb_refl.
  - rewrite string_app_cons. cbn. destruct (Ascii.eqb c sep); [by rewrite IH|].
    rewrite IH. destruct (splitChar_cons sep a) as (y & ys & ->). done.
Qed.

Lemma splitChar_none (sep : ascii) (s : string) :
  JS.countChar sep s = 0 -> JS.splitChar sep s = [s].
Proof.
  induction s as [|c s IH]; cbn; [done|].
  destruct (Ascii.eqb c sep); [discriminate|]. intros H. by rewrite (IH H).
Qed.

Lemma splitChar_pieces (sep x : ascii) (s : string) :
  JS.countChar x s = 0 ->
  Forall (fun l => JS.countChar x l = 0) (JS.splitChar sep s).
Proof.
  induction s as [|c s IH]; cbn.
  - intros _. by repeat constructor.
  - intros H. assert (Hc : Ascii.eqb c x = false) by (destruct (Ascii.eqb c x); [discriminate | done]).
    rewrite Hc in H. specialize (IH H).
    destruct (Ascii.eqb c sep); [by constructor|].
    destruct (JS.splitChar sep s) as [|y ys].
    + repeat constructor. cbn. by rewrite Hc.
    + apply Forall_cons in IH as [Hy Hys]. constructor; [|done]. cbn. by rewrite Hc, Hy.
Qed.

Lemma trimStart_count (x : ascii) (s : string) :
  JS.countChar x s = 0 -> JS.countChar x (JS.trimStart s) = 0.
Proof.
  induction s as [|c s IH]; cbn; [done|]. intros H.
  destruct (JS.isWhiteSpace c); [|done]. apply IH. lia.
Qed.

Lemma trimEnd_count (x : ascii) (s : string) :
  JS.countChar x s = 0 -> JS.countChar x (JS.trimEnd s) = 0.
Proof.
  induction s as [|c s IH]; cbn; [done|]. intros H.
  assert (Hs : JS.countChar x s = 0) by lia. specialize (IH Hs).
  destruct (JS.trimEnd s) as [|c' r].
  - destruct (JS.isWhiteSpace c); cbn; [done | lia].
  - cbn in *. lia.
Qed.

Lemma trimEnd_snoc (a : string) (c : ascii) :
  JS.isWhiteSpace c = false ->
  JS.trimEnd (a +:+ String c EmptyString) = a +:+ String c EmptyString.
Proof.
  intros Hc. induction a as [|x a IH].
  - rewrite string_app_nil_l. cbn. by rewrite Hc.
  - rewrite string_app_cons. cbn [JS.trimEnd]. rewrite IH.
    destruct a; reflexivity.
Qed.

Lemma trimEnd_head (c : ascii) (r : string) :
  JS.isWhiteSpace c = false -> exists r', JS.trimEnd (String c r) = String c r'.
Proof.
  intros Hc. cbn [JS.trimEnd]. destruct (JS.trimEnd r); [|by eauto].
  rewrite Hc. by eauto.
Qed.

Lemma trimStart_spaces (n : nat) (s : string) :
  JS.trimStart (Theme.spaces n +:+ s) = JS.trimStart s.
Proof. induction n as [|n IH]; [done|]. cbn [Theme.spaces]. by rewrite string_app_cons. Qed.

Lemma spaces_count (x : ascii) (n : nat) :
  x ≠ " "%char -> JS.countChar x (Theme.spaces n) = 0.
Proof.
  intros Hx. induction n as [|n IH]; cbn [Theme.spaces JS.countChar]; [done|].
  rewrite IH. destruct (Ascii.eqb_spec " " x); [congruence | done].
Qed.

Lemma matchRootOpen_has_brace (t : string) :
  JS.matchRootOpen t = true -> 0 < JS.countChar "{" t.
Proof.
  unfold JS.matchRootOpen.
  destruct (JS.stripPrefix ":root" t) as [r|] eqn:Hp; [|discriminate].
  apply stripPrefix_Some in Hp as ->.
  destruct (trimStart_spec r) as (ws & Hr & _ & _). unfold JS.skipWs.
  destruct (JS.trimStart r) as [|c r'] eqn:E; [discriminate|].
  destruct (Ascii.eqb_spec c "{") as [->|Hc].
  - intros _. rewrite countChar_app, Hr, countChar_app. cbn. lia.
  - destruct c as [[] [] [] [] [] [] [] []]; try discriminate. done.
Qed.

Lemma no_open_no_root (raw : string) :
  JS.countChar "{" raw = 0 -> JS.matchRootOpen (JS.trim raw) = false.
Proof.
  intros H. destruct (JS.matchRootOpen (JS.trim raw)) eqn:E; [|done].
  apply matchRootOpen_has_brace in E. unfold JS.trim in E.
  rewrite (trimEnd_count _ _ (trimStart_count _ _ H)) in E. lia.
Qed.

Lemma customProperty_spec (s : string) :
  Text.customProperty s = true ->
  exists m, s = "--" +:+ m ∧ m ≠ EmptyString ∧ Text.every JS.isNameChar m = true.
Proof.
  unfold Text.customProperty.
  destruct s as [|a s]; [discriminate|].
  destruct (Ascii.eqb_spec a "-") as [->|Ha].
  2:{ destruct a as [[] [] [] [] [] [] [] []]; try discriminate. done. }
  destruct s as [|b s]; [discriminate|].
  destruct (Ascii.eqb_spec b "-") as [->|Hb].
  2:{ destruct b as [[] [] [] [] [] [] [] []]; try discriminate. done. }
  destruct s as [|c r]; [discriminate|]. intros H. by exists (String c r).
Qed.

Lemma numberToString_digits (x : ascii) (n : nat) :
  JS.isWordChar x = false -> JS.countChar x (Theme.numberToString n) = 0.
Proof.
  intros Hx. unfold Theme.numberToString.
  induction (Nat.to_uint n) as [|d IH|d IH|d IH|d IH|d IH|d IH|d IH|d IH|d IH|d IH];
    cbn [DecimalString.NilEmpty.string_of_uint JS.countChar]; [done|..];
    rewrite IH;
    match goal with |- (if Ascii.eqb ?c x then _ else _) + _ = _ =>
      destruct (Ascii.eqb_spec c x) as [<-|_]; [vm_compute in Hx; discriminate | done]
    end.
Qed.

End TextFacts.

Section DeclarationFacts.

Lemma plainValue_spec (v : string) :
  Text.plainValue v = true ->
  Text.every Text.valueChar v = true
  ∧ (exists c r, v = String c r ∧ JS.isWhiteSpace c = false)
  ∧ (exists l, Text.lastChar v = Some l ∧ JS.isWhiteSpace l = false).
Proof.
  unfold Text.plainValue. intros [[H1 H2]%andb_prop H3]%andb_prop.
  split; [exact H1|]. split.
  - destruct v as [|c r]; [discriminate|]. exists c, r. split; [done|].
    by destruct (JS.isWhiteSpace c).
  - destruct (Text.lastChar v) as [l|]; [|discriminate]. exists l. split; [done|].
    by destruct (JS.isWhiteSpace l).
Qed.

Lemma valueChar_not (c : ascii) :
  Text.valueChar c = true ->
  JS.isLineTerminator c = false ∧ c ≠ ";"%char ∧ c ≠ "{"%char ∧ c ≠ "}"%char
  ∧ c ≠ JS.ch 10.
Proof.
  unfold Text.valueChar. intros [[[H1 H2]%andb_prop H3]%andb_prop H4]%andb_prop.
  apply negb_true_iff in H1, H2, H3, H4.
  repeat split; [done|..]; intros ->; try discriminate.
Qed.

Lemma trimStart_value (v t : string) (l : ascii) :
  Text.every Text.valueChar v = true -> Text.lastChar v = Some l ->
  JS.isWhiteSpace l = false ->
  exists x r, JS.trimStart (v +:+ t) = String x r ∧ x ≠ ";"%char.
Proof.
  induction v as [|d v IH]; [discriminate|].
  cbn [Text.every Text.lastChar]. intros [Hd Hv]%andb_prop Hlast Hl.
  rewrite string_app_cons. cbn [JS.trimStart].
  destruct (JS.isWhiteSpace d) eqn:Hws.
  - destruct (Text.lastChar v) as [l'|] eqn:E.
    + apply IH; [done | congruence | done].
    + injection Hlast as <-. congruence.
  - exists d, (v +:+ t). split; [done|]. by apply valueChar_not in Hd as (_ & ? & _).
Qed.

Lemma matchLazyValue_value (v rest : string) (l : ascii) :
  Text.every Text.valueChar v = true -> Text.lastChar v = Some l ->
  JS.isWhiteSpace l = false ->
  JS.matchLazyValue (v +:+ String ";" rest) = Some v.
Proof.
  induction v as [|c v IH]; [discriminate|].
  cbn [Text.every Text.lastChar]. intros [Hc Hv]%andb_prop Hlast Hl.
  rewrite string_app_cons. cbn [JS.matchLazyValue].
  destruct (valueChar_not c Hc) as (-> & _).
  destruct (Text.lastChar v) as [l'|] eqn:E.
  - injection Hlast as ->.
    destruct (trimStart_value v (String ";" rest) l Hv E Hl) as (x & r & Hx & Hne).
    assert (JS.matchEndDecl (v +:+ String ";" rest) = false) as ->.
    { unfold JS.matchEndDecl, JS.skipWs. rewrite Hx.
      destruct (Ascii.eqb_spec x ";") as [->|_]; [done|].
      destruct x as [[] [] [] [] [] [] [] []]; try reflexivity. done. }
    by rewrite (IH Hv eq_refl Hl).
  - destruct v; [|cbn in E; destruct (Text.lastChar v); discriminate].
    rewrite string_app_nil_l. reflexivity.
Qed.

Lemma matchAfterColon_padded (n : nat) (v rest : string) :
  Text.plainValue v = true ->
  JS.matchAfterColon (Theme.spaces n +:+ v +:+ String ";" rest) = Some v.
Proof.
  intros (Hv & (c & r & -> & Hc) & (l & Hlast & Hl))%plainValue_spec.
  induction n as [|n IH].
  - rewrite string_app_nil_l, string_app_cons. cbn [JS.matchAfterColon].
    rewrite Hc, <- string_app_cons. by apply (matchLazyValue_value _ _ l).
  - cbn [Theme.spaces]. rewrite string_app_cons. cbn [JS.matchAfterColon].
    change (JS.isWhiteSpace " ") with true. cbn iota. by rewrite IH.
Qed.

(** A declaration line of the theme is read as its name and value. *)
Lemma declaration_line (w : nat) (name value : string) :
  Text.customProperty name = true -> Text.plainValue value = true ->
  JS.matchDeclaration (JS.trim (Theme.declaration w (name, value)))
  = Some (name, value)
  ∧ JS.countChar "{" (Theme.declaration w (name, value)) = 0
  ∧ JS.countChar "}" (Theme.declaration w (name, value)) = 0
  ∧ JS.countChar (JS.ch 10) (Theme.declaration w (name, value)) = 0.
Proof.
  intros (m & -> & Hm & Hname)%customProperty_spec Hvalue.
  unfold Theme.declaration. cbn [fst snd].
  set (pad := Theme.spaces _).
  pose proof (plainValue_spec value Hvalue) as (Hv & _ & _).
  split.
  - assert (Htrim : JS.trim ("    " +:+ ("--" +:+ m) +:+ ":" +:+ pad +:+ value +:+ ";")
                    = ("--" +:+ m) +:+ ":" +:+ pad +:+ value +:+ ";").
    { unfold JS.trim.
      change ("    " +:+ ("--" +:+ m) +:+ ":" +:+ pad +:+ value +:+ ";")
        with (Theme.spaces 4 +:+ (("--" +:+ m) +:+ ":" +:+ pad +:+ value +:+ ";")).
      rewrite trimStart_spaces.
      change (JS.trimStart (("--" +:+ m) +:+ ":" +:+ pad +:+ value +:+ ";"))
        with (("--" +:+ m) +:+ ":" +:+ pad +:+ value +:+ ";").
      rewrite <- !string_app_assoc. by apply trimEnd_snoc. }
    rewrite Htrim. unfold JS.matchDeclaration, JS.matchCustomProp.
    change (("--" +:+ m) +:+ ":" +:+ pad +:+ value +:+ ";")
      with (String "-" (String "-" (m +:+ ":" +:+ pad +:+ value +:+ ";"))).
    cbv beta iota.
    rewrite (spanName_app m (":" +:+ pad +:+ value +:+ ";") Hname eq_refl).
    destruct m as [|c m']; [done|].
    change (JS.skipWs (":" +:+ pad +:+ value +:+ ";"))
      with (String ":" (pad +:+ value +:+ ";")).
    unfold pad. by rewrite matchAfterColon_padded.
  - assert (Hno : forall x, JS.isNameChar x = false -> Text.valueChar x = false ->
              x ≠ " "%char -> x ≠ ":"%char -> x ≠ ";"%char ->
              JS.countChar x ("    " +:+ ("--" +:+ m) +:+ ":" +:+ pad +:+ value +:+ ";")
              = 0).
    { intros x Hx1 Hx2 Hx3 Hx4 Hx5.
      rewrite !countChar_app. unfold pad. rewrite spaces_count by done.
      rewrite (every_no_char _ x m Hx1 Hname), (every_no_char _ x value Hx2 Hv).
      cbn [JS.countChar].
      destruct (Ascii.eqb_spec " " x); [congruence|].
      destruct (Ascii.eqb_spec ":" x); [congruence|].
      destruct (Ascii.eqb_spec ";" x); [congruence|].
      destruct (Ascii.eqb_spec "-" x) as [<-|_]; [discriminate | done]. }
    repeat split; apply Hno; done.
Qed.

End DeclarationFacts.

Section ThemeParse.
Import Figma.

Lemma sync_parseLines_app (a b : list string) :
  forall st i,
    parseLines st i (a ++ b) = parseLines (parseLines st i a) (i + length a) b.
Proof.
  induction a as [|x a IH]; intros st i; cbn [parseLines app length].
  - by rewrite Nat.add_0_r.
  - rewrite IH. by rewrite Nat.add_succ_r.
Qed.

(** Outside the root scope a line that does not open it leaves the tokens
    as they are. *)
Lemma outside_root_step (st : parseState) (i : nat) (line : string) :
  inRoot st = false -> JS.matchRootOpen (JS.trim line) = false ->
  tokens (parseLine st i line) = tokens st ∧ inRoot (parseLine st i line) = false.
Proof.
  intros Hout Hno. unfold parseLine. rewrite Hout, Hno. cbn. done.
Qed.

Lemma outside_root_lines (lines : list string) :
  forall st i,
    inRoot st = false ->
    Forall (fun l => JS.matchRootOpen (JS.trim l) = false) lines ->
    tokens (parseLines st i lines) = tokens st
    ∧ inRoot (parseLines st i lines) = false.
Proof.
  induction lines as [|l lines IH]; intros st i Hout Hall; cbn [parseLines]; [done|].
  apply Forall_cons in Hall as [Hl Hall].
  destruct (outside_root_step st i l Hout Hl) as [Ht Hr].
  destruct (IH (parseLine st i l) (S i) Hr Hall) as [Ht' Hr'].
  by rewrite Ht', Ht.
Qed.

(** The line that opens the root scope of the theme. *)
Lemma root_line_step (st : parseState) (i : nat) :
  inRoot st = false ->
  let st' := parseLine st i "  :root {" in
  tokens st' = tokens st ∧ inRoot st' = true
  ∧ (rootDepth st' < braceDepth st')%Z.
Proof.
  intros Hout. cbn zeta. unfold parseLine. rewrite Hout.
  change (JS.trim "  :root {") with ":root {".
  change (JS.matchRootOpen ":root {") with true.
  change (JS.countChar "{" "  :root {") with 1.
  change (JS.countChar "}" "  :root {") with 0.
  change (JS.matchDeclaration ":root {") with (@None (string * string)).
  cbn [negb andb].
  destruct (Z.leb_spec (braceDepth st + (Z.of_nat 1 - Z.of_nat 0)) (braceDepth st));
    [lia|].
  cbn. split; [done|]. split; [done|]. lia.
Qed.

(** The declaration lines of the theme, inside the root scope. *)
Lemma declaration_lines (w : nat) (entries : list (string * string)) :
  forall st i,
    inRoot st = true -> (rootDepth st < braceDepth st)%Z ->
    Forall (fun e => Text.customProperty (fst e) = true
                     ∧ Text.plainValue (snd e) = true) entries ->
    NoDup (map fst entries) ->
    (forall k, k ∈ map fst entries -> k ∉ JSMap.keys (tokens st)) ->
    let st' := parseLines st i (map (Theme.declaration w) entries) in
    inRoot st' = true ∧ (rootDepth st' < braceDepth st')%Z
    ∧ map (fun kt => (fst kt, value (snd kt))) (tokens st')
      = map (fun kt => (fst kt, value (snd kt))) (tokens st) ++ entries.
Proof.
  induction entries as [|[name val] entries IH]; intros st i Hin Hdepth Hall Hnd Hfresh;
    cbn [map parseLines].
  - rewrite app_nil_r. repeat split; done.
  - apply Forall_cons in Hall as [[Hname Hval] Hall]. cbn [fst snd] in *.
    apply NoDup_cons in Hnd as [Hnew Hnd].
    destruct (declaration_line w name val Hname Hval) as (Hm & Ho & Hc & _).
    set (st1 := parseLine st i (Theme.declaration w (name, val))).
    assert (Hst1 : st1 = {| tokens := JSMap.set (tokens st) name
                                        {| value := val; line := i + 1 |};
                            braceDepth := braceDepth st; inRoot := true;
                            rootDepth := rootDepth st |}).
    { unfold st1, parseLine. rewrite Hin, Ho, Hc, Hm. cbn [negb andb].
      replace (braceDepth st + (Z.of_nat 0 - Z.of_nat 0))%Z with (braceDepth st) by lia.
      destruct (Z.leb_spec (braceDepth st) (rootDepth st)); [lia|]. reflexivity. }
    assert (Hfresh0 : name ∉ JSMap.keys (tokens st)) by (apply Hfresh; left).
    assert (Hset : JSMap.set (tokens st) name {| value := val; line := i + 1 |}
                   = tokens st ++ [(name, {| value := val; line := i + 1 |})]).
    { clear -Hfresh0. induction (tokens st) as [|[k0 v0] m IHm]; cbn; [done|].
      cbn in Hfresh0. apply not_elem_of_cons in Hfresh0 as [Hk Hm].
      destruct (String.eqb_spec k0 name) as [->|_]; [done|]. by rewrite IHm. }
    destruct (IH st1 (S i)) as (Hin' & Hdepth' & Htok).
    + by rewrite Hst1.
    + by rewrite Hst1.
    + done.
    + done.
    + intros k Hk. rewrite Hst1. cbn [tokens]. rewrite Hset.
      unfold JSMap.keys. rewrite map_app. cbn. intros [Hold|Heq%list_elem_of_singleton]%elem_of_app.
      * apply (Hfresh k); [by right | done].
      * subst k. done.
    + split; [done|]. split; [done|].
      rewrite Htok, Hst1. cbn [tokens]. rewrite Hset, map_app. cbn.
      by rewrite <- app_assoc.
Qed.

(** A line that is no declaration adds no token. *)
Lemma no_declaration_lines (lines : list string) :
  forall st i,
    Forall (fun l => JS.matchDeclaration (JS.trim l) = None) lines ->
    tokens (parseLines st i lines) = tokens st.
Proof.
  induction lines as [|l lines IH]; intros st i Hall; cbn [parseLines]; [done|].
  apply Forall_cons in Hall as [Hl Hall]. rewrite (IH _ _ Hall).
  unfold parseLine. rewrite Hl.
  destruct (negb (inRoot st) && JS.matchRootOpen (JS.trim l)); cbn [tokens];
    match goal with |- (if ?b then _ else _) = _ => by destruct b end.
Qed.

Lemma joinLines_cons (x y : string) (r : list string) :
  Theme.joinLines (x :: y :: r) = x +:+ String (JS.ch 10) (Theme.joinLines (y :: r)).
Proof. reflexivity. Qed.

Lemma split_joinLines (lines : list string) :
  lines ≠ [] ->
  Forall (fun l => JS.countChar (JS.ch 10) l = 0) lines ->
  JS.splitChar (JS.ch 10) (Theme.joinLines lines) = lines.
Proof.
  induction lines as [|x [|y r] IH]; intros Hne Hall; [done|..].
  - apply Forall_cons in Hall as [Hx _]. by apply splitChar_none.
  - apply Forall_cons in Hall as [Hx Hall].
    rewrite joinLines_cons, splitChar_app, (splitChar_none _ _ Hx), IH; done.
Qed.

Lemma header_no_open (dash now relSrc selector : string) (count : nat) :
  JS.countChar "{" dash = 0 -> JS.countChar "{" now = 0 ->
  JS.countChar "{" relSrc = 0 -> JS.countChar "{" selector = 0 ->
  JS.countChar "{" (Theme.header dash now relSrc count selector) = 0.
Proof.
  intros Hd Hn Hr Hs. unfold Theme.header. cbn [Theme.joinLines]. unfold Theme.nl.
  rewrite !countChar_app, Hd, Hn, Hr, Hs, (numberToString_digits "{" count eq_refl).
  reflexivity.
Qed.

(** The lines of the generated text, when there are entries. *)
Lemma theme_text_lines (dash now relSrc selector : string)
    (entries : list (string * string)) :
  entries ≠ [] ->
  Forall (fun e => Text.customProperty (fst e) = true
                   ∧ Text.plainValue (snd e) = true) entries ->
  JS.countChar (JS.ch 10) selector = 0 ->
  JS.splitChar (JS.ch 10) (Theme.generateThemeCSS dash now relSrc entries selector)
  = JS.splitChar (JS.ch 10) (Theme.header dash now relSrc (length entries) selector)
    ++ [EmptyString; "@layer themes {"; EmptyString; "  " +:+ selector +:+ " {"]
    ++ map (Theme.declaration (Theme.maxLen entries)) entries
    ++ ["  }"; EmptyString; "}"; EmptyString].
Proof.
  intros Hne Hall Hsel. unfold Theme.generateThemeCSS.
  destruct (Nat.eqb_spec (length entries) 0) as [Hlen|_].
  { destruct entries; [done | discriminate]. }
  cbn [app]. rewrite joinLines_cons, splitChar_app. f_equal.
  apply split_joinLines; [done|].
  apply Forall_cons; split; [reflexivity|].
  apply Forall_cons; split; [reflexivity|].
  apply Forall_cons; split; [reflexivity|].
  apply Forall_cons; split; [rewrite !countChar_app, Hsel; reflexivity|].
  apply Forall_app. split.
  - apply Forall_forall. intros l Hl.
    apply list_elem_of_fmap in Hl as ([n v] & -> & Hin).
    destruct (proj1 (Forall_forall _ _) Hall _ Hin) as [Hn Hv].
    by destruct (declaration_line (Theme.maxLen entries) n v Hn Hv) as (_ & _ & _ & ?).
  - repeat (apply Forall_cons; split); try reflexivity. constructor.
Qed.

Lemma attr_line_opens_no_root (themeName : string) :
  JS.matchRootOpen (JS.trim ("  " +:+ Theme.buildSelector "attr" themeName +:+ " {"))
  = false.
Proof.
  unfold Theme.buildSelector. change (String.eqb "attr" "attr") with true. cbv iota.
  repeat (rewrite string_app_cons || rewrite string_app_nil_l).
  unfold JS.trim. cbn [JS.trimStart].
  change (JS.isWhiteSpace " ") with true. change (JS.isWhiteSpace "[") with false.
  cbv iota.
  match goal with |- context [JS.trimEnd (String "[" ?r)] =>
    destruct (trimEnd_head "[" r eq_refl) as [r' ->] end.
  reflexivity.
Qed.

End ThemeParse.

(** X24. The generated theme text, read by the sync parser: when the date,
    the file name and the dash of the header hold no opening brace, the
    names are custom property names, each once, and the values are on one
    line, without semicolon or brace and without white space at either end,
    then for the root scope the parser reads exactly the entries of the
    theme, in their order and with their values; for the attribute scope
    (with a theme name without opening brace or line break) it reads no
    token at all. *)
Theorem theme_is_read_back (dash now relSrc : string)
    (entries : list (string * string)) :
  JS.countChar "{" dash = 0 -> JS.countChar "{" now = 0 ->
  JS.countChar "{" relSrc = 0 ->
  NoDup (map fst entries) ->
  Forall (fun e => Text.customProperty (fst e) = true
                   ∧ Text.plainValue (snd e) = true) entries ->
  (forall scope themeName, scope ≠ "attr" ->
     map (fun kt => (fst kt, Figma.value (snd kt)))
       (Figma.parseCSSTokens
          (Theme.generateThemeCSS dash now relSrc entries
             (Theme.buildSelector scope themeName)))
     = entries)
  ∧ (forall themeName,
       JS.countChar "{" themeName = 0 -> JS.countChar (JS.ch 10) themeName = 0 ->
       Figma.parseCSSTokens
         (Theme.generateThemeCSS dash now relSrc entries
            (Theme.buildSelector "attr" themeName))
       = []).
Proof.
  intros Hd Hn Hr Hnd Hall.
  assert (Hhead : forall selector, JS.countChar "{" selector = 0 ->
            Forall (fun l => JS.matchRootOpen (JS.trim l) = false)
              (JS.splitChar (JS.ch 10)
                 (Theme.header dash now relSrc (length entries) selector))).
  { intros selector Hs. eapply Forall_impl.
    - apply splitChar_pieces. by apply header_no_open.
    - intros l Hl. by apply no_open_no_root. }
  assert (Hempty : forall selector, JS.countChar "{" selector = 0 -> entries = [] ->
            Figma.parseCSSTokens (Theme.generateThemeCSS dash now relSrc entries selector)
            = []).
  { intros selector Hs ->. unfold Figma.parseCSSTokens.
    change "010"%char with (JS.ch 10).
    apply (outside_root_lines _ Figma.parseInit 0 eq_refl).
    eapply Forall_impl.
    - apply (splitChar_pieces (JS.ch 10) "{"). unfold Theme.generateThemeCSS.
      cbn [length Nat.eqb]. unfold Theme.nl.
      rewrite !countChar_app, (header_no_open _ _ _ _ _ Hd Hn Hr Hs), Hd. reflexivity.
    - intros l Hl. by apply no_open_no_root. }
  assert (Hdecl : Forall (fun l => JS.matchRootOpen (JS.trim l) = false)
                    (map (Theme.declaration (Theme.maxLen entries)) entries)).
  { apply Forall_forall. intros l Hl.
    apply list_elem_of_fmap in Hl as ([n v] & -> & Hin).
    destruct (proj1 (Forall_forall _ _) Hall _ Hin) as [Hname Hval].
    apply no_open_no_root.
    by destruct (declaration_line (Theme.maxLen entries) n v Hname Hval) as (_ & ? & _). }
  split.
  - intros scope themeName Hscope. unfold Theme.buildSelector.
    apply String.eqb_neq in Hscope. rewrite Hscope.
    destruct (decide (entries = [])) as [Heq|Hne].
    { rewrite (Hempty ":root" eq_refl Heq). by rewrite Heq. }
    unfold Figma.parseCSSTokens. change "010"%char with (JS.ch 10).
    rewrite (theme_text_lines dash now relSrc ":root" entries Hne Hall eq_refl).
    change ("  " +:+ ":root" +:+ " {") with "  :root {".
    rewrite sync_parseLines_app.
    destruct (outside_root_lines _ Figma.parseInit 0 eq_refl (Hhead ":root" eq_refl))
      as [Ht0 Hr0].
    set (s0 := Figma.parseLines Figma.parseInit 0 _) in *.
    set (i0 := 0 + length _). cbn [app Figma.parseLines].
    destruct (outside_root_step s0 i0 EmptyString Hr0 eq_refl) as [Ht1 Hr1].
    set (s1 := Figma.parseLine s0 i0 EmptyString) in *.
    destruct (outside_root_step s1 (S i0) "@layer themes {" Hr1 eq_refl) as [Ht2 Hr2].
    set (s2 := Figma.parseLine s1 (S i0) "@layer themes {") in *.
    destruct (outside_root_step s2 (S (S i0)) EmptyString Hr2 eq_refl) as [Ht3 Hr3].
    set (s3 := Figma.parseLine s2 (S (S i0)) EmptyString) in *.
    destruct (root_line_step s3 (S (S (S i0))) Hr3) as (Ht4 & Hr4 & Hd4).
    set (s4 := Figma.parseLine s3 (S (S (S i0))) "  :root {") in *.
    rewrite sync_parseLines_app, no_declaration_lines.
    2:{ repeat (apply Forall_cons; split); try reflexivity. constructor. }
    assert (Hnone : Figma.tokens s4 = []) by by rewrite Ht4, Ht3, Ht2, Ht1, Ht0.
    destruct (declaration_lines (Theme.maxLen entries) entries s4 (S (S (S (S i0))))
                Hr4 Hd4 Hall Hnd) as (_ & _ & Htok).
    { intros k _. rewrite Hnone. apply not_elem_of_nil. }
    by rewrite Htok, Hnone.
  - intros themeName Hbrace Hline.
    assert (Hsel : JS.countChar "{" (Theme.buildSelector "attr" themeName) = 0).
    { unfold Theme.buildSelector. change (String.eqb "attr" "attr") with true. cbv iota.
      rewrite !countChar_app, Hbrace. reflexivity. }
    destruct (decide (entries = [])) as [Heq|Hne]; [by apply Hempty|].
    unfold Figma.parseCSSTokens. change "010"%char with (JS.ch 10).
    rewrite (theme_text_lines dash now relSrc _ entries Hne Hall).
    2:{ unfold Theme.buildSelector. change (String.eqb "attr" "attr") with true. cbv iota.
        rewrite !countChar_app, Hline. reflexivity. }
    apply (outside_root_lines _ Figma.parseInit 0 eq_refl).
    apply Forall_app. split; [by apply Hhead|].
    apply Forall_cons; split; [reflexivity|].
    apply Forall_cons; split; [reflexivity|].
    apply Forall_cons; split; [reflexivity|].
    apply Forall_cons; split; [apply attr_line_opens_no_root|].
    apply Forall_app. split; [done|].
    repeat (apply Forall_cons; split); try reflexivity. constructor.
Qed.

Lemma theme_is_read_back_witness :
  map (fun kt => (fst kt, Figma.value (snd kt)))
    (Figma.parseCSSTokens
       (Theme.generateThemeCSS "-" "2024-01-01T00:00:00.000Z" "figma-export.json"
          [("--primitive-a", "5"); ("--semantic-b", "var(--primitive-a)")]
          (Theme.buildSelector "root" "user")))
  = [("--primitive-a", "5"); ("--semantic-b", "var(--primitive-a)")].
Proof.
  refine (proj1 (theme_is_read_back "-" "2024-01-01T00:00:00.000Z" "figma-export.json"
                   [("--primitive-a", "5"); ("--semantic-b", "var(--primitive-a)")]
                   _ _ _ _ _) "root" "user" _).
  - reflexivity.
  - reflexivity.
  - reflexivity.
  - apply (bool_decide_unpack _). vm_compute. reflexivity.
  - repeat constructor.
  - discriminate.
Defined.

(** ** The command line of an apply run *)

Section ArgsFacts.
Import Args.

Lemma fromArgs_refl (args : list string) (opts : options) : ArgsView.fromArgs args opts opts.
Proof. unfold ArgsView.fromArgs. repeat split; auto. Qed.

Lemma fromArgs_skip (pre args : list string) (opts mid o : options) :
  ArgsView.fromArgs args mid o ->
  yes mid = yes opts ∨ (yes mid = true ∧ ("--yes" ∈ pre ∨ "-y" ∈ pre)) ->
  scope mid = scope opts
  ∨ (scope mid = "attr" ∧ pre = ["--scope"; "attr"]) ->
  themeName mid = themeName opts
  ∨ (themeName mid ≠ EmptyString ∧ pre = ["--theme"; themeName mid]) ->
  figmaFile mid = figmaFile opts
  ∨ (exists f, figmaFile mid = Some f ∧ pre = [f] ∧ JS.startsWith f "-" = false) ->
  outputDir mid = outputDir opts
  ∨ (exists v, outputDir mid = Some v ∧ v ≠ EmptyString ∧ pre = ["--out"; v]) ->
  ArgsView.fromArgs (pre ++ args) opts o.
Proof.
  intros (Hy & Hs & Ht & Hf & Ho) Hy0 Hs0 Ht0 Hf0 Ho0.
  assert (Hshift : forall x y, (exists i, args !! i = Some x ∧ args !! S i = Some y) ->
            exists i, (pre ++ args) !! i = Some x ∧ (pre ++ args) !! S i = Some y).
  { intros x y (i & H1 & H2). exists (length pre + i).
    rewrite !lookup_app_r by lia.
    replace (length pre + i - length pre) with i by lia.
    by replace (S (length pre + i) - length pre) with (S i) by lia. }
  unfold ArgsView.fromArgs. repeat split.
  - intros Hyes. destruct (Hy Hyes) as [Hm|[Hm|Hm]].
    + destruct Hy0 as [<-|[_ [H|H]]]; [by left|..];
        right; [left | right]; apply elem_of_app; by left.
    + right. left. apply elem_of_app. by right.
    + right. right. apply elem_of_app. by right.
  - destruct Hs as [->|[-> Hi]]; [|by right; split; [|apply Hshift]].
    destruct Hs0 as [->|[-> ->]]; [by left|]. right. split; [done|]. by exists 0.
  - destruct Ht as [->|[Hne Hi]]; [|by right; split; [|apply Hshift]].
    destruct Ht0 as [->|[Hne ->]]; [by left|]. right. split; [done|]. by exists 0.
  - destruct Hf as [->|(f & -> & Hin & Hd)].
    + destruct Hf0 as [->|(f & -> & -> & Hd)]; [by left|]. right. exists f.
      split; [done|]. split; [|done]. apply elem_of_app. left. by apply list_elem_of_here.
    + right. exists f. split; [done|]. split; [|done]. apply elem_of_app. by right.
  - destruct Ho as [->|(v & -> & Hne & Hi)].
    + destruct Ho0 as [->|(v & -> & Hne & ->)]; [by left|]. right. exists v.
      split; [done|]. split; [done|]. by exists 0.
    + right. exists v. split; [done|]. split; [done|]. by apply Hshift.
Qed.

Lemma parseLoop_fromArgs (n : nat) :
  forall args opts, length args <= n -> ArgsView.fromArgs args opts (parseLoop args opts).
Proof.
  induction n as [|n IH]; intros args opts Hlen.
  { destruct args; [apply fromArgs_refl | cbn in Hlen; lia]. }
  destruct args as [|a rest]; [apply fromArgs_refl|]. cbn in Hlen.
  cbn [parseLoop].
  destruct (String.eqb a "--yes" || String.eqb a "-y") eqn:Eyes.
  { apply (fromArgs_skip [a] rest opts _ _ (IH rest _ ltac:(lia))); try (by left).
    right. split; [done|]. apply orb_prop in Eyes as [->%String.eqb_eq| ->%String.eqb_eq].
    - left. apply list_elem_of_here.
    - right. apply list_elem_of_here. }
  destruct (String.eqb_spec a "--theme") as [->|Htheme]; cbn [andb].
  { destruct rest as [|v rest']; cbn [hasNext]; [apply fromArgs_refl|].
    destruct (String.eqb_spec v "") as [->|Hv]; cbn [negb].
    - apply (fromArgs_skip ["--theme"] (EmptyString :: rest') opts _ _
               (IH (EmptyString :: rest') _ ltac:(cbn in *; lia))); by left.
    - cbn in Hlen.
      apply (fromArgs_skip ["--theme"; v] rest' opts _ _ (IH rest' _ ltac:(lia)));
        try (by left). by right. }
  destruct (String.eqb_spec a "--scope") as [->|Hscope]; cbn [andb].
  { destruct rest as [|s rest']; cbn [hasNext]; [apply fromArgs_refl|].
    destruct (String.eqb_spec s "") as [->|Hs]; cbn [negb].
    - apply (fromArgs_skip ["--scope"] (EmptyString :: rest') opts _ _
               (IH (EmptyString :: rest') _ ltac:(cbn in *; lia))); by left.
    - cbn in Hlen. destruct (String.eqb_spec s "attr") as [->|Hattr].
      + apply (fromArgs_skip ["--scope"; "attr"] rest' opts _ _ (IH rest' _ ltac:(lia)));
          try (by left). by right.
      + apply (fromArgs_skip ["--scope"; s] rest' opts _ _ (IH rest' _ ltac:(lia)));
          by left. }
  destruct (String.eqb_spec a "--out") as [->|Hout]; cbn [andb].
  { destruct rest as [|v rest']; cbn [hasNext]; [apply fromArgs_refl|].
    destruct (String.eqb_spec v "") as [->|Hv]; cbn [negb].
    - apply (fromArgs_skip ["--out"] (EmptyString :: rest') opts _ _
               (IH (EmptyString :: rest') _ ltac:(cbn in *; lia))); by left.
    - cbn in Hlen.
      apply (fromArgs_skip ["--out"; v] rest' opts _ _ (IH rest' _ ltac:(lia)));
        try (by left). right. by exists v. }
  destruct (JS.startsWith a "-") eqn:Edash; cbn [negb].
  - apply (fromArgs_skip [a] rest opts _ _ (IH rest _ ltac:(lia))); by left.
  - apply (fromArgs_skip [a] rest opts _ _ (IH rest _ ltac:(lia))); try (by left).
    right. by exists a.
Qed.

(** Without an option that takes a value, the flag is found wherever it
    stands. *)
Lemma parseLoop_yes (args : list string) :
  forall opts,
    Forall (fun a => a ≠ "--theme" ∧ a ≠ "--scope" ∧ a ≠ "--out") args ->
    yes (parseLoop args opts)
    = yes opts || existsb (fun a => String.eqb a "--yes" || String.eqb a "-y") args.
Proof.
  induction args as [|a rest IH]; intros opts Hall; cbn [parseLoop existsb].
  - by rewrite orb_false_r.
  - apply Forall_cons in Hall as [(H1 & H2 & H3) Hall].
    apply String.eqb_neq in H1, H2, H3. rewrite H1, H2, H3. cbn [andb].
    destruct (String.eqb a "--yes" || String.eqb a "-y").
    + rewrite IH by done. cbn. by rewrite orb_true_r.
    + destruct (negb (JS.startsWith a "-")); by rewrite IH.
Qed.

End ArgsFacts.

(** X25. What [parseArgs] returns comes from the command line: batch mode
    is on only when [--yes] or [-y] is among the arguments; the scope is
    [root] unless [--scope] is followed by [attr]; the theme name is never
    empty; an export file or output directory other than the default is an
    argument (the file one that does not start with a dash, the directory
    the non-empty one after [--out]).  When no argument is [--theme],
    [--scope] or [--out], batch mode is on exactly when [--yes] or [-y] is
    among the arguments. *)
Theorem options_come_from_the_command_line (argv : list string) :
  let args := drop 2 argv in
  let o := Args.parseArgs argv in
  (Args.yes o = true -> "--yes" ∈ args ∨ "-y" ∈ args)
  ∧ (Args.scope o = "root" ∨ Args.scope o = "attr")
  ∧ (Args.scope o = "attr" ->
     exists i, args !! i = Some "--scope" ∧ args !! S i = Some "attr")
  ∧ Args.themeName o ≠ EmptyString
  ∧ (forall f, Args.figmaFile o = Some f -> f ∈ args ∧ JS.startsWith f "-" = false)
  ∧ (forall v, Args.outputDir o = Some v ->
       v ≠ EmptyString ∧ exists i, args !! i = Some "--out" ∧ args !! S i = Some v)
  ∧ (Forall (fun a => a ≠ "--theme" ∧ a ≠ "--scope" ∧ a ≠ "--out") args ->
     (Args.yes o = true <-> "--yes" ∈ args ∨ "-y" ∈ args)).
Proof.
  cbn zeta. unfold Args.parseArgs.
  destruct (parseLoop_fromArgs (length (drop 2 argv)) (drop 2 argv) Args.defaults
              (Nat.le_refl _)) as (Hy & Hs & Ht & Hf & Ho).
  cbn [Args.defaults Args.yes Args.scope Args.themeName Args.figmaFile Args.outputDir]
    in Hy, Hs, Ht, Hf, Ho.
  split.
  { intros H. by destruct (Hy H) as [?|?]. }
  split.
  { destruct Hs as [->|[-> _]]; auto. }
  split.
  { intros H. destruct Hs as [Hroot|[_ Hi]]; [|done]. rewrite Hroot in H. discriminate. }
  split.
  { destruct Ht as [->|[Hne _]]; done. }
  split.
  { intros f Hfile. destruct Hf as [Hnone|(f' & Hsome & Hin & Hd)]; [congruence|].
    rewrite Hsome in Hfile. injection Hfile as <-. done. }
  split.
  { intros v Hdir. destruct Ho as [Hnone|(v' & Hsome & Hne & Hi)]; [congruence|].
    rewrite Hsome in Hdir. injection Hdir as <-. done. }
  intros Hall. rewrite (parseLoop_yes _ _ Hall). cbn [Args.defaults Args.yes orb].
  rewrite existsb_exists. split.
  - intros (a & Hin%list_elem_of_In & [->%String.eqb_eq| ->%String.eqb_eq]%orb_prop); auto.
  - intros [H|H]; [exists "--yes" | exists "-y"]; by split; [apply list_elem_of_In|].
Qed.
